(** * audit-ui: the document generation pipeline

    A shallow embedding of the parser, the grouping engine, the markup
    renderers, the application state and its handlers, the DOCX
    generator, the canvas slicer with the page loop of the PDF export,
    and the translation helper of the audit report generator, followed
    by the properties the specification states about them and by further
    properties of the code.

    What is embedded, and where it comes from:
    - [src/lib/parseIssue.ts], lines 33-336: [parseIssue],
      [splitSections], [extractMainContent], [parseMultipleIssues],
      [severityRank], [groupByCategory], [getSeverityColor],
      [inlineMarkdownToHtml], [blockMarkdownToHtml];
    - the application component (same file, lines 393-1139):
      [issueToMarkdown], [formatRelativeTime], [processFiles],
      [removeFile], [clearAll], [addExtraRow], [removeExtraRow],
      [addNewPage], [reindexFindingIds], [downloadIssueMd],
      [downloadAllMd], [updateIssue], [isFieldModified], [restoreField],
      [restoreIssue], [isIssueModified], [handleTranslate],
      [translateIssuePage], [translateCallback], [grouped],
      [getOriginal];
    - the DOCX generator ([unnamed/part_001], imported as
      [./lib/generateDocx]): [getSeverityColorHex],
      [getSeverityFontColor], [parseInlineMarkdown], [blockToParagraphs],
      [sectionLabel], [createIssueTable], [createCodeBlock],
      [createTocPage], [buildDocument];
    - [src/lib/generatePdf.ts]: [addCanvasToPdf] and the page loop of
      [generatePdf];
    - the translation helper ([unnamed/part_000], imported as
      [./lib/translate]): [translateText].

    Pure functions are Rocq functions.  Regular expressions are
    backtracking matchers; loops that the source runs to exhaustion take
    fuel, and the fuel is shown to suffice.  React state is a record and
    a handler a function on it.  The host's [localeCompare], [Date] and
    [toUpperCase], the unit conversion of the docx library and the
    completion service are parameters. *)

From Stdlib Require Import Ascii String List ZArith Lia Bool Arith.
From Stdlib Require Import Permutation Sorted DecimalString QArith Qround.
From Stdlib Require DecimalNat DecimalFacts.
Import ListNotations.
Close Scope Q_scope.
Open Scope list_scope.

(* ================================================================== *)
(** * JavaScript strings *)
(* ================================================================== *)

(** A JavaScript string is a sequence of UTF-16 code units.  The model
    covers the strings all of whose code units are below 256: one [ascii]
    stands for the code unit of the same number.  Character classes and
    case mapping are those of ECMAScript restricted to that range. *)
Module JsString.

Definition str := list ascii.

Abbreviation lit := list_ascii_of_string.

Definition code (c : ascii) : N := N_of_ascii c.

Definition chr (n : N) : ascii := ascii_of_N n.

(** LineTerminator: LF and CR (U+2028 and U+2029 lie outside the range). *)
Definition isLineTerminator (c : ascii) : bool :=
  N.eqb (code c) 10 || N.eqb (code c) 13.

(** WhiteSpace: TAB, VT, FF, SP, NBSP. *)
Definition isWhiteSpace (c : ascii) : bool :=
  existsb (N.eqb (code c)) [9; 11; 12; 32; 160]%N.

(** The class [\s], which is also what [String.prototype.trim] strips. *)
Definition isSpace (c : ascii) : bool := isWhiteSpace c || isLineTerminator c.

(** The class [.] (without the [s] flag). *)
Definition isDot (c : ascii) : bool := negb (isLineTerminator c).

(** The class [\w]. *)
Definition isWord (c : ascii) : bool :=
  let n := code c in
  (N.leb 48 n && N.leb n 57) || (N.leb 65 n && N.leb n 90)
  || (N.leb 97 n && N.leb n 122) || N.eqb n 95.

(** The class [[A-Za-z]]. *)
Definition isAlpha (c : ascii) : bool :=
  let n := code c in
  (N.leb 65 n && N.leb n 90) || (N.leb 97 n && N.leb n 122).

Definition isUpper (c : ascii) : bool :=
  let n := code c in
  (N.leb 65 n && N.leb n 90)
  || (N.leb 192 n && N.leb n 222 && negb (N.eqb n 215)).

Definition lowerChar (c : ascii) : ascii :=
  if isUpper c then chr (code c + 32) else c.

Definition toLowerCase (s : str) : str := map lowerChar s.

Fixpoint eqb (a b : str) : bool :=
  match a, b with
  | [], [] => true
  | x :: a', y :: b' => Ascii.eqb x y && eqb a' b'
  | _, _ => false
  end.

(** Truthiness of a string: the empty string is the only falsy one. *)
Definition truthy (s : str) : bool :=
  match s with [] => false | _ :: _ => true end.

(** [a || b] on strings. *)
Definition orElse (a b : str) : str := if truthy a then a else b.

Fixpoint dropWhile (p : ascii -> bool) (s : str) : str :=
  match s with
  | [] => []
  | c :: s' => if p c then dropWhile p s' else s
  end.

Fixpoint takeWhile (p : ascii -> bool) (s : str) : str :=
  match s with
  | [] => []
  | c :: s' => if p c then c :: takeWhile p s' else []
  end.

Definition trimStart (s : str) : str := dropWhile isSpace s.

Definition trimEnd (s : str) : str := rev (dropWhile isSpace (rev s)).

Definition trim (s : str) : str := trimEnd (trimStart s).

(** [stripPrefix p s] is the rest of [s] after the literal [p]. *)
Fixpoint stripPrefix (p s : str) : option str :=
  match p with
  | [] => Some s
  | x :: p' =>
      match s with
      | [] => None
      | y :: s' => if Ascii.eqb x y then stripPrefix p' s' else None
      end
  end.

Definition startsWith (s p : str) : bool :=
  match stripPrefix p s with Some _ => true | None => false end.

Definition endsWith (s p : str) : bool := startsWith (rev s) (rev p).

Definition LF : ascii := chr 10.

(** [s.split("\n")]: never empty, [""] for the empty string. *)
Fixpoint splitLines (s : str) : list str :=
  match s with
  | [] => [[]]
  | c :: s' =>
      if Ascii.eqb c LF then [] :: splitLines s'
      else match splitLines s' with
           | l :: ls => (c :: l) :: ls
           | [] => [[c]]
           end
  end.

(** [lines.join(sep)]. *)
Fixpoint join (sep : str) (ls : list str) : str :=
  match ls with
  | [] => []
  | [l] => l
  | l :: ls' => l ++ sep ++ join sep ls'
  end.

(** [s.split("|")]. *)
Fixpoint splitOn (d : ascii) (s : str) : list str :=
  match s with
  | [] => [[]]
  | c :: s' =>
      if Ascii.eqb c d then [] :: splitOn d s'
      else match splitOn d s' with
           | l :: ls => (c :: l) :: ls
           | [] => [[c]]
           end
  end.

(** [s.slice(a, -b)] for [a + b <= length s]; empty otherwise. *)
Definition sliceMid (a b : nat) (s : str) : str :=
  firstn (List.length s - a - b) (skipn a s).

(** [String(n)] for a non-negative integer. *)
Definition ofNat (n : nat) : str := lit (NilEmpty.string_of_uint (Nat.to_uint n)).

(** [s.padStart(w, "0")]. *)
Definition padStart0 (w : nat) (s : str) : str :=
  repeat (chr 48) (w - List.length s) ++ s.

End JsString.
Import JsString.

(* ================================================================== *)
(** * Data model ([src/lib/types.ts]) *)
(* ================================================================== *)

Record ExtraRow := mkExtraRow { row_title : str; row_severity : str }.

(** The content of an issue, [Omit<Issue, "_id">]. *)
Record IssueSnapshot := mkSnapshot {
  title : str;
  overallRisk : str;
  impact : str;
  exploitability : str;
  findingId : str;
  component : str;
  category : str;
  status : str;
  impactDetails : str;
  description : str;
  evidence : str;
  codeExample : str;
  codeLanguage : str;
  exampleScenario : str;
  recommendation : str;
  extraRows : list ExtraRow
}.

(** A parsed issue with its runtime identifier: [{ ...parsed, _id }]. *)
Record Issue := mkIssue { _id : Z; data :> IssueSnapshot }.

Record GroupedCategory := mkGroup { g_category : str; g_issues : list Issue }.

Record SeverityColor := mkColor { bg : str; text : str }.

(* ================================================================== *)
(** * Numbers and [Array.prototype.sort] *)
(* ================================================================== *)

(** The numbers a comparator can return: an integer or NaN. *)
Inductive jsnum := Num (z : Z) | NaN.

(** What a property read on an object literal gives: a number stored in
    the literal, an object or function inherited from [Object.prototype],
    or [undefined]. *)
Inductive jsval := VNum (z : Z) | VInherited (name : str) | VUndefined.

(** [ToNumber]: an inherited function or object converts to NaN. *)
Definition toNumber (v : jsval) : jsnum :=
  match v with VNum z => Num z | _ => NaN end.

Definition jsSub (a b : jsval) : jsnum :=
  match toNumber a, toNumber b with
  | Num x, Num y => Num (x - y)
  | _, _ => NaN
  end.

(** The property names of [Object.prototype], which every object literal
    inherits. *)
Definition objectPrototypeKeys : list str :=
  map lit [ "constructor"; "__defineGetter__"; "__defineSetter__";
            "hasOwnProperty"; "__lookupGetter__"; "__lookupSetter__";
            "isPrototypeOf"; "propertyIsEnumerable"; "toString"; "valueOf";
            "__proto__"; "toLocaleString" ]%string.

(** [obj[k]] for an object literal with the numeric own properties [own]. *)
Fixpoint ownLookup (own : list (str * Z)) (k : str) : option Z :=
  match own with
  | [] => None
  | (k', v) :: own' => if JsString.eqb k' k then Some v else ownLookup own' k
  end.

Definition getProperty (own : list (str * Z)) (k : str) : jsval :=
  match ownLookup own k with
  | Some v => VNum v
  | None => if existsb (JsString.eqb k) objectPrototypeKeys
            then VInherited k else VUndefined
  end.

Section Sort.
Context {A : Type}.
Variable comparefn : A -> A -> jsnum.

(** SortCompare of ECMAScript: a NaN from the comparator counts as +0. *)
Definition sortCompare (x y : A) : Z :=
  match comparefn x y with Num z => z | NaN => 0 end.

(** [Array.prototype.sort] is stable.  It is modelled by the stable
    insertion sort: an element moves behind exactly the elements that
    compare strictly smaller.  For a consistent comparator every
    conforming engine returns this list; for an inconsistent one the
    language leaves the order to the engine, and still returns a
    permutation. *)
Fixpoint insert (x : A) (l : list A) : list A :=
  match l with
  | [] => [x]
  | y :: l' => if Z.leb (sortCompare x y) 0 then x :: l else y :: insert x l'
  end.

Fixpoint sort (l : list A) : list A :=
  match l with
  | [] => []
  | x :: l' => insert x (sort l')
  end.

End Sort.

(* ================================================================== *)
(** * Grouping and ordering ([src/lib/parseIssue.ts]) *)
(* ================================================================== *)

Definition SEVERITY_ORDER : list (str * Z) :=
  [ (lit "critical", 0); (lit "high", 1); (lit "medium", 2); (lit "low", 3);
    (lit "info", 4); (lit "informational", 4) ]%Z.

(** [severityRank]: the table entry when the read is not [undefined],
    otherwise 5.  The read goes through the prototype chain. *)
Definition severityRank (severity : str) : jsval :=
  let s := toLowerCase (orElse severity []) in
  match getProperty SEVERITY_ORDER s with
  | VUndefined => VNum 5
  | v => v
  end.

(** A [Map<string, Issue[]>] keeps its entries in insertion order. *)
Definition IssueMap := list (str * list Issue).

Fixpoint map_has (m : IssueMap) (k : str) : bool :=
  match m with
  | [] => false
  | (k', _) :: m' => JsString.eqb k' k || map_has m' k
  end.

(** [map.set(k, [])] for a key that may be present. *)
Fixpoint map_set (m : IssueMap) (k : str) (v : list Issue) : IssueMap :=
  match m with
  | [] => [(k, v)]
  | (k', v') :: m' =>
      if JsString.eqb k' k then (k', v) :: m' else (k', v') :: map_set m' k v
  end.

(** [map.get(k)!.push(x)]: the array stored under [k] grows in place. *)
Fixpoint map_push (m : IssueMap) (k : str) (x : Issue) : IssueMap :=
  match m with
  | [] => []
  | (k', v') :: m' =>
      if JsString.eqb k' k then (k', v' ++ [x]) :: m'
      else (k', v') :: map_push m' k x
  end.

Definition effectiveCategory (issue : Issue) : str :=
  orElse (category issue) (lit "Uncategorized").

Definition groupStep (m : IssueMap) (issue : Issue) : IssueMap :=
  let cat := effectiveCategory issue in
  let m1 := if map_has m cat then m else map_set m cat [] in
  map_push m1 cat issue.

Definition compareRisk (a b : Issue) : jsnum :=
  jsSub (severityRank (overallRisk a)) (severityRank (overallRisk b)).

Section Grouping.

(** [String.prototype.localeCompare] depends on the host's collation; it
    is a parameter of the development. *)
Variable localeCompare : str -> str -> Z.

Definition compareEntries (a b : str * list Issue) : jsnum :=
  Num (localeCompare (fst a) (fst b)).

Definition groupByCategory (issues : list Issue) : list GroupedCategory :=
  map (fun e => mkGroup (fst e) (sort compareRisk (snd e)))
      (sort compareEntries (fold_left groupStep issues [])).

End Grouping.

(** [getSeverityColor]. *)
Definition getSeverityColor (severity : str) : SeverityColor :=
  let s := toLowerCase (orElse severity []) in
  if JsString.eqb s (lit "critical") then mkColor (lit "#8b0000") (lit "#ffffff")
  else if JsString.eqb s (lit "high") then mkColor (lit "#e74c3c") (lit "#ffffff")
  else if JsString.eqb s (lit "medium") then mkColor (lit "#fd7e14") (lit "#ffffff")
  else if JsString.eqb s (lit "low") then mkColor (lit "#a8d08d") (lit "#333333")
  else if JsString.eqb s (lit "info") || JsString.eqb s (lit "informational")
       then mkColor (lit "#17a2b8") (lit "#ffffff")
  else mkColor (lit "#6c757d") (lit "#ffffff").

(* ================================================================== *)
(** * DOCX colours ([src/lib/generateDocx.ts]) *)
(* ================================================================== *)

Definition getSeverityColorHex (severity : str) : str :=
  let s := toLowerCase (orElse severity []) in
  if JsString.eqb s (lit "critical") then lit "8B0000"
  else if JsString.eqb s (lit "high") then lit "E74C3C"
  else if JsString.eqb s (lit "medium") then lit "FD7E14"
  else if JsString.eqb s (lit "low") then lit "A8D08D"
  else if JsString.eqb s (lit "info") || JsString.eqb s (lit "informational")
       then lit "17A2B8"
  else lit "6C757D".

Definition getSeverityFontColor (severity : str) : str :=
  let s := toLowerCase (orElse severity []) in
  if JsString.eqb s (lit "low") then lit "333333" else lit "FFFFFF".

(* ================================================================== *)
(** * Regular expressions *)
(* ================================================================== *)

(** The regular expressions of the source are written with backtracking
    matchers in continuation-passing style: a matcher consumes a prefix of
    the input and hands the rest to its continuation; when the
    continuation fails it tries its next alternative, in the order
    ECMAScript prescribes (greedy: longest first; lazy: shortest first). *)
Module Regex.

Section Matchers.
Context {R : Type}.

(** A literal. *)
Definition mLit (p : str) (s : str) (k : str -> option R) : option R :=
  match stripPrefix p s with Some rest => k rest | None => None end.

(** [c*], greedy. *)
Fixpoint mStar (cls : ascii -> bool) (s : str) (k : str -> option R)
  : option R :=
  match s with
  | c :: s' =>
      if cls c then
        match mStar cls s' k with Some r => Some r | None => k s end
      else k s
  | [] => k []
  end.

(** [c+], greedy. *)
Definition mPlus (cls : ascii -> bool) (s : str) (k : str -> option R)
  : option R :=
  match s with
  | c :: s' => if cls c then mStar cls s' k else None
  | [] => None
  end.

(** A captured [c*], greedy. *)
Fixpoint mStarCap (cls : ascii -> bool) (s : str)
  (k : str -> str -> option R) : option R :=
  match s with
  | c :: s' =>
      if cls c then
        match mStarCap cls s' (fun cap rest => k (c :: cap) rest) with
        | Some r => Some r
        | None => k [] s
        end
      else k [] s
  | [] => k [] []
  end.

(** A captured [c+], greedy. *)
Definition mPlusCap (cls : ascii -> bool) (s : str)
  (k : str -> str -> option R) : option R :=
  match s with
  | c :: s' =>
      if cls c then mStarCap cls s' (fun cap rest => k (c :: cap) rest)
      else None
  | [] => None
  end.

(** A captured [[\s\S]*?], lazy. *)
Fixpoint mLazyAny (s : str) (k : str -> str -> option R) : option R :=
  match k [] s with
  | Some r => Some r
  | None =>
      match s with
      | c :: s' => mLazyAny s' (fun cap rest => k (c :: cap) rest)
      | [] => None
      end
  end.

(** [$] with the [m] flag: at the end or before a line terminator. *)
Definition mEolM (s : str) (k : str -> option R) : option R :=
  match s with
  | [] => k s
  | c :: _ => if isLineTerminator c then k s else None
  end.

(** [$] without the [m] flag: at the end only. *)
Definition mEnd (s : str) (k : str -> option R) : option R :=
  match s with [] => k s | _ :: _ => None end.

(** [^] with the [m] flag: [bol] tells whether the position is the start
    of the input or follows a line terminator. *)
Definition mBolM (bol : bool) (k : option R) : option R :=
  if bol then k else None.

(** A search for the leftmost match: the matcher is tried at every
    position from left to right. *)
Fixpoint search (m : bool -> str -> option R) (bol : bool) (s : str)
  : option R :=
  match m bol s with
  | Some r => Some r
  | None =>
      match s with
      | [] => None
      | c :: s' => search m (isLineTerminator c) s'
      end
  end.

End Matchers.

(** Whether the position in front of [rest] starts a line, [rest] being
    what is left of [s] after a match. *)
Definition bolAfter (bol : bool) (s rest : str) : bool :=
  match rev (firstn (length s - length rest) s) with
  | c :: _ => isLineTerminator c
  | [] => bol
  end.

(** A global scan ([g] flag): the matches from left to right, none
    overlapping, with the characters between them.  Every pattern of the
    source matches at least one character, so [S (length s)] steps reach
    the end of [s]. *)
Fixpoint scan {T : Type} (fuel : nat) (m : bool -> str -> option (T * str))
  (bol : bool) (s : str) : list (ascii + T) :=
  match fuel with
  | O => []
  | S fuel' =>
      match m bol s with
      | Some (t, rest) => inr t :: scan fuel' m (bolAfter bol s rest) rest
      | None =>
          match s with
          | [] => []
          | c :: s' => inl c :: scan fuel' m (isLineTerminator c) s'
          end
      end
  end.

Definition scanAll {T : Type} (m : bool -> str -> option (T * str)) (s : str)
  : list (ascii + T) :=
  scan (S (length s)) m true s.

(** The matches of a [while ((m = re.exec(s)) !== null)] loop. *)
Definition matchesOf {T : Type} (l : list (ascii + T)) : list T :=
  flat_map (fun x => match x with inr t => [t] | inl _ => [] end) l.

(** The result of [s.replace(re, ...)] with the [g] flag. *)
Definition replaced (l : list (ascii + str)) : str :=
  flat_map (fun x => match x with inr t => t | inl c => [c] end) l.

Definition replaceAll (m : bool -> str -> option (str * str)) (s : str) : str :=
  replaced (scanAll m s).

End Regex.
Import Regex.

(* ================================================================== *)
(** * The issue parser ([src/lib/parseIssue.ts]) *)
(* ================================================================== *)

Definition emptySnapshot : IssueSnapshot :=
  mkSnapshot [] [] [] [] [] [] [] [] [] [] [] [] [] [] [] [].

(** The metadata keys of [metaPatterns]. *)
Inductive MetaKey :=
  | KOverallRisk | KImpact | KExploitability | KFindingId
  | KComponent | KCategory | KStatus.

Definition getMeta (key : MetaKey) (i : IssueSnapshot) : str :=
  match key with
  | KOverallRisk => overallRisk i
  | KImpact => impact i
  | KExploitability => exploitability i
  | KFindingId => findingId i
  | KComponent => component i
  | KCategory => category i
  | KStatus => status i
  end.

(** [issue[key] = v]. *)
Definition setMeta (key : MetaKey) (v : str) (i : IssueSnapshot)
  : IssueSnapshot :=
  match i with
  | mkSnapshot t r im ex f co ca st idt d ev ce cl es rc rows =>
      match key with
      | KOverallRisk => mkSnapshot t v im ex f co ca st idt d ev ce cl es rc rows
      | KImpact => mkSnapshot t r v ex f co ca st idt d ev ce cl es rc rows
      | KExploitability => mkSnapshot t r im v f co ca st idt d ev ce cl es rc rows
      | KFindingId => mkSnapshot t r im ex v co ca st idt d ev ce cl es rc rows
      | KComponent => mkSnapshot t r im ex f v ca st idt d ev ce cl es rc rows
      | KCategory => mkSnapshot t r im ex f co v st idt d ev ce cl es rc rows
      | KStatus => mkSnapshot t r im ex f co ca v idt d ev ce cl es rc rows
      end
  end.

Definition setTitle (v : str) (i : IssueSnapshot) : IssueSnapshot :=
  match i with
  | mkSnapshot _ r im ex f co ca st idt d ev ce cl es rc rows =>
      mkSnapshot v r im ex f co ca st idt d ev ce cl es rc rows
  end.

Definition setImpactDetails (v : str) (i : IssueSnapshot) : IssueSnapshot :=
  match i with
  | mkSnapshot t r im ex f co ca st _ d ev ce cl es rc rows =>
      mkSnapshot t r im ex f co ca st v d ev ce cl es rc rows
  end.

Definition setDescription (v : str) (i : IssueSnapshot) : IssueSnapshot :=
  match i with
  | mkSnapshot t r im ex f co ca st idt _ ev ce cl es rc rows =>
      mkSnapshot t r im ex f co ca st idt v ev ce cl es rc rows
  end.

Definition setEvidence (v : str) (i : IssueSnapshot) : IssueSnapshot :=
  match i with
  | mkSnapshot t r im ex f co ca st idt d _ ce cl es rc rows =>
      mkSnapshot t r im ex f co ca st idt d v ce cl es rc rows
  end.

Definition setCodeExample (v : str) (i : IssueSnapshot) : IssueSnapshot :=
  match i with
  | mkSnapshot t r im ex f co ca st idt d ev _ cl es rc rows =>
      mkSnapshot t r im ex f co ca st idt d ev v cl es rc rows
  end.

Definition setCodeLanguage (v : str) (i : IssueSnapshot) : IssueSnapshot :=
  match i with
  | mkSnapshot t r im ex f co ca st idt d ev ce _ es rc rows =>
      mkSnapshot t r im ex f co ca st idt d ev ce v es rc rows
  end.

Definition setExampleScenario (v : str) (i : IssueSnapshot) : IssueSnapshot :=
  match i with
  | mkSnapshot t r im ex f co ca st idt d ev ce cl _ rc rows =>
      mkSnapshot t r im ex f co ca st idt d ev ce cl v rc rows
  end.

Definition setRecommendation (v : str) (i : IssueSnapshot) : IssueSnapshot :=
  match i with
  | mkSnapshot t r im ex f co ca st idt d ev ce cl es _ rows =>
      mkSnapshot t r im ex f co ca st idt d ev ce cl es v rows
  end.

Definition setExtraRows (v : list ExtraRow) (i : IssueSnapshot)
  : IssueSnapshot :=
  match i with
  | mkSnapshot t r im ex f co ca st idt d ev ce cl es rc _ =>
      mkSnapshot t r im ex f co ca st idt d ev ce cl es rc v
  end.

(** The tail [\s*(.+)$] (flag [m]) that every key pattern ends with. *)
Definition valueTail (s : str) : option (str * str) :=
  mStar isSpace s (fun r =>
  mPlusCap isDot r (fun cap rest =>
  mEolM rest (fun rest' => Some (cap, rest')))).

(** [/^KEY\s*(.+)$/m] for a literal [KEY]. *)
Definition keyPattern (key : str) (bol : bool) (s : str)
  : option (str * str) :=
  mBolM bol (mLit key s valueTail).

(** [/^#\s+Issue title:\s*(.+)$/m]. *)
Definition titlePattern (bol : bool) (s : str) : option (str * str) :=
  mBolM bol
    (mLit (lit "#") s (fun r =>
     mPlus isSpace r (fun r1 =>
     mLit (lit "Issue title:") r1 valueTail))).

(** [s.match(re)] without the [g] flag: the capture of the first match. *)
Definition firstCapture (m : bool -> str -> option (str * str)) (s : str)
  : option str :=
  option_map fst (search m true s).

Definition metaPatterns : list (MetaKey * str) :=
  [ (KOverallRisk, lit "Overall Risk:");
    (KImpact, lit "Impact:");
    (KExploitability, lit "Exploitability:");
    (KFindingId, lit "Finding ID:");
    (KComponent, lit "Component:");
    (KCategory, lit "Category:");
    (KStatus, lit "Status:") ].

(** [/^Additional Issue:\s*(.+)$/gm], run to exhaustion with [exec]. *)
Definition extraRowPattern : bool -> str -> option (str * str) :=
  keyPattern (lit "Additional Issue:").

Definition additionalIssueValues (s : str) : list str :=
  matchesOf (scanAll extraRowPattern s).

Definition PIPE : ascii := chr 124.

Definition extraRowOfValue (v : str) : ExtraRow :=
  let parts := splitOn PIPE v in
  let rowTitle := trim (orElse (nth 0 parts []) []) in
  let rowSeverity := trim (orElse (nth 1 parts []) (lit "Medium")) in
  mkExtraRow rowTitle rowSeverity.

(** The [sections] object: the last assignment to a key wins.  An
    assignment to ["__proto__"] of a string creates no property. *)
Definition Sections := list (str * str).

Definition setSection (sections : Sections) (key value : str) : Sections :=
  if JsString.eqb key (lit "__proto__") then sections
  else (key, value) :: sections.

(** [sections[key]] for the keys the parser reads, none of which is a
    property of [Object.prototype]; [undefined] reads as the empty
    string, which is as falsy. *)
Fixpoint getSection (sections : Sections) (key : str) : str :=
  match sections with
  | [] => []
  | (k, v) :: rest => if JsString.eqb k key then v else getSection rest key
  end.

(** [/^#{2,3}\s+(.+)$/] on one line. *)
Definition headingMatch (line : str) : option str :=
  let rest (r : str) : option str :=
    mPlus isSpace r (fun r1 =>
    mPlusCap isDot r1 (fun cap r2 =>
    mEnd r2 (fun _ => Some cap))) in
  mLit (lit "##") line (fun r =>
    match mLit (lit "#") r rest with
    | Some c => Some c
    | None => rest r
    end).

(** The loop of [splitSections]: [currentKey] is [None] for [null]. *)
Fixpoint splitLoop (lines : list str) (sections : Sections)
  (currentKey : option str) (currentLines : list str) : Sections :=
  match lines with
  | [] =>
      match currentKey with
      | Some k => setSection sections k (join [LF] currentLines)
      | None => sections
      end
  | line :: lines' =>
      match headingMatch line with
      | Some h =>
          let sections' :=
            match currentKey with
            | Some k => setSection sections k (join [LF] currentLines)
            | None => sections
            end in
          splitLoop lines' sections' (Some (toLowerCase (trim h))) []
      | None =>
          match currentKey with
          | Some _ => splitLoop lines' sections currentKey (currentLines ++ [line])
          | None => splitLoop lines' sections currentKey currentLines
          end
      end
  end.

Definition splitSections (content : str) : Sections :=
  splitLoop (splitLines content) [] None [].

(** [/^###\s+/] on one line. *)
Definition subHeadingMatch (line : str) : bool :=
  match mLit (lit "###") line (fun r => mPlus isSpace r (fun _ => Some tt)) with
  | Some _ => true
  | None => false
  end.

Fixpoint mainLines (lines : list str) : list str :=
  match lines with
  | [] => []
  | line :: lines' =>
      if subHeadingMatch line then [] else line :: mainLines lines'
  end.

Definition extractMainContent (content : str) : str :=
  join [LF] (mainLines (splitLines content)).

(** [/Evidence:\s*(.+)$/m]. *)
Definition evidencePattern (_ : bool) (s : str) : option (str * str) :=
  mLit (lit "Evidence:") s valueTail.

Definition FENCE : str := lit "```".

(** The fenced block: three backticks, a captured [\w*], a line feed, a
    captured lazy [[\s\S]*?] and three backticks; the captures are the
    language tag and the code. *)
Definition codeBlockPattern (_ : bool) (s : str) : option (str * str) :=
  mLit FENCE s (fun r =>
  mStarCap isWord r (fun lang r1 =>
  mLit [LF] r1 (fun r2 =>
  mLazyAny r2 (fun code r3 =>
  mLit FENCE r3 (fun _ => Some (lang, code)))))).

Definition parseMeta (content : str) (issue : IssueSnapshot) : IssueSnapshot :=
  fold_left
    (fun i kp =>
       match firstCapture (keyPattern (snd kp)) content with
       | Some v => setMeta (fst kp) (trim v) i
       | None => i
       end)
    metaPatterns issue.

Definition parseDescription (sections : Sections) (issue : IssueSnapshot)
  : IssueSnapshot :=
  let descContent := getSection sections (lit "description") in
  if truthy descContent then
    let i1 := setDescription (trim (extractMainContent descContent)) issue in
    match firstCapture evidencePattern descContent with
    | Some v => setEvidence (trim v) i1
    | None => i1
    end
  else issue.

Definition parseCode (sections : Sections) (issue : IssueSnapshot)
  : IssueSnapshot :=
  let codeContent := getSection sections (lit "code example") in
  if truthy codeContent then
    match search codeBlockPattern true codeContent with
    | Some (lang, code) =>
        setCodeExample (trim code)
          (setCodeLanguage (orElse lang (lit "text")) issue)
    | None => setCodeExample (trim codeContent) issue
    end
  else issue.

Definition parseSection (key : str)
  (set : str -> IssueSnapshot -> IssueSnapshot)
  (sections : Sections) (issue : IssueSnapshot) : IssueSnapshot :=
  let c := getSection sections key in
  if truthy c then set (trim c) issue else issue.

Definition parseIssue (markdownContent : str) : IssueSnapshot :=
  let i0 := emptySnapshot in
  let i1 := match firstCapture titlePattern markdownContent with
            | Some t => setTitle (trim t) i0
            | None => i0
            end in
  let i2 := parseMeta markdownContent i1 in
  let i3 := setExtraRows
              (map extraRowOfValue (additionalIssueValues markdownContent)) i2 in
  let sections := splitSections markdownContent in
  let i4 := parseSection (lit "impact details") setImpactDetails sections i3 in
  let i5 := parseDescription sections i4 in
  let i6 := parseCode sections i5 in
  let i7 := parseSection (lit "example issue scenario") setExampleScenario
              sections i6 in
  parseSection (lit "recommendation") setRecommendation sections i7.

(* ================================================================== *)
(** * Markdown export and reindexing ([src/App.tsx]) *)
(* ================================================================== *)

Definition extraRowLine (row : ExtraRow) : str :=
  lit "Additional Issue: " ++ orElse (row_title row) []
  ++ lit " | " ++ orElse (row_severity row) (lit "Medium").

Definition evidenceLines (issue : IssueSnapshot) : list str :=
  if truthy (evidence issue)
  then [ lit "Evidence: " ++ evidence issue; [] ]
  else [].

Definition codeLines (issue : IssueSnapshot) : list str :=
  if truthy (codeExample issue)
     && Nat.ltb 0 (length (trim (codeExample issue)))
  then [ lit "### Code example"; [];
         FENCE ++ orElse (codeLanguage issue) [];
         codeExample issue;
         FENCE; [] ]
  else [].

Definition issueToMarkdownLines (issue : IssueSnapshot) : list str :=
  [ lit "# Issue title: " ++ orElse (title issue) (lit "Untitled");
    [];
    lit "Overall Risk: " ++ orElse (overallRisk issue) (lit "Medium") ]
  ++ map extraRowLine (extraRows issue)
  ++ [ lit "Impact: " ++ orElse (impact issue) (lit "Medium");
       lit "Exploitability: " ++ orElse (exploitability issue) (lit "Medium");
       lit "Finding ID: " ++ orElse (findingId issue) (lit "ABC-XXXXXX");
       lit "Component: " ++ orElse (component issue) [];
       lit "Category: " ++ orElse (category issue) (lit "Uncategorized");
       lit "Status: " ++ orElse (status issue) (lit "New");
       [];
       lit "## Impact details"; [];
       orElse (impactDetails issue) []; [];
       lit "## Description"; [];
       orElse (description issue) []; [] ]
  ++ evidenceLines issue
  ++ codeLines issue
  ++ [ lit "### Example issue scenario"; [];
       orElse (exampleScenario issue) []; [];
       lit "## Recommendation"; [];
       orElse (recommendation issue) []; [] ].

Definition issueToMarkdown (issue : IssueSnapshot) : str :=
  join [LF] (issueToMarkdownLines issue).

(** [/^([A-Za-z]+)-/] on a finding identifier. *)
Definition prefixMatch (s : str) : option str :=
  mPlusCap isAlpha s (fun cap rest =>
  mLit (lit "-") rest (fun _ => Some cap)).

(** The loop that detects the default prefix. *)
Fixpoint detectPrefix (issues : list Issue) (defaultPrefix : str) : str :=
  match issues with
  | [] => defaultPrefix
  | iss :: rest =>
      if truthy (findingId iss) then
        match prefixMatch (findingId iss) with
        | Some m => m
        | None => detectPrefix rest defaultPrefix
        end
      else detectPrefix rest defaultPrefix
  end.

(** A [Map<number, string>]: a later [set] of a key replaces the value. *)
Definition IdMap := list (Z * str).

Definition idMap_set (m : IdMap) (k : Z) (v : str) : IdMap := (k, v) :: m.

Fixpoint idMap_get (m : IdMap) (k : Z) : option str :=
  match m with
  | [] => None
  | (k', v) :: m' => if Z.eqb k' k then Some v else idMap_get m' k
  end.

Definition newFindingId (prefix : str) (catIndex issueIndex : nat) : str :=
  let majorNum := catIndex * 1000 in
  let minorNum := issueIndex + 1 in
  let num := majorNum + minorNum in
  let padded := padStart0 4 (ofNat num) in
  prefix ++ lit "-" ++ padded.

(** [group.issues.forEach((iss, issueIndex) => ...)]. *)
Fixpoint numberIssues (prefix : str) (catIndex issueIndex : nat)
  (issues : list Issue) (idMap : IdMap) : IdMap :=
  match issues with
  | [] => idMap
  | iss :: rest =>
      numberIssues prefix catIndex (S issueIndex) rest
        (idMap_set idMap (_id iss) (newFindingId prefix catIndex issueIndex))
  end.

(** [groups.forEach((group, catIndex) => ...)]. *)
Fixpoint numberGroups (prefix : str) (catIndex : nat)
  (groups : list GroupedCategory) (idMap : IdMap) : IdMap :=
  match groups with
  | [] => idMap
  | g :: rest =>
      numberGroups prefix (S catIndex) rest
        (numberIssues prefix catIndex 0 (g_issues g) idMap)
  end.

Definition setFindingId (v : str) (i : Issue) : Issue :=
  mkIssue (_id i) (setMeta KFindingId v i).

Section Reindex.
Variable localeCompare : str -> str -> Z.

(** [reindexFindingIds]: [input] is the answer of [window.prompt],
    [None] when the user cancelled; the result is the new issue list. *)
Definition reindexFindingIds (issues : list Issue) (input : option str)
  : list Issue :=
  let defaultPrefix := detectPrefix issues (lit "ABC") in
  match input with
  | None => issues
  | Some input =>
      let prefix := orElse (trim input) defaultPrefix in
      let groups := groupByCategory localeCompare issues in
      let idMap := numberGroups prefix 0 groups [] in
      map (fun iss =>
             match idMap_get idMap (_id iss) with
             | Some v => setFindingId v iss
             | None => iss
             end) issues
  end.

End Reindex.

(* ================================================================== *)
(** * Inline markup ([src/lib/parseIssue.ts], [src/lib/generateDocx.ts]) *)
(* ================================================================== *)

Definition DQUOTE : ascii := chr 34.
Definition BACKTICK : ascii := chr 96.
Definition STAR : ascii := chr 42.
Definition LBRACKET : ascii := chr 91.
Definition RBRACKET : ascii := chr 93.
Definition LPAREN : ascii := chr 40.
Definition RPAREN : ascii := chr 41.

Definition isNot (d : ascii) (c : ascii) : bool := negb (Ascii.eqb c d).

(** [s.replace(/c/g, rep)] for a single character [c]. *)
Definition replaceChar (c : ascii) (rep : str) (s : str) : str :=
  flat_map (fun x => if Ascii.eqb x c then rep else [x]) s.

Definition escapeHtml (s : str) : str :=
  replaceChar (chr 62) (lit "&gt;")
    (replaceChar (chr 60) (lit "&lt;")
       (replaceChar (chr 38) (lit "&amp;") s)).

(** A span [open (c+) close] where [c] ranges over the characters other
    than [stop]; [wrap] builds the result from the captured text. *)
Definition spanPattern (open close : str) (stop : ascii)
  (wrap : str -> str) (_ : bool) (s : str) : option (str * str) :=
  mLit open s (fun r =>
  mPlusCap (isNot stop) r (fun cap r1 =>
  mLit close r1 (fun rest => Some (wrap cap, rest)))).

(** [\[([^\]]+)\]\(([^)]+)\)]; [wrap] gets the text and the destination. *)
Definition linkPattern (wrap : str -> str -> str) (_ : bool) (s : str)
  : option (str * str) :=
  mLit [LBRACKET] s (fun r =>
  mPlusCap (isNot RBRACKET) r (fun txt r1 =>
  mLit [RBRACKET; LPAREN] r1 (fun r2 =>
  mPlusCap (isNot RPAREN) r2 (fun url r3 =>
  mLit [RPAREN] r3 (fun rest => Some (wrap txt url, rest)))))).

Definition tag (name : string) (body : str) : str :=
  lit "<" ++ lit name ++ lit ">" ++ body ++ lit "</" ++ lit name ++ lit ">".

Definition anchor (txt url : str) : str :=
  lit "<a href=" ++ [DQUOTE] ++ url ++ [DQUOTE] ++ lit ">" ++ txt ++ lit "</a>".

Definition inlineMarkdownToHtml (text : str) : str :=
  if negb (truthy text) then []
  else
    let html := escapeHtml text in
    let html := replaceAll (spanPattern [BACKTICK] [BACKTICK] BACKTICK (tag "code")) html in
    let html := replaceAll (spanPattern [STAR; STAR] [STAR; STAR] STAR (tag "strong")) html in
    let html := replaceAll (spanPattern [STAR] [STAR] STAR (tag "em")) html in
    replaceAll (linkPattern anchor) html.

(** The options of a [TextRun] that the renderer sets. *)
Record TextRun := mkRun {
  run_text : str;
  run_font : option str;
  run_size : option Z;
  run_shading : option str;
  run_bold : bool;
  run_italics : bool
}.

(** [baseOptions]: the callers pass a font and a size, or nothing. *)
Record BaseOptions := mkBase { base_font : option str; base_size : option Z }.

Definition noBase : BaseOptions := mkBase None None.

(** [{ ...options, ...baseOptions }]: what [baseOptions] sets wins. *)
Definition withBase (b : BaseOptions) (r : TextRun) : TextRun :=
  mkRun (run_text r)
        (match base_font b with Some f => Some f | None => run_font r end)
        (match base_size b with Some z => Some z | None => run_size r end)
        (run_shading r) (run_bold r) (run_italics r).

Definition plainRun (t : str) : TextRun := mkRun t None None None false false.

Definition codeRun (t : str) : TextRun :=
  mkRun t (Some (lit "Courier New")) (Some 20%Z) (Some (lit "F0F0F0")) false false.

Definition boldRun (t : str) : TextRun := mkRun t None None None true false.

Definition italicRun (t : str) : TextRun := mkRun t None None None false true.

Definition isPlainChar (c : ascii) : bool := isNot BACKTICK c && isNot STAR c.

Definition orMatch {T} (a b : option T) : option T :=
  match a with Some x => Some x | None => b end.

(** The tokenizer: a code span, else a bold span, else an italic span,
    else a run of characters without backtick and asterisk.  The match is
    the whole segment, delimiters included. *)
Definition tokenPattern (b : bool) (s : str) : option (str * str) :=
  orMatch (spanPattern [BACKTICK] [BACKTICK] BACKTICK
             (fun c => [BACKTICK] ++ c ++ [BACKTICK]) b s)
 (orMatch (spanPattern [STAR; STAR] [STAR; STAR] STAR
             (fun c => [STAR; STAR] ++ c ++ [STAR; STAR]) b s)
 (orMatch (spanPattern [STAR] [STAR] STAR
             (fun c => [STAR] ++ c ++ [STAR]) b s)
          (mPlusCap isPlainChar s (fun cap rest => Some (cap, rest))))).

Definition stripLinks (segment : str) : str :=
  replaceAll (linkPattern (fun txt _ => txt)) segment.

(** The body of the [while] loop: the runs one segment contributes. *)
Definition runsOfSegment (b : BaseOptions) (segment : str) : list TextRun :=
  if startsWith segment [BACKTICK] && endsWith segment [BACKTICK] then
    [withBase b (codeRun (sliceMid 1 1 segment))]
  else if startsWith segment [STAR; STAR] && endsWith segment [STAR; STAR] then
    [withBase b (boldRun (sliceMid 2 2 segment))]
  else if startsWith segment [STAR] && endsWith segment [STAR] then
    [withBase b (italicRun (sliceMid 1 1 segment))]
  else
    let linkStripped := stripLinks segment in
    if truthy linkStripped then [withBase b (plainRun linkStripped)] else [].

Definition parseInlineMarkdown (text : str) (baseOptions : BaseOptions)
  : list TextRun :=
  if negb (truthy text) then [withBase baseOptions (plainRun [])]
  else
    let runs :=
      flat_map (runsOfSegment baseOptions) (matchesOf (scanAll tokenPattern text)) in
    match runs with
    | [] => [withBase baseOptions (plainRun text)]
    | _ => runs
    end.

(* ================================================================== *)
(** * Canvas slicing ([src/lib/generatePdf.ts]) *)
(* ================================================================== *)

Module Pdf.
Local Open Scope Z_scope.

Definition A4_WIDTH_MM : Z := 210.
Definition A4_HEIGHT_MM : Z := 297.
Definition MARGIN_TOP : Z := 12.
Definition MARGIN_BOTTOM : Z := 14.
Definition MARGIN_LEFT : Z := 12.
Definition MARGIN_RIGHT : Z := 12.
Definition USABLE_WIDTH : Z := A4_WIDTH_MM - MARGIN_LEFT - MARGIN_RIGHT.
Definition USABLE_HEIGHT : Z := A4_HEIGHT_MM - MARGIN_TOP - MARGIN_BOTTOM.

(** The lengths in millimetres are floating-point numbers in the source.
    They are modelled by exact rationals, with the two special values a
    division by zero produces.  For canvas sizes below 2^32 the rounding
    of the source's three floating-point operations changes neither the
    comparison with the page height nor the floor that gives the strip
    height: the exact quotients are integers or keep a distance of at
    least 1/186 from the nearest integer. *)
Inductive mm := Finite (q : Q) | Infinity | NotANumber.

(** [a / b] for a non-negative [a] and [b]. *)
Definition mmDiv (a b : Q) : mm :=
  if Qeq_bool b 0 then (if Qeq_bool a 0 then NotANumber else Infinity)
  else Finite (a / b)%Q.

(** [x <= bound]; false for NaN and for infinity. *)
Definition mmLe (x : mm) (bound : Q) : bool :=
  match x with Finite q => Qle_bool q bound | _ => false end.

(** [canvas.width] and [canvas.height], in pixels. *)
Record Canvas := mkCanvas { c_width : Z; c_height : Z }.

(** An image placed on a page: the rows of the canvas it shows, and the
    rectangle in millimetres it is drawn in. *)
Record Image := mkImage {
  src_y : Z;
  src_height : Z;
  img_x : Z;
  img_y : Z;
  img_width : Z;
  img_height : mm
}.

(** The document: its pages in order, each with the images drawn on it.
    [new jsPDF] starts with one empty page; the current page is the last. *)
Definition Document := list (list Image).

Definition newDocument : Document := [[]].

Definition addPage (pdf : Document) : Document := pdf ++ [[]].

Definition addImage (pdf : Document) (img : Image) : Document :=
  match rev pdf with
  | [] => []
  | page :: before => rev before ++ [page ++ [img]]
  end.

Definition pxPerMm (canvas : Canvas) : Q :=
  (inject_Z (c_width canvas) / inject_Z USABLE_WIDTH)%Q.

Definition totalImgHeightMm (canvas : Canvas) : mm :=
  mmDiv (inject_Z (c_height canvas)) (pxPerMm canvas).

Definition stripHeightPx (canvas : Canvas) : Z :=
  Qfloor (inject_Z USABLE_HEIGHT * pxPerMm canvas)%Q.

(** The [while (srcY < canvasHeight)] loop; [None] when [fuel] iterations
    do not reach the end of the canvas.  The calls of the loop body on
    the strip canvas ([createElement], [fillRect], [drawImage],
    [toDataURL]) change no variable of the loop and are left out.  The
    model is of canvases of positive width, as the renderer produces
    them: for a source canvas of width 0 [drawImage] throws in a browser,
    which the model does not show. *)
Fixpoint sliceLoop (fuel : nat) (canvas : Canvas) (isFirstPage : bool)
  (srcY : Z) (pageIndex : Z) (pdf : Document) : option (Document * Z) :=
  if Z.ltb srcY (c_height canvas) then
    match fuel with
    | O => None
    | S fuel' =>
        let remainingPx := c_height canvas - srcY in
        let thisStripPx := Z.min (stripHeightPx canvas) remainingPx in
        let thisStripMm := mmDiv (inject_Z thisStripPx) (pxPerMm canvas) in
        let pdf1 := if negb isFirstPage || Z.ltb 0 pageIndex
                    then addPage pdf else pdf in
        let pdf2 := addImage pdf1
                      (mkImage srcY thisStripPx MARGIN_LEFT MARGIN_TOP
                               USABLE_WIDTH thisStripMm) in
        sliceLoop fuel' canvas isFirstPage (srcY + thisStripPx)
                  (pageIndex + 1) pdf2
    end
  else Some (pdf, pageIndex).

(** [addCanvasToPdf]: the document afterwards and the number of pages
    consumed. *)
Definition addCanvasToPdf (fuel : nat) (pdf : Document) (canvas : Canvas)
  (isFirstPage : bool) : option (Document * Z) :=
  let imgWidthMm := USABLE_WIDTH in
  if mmLe (totalImgHeightMm canvas) (inject_Z USABLE_HEIGHT) then
    let pdf1 := if negb isFirstPage then addPage pdf else pdf in
    Some (addImage pdf1
            (mkImage 0 (c_height canvas) MARGIN_LEFT MARGIN_TOP imgWidthMm
                     (totalImgHeightMm canvas)),
          1)
  else sliceLoop fuel canvas isFirstPage 0 0 pdf.

End Pdf.

(* ================================================================== *)
(** * Translation ([src/lib/translate.ts]) *)
(* ================================================================== *)

Module Translate.

(** How a promise settles. *)
Inductive Settled (A : Type) :=
  | Resolved (value : A)
  | Rejected (message : str).
Arguments Resolved {A} value.
Arguments Rejected {A} message.

(** The request sent to the completion service: the target language the
    system prompt is instantiated with, the text, and the token limit. *)
Record Request := mkRequest {
  req_language : str;
  req_text : str;
  req_max_tokens : nat
}.

Section Service.

(** [import.meta.env.VITE_OPENAI_API_KEY]; [None] when it is not set. *)
Variable apiKey : option str.

(** [client.chat.completions.create]: it rejects, or resolves with a
    response whose first choice may have no content. *)
Variable create : Request -> Settled (option str).

Definition translationAvailable : bool :=
  match apiKey with Some k => truthy k | None => false end.

Definition blank (s : str) : bool := negb (truthy s) || negb (truthy (trim s)).

Definition translateText (text targetLanguage : str) : Settled str :=
  if negb translationAvailable then Resolved text
  else if blank text then Resolved text
  else if blank targetLanguage then Rejected (lit "Target language is required")
  else
    match create (mkRequest targetLanguage text
                            (Nat.max 1024 (length text * 2))) with
    | Rejected e => Rejected e
    | Resolved content =>
        let translatedText :=
          orElse (match content with Some c => trim c | None => [] end) [] in
        if negb (truthy translatedText)
        then Rejected (lit "No translation received from OpenAI")
        else Resolved translatedText
    end.

End Service.

End Translate.

(* ================================================================== *)
(** * The specification's reading of the severity rank *)
(* ================================================================== *)

(** Severity rank as the specification words it: Critical=0, High=1,
    Medium=2, Low=3, Info/Informational=4 (matched case-insensitively),
    any other value=5. *)
Definition severityRank_spec (severity : str) : Z :=
  let s := toLowerCase severity in
  if JsString.eqb (lit "critical") s then 0
  else if JsString.eqb (lit "high") s then 1
  else if JsString.eqb (lit "medium") s then 2
  else if JsString.eqb (lit "low") s then 3
  else if JsString.eqb (lit "info") s then 4
  else if JsString.eqb (lit "informational") s then 4
  else 5.

(** An issue that is blank except for its identifier, risk and category. *)
Definition stubIssue (id : Z) (risk cat : string) : Issue :=
  mkIssue id
    (mkSnapshot [] (lit risk) [] [] [] [] (lit cat) [] [] [] [] [] [] [] [] []).

(** The two foreground colours of the severity badges. *)
Definition darkForeground : str := lit "#333333".
Definition lightForeground : str := lit "#ffffff".

(** The levels the colour lookup recognizes, in lower case. *)
Definition recognizedLevels : list str :=
  map lit [ "critical"; "high"; "medium"; "low"; "info"; "informational" ]%string.

Definition recognized (severity : str) : bool :=
  existsb (JsString.eqb (toLowerCase severity)) recognizedLevels.

Definition defaultColor : SeverityColor := mkColor (lit "#6c757d") (lit "#ffffff").

(** The colour pair the DOCX side uses, written the way the badge side
    writes colours: a hash sign and lowercase digits. *)
Definition docxColor (severity : str) : SeverityColor :=
  mkColor (lit "#" ++ toLowerCase (getSeverityColorHex severity))
          (lit "#" ++ toLowerCase (getSeverityFontColor severity)).

(** The strips [strips] tile the pixel rows [from .. to) of the canvas:
    each starts where the one before ended, none is empty, and the last
    ends at [to]. *)
Fixpoint tiles (from : Z) (strips : list Pdf.Image) (to : Z) : Prop :=
  match strips with
  | [] => from = to
  | i :: rest =>
      Pdf.src_y i = from /\ (0 < Pdf.src_height i)%Z /\
      tiles (from + Pdf.src_height i) rest to
  end.

(** Every strip on a page of its own: the first on the current page when
    the canvas is the first of the document, on a new page otherwise; each
    later strip on a new page. *)
Definition ownPages (pdf : Pdf.Document) (isFirstPage : bool)
  (strips : list Pdf.Image) : Pdf.Document :=
  match strips with
  | [] => pdf
  | first :: rest =>
      (if isFirstPage then Pdf.addImage pdf first else pdf ++ [[first]])
      ++ map (fun i => [i]) rest
  end.

Definition totalHeight (strips : list Pdf.Image) : Z :=
  fold_right (fun i acc => (Pdf.src_height i + acc)%Z) 0%Z strips.

(** How the loop of [addCanvasToPdf] places strips, from the page index
    [pageIndex] on. *)
Fixpoint place (pdf : Pdf.Document) (isFirstPage : bool) (pageIndex : Z)
  (strips : list Pdf.Image) : Pdf.Document :=
  match strips with
  | [] => pdf
  | i :: rest =>
      place (Pdf.addImage (if negb isFirstPage || Z.ltb 0 pageIndex
                           then Pdf.addPage pdf else pdf) i)
            isFirstPage (pageIndex + 1) rest
  end.

(** A strip is at most one usable page high: in pixels, and in
    millimetres (its height times 186/width is at most 271). *)
Definition stripOk (c : Pdf.Canvas) (i : Pdf.Image) : Prop :=
  (Pdf.src_height i <= Pdf.stripHeightPx c)%Z /\
  (Pdf.USABLE_WIDTH * Pdf.src_height i <= Pdf.USABLE_HEIGHT * Pdf.c_width c)%Z.

(** A sample collation: the order of the code units.  It stands in for
    the host's [localeCompare] where a concrete one is needed. *)
Fixpoint codeUnitCompare (a b : str) : Z :=
  match a, b with
  | [], [] => 0
  | [], _ :: _ => -1
  | _ :: _, [] => 1
  | x :: a', y :: b' =>
      match N.compare (code x) (code y) with
      | Lt => -1
      | Gt => 1
      | Eq => codeUnitCompare a' b'
      end
  end%Z.

(** Five issues in two categories, for the reindexing scenario. *)
Definition sampleIssues : list Issue :=
  [ stubIssue 11 "Low" "Network"; stubIssue 12 "High" "Access";
    stubIssue 13 "Critical" "Network"; stubIssue 14 "High" "Access";
    stubIssue 15 "Low" "Network" ].

(** ** Text with links *)

(** The characters without a meaning in the inline markup or in HTML. *)
Definition markupChars : list ascii :=
  [ BACKTICK; STAR; LBRACKET; RBRACKET; LPAREN; RPAREN;
    chr 38; chr 60; chr 62 ].

Definition isTextChar (c : ascii) : bool :=
  negb (existsb (Ascii.eqb c) markupChars).

(** A piece of input: plain text, or a link [[txt](url)]. *)
Inductive Piece := PText (s : str) | PLink (txt url : str).

(** The source text of a sequence of pieces. *)
Definition pieceSource (p : Piece) : str :=
  match p with
  | PText s => s
  | PLink txt url => [LBRACKET] ++ txt ++ [RBRACKET; LPAREN] ++ url ++ [RPAREN]
  end.

Definition sourceOf (ps : list Piece) : str := flat_map pieceSource ps.

(** The pieces with every link rendered by [wrap]. *)
Definition renderWith (wrap : str -> str -> str) (ps : list Piece) : str :=
  flat_map (fun p => match p with
                     | PText s => s
                     | PLink txt url => wrap txt url
                     end) ps.

(** The visible text: every link stands for its text, the destination is
    dropped. *)
Definition visibleText (ps : list Piece) : str := renderWith (fun txt _ => txt) ps.

(** The HTML that carries the content of a list of runs: a code run as a
    [code] element, a bold run as [strong], an italic run as [em], and
    plain text escaped. *)
Definition runToHtml (r : TextRun) : str :=
  let body := escapeHtml (run_text r) in
  if run_bold r then tag "strong" body
  else if run_italics r then tag "em" body
  else match run_shading r with
       | Some _ => tag "code" body
       | None => body
       end.

Definition runsToHtml (runs : list TextRun) : str := flat_map runToHtml runs.

(** ** Reading the fields of a parsed document *)

(** [occursb needle s]: [needle] occurs somewhere in [s]. *)
Fixpoint occursb (needle s : str) : bool :=
  startsWith s needle
  || match s with [] => false | _ :: s' => occursb needle s' end.

(** A value that stands on one line: not empty, no line terminator, and
    no white space at either end. *)
Definition inlineValue (v : str) : bool :=
  truthy v && forallb isDot v
  && negb (isSpace (hd LF v)) && negb (isSpace (last v LF)).

(** What each field of [parseIssue] is, read off the document. *)
Definition titleOf (doc : str) : str :=
  match firstCapture titlePattern doc with Some t => trim t | None => [] end.

Definition metaOf (pat doc : str) : str :=
  match firstCapture (keyPattern pat) doc with Some v => trim v | None => [] end.

Definition sectionOf (sections : Sections) (key : string) : str :=
  trim (getSection sections (lit key)).

Definition descriptionOf (sections : Sections) : str :=
  trim (extractMainContent (getSection sections (lit "description"))).

Definition evidenceOf (sections : Sections) : str :=
  match firstCapture evidencePattern (getSection sections (lit "description")) with
  | Some v => trim v
  | None => []
  end.

Definition codeOf (sections : Sections) : str * str :=
  let c := getSection sections (lit "code example") in
  match search codeBlockPattern true c with
  | Some (lang, code) => (trim code, orElse lang (lit "text"))
  | None => (trim c, [])
  end.

Definition fieldsOf (doc : str) : IssueSnapshot :=
  let s := splitSections doc in
  mkSnapshot (titleOf doc)
    (metaOf (lit "Overall Risk:") doc) (metaOf (lit "Impact:") doc)
    (metaOf (lit "Exploitability:") doc) (metaOf (lit "Finding ID:") doc)
    (metaOf (lit "Component:") doc) (metaOf (lit "Category:") doc)
    (metaOf (lit "Status:") doc)
    (sectionOf s "impact details")
    (descriptionOf s) (evidenceOf s)
    (fst (codeOf s)) (snd (codeOf s))
    (sectionOf s "example issue scenario")
    (sectionOf s "recommendation")
    (map extraRowOfValue (additionalIssueValues doc)).

(** ** Records that survive a round trip through the template *)

(** No white space at either end, and not empty. *)
Definition trimmed (v : str) : bool :=
  truthy v && negb (isSpace (hd LF v)) && negb (isSpace (last v LF)).

(** A line of free text that the parser reads as text: no carriage
    return, not a heading, and not an additional-issue line. *)
Definition safeLine (l : str) : bool :=
  forallb isDot l
  && match headingMatch l with None => true | Some _ => false end
  && negb (startsWith l (lit "Additional Issue:")).

(** A block of free text: trimmed, and made of safe lines. *)
Definition blockText (b : str) : bool :=
  trimmed b && forallb safeLine (splitLines b).

Definition rowOk (r : ExtraRow) : bool :=
  inlineValue (row_title r) && inlineValue (row_severity r)
  && forallb (isNot PIPE) (row_title r)
  && forallb (isNot PIPE) (row_severity r).

(** The records the template grammar can carry: one-line, trimmed
    metadata; rows without a pipe in their parts; free-text blocks of
    safe lines; a description that does not mention "Evidence:"; a
    language tag of word characters; and code without a fence. *)
Definition roundTrippable (i : IssueSnapshot) : bool :=
  inlineValue (title i) && inlineValue (overallRisk i)
  && inlineValue (impact i) && inlineValue (exploitability i)
  && inlineValue (findingId i) && inlineValue (component i)
  && inlineValue (category i) && inlineValue (status i)
  && forallb rowOk (extraRows i)
  && blockText (impactDetails i)
  && (truthy (description i) && forallb safeLine (splitLines (description i))
      && negb (occursb (lit "Evidence:") (description i)))
  && inlineValue (evidence i)
  && (blockText (codeExample i) && negb (occursb FENCE (codeExample i)))
  && (truthy (codeLanguage i) && forallb isWord (codeLanguage i))
  && blockText (exampleScenario i)
  && blockText (recommendation i).

(** The lines of the serialized record, for such a record. *)
Definition headLines (i : IssueSnapshot) : list str :=
  [ lit "# Issue title: " ++ title i; [];
    lit "Overall Risk: " ++ overallRisk i ].

Definition rowValue (r : ExtraRow) : str :=
  row_title r ++ lit " | " ++ row_severity r.

Definition rowLines (i : IssueSnapshot) : list str :=
  map (fun r => lit "Additional Issue: " ++ rowValue r) (extraRows i).

Definition metaLines (i : IssueSnapshot) : list str :=
  [ lit "Impact: " ++ impact i;
    lit "Exploitability: " ++ exploitability i;
    lit "Finding ID: " ++ findingId i;
    lit "Component: " ++ component i;
    lit "Category: " ++ category i;
    lit "Status: " ++ status i;
    [] ].

Definition bodyLines (i : IssueSnapshot) : list str :=
  [ lit "## Impact details"; [] ] ++ splitLines (impactDetails i)
  ++ [ []; lit "## Description"; [] ] ++ splitLines (description i)
  ++ [ []; lit "Evidence: " ++ evidence i; [];
       lit "### Code example"; []; FENCE ++ codeLanguage i ]
  ++ splitLines (codeExample i)
  ++ [ FENCE; []; lit "### Example issue scenario"; [] ]
  ++ splitLines (exampleScenario i)
  ++ [ []; lit "## Recommendation"; [] ] ++ splitLines (recommendation i)
  ++ [ [] ].

Definition physLines (i : IssueSnapshot) : list str :=
  headLines i ++ rowLines i ++ metaLines i ++ bodyLines i.

(** A sample record with every field filled in. *)
Definition sampleRecord : IssueSnapshot :=
  mkSnapshot
    (lit "Weak session cookie") (lit "High") (lit "Medium") (lit "Low")
    (lit "ABC-0007") (lit "web/session.py") (lit "Session management")
    (lit "New")
    (lit "- Sessions can be stolen." ++ [LF] ++ lit "- Accounts can be taken over.")
    (lit "The cookie lacks the Secure flag." ++ [LF] ++ [LF]
     ++ lit "It is sent over plain HTTP.")
    (lit "[web/session.py](web/session.py)")
    (lit "response.set_cookie(name, value)" ++ [LF] ++ lit "return response")
    (lit "python")
    (lit "An attacker on the same network reads the cookie.")
    (lit "- Set the Secure flag." ++ [LF] ++ lit "- Rotate the session keys.")
    [ mkExtraRow (lit "Cookie without HttpOnly") (lit "Low");
      mkExtraRow (lit "Long session lifetime") (lit "Info") ].

(** [prepend ls rest]: the lines [ls], each ended by a line feed, in
    front of [rest]. *)
Definition prepend (ls : list str) (rest : str) : str :=
  fold_right (fun l acc => l ++ LF :: acc) rest ls.

(** The sample record with a space behind its title. *)
Definition paddedRecord : IssueSnapshot :=
  setTitle (lit "Weak session cookie ") sampleRecord.
(* ================================================================== *)
(** * Block markup and batch parsing ([src/lib/parseIssue.ts]) *)
(* ================================================================== *)

Definition parseMultipleIssues (filesContent : list str) : list IssueSnapshot :=
  map (fun content => parseIssue content) filesContent.

(** A line of a bullet list: [trimmed.startsWith("- ") ||
    trimmed.startsWith("* ")]. *)
Definition isBullet (trimmed : str) : bool :=
  startsWith trimmed (lit "- ") || startsWith trimmed (lit "* ").

(** One round of the loop of [blockMarkdownToHtml] on the pair of [html]
    and [inList]. *)
Definition blockStep (st : str * bool) (line : str) : str * bool :=
  let (html, inList) := st in
  let trimmed := trim line in
  if negb (truthy trimmed) then
    if inList then (html ++ lit "</ul>", false) else (html, inList)
  else if isBullet trimmed then
    let (html, inList) :=
      if negb inList then (html ++ lit "<ul>", true) else (html, inList) in
    (html ++ lit "<li>" ++ inlineMarkdownToHtml (skipn 2 trimmed) ++ lit "</li>",
     inList)
  else
    let (html, inList) :=
      if inList then (html ++ lit "</ul>", false) else (html, inList) in
    (html ++ lit "<p>" ++ inlineMarkdownToHtml trimmed ++ lit "</p>", inList).

Definition blockMarkdownToHtml (text : str) : str :=
  if negb (truthy text) then []
  else
    let (html, inList) := fold_left blockStep (splitLines text) ([], false) in
    if inList then html ++ lit "</ul>" else html.

(** ** The shape of the block markup

    The elements [blockMarkdownToHtml] writes: a paragraph, or a list
    with its items; each holds the inline rendering of a source text. *)
Inductive Block := BParagraph (source : str) | BList (items : list str).

Definition renderItem (source : str) : str :=
  lit "<li>" ++ inlineMarkdownToHtml source ++ lit "</li>".

Definition renderBlock (b : Block) : str :=
  match b with
  | BParagraph source => lit "<p>" ++ inlineMarkdownToHtml source ++ lit "</p>"
  | BList items => lit "<ul>" ++ flat_map renderItem items ++ lit "</ul>"
  end.

(** The source texts of a block. *)
Definition blockSources (b : Block) : list str :=
  match b with BParagraph source => [source] | BList items => items end.

(** A list has an item, and no paragraph or item is empty. *)
Definition blockOk (b : Block) : Prop :=
  blockSources b <> [] /\ ~ In [] (blockSources b).

(** [part] occurs in [text]. *)
Definition partOf (text part : str) : Prop :=
  exists before after, text = before ++ part ++ after.

(** ** Line endings *)

Definition CR : ascii := chr 13.

(** Every line of the document is empty or ends with a carriage return,
    as in a file with CR LF line endings. *)
Definition crlfLines (doc : str) : Prop :=
  Forall (fun l => l = [] \/ last l LF = CR) (splitLines doc).

(** A document with CR LF line endings. *)
Definition crlfSample : str :=
  lit "# Issue title: Weak cipher" ++ [CR; LF]
  ++ lit "Overall Risk: High" ++ [CR; LF]
  ++ lit "## Description" ++ [CR; LF]
  ++ lit "The cipher is weak." ++ [CR; LF].

(** A document whose recommendation heading occurs twice. *)
Definition repeatedHeadingSample : str :=
  join [LF]
    [ lit "## Recommendation"; lit "Use AES."; lit "## Description";
      lit "Old cipher."; lit "## recommendation"; lit "Use ChaCha20."; [];
      lit "## Notes"; lit "None." ].

(* ================================================================== *)
(** * The application state ([src/App.tsx]) *)
(* ================================================================== *)

(** The handlers of the application component are modelled as functions
    on the state they read and update.  A handler that awaits (reading
    files, translating) is taken as one step on the state at hand. *)

(** [String(n)] for an integer. *)
Definition ofZ (n : Z) : str :=
  if Z.ltb n 0 then lit "-" ++ ofNat (Z.to_nat (- n)) else ofNat (Z.to_nat n).

(** [s.replace(/[/\\]/g, "-")] and the like: every character of the class
    is replaced. *)
Definition replaceClass (cls : ascii -> bool) (rep : str) (s : str) : str :=
  flat_map (fun x => if cls x then rep else [x]) s.

(** [/\s+/g]: a run of white space. *)
Definition spacesPattern (rep : str) (_ : bool) (s : str)
  : option (str * str) :=
  mPlus isSpace s (fun rest => Some (rep, rest)).

(** [s.replace(/\s+/g, "-")]. *)
Definition dashSpaces (s : str) : str := replaceAll (spacesPattern (lit "-")) s.

(** ** Entries *)

Record FileEntry := mkFile {
  file_name : str;
  file_content : str;
  _isManual : bool
}.

(** A file handed over by the browser: its name, its type, its text. *)
Record UploadedFile := mkUpload {
  up_name : str;
  up_type : str;
  up_text : str
}.

(** [Record<number, IssueSnapshot>]: the entry found first is the one in
    force. *)
Definition Originals := list (Z * IssueSnapshot).

(** [originals[id]]; [None] for [undefined]. *)
Fixpoint originals_get (o : Originals) (id : Z) : option IssueSnapshot :=
  match o with
  | [] => None
  | (k, v) :: o' => if Z.eqb k id then Some v else originals_get o' id
  end.

(** [o[id] = v]. *)
Definition originals_set (o : Originals) (id : Z) (v : IssueSnapshot)
  : Originals := (id, v) :: o.

(** [delete o[id]]. *)
Definition originals_delete (o : Originals) (id : Z) : Originals :=
  filter (fun e => negb (Z.eqb (fst e) id)) o.

(** [{ ...prev, ...next }]. *)
Definition originals_merge (prev next : Originals) : Originals := next ++ prev.

Record AppState := mkState {
  files : list FileEntry;
  issues : list Issue;
  originals : Originals;
  nextIssueId : Z
}.

(** [setIssues(next)]. *)
Definition setIssues (next : list Issue) (s : AppState) : AppState :=
  mkState (files s) next (originals s) (nextIssueId s).

(** The state of a session that finds nothing saved. *)
Definition initialState : AppState := mkState [] [] [] 1.

(** [{ ...iss, ...f }] for a change [f] of the content: the identifier
    stays. *)
Definition onData (f : IssueSnapshot -> IssueSnapshot) (iss : Issue) : Issue :=
  mkIssue (_id iss) (f iss).

(** [prev.map((iss) => iss._id === issueId ? f(iss) : iss)]. *)
Definition mapIssue (issueId : Z) (f : Issue -> Issue) (prev : list Issue)
  : list Issue :=
  map (fun iss => if Z.eqb (_id iss) issueId then f iss else iss) prev.

(** [issues.find((i) => i._id === issueId)]. *)
Definition findIssue (issueId : Z) (l : list Issue) : option Issue :=
  find (fun i => Z.eqb (_id i) issueId) l.

(** ** Files *)

Definition isMarkdownFile (f : UploadedFile) : bool :=
  endsWith (up_name f) (lit ".md") || JsString.eqb (up_type f) (lit "text/markdown").

(** What the loop of [processFiles] has collected. *)
Record Batch := mkBatch {
  b_next : Z;
  newFiles : list FileEntry;
  newIssues : list Issue;
  newOriginals : Originals
}.

Definition ingest (b : Batch) (file : UploadedFile) : Batch :=
  let content := up_text file in
  let parsed := parseIssue content in
  let id := b_next b in
  let issue := mkIssue id parsed in
  mkBatch (id + 1)
          (newFiles b ++ [mkFile (up_name file) content false])
          (newIssues b ++ [issue])
          (originals_set (newOriginals b) (_id issue) (data issue)).

(** [processFiles]; without a markdown file it alerts and changes
    nothing. *)
Definition processFiles (fileList : list UploadedFile) (s : AppState)
  : AppState :=
  let mdFiles := filter isMarkdownFile fileList in
  if Nat.eqb (length mdFiles) 0 then s
  else
    let b := fold_left ingest mdFiles (mkBatch (nextIssueId s) [] [] []) in
    mkState (files s ++ newFiles b)
            (issues s ++ newIssues b)
            (originals_merge (originals s) (newOriginals b))
            (b_next b).

(** [prev.filter((_, i) => i !== index)]. *)
Fixpoint dropIndex {A} (index : nat) (l : list A) {struct l} : list A :=
  match l, index with
  | [], _ => []
  | _ :: l', O => l'
  | x :: l', S n => x :: dropIndex n l'
  end.

Definition removeFile (index : nat) (s : AppState) : AppState :=
  let removedIssue := nth_error (issues s) index in
  mkState (dropIndex index (files s))
          (dropIndex index (issues s))
          (match removedIssue with
           | Some r => originals_delete (originals s) (_id r)
           | None => originals s
           end)
          (nextIssueId s).

(** [clearAll]; [confirm] is the answer to the dialog, which is asked
    when there are issues. *)
Definition clearAll (confirm : bool) (s : AppState) : AppState :=
  if Nat.ltb 0 (length (issues s)) && negb confirm then s
  else mkState [] [] [] (nextIssueId s).

(** ** Extra rows *)

Definition addExtraRow (issueId : Z) (prev : list Issue) : list Issue :=
  mapIssue issueId
    (onData (fun iss =>
       setExtraRows (extraRows iss ++ [mkExtraRow [] (lit "Medium")]) iss))
    prev.

(** [rows.splice(rowIndex, 1)] on a copy: a negative index counts from
    the end. *)
Definition spliceOne {A} (rowIndex : Z) (rows : list A) : list A :=
  let len := Z.of_nat (length rows) in
  let start := if Z.ltb rowIndex 0 then Z.max (len + rowIndex) 0
               else Z.min rowIndex len in
  dropIndex (Z.to_nat start) rows.

Definition removeExtraRow (issueId : Z) (rowIndex : Z) (prev : list Issue)
  : list Issue :=
  mapIssue issueId
    (onData (fun iss => setExtraRows (spliceOne rowIndex (extraRows iss)) iss))
    prev.

(** ** A new page *)

Definition blankIssue (id : Z) (cat : str) : Issue :=
  mkIssue id
    (mkSnapshot [] (lit "Medium") (lit "Medium") (lit "Medium") [] [] cat
                (lit "New") [] [] [] [] [] [] [] []).

(** [addNewPage]; [answer] is what the prompt returns, [None] when the
    user cancelled. *)
Definition addNewPage (answer : option str) (s : AppState) : AppState :=
  match answer with
  | None => s
  | Some category =>
      let cat := orElse (trim category) (lit "Uncategorized") in
      let newIssue := blankIssue (nextIssueId s) cat in
      let syntheticFile :=
        mkFile (lit "New-" ++ dashSpaces cat ++ lit "-" ++ ofZ (_id newIssue)
                ++ lit ".md") [] true in
      mkState (files s ++ [syntheticFile])
              (issues s ++ [newIssue])
              (originals_merge (originals s)
                 (originals_set [] (_id newIssue) (data newIssue)))
              (nextIssueId s + 1)
  end.

(** ** Fields *)

(** The property names of an issue's content, [keyof IssueSnapshot]. *)
Inductive IssueKey :=
  | KeyTitle | KeyOverallRisk | KeyImpact | KeyExploitability | KeyFindingId
  | KeyComponent | KeyCategory | KeyStatus | KeyImpactDetails | KeyDescription
  | KeyEvidence | KeyCodeExample | KeyCodeLanguage | KeyExampleScenario
  | KeyRecommendation | KeyExtraRows.

Definition keyName (k : IssueKey) : str :=
  match k with
  | KeyTitle => lit "title"
  | KeyOverallRisk => lit "overallRisk"
  | KeyImpact => lit "impact"
  | KeyExploitability => lit "exploitability"
  | KeyFindingId => lit "findingId"
  | KeyComponent => lit "component"
  | KeyCategory => lit "category"
  | KeyStatus => lit "status"
  | KeyImpactDetails => lit "impactDetails"
  | KeyDescription => lit "description"
  | KeyEvidence => lit "evidence"
  | KeyCodeExample => lit "codeExample"
  | KeyCodeLanguage => lit "codeLanguage"
  | KeyExampleScenario => lit "exampleScenario"
  | KeyRecommendation => lit "recommendation"
  | KeyExtraRows => lit "extraRows"
  end.

Definition allKeys : list IssueKey :=
  [ KeyTitle; KeyOverallRisk; KeyImpact; KeyExploitability; KeyFindingId;
    KeyComponent; KeyCategory; KeyStatus; KeyImpactDetails; KeyDescription;
    KeyEvidence; KeyCodeExample; KeyCodeLanguage; KeyExampleScenario;
    KeyRecommendation; KeyExtraRows ].

(** [EDITABLE_FIELDS]. *)
Definition EDITABLE_FIELDS : list IssueKey :=
  [ KeyTitle; KeyComponent; KeyOverallRisk; KeyFindingId; KeyImpactDetails;
    KeyDescription; KeyCodeExample; KeyCodeLanguage; KeyExampleScenario;
    KeyRecommendation; KeyExtraRows ].

(** [typeof val === "string" ? val : undefined] for [val = i[k]]. *)
Definition stringOf (k : IssueKey) (i : IssueSnapshot) : option str :=
  match k with
  | KeyTitle => Some (title i)
  | KeyOverallRisk => Some (overallRisk i)
  | KeyImpact => Some (impact i)
  | KeyExploitability => Some (exploitability i)
  | KeyFindingId => Some (findingId i)
  | KeyComponent => Some (component i)
  | KeyCategory => Some (category i)
  | KeyStatus => Some (status i)
  | KeyImpactDetails => Some (impactDetails i)
  | KeyDescription => Some (description i)
  | KeyEvidence => Some (evidence i)
  | KeyCodeExample => Some (codeExample i)
  | KeyCodeLanguage => Some (codeLanguage i)
  | KeyExampleScenario => Some (exampleScenario i)
  | KeyRecommendation => Some (recommendation i)
  | KeyExtraRows => None
  end.

(** [{ ...i, [k]: v }] for a string property [k] and a string [v]. *)
Definition setString (k : IssueKey) (v : str) (i : IssueSnapshot)
  : IssueSnapshot :=
  match k with
  | KeyTitle => setTitle v i
  | KeyOverallRisk => setMeta KOverallRisk v i
  | KeyImpact => setMeta KImpact v i
  | KeyExploitability => setMeta KExploitability v i
  | KeyFindingId => setMeta KFindingId v i
  | KeyComponent => setMeta KComponent v i
  | KeyCategory => setMeta KCategory v i
  | KeyStatus => setMeta KStatus v i
  | KeyImpactDetails => setImpactDetails v i
  | KeyDescription => setDescription v i
  | KeyEvidence => setEvidence v i
  | KeyCodeExample => setCodeExample v i
  | KeyCodeLanguage => setCodeLanguage v i
  | KeyExampleScenario => setExampleScenario v i
  | KeyRecommendation => setRecommendation v i
  | KeyExtraRows => i
  end.

(** [{ ...i, [k]: orig[k] }]. *)
Definition copyField (k : IssueKey) (orig i : IssueSnapshot) : IssueSnapshot :=
  match stringOf k orig with
  | Some v => setString k v i
  | None => setExtraRows (extraRows orig) i
  end.

(** The key a property name stands for. *)
Definition keyOfName (field : str) : option IssueKey :=
  find (fun k => JsString.eqb (keyName k) field) allKeys.

(** [updateIssue]: [{ ...iss, [field]: value }] on the issue [issueId].
    The result is [None] when [field] names no string property of an
    issue's content: the source then stores the string under that name
    all the same, which the record type cannot hold. *)
Definition updateIssue (issueId : Z) (field value : str) (prev : list Issue)
  : option (list Issue) :=
  match keyOfName field with
  | None | Some KeyExtraRows => None
  | Some k => Some (mapIssue issueId (onData (setString k value)) prev)
  end.

(** ** Restoring *)

Definition row_eqb (a b : ExtraRow) : bool :=
  JsString.eqb (row_title a) (row_title b)
  && JsString.eqb (row_severity a) (row_severity b).

(** [JSON.stringify(a) === JSON.stringify(b)] for two arrays of rows.  A
    row is written as its title and its severity, in this order and with
    the quoting of JSON, which maps different strings to different
    texts; the two texts are equal exactly when the arrays are equal row
    by row. *)
Fixpoint rows_eqb (a b : list ExtraRow) : bool :=
  match a, b with
  | [], [] => true
  | x :: a', y :: b' => row_eqb x y && rows_eqb a' b'
  | _, _ => false
  end.

(** [issue[field] !== orig[field]], with the comparison of the JSON
    texts for the rows. *)
Definition fieldDiffers (field : IssueKey) (issue orig : IssueSnapshot) : bool :=
  match field with
  | KeyExtraRows => negb (rows_eqb (extraRows issue) (extraRows orig))
  | _ =>
      match stringOf field issue, stringOf field orig with
      | Some a, Some b => negb (JsString.eqb a b)
      | _, _ => false
      end
  end.

Definition isFieldModified (s : AppState) (issueId : Z) (field : IssueKey)
  : bool :=
  match originals_get (originals s) issueId with
  | None => false
  | Some orig =>
      match findIssue issueId (issues s) with
      | None => false
      | Some issue => fieldDiffers field issue orig
      end
  end.

Definition restoreField (originals : Originals) (issueId : Z)
  (field : IssueKey) (prev : list Issue) : list Issue :=
  match originals_get originals issueId with
  | None => prev
  | Some orig => mapIssue issueId (onData (copyField field orig)) prev
  end.

Definition restoreIssue (originals : Originals) (issueId : Z)
  (prev : list Issue) : list Issue :=
  match originals_get originals issueId with
  | None => prev
  | Some orig => mapIssue issueId (fun _ => mkIssue issueId orig) prev
  end.

Definition isIssueModified (s : AppState) (issueId : Z) : bool :=
  existsb (fun f => isFieldModified s issueId f) EDITABLE_FIELDS.

Definition getOriginal (originals : Originals) (issueId : Z)
  (field : IssueKey) : option str :=
  match originals_get originals issueId with
  | None => None
  | Some orig => stringOf field orig
  end.

(** ** Pages *)

Record PagedIssue := mkPaged { paged_issue : Issue; _pageNumber : Z }.

Record PagedGroupedCategory := mkPagedGroup {
  pg_category : str;
  pg_issues : list PagedIssue
}.

(** [group.issues.map((issue) => { page++; ... })]: the numbered issues
    and the counter afterwards. *)
Fixpoint numberPages (page : Z) (l : list Issue) : list PagedIssue * Z :=
  match l with
  | [] => ([], page)
  | issue :: rest =>
      let page := (page + 1)%Z in
      let (numbered, last) := numberPages page rest in
      (mkPaged issue page :: numbered, last)
  end.

Fixpoint pageGroups (page : Z) (groups : list GroupedCategory)
  : list PagedGroupedCategory :=
  match groups with
  | [] => []
  | group :: rest =>
      let (numbered, page) := numberPages page (g_issues group) in
      mkPagedGroup (g_category group) numbered :: pageGroups page rest
  end.

Section Paging.
Variable localeCompare : str -> str -> Z.

(** The memoised [grouped]. *)
Definition grouped (issues : list Issue) : list PagedGroupedCategory :=
  let groups := groupByCategory localeCompare issues in
  pageGroups 0 groups.

End Paging.

(** ** Markdown downloads *)

Definition isPathSeparator (c : ascii) : bool :=
  Ascii.eqb c (chr 47) || Ascii.eqb c (chr 92).

(** [s.slice(0, n)] for a non-negative [n]. *)
Definition sliceTo (n : nat) (s : str) : str := firstn n s.

(** The name of the markdown file of an issue. *)
Definition markdownFilename (issue : Issue) : str :=
  replaceClass isPathSeparator (lit "-")
    (orElse (findingId issue) (lit "issue-" ++ ofZ (_id issue)))
  ++ lit "-"
  ++ sliceTo 40
       (dashSpaces
          (replaceClass isPathSeparator (lit "-")
             (orElse (title issue) (lit "untitled"))))
  ++ lit ".md".

(** [downloadIssueMd]: the name and the content of the download, [None]
    when there is no such issue. *)
Definition downloadIssueMd (issues : list Issue) (issueId : Z)
  : option (str * str) :=
  match findIssue issueId issues with
  | None => None
  | Some issue => Some (markdownFilename issue, issueToMarkdown issue)
  end.

(** [downloadAllMd]: the names and contents handed to [zip.file], in
    this order; [None] when there is no issue and nothing is downloaded. *)
Definition downloadAllMd (issues : list Issue) : option (list (str * str)) :=
  if Nat.eqb (length issues) 0 then None
  else Some (map (fun issue => (markdownFilename issue, issueToMarkdown issue))
                 issues).

(** ** Relative time *)

(** [Math.floor(a / b)] for a positive integer [b]. *)
Definition floorDiv (a : jsnum) (b : Z) : jsnum :=
  match a with Num z => Num (z / b) | NaN => NaN end.

(** [a < b]; false for NaN. *)
Definition jsLt (a : jsnum) (b : Z) : bool :=
  match a with Num z => Z.ltb z b | NaN => false end.

(** The number in a template literal. *)
Definition numberToString (a : jsnum) : str :=
  match a with Num z => ofZ z | NaN => lit "NaN" end.

(** [formatRelativeTime]: [now] is [Date.now()], and [getTime] gives the
    time value of a date string in milliseconds, NaN when the string is
    no date. *)
Definition formatRelativeTime (now : Z) (getTime : str -> jsnum)
  (isoString : option str) : option str :=
  match isoString with
  | None => None
  | Some iso =>
      if negb (truthy iso) then None
      else
        let diff := match getTime iso with
                    | Num t => Num (now - t)
                    | NaN => NaN
                    end in
        let seconds := floorDiv diff 1000 in
        if jsLt seconds 5 then Some (lit "just now")
        else if jsLt seconds 60 then Some (numberToString seconds ++ lit "s ago")
        else
          let minutes := floorDiv seconds 60 in
          if jsLt minutes 60 then Some (numberToString minutes ++ lit "m ago")
          else
            let hours := floorDiv minutes 60 in
            if jsLt hours 24 then Some (numberToString hours ++ lit "h ago")
            else
              let days := floorDiv hours 24 in
              Some (numberToString days ++ lit "d ago")
  end.

(** ** Translating *)

Section Translating.
Import Translate.

Variable apiKey : option str.
Variable create : Request -> Settled (option str).
Variable targetLanguage : str.

(** [handleTranslate]. *)
Definition handleTranslate (text : str) : Settled str :=
  if negb (translationAvailable apiKey) then Resolved text
  else if negb (truthy (trim targetLanguage)) then Resolved text
  else translateText apiKey create text targetLanguage.

(** [translateCallback]: the handler, or [None] for [undefined]. *)
Definition translateCallback : option (str -> Settled str) :=
  if translationAvailable apiKey && truthy (trim targetLanguage)
  then Some handleTranslate else None.

Definition translatableFields : list IssueKey :=
  [ KeyTitle; KeyComponent; KeyImpactDetails; KeyDescription;
    KeyExampleScenario; KeyRecommendation ].

(** The promise of one field: the field with its new value. *)
Definition translateField (issue : Issue) (field : IssueKey)
  : Settled (IssueKey * option str) :=
  let val := stringOf field issue in
  match val with
  | Some v =>
      if truthy (trim v) then
        match translateText apiKey create v targetLanguage with
        | Resolved translated => Resolved (field, Some translated)
        | Rejected e => Rejected e
        end
      else Resolved (field, val)
  | None => Resolved (field, val)
  end.

(** [updates[field] = translated] for a fulfilled result. *)
Definition applyResult (updates : IssueSnapshot -> IssueSnapshot)
  (result : Settled (IssueKey * option str))
  : IssueSnapshot -> IssueSnapshot :=
  match result with
  | Resolved (field, Some translated) =>
      fun i => setString field translated (updates i)
  | _ => updates
  end.

(** The promise of one extra row. *)
Definition translateRow (row : ExtraRow) : Settled ExtraRow :=
  if truthy (row_title row) && truthy (trim (row_title row)) then
    match translateText apiKey create (row_title row) targetLanguage with
    | Resolved translated => Resolved (mkExtraRow translated (row_severity row))
    | Rejected e => Rejected e
    end
  else Resolved row.

Definition settledRow (row : ExtraRow) : ExtraRow :=
  match translateRow row with
  | Resolved r => r
  | Rejected _ => row
  end.

(** The [updates] object of [translateIssuePage], as the change it makes
    to an issue it is spread over. *)
Definition pageUpdates (issue : Issue) : IssueSnapshot -> IssueSnapshot :=
  let updates :=
    fold_left applyResult (map (translateField issue) translatableFields)
              (fun i => i) in
  let translatedExtraRows := extraRows issue in
  if Nat.ltb 0 (length translatedExtraRows)
  then fun i => setExtraRows (map settledRow translatedExtraRows) (updates i)
  else updates.

(** [translateIssuePage]: the issues afterwards. *)
Definition translateIssuePage (issueId : Z) (issues : list Issue)
  : list Issue :=
  if negb (translationAvailable apiKey) then issues
  else if negb (truthy (trim targetLanguage)) then issues
  else
    match findIssue issueId issues with
    | None => issues
    | Some issue => mapIssue issueId (onData (pageUpdates issue)) issues
    end.

End Translating.

(** ** The steps of a session *)

Section Session.
Variable localeCompare : str -> str -> Z.
Variable apiKey : option str.
Variable create : Translate.Request -> Translate.Settled (option str).

(** The handlers that replace the issues by a function of them and of
    the originals. *)
Inductive edit (originals : Originals) : list Issue -> list Issue -> Prop :=
  | edit_addExtraRow issueId prev :
      edit originals prev (addExtraRow issueId prev)
  | edit_removeExtraRow issueId rowIndex prev :
      edit originals prev (removeExtraRow issueId rowIndex prev)
  | edit_updateIssue issueId field value prev next :
      updateIssue issueId field value prev = Some next ->
      edit originals prev next
  | edit_restoreField issueId field prev :
      edit originals prev (restoreField originals issueId field prev)
  | edit_restoreIssue issueId prev :
      edit originals prev (restoreIssue originals issueId prev)
  | edit_reindexFindingIds input prev :
      edit originals prev (reindexFindingIds localeCompare prev input)
  | edit_translateIssuePage targetLanguage issueId prev :
      edit originals prev
        (translateIssuePage apiKey create targetLanguage issueId prev).

Inductive step : AppState -> AppState -> Prop :=
  | step_processFiles fileList s : step s (processFiles fileList s)
  | step_removeFile index s : step s (removeFile index s)
  | step_clearAll confirm s : step s (clearAll confirm s)
  | step_addNewPage answer s : step s (addNewPage answer s)
  | step_edit s next :
      edit (originals s) (issues s) next ->
      step s (setIssues next s).

(** The states a session reaches from the state it starts in: the state
    restored from the browser's storage, or [initialState]. *)
Inductive reachable (start : AppState) : AppState -> Prop :=
  | reach_start : reachable start start
  | reach_step s s' : reachable start s -> step s s' -> reachable start s'.

End Session.

(** What every state of a session satisfies: files and issues go by
    index, the identifiers are distinct, positive and below the next
    one, and the originals are kept for exactly the issues at hand. *)
Record stateOk (s : AppState) : Prop := {
  ok_aligned : length (files s) = length (issues s);
  ok_next : (1 <= nextIssueId s)%Z;
  ok_distinct : NoDup (map _id (issues s));
  ok_range : forall i, In i (issues s) -> (1 <= _id i < nextIssueId s)%Z;
  ok_originals : forall id,
      originals_get (originals s) id <> None <-> In id (map _id (issues s))
}.

(** ** Places in the grouped order *)

(** Issue [i] is the [k]-th issue of the [c]-th group, counted from 0. *)
Definition placedAt (groups : list GroupedCategory) (c k : nat) (i : Issue)
  : Prop :=
  exists g, nth_error groups c = Some g /\ nth_error (g_issues g) k = Some i.

(** ** Characters of file names *)

Definition notSeparator (c : ascii) : bool := negb (isPathSeparator c).

Definition notSpace (c : ascii) : bool := negb (isSpace c).

(** ** The label of an age

    The label for [elapsed] milliseconds, with the limits in
    milliseconds: five seconds, a minute, an hour, a day. *)
Definition ageLabel (elapsed : Z) : str :=
  if Z.ltb elapsed 5000 then lit "just now"
  else if Z.ltb elapsed 60000 then ofZ (elapsed / 1000) ++ lit "s ago"
  else if Z.ltb elapsed 3600000 then ofZ (elapsed / 60000) ++ lit "m ago"
  else if Z.ltb elapsed 86400000 then ofZ (elapsed / 3600000) ++ lit "h ago"
  else ofZ (elapsed / 86400000) ++ lit "d ago".

(** ** What translating a page may change *)

(** A text before and after: a blank text stays as it is, and a text
    that is not blank does not become blank. *)
Definition textKept (v v' : str) : Prop :=
  (Translate.blank v = true -> v' = v) /\
  (Translate.blank v = false -> Translate.blank v' = false).

Record translatedFrom (old new : Issue) : Prop := {
  tr_id : _id new = _id old;
  tr_fixed : forall k, ~ In k translatableFields ->
      stringOf k new = stringOf k old;
  tr_text : forall k v, In k translatableFields -> stringOf k old = Some v ->
      exists v', stringOf k new = Some v' /\ textKept v v';
  tr_rows :
    Forall2 (fun r r' => row_severity r' = row_severity r /\
                         (Translate.blank (row_title r) = true -> r' = r) /\
                         textKept (row_title r) (row_title r'))
            (extraRows old) (extraRows new)
}.

(* ================================================================== *)
(** * The pages of the PDF ([src/lib/generatePdf.ts]) *)
(* ================================================================== *)

Module PdfPages.
Import Pdf.
Local Open Scope Z_scope.


(** The variables of the loop of [generatePdf]. *)
Record Progress := mkProgress {
  pdf : Document;
  currentPdfPage : Z;
  elementPageStarts : list Z;
  tocStartPage : Z;
  tocPagesUsed : Z
}.

Definition start : Progress := mkProgress newDocument 1 [] 1 0.






End PdfPages.





(* ================================================================== *)
(** * The DOCX document ([src/lib/generateDocx.ts]) *)
(* ================================================================== *)

(** The objects of the [docx] library are records of the options the
    generator passes.  Three things come from outside and are parameters:
    the library's [convertInchesToTwip], the host's [toUpperCase], and
    the dash U+2014, a character beyond the range of the string model. *)
Module Docx.

(** A [TextRun]: the options of the inline renderer, a colour and a
    single underline. *)
Record Run := mkStyledRun {
  run_options : TextRun;
  run_color : option str;
  run_underline : bool
}.

(** A run of the inline renderer as it is: no colour, no underline. *)
Definition inlineRun (r : TextRun) : Run := mkStyledRun r None false.

Inductive ParagraphChild :=
  | RunChild (r : Run)
  | PageNumber (total : bool) (size : Z) (font color : str)
  | PageBreak
  | Bookmark (id : str) (children : list Run)
  | InternalHyperlink (anchor : str) (children : list Run).

Record Spacing := mkSpacing {
  before : option Z;
  after : option Z;
  line : option Z
}.

(** A single border line. *)
Record Border := mkBorder {
  border_size : Z;
  border_color : str;
  border_space : option Z
}.

Record Paragraph := mkParagraph {
  children : list ParagraphChild;
  bullet : bool;
  spacing : option Spacing;
  indent : option Z;
  heading1 : bool;
  centered : bool;
  border_bottom : option Border
}.

(** [new Paragraph({ children, spacing })]. *)
Definition paragraph (children : list ParagraphChild) (spacing : option Spacing)
  : Paragraph :=
  mkParagraph children false spacing None false false None.

Record Margins := mkMargins {
  margin_top : Z;
  margin_bottom : Z;
  margin_left : Z;
  margin_right : Z
}.

Record TableCell := mkCell {
  cell_children : list Paragraph;
  cell_width : Z;
  cell_shading : option str;
  cell_borders : Border;
  cell_margins : option Margins
}.

(** A table of fixed layout. *)
Record Table := mkTable {
  table_width : Z;
  columnWidths : list Z;
  rows : list (list TableCell)
}.

Inductive DocxChild := OfParagraph (p : Paragraph) | OfTable (t : Table).

Record Document := mkDocument {
  page_width : Z;
  page_height : Z;
  page_margins : Margins;
  footer : Paragraph;
  body : list DocxChild
}.

Section Generator.
Variable convertInchesToTwip : Q -> Z.
Variable toUpperCase : str -> str.
Variable emDash : str.
Variable localeCompare : str -> str -> Z.

Definition PAGE_WIDTH_TWIPS : Z := 11906.
Definition MARGIN_TWIPS : Z := convertInchesToTwip (3 # 4).
Definition CONTENT_WIDTH : Z := PAGE_WIDTH_TWIPS - 2 * MARGIN_TWIPS.

(** [Math.round(CONTENT_WIDTH * 0.75)]: the nearest integer to three
    quarters, a half rounded up. *)
Definition ISSUE_COL_WIDTH : Z := (3 * CONTENT_WIDTH + 2) / 4.
Definition SEVERITY_COL_WIDTH : Z := CONTENT_WIDTH - ISSUE_COL_WIDTH.

Definition calibri22 : BaseOptions := mkBase (Some (lit "Calibri")) (Some 22%Z).

(** [blockToParagraphs]; [indent] is the option of that name, in inches,
    zero when it is left out. *)
Definition blockLine (indent : Q) (line : str) : list Paragraph :=
  let trimmed := trim line in
  let indentOption :=
    if Qeq_bool indent 0 then None else Some (convertInchesToTwip indent) in
  if negb (truthy trimmed) then []
  else if isBullet trimmed then
    let content := skipn 2 trimmed in
    [ mkParagraph (map (fun r => RunChild (inlineRun r))
                       (parseInlineMarkdown content calibri22))
                  true (Some (mkSpacing None (Some 60%Z) None)) indentOption
                  false false None ]
  else
    [ mkParagraph (map (fun r => RunChild (inlineRun r))
                       (parseInlineMarkdown trimmed calibri22))
                  false (Some (mkSpacing None (Some 100%Z) None)) indentOption
                  false false None ].

Definition blockToParagraphs (text : str) (indent : Q) : list Paragraph :=
  if negb (truthy text) then []
  else flat_map (blockLine indent) (splitLines text).

Definition sectionLabel (text : str) : Paragraph :=
  paragraph [RunChild (mkStyledRun (mkRun text (Some (lit "Calibri"))
                                          (Some 22%Z) None true false)
                                   None false)]
            (Some (mkSpacing (Some 240%Z) (Some 100%Z) None)).

Definition thinBorder : Border := mkBorder 1 (lit "CCCCCC") None.

(** A cell with one paragraph of one run. *)
Definition textCell (text : str) (bold : bool) (color : option str)
  (centered : bool) (width : Z) (shading : option str) : TableCell :=
  mkCell [ mkParagraph
             [RunChild (mkStyledRun (mkRun text (Some (lit "Calibri"))
                                           (Some 22%Z) None bold false)
                                    color false)]
             false None None false centered None ]
         width shading thinBorder None.

Definition createIssueTable (issue : Issue) : Table :=
  let severityBg := getSeverityColorHex (overallRisk issue) in
  let severityFontColor := getSeverityFontColor (overallRisk issue) in
  let headerColor := lit "F5A623" in
  mkTable CONTENT_WIDTH [ISSUE_COL_WIDTH; SEVERITY_COL_WIDTH]
    ([ [ textCell (lit "Issue") true (Some (lit "FFFFFF")) false
                  ISSUE_COL_WIDTH (Some headerColor);
         textCell (lit "Severity") true (Some (lit "FFFFFF")) true
                  SEVERITY_COL_WIDTH (Some headerColor) ];
       [ textCell (title issue) false None false ISSUE_COL_WIDTH None;
         textCell (orElse (overallRisk issue) (lit "N/A")) false
                  (Some severityFontColor) true SEVERITY_COL_WIDTH
                  (Some severityBg) ] ]
     ++ map (fun row =>
               let extraSevBg := getSeverityColorHex (row_severity row) in
               let extraSevFont := getSeverityFontColor (row_severity row) in
               [ textCell (orElse (row_title row) []) false None false
                          ISSUE_COL_WIDTH None;
                 textCell (orElse (row_severity row) (lit "N/A")) false
                          (Some extraSevFont) true SEVERITY_COL_WIDTH
                          (Some extraSevBg) ])
            (extraRows issue)).

(** [language.charAt(0).toUpperCase() + language.slice(1)]. *)
Definition capitalized (language : str) : str :=
  toUpperCase (firstn 1 language) ++ skipn 1 language.

Definition codeLine (line : str) : Paragraph :=
  paragraph
    [RunChild (mkStyledRun (mkRun (orElse line (lit " "))
                                  (Some (lit "Courier New")) (Some 18%Z) None
                                  false false)
                           (Some (lit "333333")) false)]
    (Some (mkSpacing None (Some 0%Z) (Some 276%Z))).

Definition createCodeBlock (codeText language : str) : Table :=
  let codeLines := splitLines codeText in
  let label :=
    if truthy language then
      [ paragraph
          [RunChild (mkStyledRun (mkRun (capitalized language)
                                        (Some (lit "Calibri")) (Some 18%Z) None
                                        false true)
                                 (Some (lit "666666")) false)]
          (Some (mkSpacing None (Some 60%Z) None)) ]
    else [] in
  let codeParagraphs := label ++ map codeLine codeLines in
  let codeBorder := mkBorder 1 (lit "E0E0E0") None in
  mkTable CONTENT_WIDTH [CONTENT_WIDTH]
    [ [ mkCell codeParagraphs CONTENT_WIDTH (Some (lit "F5F5F5")) codeBorder
               (Some (mkMargins (convertInchesToTwip (1 # 10))
                                (convertInchesToTwip (1 # 10))
                                (convertInchesToTwip (15 # 100))
                                (convertInchesToTwip (15 # 100)))) ] ].

Definition bookmarkId (issue : Issue) : str := lit "issue_" ++ ofZ (_id issue).

(** The link of an issue in the table of contents. *)
Definition tocLink (issue : Issue) : ParagraphChild :=
  InternalHyperlink (bookmarkId issue)
    [ mkStyledRun (mkRun (orElse (findingId issue) emDash)
                         (Some (lit "Calibri")) (Some 21%Z) None true false)
                  (Some (lit "2980B9")) true;
      mkStyledRun (mkRun (lit "  ") (Some (lit "Calibri")) (Some 21%Z) None
                         false false)
                  None false;
      mkStyledRun (mkRun (orElse (title issue)
                            (orElse (component issue) (lit "Untitled")))
                         (Some (lit "Calibri")) (Some 21%Z) None false false)
                  (Some (lit "2980B9")) true ].

(** The entry of an issue in the table of contents. *)
Definition tocEntry (issue : Issue) : Paragraph :=
  let severityBg := getSeverityColorHex (overallRisk issue) in
  let severityFont := getSeverityFontColor (overallRisk issue) in
  mkParagraph
    [ tocLink issue;
      RunChild (mkStyledRun (mkRun (lit "   ") (Some (lit "Calibri"))
                                   (Some 21%Z) None false false)
                            None false);
      RunChild (mkStyledRun (mkRun (lit " " ++ orElse (overallRisk issue) (lit "N/A")
                                    ++ lit " ")
                                   (Some (lit "Calibri")) (Some 20%Z)
                                   (Some severityBg) false false)
                            (Some severityFont) false) ]
    false (Some (mkSpacing None (Some 60%Z) None))
    (Some (convertInchesToTwip (1 # 4))) false false None.

(** The heading of a category in the table of contents, and its
    entries. *)
Definition tocGroup (group : GroupedCategory) : list Paragraph :=
  paragraph
    [ RunChild (mkStyledRun (mkRun (g_category group) (Some (lit "Calibri"))
                                   (Some 26%Z) None true false)
                            (Some (lit "1A1A2E")) false);
      RunChild (mkStyledRun (mkRun (lit " (" ++ ofNat (length (g_issues group))
                                    ++ lit ")")
                                   (Some (lit "Calibri")) (Some 22%Z) None
                                   false false)
                            (Some (lit "888888")) false) ]
    (Some (mkSpacing (Some 240%Z) (Some 100%Z) None))
  :: map tocEntry (g_issues group).

Definition createTocPage (grouped : list GroupedCategory) : list Paragraph :=
  mkParagraph
    [ RunChild (mkStyledRun (mkRun (lit "Table of Contents")
                                   (Some (lit "Calibri")) (Some 40%Z) None
                                   true false)
                            (Some (lit "1A1A2E")) false) ]
    false (Some (mkSpacing None (Some 300%Z) None)) None false false
    (Some (mkBorder 6 (lit "F5A623") (Some 8%Z)))
  :: flat_map tocGroup grouped.

(** [new Paragraph({ spacing: { after: 100 }, children: [] })]. *)
Definition spacer : DocxChild :=
  OfParagraph (paragraph [] (Some (mkSpacing None (Some 100%Z) None))).

(** A labelled section of a page, left out when its text is empty. *)
Definition blockSection (label : string) (text : str) : list DocxChild :=
  if truthy text
  then OfParagraph (sectionLabel (lit label))
       :: map OfParagraph (blockToParagraphs text 0)
  else [].

(** The heading of the page of an issue, the target of its link. *)
Definition pageBookmark (issue : Issue) : ParagraphChild :=
  Bookmark (bookmarkId issue)
    [ mkStyledRun (mkRun (orElse (component issue) (title issue))
                         (Some (lit "Calibri")) (Some 32%Z) None true false)
                  None false ].

(** The children [buildDocument] pushes for one issue. *)
Definition issuePage (issue : Issue) : list DocxChild :=
  [ OfParagraph (paragraph [PageBreak] None);
    OfParagraph
      (mkParagraph [pageBookmark issue]
         false (Some (mkSpacing None (Some 120%Z) None)) None true false None);
    OfParagraph
      (paragraph
         [ RunChild (mkStyledRun (mkRun (lit "ID: " ++ findingId issue)
                                        (Some (lit "Calibri")) (Some 24%Z) None
                                        true false)
                                 None false) ]
         (Some (mkSpacing None (Some 200%Z) None)));
    OfTable (createIssueTable issue);
    spacer ]
  ++ blockSection "Impact details:" (impactDetails issue)
  ++ blockSection "Description:" (description issue)
  ++ (if truthy (codeExample issue)
      then [ OfParagraph (sectionLabel (lit "Code example:"));
             OfTable (createCodeBlock (codeExample issue) (codeLanguage issue));
             spacer ]
      else [])
  ++ blockSection "Example issue scenario:" (exampleScenario issue)
  ++ blockSection "Recommendation:" (recommendation issue).

Definition footerParagraph : Paragraph :=
  mkParagraph
    [ PageNumber false 20 (lit "Calibri") (lit "999999");
      RunChild (mkStyledRun (mkRun (lit " / ") (Some (lit "Calibri"))
                                   (Some 20%Z) None false false)
                            (Some (lit "999999")) false);
      PageNumber true 20 (lit "Calibri") (lit "999999") ]
    false None None false true None.

Definition buildDocument (issues : list Issue) : Document :=
  let grouped := groupByCategory localeCompare issues in
  let children :=
    map OfParagraph (createTocPage grouped)
    ++ flat_map (fun group => flat_map issuePage (g_issues group)) grouped in
  mkDocument PAGE_WIDTH_TWIPS 16838
    (mkMargins MARGIN_TWIPS MARGIN_TWIPS MARGIN_TWIPS MARGIN_TWIPS)
    footerParagraph children.

End Generator.

(** ** Links and their targets *)

Definition anchorsOf (c : ParagraphChild) : list str :=
  match c with InternalHyperlink anchor _ => [anchor] | _ => [] end.

Definition bookmarksOf (c : ParagraphChild) : list str :=
  match c with Bookmark id _ => [id] | _ => [] end.

Definition pageBreaksOf (c : ParagraphChild) : list unit :=
  match c with PageBreak => [tt] | _ => [] end.

(** What [pick] finds in the paragraphs among [l], in their order. *)
Definition picked {A} (pick : ParagraphChild -> list A) (l : list DocxChild)
  : list A :=
  flat_map (fun c => match c with
                     | OfParagraph p => flat_map pick (children p)
                     | OfTable _ => []
                     end) l.

Definition collect {A} (pick : ParagraphChild -> list A) (d : Document)
  : list A := picked pick (body d).

(** A pick that finds nothing in a plain run. *)
Definition skipsRuns {A} (pick : ParagraphChild -> list A) : Prop :=
  forall r, pick (RunChild r) = [].

End Docx.

(* ================================================================== *)
(** * Stretches of inline markup *)
(* ================================================================== *)

(** The characters of a text or of the content of a span: any but the
    backtick, the asterisk and the opening bracket, which start a span or
    a link. *)
Definition isSpanChar (c : ascii) : bool :=
  isNot BACKTICK c && isNot STAR c && isNot LBRACKET c.

(** A text, or a link whose text has no closing bracket and whose
    destination has no closing parenthesis, neither of them empty. *)
Definition plainPieceOk (p : Piece) : bool :=
  match p with
  | PText s => forallb isSpanChar s
  | PLink txt url =>
      truthy txt && truthy url
      && forallb isSpanChar txt && forallb (isNot RBRACKET) txt
      && forallb isSpanChar url && forallb (isNot RPAREN) url
  end.

(** A stretch of input: text with links, or a code, bold or italic span
    with its content. *)
Inductive Span :=
  | SPlain (ps : list Piece)
  | SCode (c : str)
  | SBold (b : str)
  | SItalic (i : str).

Definition spanOk (s : Span) : bool :=
  match s with
  | SPlain ps => forallb plainPieceOk ps && truthy (sourceOf ps)
  | SCode t | SBold t | SItalic t => truthy t && forallb isSpanChar t
  end.

(** No text follows a text (the two would be one stretch), and no italic
    span follows an italic span without anything in between. *)
Fixpoint separated (l : list Span) : bool :=
  match l with
  | [] => true
  | s :: rest =>
      match s, rest with
      | SPlain _, SPlain _ :: _ => false
      | SItalic _, SItalic _ :: _ => false
      | _, _ => separated rest
      end
  end.

Definition spanSource (s : Span) : str :=
  match s with
  | SPlain ps => sourceOf ps
  | SCode c => [BACKTICK] ++ c ++ [BACKTICK]
  | SBold b => [STAR; STAR] ++ b ++ [STAR; STAR]
  | SItalic i => [STAR] ++ i ++ [STAR]
  end.

Definition spansSource (l : list Span) : str := flat_map spanSource l.

(** The run of a stretch: every link of a text stands for its text. *)
Definition spanRun (s : Span) : TextRun :=
  match s with
  | SPlain ps => plainRun (visibleText ps)
  | SCode c => codeRun c
  | SBold b => boldRun b
  | SItalic i => italicRun i
  end.

Definition escapePiece (p : Piece) : Piece :=
  match p with
  | PText s => PText (escapeHtml s)
  | PLink txt url => PLink (escapeHtml txt) (escapeHtml url)
  end.

(** The HTML of a stretch, with the characters of HTML escaped and
    every link rendered by [wrap]. *)
Definition spanHtml (wrap : str -> str -> str) (s : Span) : str :=
  match s with
  | SPlain ps => renderWith wrap (map escapePiece ps)
  | SCode c => tag "code" (escapeHtml c)
  | SBold b => tag "strong" (escapeHtml b)
  | SItalic i => tag "em" (escapeHtml i)
  end.

Definition spansHtml (wrap : str -> str -> str) (l : list Span) : str :=
  flat_map (spanHtml wrap) l.

Definition isText (p : Piece) : bool :=
  match p with PText _ => true | PLink _ _ => false end.

(** No stretch holds a link. *)
Definition linkFree (l : list Span) : bool :=
  forallb (fun s => match s with SPlain ps => forallb isText ps | _ => true end) l.

Definition sampleSpans : list Span :=
  [ SPlain [PText (lit "See "); PLink (lit "R&D") (lit "https://example.org/?a=1&b=2");
            PText (lit " (p. 3 < 4), ")];
    SCode (lit "config.yml"); SPlain [PText (lit " and ")];
    SBold (lit "danger"); SItalic (lit "now") ].


(* ================================================================== *)
(** * Facts about strings *)
(* ================================================================== *)

Lemma eqb_spec (a b : str) : JsString.eqb a b = true <-> a = b.
Proof.
  revert b; induction a as [|x a IH]; intros [|y b]; simpl;
    try (split; [discriminate | congruence]); try tauto.
  rewrite andb_true_iff, Ascii.eqb_eq, IH.
  split; [intros [-> ->]; reflexivity | intros H; inversion H; auto].
Qed.

Lemma eqb_refl (a : str) : JsString.eqb a a = true.
Proof. apply eqb_spec; reflexivity. Qed.

Lemma eqb_neq (a b : str) : JsString.eqb a b = false <-> a <> b.
Proof.
  rewrite <- eqb_spec. destruct (JsString.eqb a b); split; congruence.
Qed.

Lemma lowerChar_not_upper (c : ascii) : isUpper (lowerChar c) = false.
Proof.
  destruct c as [[] [] [] [] [] [] [] []]; reflexivity.
Qed.

Lemma toLowerCase_not_upper (s : str) (c : ascii) :
  In c (toLowerCase s) -> isUpper c = false.
Proof.
  unfold toLowerCase. rewrite in_map_iff.
  intros (d & <- & _). apply lowerChar_not_upper.
Qed.

(* ================================================================== *)
(** * Facts about the sort *)
(* ================================================================== *)

Section SortFacts.
Context {A : Type}.
Variable comparefn : A -> A -> jsnum.

Lemma insert_perm (x : A) (l : list A) :
  Permutation (insert comparefn x l) (x :: l).
Proof.
  induction l as [|y l IH]; simpl; auto.
  destruct (Z.leb _ 0); auto.
  rewrite IH. apply perm_swap.
Qed.

Lemma sort_perm (l : list A) : Permutation (sort comparefn l) l.
Proof.
  induction l as [|x l IH]; simpl; auto.
  rewrite insert_perm. auto.
Qed.

Lemma sort_nil_inv (l : list A) : sort comparefn l = [] -> l = [].
Proof.
  intros H. apply Permutation_nil. rewrite <- H. apply sort_perm.
Qed.

(** The comparator only matters on the elements of the list. *)
Lemma insert_ext (g : A -> A -> jsnum) (x : A) (l : list A) :
  (forall y, In y l -> comparefn x y = g x y) ->
  insert comparefn x l = insert g x l.
Proof.
  induction l as [|y l IH]; simpl; intros H; auto.
  unfold sortCompare. rewrite (H y) by auto.
  destruct (Z.leb _ 0); auto. f_equal. apply IH. auto.
Qed.

Lemma sort_ext (g : A -> A -> jsnum) (l : list A) :
  (forall x y, In x l -> In y l -> comparefn x y = g x y) ->
  sort comparefn l = sort g l.
Proof.
  induction l as [|x l IH]; simpl; intros H; auto.
  rewrite <- IH by auto.
  apply insert_ext. intros y Hy. apply H; auto.
  right. apply (Permutation_in _ (sort_perm l)). exact Hy.
Qed.

End SortFacts.

(** Sorting by a numeric key: the comparator is [key a - key b]. *)
Section SortByKey.
Context {A : Type}.
Variable key : A -> Z.

Definition byKey (a b : A) : jsnum := Num (key a - key b).

Definition keyLe (a b : A) : Prop := (key a <= key b)%Z.

Lemma sortCompare_byKey (a b : A) : sortCompare byKey a b = (key a - key b)%Z.
Proof. reflexivity. Qed.

Lemma insert_byKey_sorted (x : A) (l : list A) :
  Sorted keyLe l -> Sorted keyLe (insert byKey x l).
Proof.
  induction l as [|y l IH]; simpl; intros Hs.
  - repeat constructor.
  - rewrite sortCompare_byKey.
    destruct (Z.leb_spec (key x - key y) 0) as [Hle|Hgt].
    + constructor; auto. constructor. unfold keyLe. lia.
    + inversion Hs as [|? ? Hs' Hhd]; subst.
      constructor; auto.
      destruct l as [|z l]; simpl.
      * constructor. unfold keyLe. lia.
      * rewrite sortCompare_byKey.
        destruct (Z.leb_spec (key x - key z) 0).
        -- constructor. unfold keyLe. lia.
        -- constructor. inversion Hhd; auto.
Qed.

Lemma sort_byKey_sorted (l : list A) : Sorted keyLe (sort byKey l).
Proof.
  induction l as [|x l IH]; simpl.
  - constructor.
  - apply insert_byKey_sorted, IH.
Qed.

(** Stability: the elements of any one key keep their relative order. *)
Lemma insert_byKey_filter (k : Z) (x : A) (l : list A) :
  Sorted keyLe l ->
  filter (fun a => Z.eqb (key a) k) (insert byKey x l)
  = filter (fun a => Z.eqb (key a) k) (x :: l).
Proof.
  induction l as [|y l IH]; intros Hs; auto.
  cbn [insert]. rewrite sortCompare_byKey.
  destruct (Z.leb_spec (key x - key y) 0) as [Hle|Hgt]; auto.
  inversion Hs; subst.
  change (filter ?f (y :: ?t)) with (if f y then y :: filter f t else filter f t).
  rewrite IH by auto.
  simpl. destruct (Z.eqb_spec (key y) k), (Z.eqb_spec (key x) k); auto. lia.
Qed.

Lemma sort_byKey_stable (k : Z) (l : list A) :
  filter (fun a => Z.eqb (key a) k) (sort byKey l)
  = filter (fun a => Z.eqb (key a) k) l.
Proof.
  induction l as [|x l IH]; auto.
  cbn [sort]. rewrite insert_byKey_filter by apply sort_byKey_sorted.
  cbn [filter]. rewrite IH. reflexivity.
Qed.

End SortByKey.

(* ================================================================== *)
(** * Severity rank *)
(* ================================================================== *)

Lemma orElse_nil (s : str) : orElse s [] = s.
Proof. destruct s; reflexivity. Qed.

Lemma lowered_neq_upper (x k : str) (c : ascii) :
  In c k -> isUpper c = true -> JsString.eqb (toLowerCase x) k = false.
Proof.
  intros Hin Hup. apply eqb_neq. intros E. rewrite <- E in Hin.
  apply toLowerCase_not_upper in Hin. congruence.
Qed.

(** The only names of [Object.prototype] a lowercased string can hit. *)
Definition hitsPrototype (s : str) : Prop :=
  toLowerCase s = lit "constructor" \/ toLowerCase s = lit "__proto__".

Lemma severityRank_numeric (s : str) :
  ~ hitsPrototype s -> severityRank s = VNum (severityRank_spec s).
Proof.
  unfold hitsPrototype, severityRank, severityRank_spec, getProperty.
  rewrite orElse_nil. intros Hn. cbn [SEVERITY_ORDER ownLookup].
  repeat (match goal with
          | |- context [if JsString.eqb ?a ?b then _ else _] =>
              destruct (JsString.eqb a b); [reflexivity|]
          end).
  cbn [objectPrototypeKeys map existsb].
  assert (Hc : JsString.eqb (toLowerCase s) (lit "constructor") = false).
  { apply eqb_neq. tauto. }
  assert (Hp : JsString.eqb (toLowerCase s) (lit "__proto__") = false).
  { apply eqb_neq. tauto. }
  rewrite Hc, Hp.
  rewrite (lowered_neq_upper s (lit "__defineGetter__") "G"),
          (lowered_neq_upper s (lit "__defineSetter__") "S"),
          (lowered_neq_upper s (lit "hasOwnProperty") "O"),
          (lowered_neq_upper s (lit "__lookupGetter__") "G"),
          (lowered_neq_upper s (lit "__lookupSetter__") "S"),
          (lowered_neq_upper s (lit "isPrototypeOf") "P"),
          (lowered_neq_upper s (lit "propertyIsEnumerable") "I"),
          (lowered_neq_upper s (lit "toString") "S"),
          (lowered_neq_upper s (lit "valueOf") "O"),
          (lowered_neq_upper s (lit "toLocaleString") "L");
    try reflexivity; simpl; tauto.
Qed.

(* ================================================================== *)
(** * The grouping map *)
(* ================================================================== *)

Lemma map_has_In (m : IssueMap) (k : str) :
  map_has m k = true <-> In k (map fst m).
Proof.
  induction m as [|[k' v] m IH]; simpl.
  - split; [discriminate | tauto].
  - rewrite orb_true_iff, IH, eqb_spec. tauto.
Qed.

Lemma map_has_false (m : IssueMap) (k : str) :
  map_has m k = false <-> ~ In k (map fst m).
Proof.
  rewrite <- map_has_In. destruct (map_has m k); split; congruence.
Qed.

Lemma groupStep_new (m : IssueMap) (x : Issue) :
  map_has m (effectiveCategory x) = false ->
  groupStep m x = m ++ [(effectiveCategory x, [x])].
Proof.
  unfold groupStep. intros H. rewrite H.
  induction m as [|[k' v] m IH]; simpl in *.
  - rewrite eqb_refl. reflexivity.
  - apply orb_false_iff in H as [H1 H2].
    rewrite H1. simpl. rewrite H1. f_equal. apply IH. exact H2.
Qed.

Lemma groupStep_old (m : IssueMap) (x : Issue) :
  map_has m (effectiveCategory x) = true ->
  exists m1 v m2,
    m = m1 ++ (effectiveCategory x, v) :: m2 /\
    groupStep m x = m1 ++ (effectiveCategory x, v ++ [x]) :: m2.
Proof.
  unfold groupStep. intros H. rewrite H.
  induction m as [|[k' v] m IH]; simpl in *; [discriminate|].
  destruct (JsString.eqb k' (effectiveCategory x)) eqn:E.
  - apply eqb_spec in E. subst k'. exists [], v, m. auto.
  - simpl in H. destruct (IH H) as (m1 & v1 & m2 & -> & ->).
    exists ((k', v) :: m1), v1, m2. auto.
Qed.

(** What holds of the map after the issues [done] have been read. *)
Record GroupInv (m : IssueMap) (done : list Issue) : Prop := {
  gi_perm : Permutation (concat (map snd m)) done;
  gi_nodup : NoDup (map fst m);
  gi_filter : forall k v, In (k, v) m ->
      v <> [] /\
      v = filter (fun i => JsString.eqb (effectiveCategory i) k) done
}.

Lemma GroupInv_nil : GroupInv [] [].
Proof. split; simpl; auto using NoDup_nil. tauto. Qed.

Lemma filter_none {A} (f : A -> bool) (l : list A) :
  (forall x, In x l -> f x = false) -> filter f l = [].
Proof.
  induction l as [|y l IH]; simpl; intros H; auto.
  rewrite (H y) by auto. apply IH. auto.
Qed.

Lemma NoDup_snoc {A} (l : list A) (x : A) :
  NoDup l -> ~ In x l -> NoDup (l ++ [x]).
Proof.
  intros Hn Hx. apply NoDup_rev in Hn.
  rewrite <- (rev_involutive (l ++ [x])). apply NoDup_rev.
  rewrite rev_app_distr. simpl. constructor; auto.
  rewrite <- in_rev. exact Hx.
Qed.

Lemma filter_snoc {A} (f : A -> bool) (l : list A) (x : A) :
  filter f (l ++ [x]) = filter f l ++ (if f x then [x] else []).
Proof. rewrite filter_app. reflexivity. Qed.

Lemma GroupInv_covered (m : IssueMap) (done : list Issue) (i : Issue) :
  GroupInv m done -> In i done -> In (effectiveCategory i) (map fst m).
Proof.
  intros [Hp _ Hf] Hi.
  apply (Permutation_in _ (Permutation_sym Hp)) in Hi.
  apply in_concat in Hi as (v & Hv & Hiv).
  apply in_map_iff in Hv as ([k v'] & <- & Hkv). simpl in Hiv.
  destruct (Hf _ _ Hkv) as [_ Hv]. rewrite Hv in Hiv.
  apply filter_In in Hiv as [_ E]. apply eqb_spec in E. rewrite E.
  apply in_map_iff. exists (k, v'). auto.
Qed.

Lemma GroupInv_step (m : IssueMap) (done : list Issue) (x : Issue) :
  GroupInv m done -> GroupInv (groupStep m x) (done ++ [x]).
Proof.
  intros Inv. pose proof Inv as [Hp Hn Hf].
  destruct (map_has m (effectiveCategory x)) eqn:Hhas.
  - destruct (groupStep_old m x Hhas) as (m1 & v & m2 & Em & ->).
    subst m. split.
    + rewrite map_app, concat_app in *. simpl in *.
      rewrite <- Hp. rewrite <- !app_assoc.
      apply Permutation_app_head.
      rewrite (app_assoc v (concat (map snd m2)) [x]).
      rewrite <- app_assoc.
      apply Permutation_app_head. apply Permutation_app_comm.
    + rewrite map_app in *. exact Hn.
    + intros k w Hin. rewrite filter_snoc.
      apply in_app_or in Hin as [Hin | [Hin | Hin]].
      * destruct (Hf k w) as [Hne Hw]; [apply in_or_app; auto|].
        split; auto.
        destruct (JsString.eqb (effectiveCategory x) k) eqn:E.
        -- exfalso. apply eqb_spec in E. subst k.
           rewrite map_app in Hn. simpl in Hn.
           apply NoDup_remove_2 in Hn. apply Hn. apply in_or_app. left.
           apply in_map_iff. exists (effectiveCategory x, w). auto.
        -- rewrite app_nil_r. exact Hw.
      * inversion Hin; subst k w. rewrite eqb_refl.
        destruct (Hf (effectiveCategory x) v) as [Hne Hw];
          [apply in_or_app; simpl; auto|].
        split; [destruct v; discriminate | congruence].
      * destruct (Hf k w) as [Hne Hw]; [apply in_or_app; simpl; auto|].
        split; auto.
        destruct (JsString.eqb (effectiveCategory x) k) eqn:E.
        -- exfalso. apply eqb_spec in E. subst k.
           rewrite map_app in Hn. simpl in Hn.
           apply NoDup_remove_2 in Hn. apply Hn. apply in_or_app. right.
           apply in_map_iff. exists (effectiveCategory x, w). auto.
        -- rewrite app_nil_r. exact Hw.
  - rewrite (groupStep_new m x Hhas).
    apply map_has_false in Hhas. split.
    + rewrite map_app, concat_app. simpl.
      apply Permutation_app_tail. exact Hp.
    + rewrite map_app. simpl.
      apply NoDup_snoc; auto.
    + intros k w Hin. rewrite filter_snoc.
      apply in_app_or in Hin as [Hin | [Hin | []]].
      * destruct (Hf k w Hin) as [Hne Hw]. split; auto.
        destruct (JsString.eqb (effectiveCategory x) k) eqn:E.
        -- exfalso. apply eqb_spec in E. subst k. apply Hhas.
           apply in_map_iff. exists (effectiveCategory x, w). auto.
        -- rewrite app_nil_r. exact Hw.
      * inversion Hin; subst k w. rewrite eqb_refl.
        split; [discriminate|].
        replace (filter _ done) with (@nil Issue); auto.
        symmetry. apply filter_none.
        intros i Hi. apply eqb_neq. intros E. apply Hhas. rewrite <- E.
        eapply GroupInv_covered; eauto.
Qed.

Lemma fold_GroupInv (issues : list Issue) :
  forall m done, GroupInv m done ->
  GroupInv (fold_left groupStep issues m) (done ++ issues).
Proof.
  induction issues as [|x issues IH]; intros m done Inv; simpl.
  - rewrite app_nil_r. exact Inv.
  - replace (done ++ x :: issues) with ((done ++ [x]) ++ issues)
      by (rewrite <- app_assoc; reflexivity).
    apply IH, GroupInv_step, Inv.
Qed.

Lemma grouped_inv (issues : list Issue) :
  GroupInv (fold_left groupStep issues []) issues.
Proof. apply (fold_GroupInv issues [] []), GroupInv_nil. Qed.

Lemma concat_sorted_groups (l : IssueMap) :
  Permutation
    (concat (map g_issues
               (map (fun e => mkGroup (fst e) (sort compareRisk (snd e))) l)))
    (concat (map snd l)).
Proof.
  induction l as [|e l IH]; simpl; auto.
  apply Permutation_app; auto. apply sort_perm.
Qed.

Lemma Permutation_concat_map {A B} (f : A -> list B) (l l' : list A) :
  Permutation l l' -> Permutation (concat (map f l)) (concat (map f l')).
Proof.
  induction 1; simpl; auto.
  - apply Permutation_app_head; auto.
  - rewrite !app_assoc. apply Permutation_app_tail, Permutation_app_comm.
  - etransitivity; eauto.
Qed.

Section GroupingFacts.
Variable localeCompare : str -> str -> Z.

Let entries (issues : list Issue) : IssueMap :=
  sort (compareEntries localeCompare) (fold_left groupStep issues []).

Lemma entries_perm (issues : list Issue) :
  Permutation (entries issues) (fold_left groupStep issues []).
Proof. apply sort_perm. Qed.

Lemma entries_spec (issues : list Issue) (k : str) (v : list Issue) :
  In (k, v) (entries issues) ->
  v <> [] /\ v = filter (fun i => JsString.eqb (effectiveCategory i) k) issues.
Proof.
  intros H. apply (Permutation_in _ (entries_perm issues)) in H.
  exact (gi_filter _ _ (grouped_inv issues) k v H).
Qed.

Lemma groups_of_entries (issues : list Issue) (g : GroupedCategory) :
  In g (groupByCategory localeCompare issues) ->
  exists v, In (g_category g, v) (entries issues) /\
            g_issues g = sort compareRisk v.
Proof.
  unfold groupByCategory. rewrite in_map_iff.
  intros ([k v] & <- & Hin). exists v. simpl. auto.
Qed.

Lemma groupByCategory_perm (issues : list Issue) :
  Permutation (concat (map g_issues (groupByCategory localeCompare issues)))
              issues.
Proof.
  unfold groupByCategory. rewrite concat_sorted_groups.
  etransitivity; [apply Permutation_concat_map, entries_perm|].
  apply (gi_perm _ _ (grouped_inv issues)).
Qed.

(** C10: [groupByCategory] partitions its input: the groups'
    issues, concatenated, are a permutation of the input (nothing dropped,
    nothing duplicated); every group is non-empty; no two groups carry the
    same category name; and every issue sits in the group named by its own
    (effective) category, hence in exactly one group. *)
Theorem groupByCategory_partition (issues : list Issue) :
  let groups := groupByCategory localeCompare issues in
  Permutation (concat (map g_issues groups)) issues /\
  Forall (fun g => g_issues g <> []) groups /\
  NoDup (map g_category groups) /\
  (forall g i, In g groups -> In i (g_issues g) ->
               effectiveCategory i = g_category g).
Proof.
  cbv zeta. repeat split.
  - apply groupByCategory_perm.
  - apply Forall_forall. intros g Hg.
    destruct (groups_of_entries _ _ Hg) as (v & Hin & ->).
    destruct (entries_spec _ _ _ Hin) as [Hne _].
    intros E. apply Hne. eapply sort_nil_inv; eauto.
  - unfold groupByCategory. rewrite map_map. simpl.
    apply (Permutation_NoDup
             (Permutation_sym (Permutation_map fst (entries_perm issues)))).
    apply (gi_nodup _ _ (grouped_inv issues)).
  - intros g i Hg Hi.
    destruct (groups_of_entries _ _ Hg) as (v & Hin & E).
    rewrite E in Hi. apply (Permutation_in _ (sort_perm _ _)) in Hi.
    destruct (entries_spec _ _ _ Hin) as [_ Hv]. rewrite Hv in Hi.
    apply filter_In in Hi as [_ Hi]. apply eqb_spec in Hi. exact Hi.
Qed.

(** C1: an issue whose risk lowercases to a property name of
    [Object.prototype] gets no numeric rank: the comparator yields NaN
    against every other issue, and the issue stays where it was.  With a
    "Constructor" issue ahead of a "Critical" one, the group keeps that
    order, although the ranks the specification gives them (5 and 0) ask
    for the opposite one. *)
Theorem groupByCategory_inherited_rank_unsorted :
  let a := stubIssue 1 "Constructor" "" in
  let b := stubIssue 2 "Critical" "" in
  severityRank (overallRisk a) = VInherited (lit "constructor") /\
  groupByCategory localeCompare [a; b] = [mkGroup (lit "Uncategorized") [a; b]] /\
  (severityRank_spec (overallRisk b) < severityRank_spec (overallRisk a))%Z.
Proof. repeat split. Qed.

End GroupingFacts.

(** Order of the output when the comparators are consistent: the host's
    [localeCompare] is total, and no risk hits an inherited property. *)
Section GroupingOrder.
Variable localeCompare : str -> str -> Z.
Hypothesis localeCompare_total :
  forall a b, (0 < localeCompare a b)%Z -> (localeCompare b a <= 0)%Z.

Definition categoryLe (g h : GroupedCategory) : Prop :=
  (localeCompare (g_category g) (g_category h) <= 0)%Z.

Definition rankOf (i : Issue) : Z := severityRank_spec (overallRisk i).

Lemma insert_entries_sorted (e : str * list Issue) (l : IssueMap) :
  Sorted (fun a b => (localeCompare (fst a) (fst b) <= 0)%Z) l ->
  Sorted (fun a b => (localeCompare (fst a) (fst b) <= 0)%Z)
         (insert (compareEntries localeCompare) e l).
Proof.
  induction l as [|y l IH]; simpl; intros Hs.
  - repeat constructor.
  - unfold sortCompare, compareEntries.
    destruct (Z.leb_spec (localeCompare (fst e) (fst y)) 0) as [Hle|Hgt].
    + constructor; auto.
    + inversion Hs as [|? ? Hs' Hhd]; subst.
      constructor; auto.
      destruct l as [|z l]; simpl.
      * constructor. auto.
      * unfold sortCompare, compareEntries.
        destruct (Z.leb_spec (localeCompare (fst e) (fst z)) 0).
        -- constructor. auto.
        -- constructor. inversion Hhd; auto.
Qed.

Lemma sort_entries_sorted (l : IssueMap) :
  Sorted (fun a b => (localeCompare (fst a) (fst b) <= 0)%Z)
         (sort (compareEntries localeCompare) l).
Proof.
  induction l as [|x l IH]; simpl.
  - constructor.
  - apply insert_entries_sorted, IH.
Qed.

Lemma Sorted_map {A B} (f : A -> B) (R : B -> B -> Prop) (l : list A) :
  Sorted (fun a b => R (f a) (f b)) l -> Sorted R (map f l).
Proof.
  induction 1 as [|a l Hs IH Hhd]; simpl; constructor; auto.
  destruct Hhd; simpl; constructor; auto.
Qed.

Lemma sort_compareRisk_byKey (l : list Issue) :
  Forall (fun i : Issue => ~ hitsPrototype (overallRisk i)) l ->
  sort compareRisk l = sort (byKey rankOf) l.
Proof.
  intros H. apply sort_ext. intros x y Hx Hy.
  rewrite Forall_forall in H.
  unfold compareRisk, byKey, rankOf, jsSub.
  rewrite !severityRank_numeric by auto. reflexivity.
Qed.

(** Categories come out in [localeCompare] order; inside a category the
    issues are in rank order, and the issues of one rank keep the order
    they had in the input. *)
Theorem groupByCategory_ordered (issues : list Issue) :
  Forall (fun i : Issue => ~ hitsPrototype (overallRisk i)) issues ->
  let groups := groupByCategory localeCompare issues in
  Sorted categoryLe groups /\
  (forall g, In g groups ->
     Sorted (keyLe rankOf) (g_issues g) /\
     forall k,
       filter (fun i => Z.eqb (rankOf i) k) (g_issues g)
       = filter (fun i => Z.eqb (rankOf i) k)
           (filter (fun i => JsString.eqb (effectiveCategory i) (g_category g))
                   issues)).
Proof.
  intros Hnum. cbv zeta. split.
  - unfold groupByCategory, categoryLe. apply Sorted_map. simpl.
    apply sort_entries_sorted.
  - intros g Hg.
    destruct (groups_of_entries _ _ _ Hg) as (v & Hin & E).
    destruct (entries_spec _ _ _ _ Hin) as [_ Hv].
    assert (Hv' : Forall (fun i : Issue => ~ hitsPrototype (overallRisk i)) v).
    { rewrite Hv. apply Forall_forall. intros i Hi.
      apply filter_In in Hi as [Hi _].
      rewrite Forall_forall in Hnum. auto. }
    rewrite E, (sort_compareRisk_byKey v Hv'). split.
    + apply sort_byKey_sorted.
    + intros k. rewrite sort_byKey_stable, Hv. reflexivity.
Qed.

End GroupingOrder.

(* ================================================================== *)
(** * Reindexing *)
(* ================================================================== *)

Lemma findingId_setFindingId (v : str) (i : Issue) :
  findingId (setFindingId v i) = v /\ _id (setFindingId v i) = _id i.
Proof. destruct i as [id []]. split; reflexivity. Qed.

Lemma map_id_relabel (f : Issue -> option str) (issues : list Issue) :
  map _id (map (fun iss => match f iss with
                           | Some v => setFindingId v iss
                           | None => iss
                           end) issues)
  = map _id issues.
Proof.
  rewrite map_map. apply map_ext. intros i.
  destruct (f i); reflexivity.
Qed.

Section ReindexFacts.
Variable localeCompare : str -> str -> Z.

(** C8: with the issues grouped into two categories of two and three
    issues, reindexing with the prefix "ABC" gives the first category's
    issues the identifiers ABC-0001 and ABC-0002 and the second category's
    issues ABC-1001, ABC-1002 and ABC-1003, in the grouped order; the
    list keeps its issues and their order. *)
Theorem reindex_two_categories (issues : list Issue) (a b c d e : Issue)
  (cat1 cat2 : str) :
  NoDup (map _id issues) ->
  groupByCategory localeCompare issues
    = [mkGroup cat1 [a; b]; mkGroup cat2 [c; d; e]] ->
  let result := reindexFindingIds localeCompare issues (Some (lit "ABC")) in
  map _id result = map _id issues /\
  forall x, In x result ->
    (_id x = _id a -> findingId x = lit "ABC-0001") /\
    (_id x = _id b -> findingId x = lit "ABC-0002") /\
    (_id x = _id c -> findingId x = lit "ABC-1001") /\
    (_id x = _id d -> findingId x = lit "ABC-1002") /\
    (_id x = _id e -> findingId x = lit "ABC-1003").
Proof.
  intros Hnd Hg. cbv zeta. unfold reindexFindingIds.
  change (orElse (trim (lit "ABC")) (detectPrefix issues (lit "ABC")))
    with (lit "ABC").
  rewrite Hg. split; [apply map_id_relabel|].
  assert (Hids : NoDup (map _id [a; b; c; d; e])).
  { pose proof (groupByCategory_perm localeCompare issues) as Hp.
    rewrite Hg in Hp. simpl in Hp.
    apply (Permutation_NoDup (Permutation_sym (Permutation_map _id Hp))), Hnd. }
  intros x Hx. apply in_map_iff in Hx as (y & <- & Hy).
  assert (Hin : In y [a; b; c; d; e]).
  { pose proof (groupByCategory_perm localeCompare issues) as Hp.
    rewrite Hg in Hp. simpl in Hp.
    apply (Permutation_in _ (Permutation_sym Hp)), Hy. }
  cbn [numberGroups numberIssues g_issues idMap_set idMap_get].
  change (newFindingId (lit "ABC") 0 0) with (lit "ABC-0001").
  change (newFindingId (lit "ABC") 0 1) with (lit "ABC-0002").
  change (newFindingId (lit "ABC") 1 0) with (lit "ABC-1001").
  change (newFindingId (lit "ABC") 1 1) with (lit "ABC-1002").
  change (newFindingId (lit "ABC") 1 2) with (lit "ABC-1003").
  simpl in Hids.
  repeat match goal with
         | H : NoDup (_ :: _) |- _ => inversion H; clear H; subst
         end.
  cbn [In] in *.
  destruct Hin as [<-|[<-|[<-|[<-|[<-|[]]]]]];
    rewrite ?Z.eqb_refl;
    repeat match goal with
           | |- context [Z.eqb ?u ?v] =>
               destruct (Z.eqb_spec u v); [exfalso; intuition congruence|]
           end;
    repeat split; intros E; cbn [_id setFindingId] in E;
    try apply findingId_setFindingId; exfalso; intuition congruence.
Qed.

End ReindexFacts.

(** The scenario on five concrete issues, sorted with the sample
    collation: "Access" holds the issues 12 and 14, "Network" the issues
    13, 11 and 15. *)
Lemma reindex_two_categories_witness :
  let result := reindexFindingIds codeUnitCompare sampleIssues (Some (lit "ABC")) in
  map _id result = map _id sampleIssues /\
  forall x, In x result ->
    (_id x = 12%Z -> findingId x = lit "ABC-0001") /\
    (_id x = 14%Z -> findingId x = lit "ABC-0002") /\
    (_id x = 13%Z -> findingId x = lit "ABC-1001") /\
    (_id x = 11%Z -> findingId x = lit "ABC-1002") /\
    (_id x = 15%Z -> findingId x = lit "ABC-1003").
Proof.
  apply (reindex_two_categories codeUnitCompare sampleIssues
           (stubIssue 12 "High" "Access") (stubIssue 14 "High" "Access")
           (stubIssue 13 "Critical" "Network") (stubIssue 11 "Low" "Network")
           (stubIssue 15 "Low" "Network") (lit "Access") (lit "Network")).
  - simpl. repeat constructor; simpl; intuition discriminate.
  - reflexivity.
Defined.

Example reindex_sample :
  map (fun i : Issue => (_id i, string_of_list_ascii (findingId i)))
      (reindexFindingIds codeUnitCompare sampleIssues (Some (lit "ABC")))
  = [ (11, "ABC-1002"); (12, "ABC-0001"); (13, "ABC-1001");
      (14, "ABC-0002"); (15, "ABC-1003") ]%Z%string.
Proof. reflexivity. Qed.

Lemma codeUnitCompare_total (a b : str) :
  (0 < codeUnitCompare a b)%Z -> (codeUnitCompare b a <= 0)%Z.
Proof.
  revert b. induction a as [|x a IH]; intros [|y b]; simpl; try lia.
  rewrite (N.compare_antisym (code x) (code y)).
  destruct (N.compare (code x) (code y)); simpl; try lia. apply IH.
Qed.

(** The order of the groups of the five sample issues under the sample
    collation. *)
Lemma groupByCategory_ordered_witness :
  let groups := groupByCategory codeUnitCompare sampleIssues in
  Sorted (categoryLe codeUnitCompare) groups /\
  (forall g, In g groups ->
     Sorted (keyLe rankOf) (g_issues g) /\
     forall k,
       filter (fun i => Z.eqb (rankOf i) k) (g_issues g)
       = filter (fun i => Z.eqb (rankOf i) k)
           (filter (fun i => JsString.eqb (effectiveCategory i) (g_category g))
                   sampleIssues)).
Proof.
  apply (groupByCategory_ordered codeUnitCompare codeUnitCompare_total
           sampleIssues).
  repeat constructor; intros [H|H]; discriminate H.
Defined.

Example groupByCategory_sample :
  map (fun g => (string_of_list_ascii (g_category g), map _id (g_issues g)))
      (groupByCategory codeUnitCompare sampleIssues)
  = [ ("Access", [12; 14]); ("Network", [13; 11; 15]) ]%string%Z.
Proof. reflexivity. Qed.

(* ================================================================== *)
(** * Severity colours *)
(* ================================================================== *)

Lemma toLowerCase_idem (s : str) : toLowerCase (toLowerCase s) = toLowerCase s.
Proof.
  unfold toLowerCase. rewrite map_map. apply map_ext. intros c.
  unfold lowerChar at 1. rewrite lowerChar_not_upper. reflexivity.
Qed.

Ltac by_level s :=
  repeat (match goal with
          | |- context [JsString.eqb (toLowerCase s) ?k] =>
              let E := fresh "E" in
              destruct (JsString.eqb (toLowerCase s) k) eqn:E; cbn
          end); try reflexivity; try discriminate; auto;
  try (match goal with
       | H : JsString.eqb (toLowerCase s) _ = true |- _ =>
           apply eqb_spec in H; rewrite H in *; discriminate
       end).

Lemma getSeverityColor_lower (s : str) :
  getSeverityColor (toLowerCase s) = getSeverityColor s.
Proof.
  unfold getSeverityColor. rewrite !orElse_nil, toLowerCase_idem. reflexivity.
Qed.

Lemma getSeverityColor_docx (s : str) : getSeverityColor s = docxColor s.
Proof.
  unfold getSeverityColor, docxColor, getSeverityColorHex, getSeverityFontColor.
  rewrite !orElse_nil. by_level s.
Qed.

(** C5 (counterexample): an unrecognized severity gets the default pair,
    whose foreground is the light one, not the dark one. *)
Lemma default_foreground_is_light :
  getSeverityColor (lit "unknown") = defaultColor /\
  text (getSeverityColor (lit "unknown")) = lightForeground /\
  text (getSeverityColor (lit "unknown")) <> darkForeground.
Proof. repeat split. discriminate. Qed.

(** C5 (amended): the colour lookup is fixed and case-insensitive:
    a severity and its lowercase form get the same pair, in particular
    "Critical" and "critical"; an unrecognized severity gets the default
    pair; "low" alone has the dark foreground, every other level and the
    default have the light one; and the DOCX lookup gives the same colours
    on every input. *)
Theorem severity_color_mapping (s : str) :
  getSeverityColor (toLowerCase s) = getSeverityColor s /\
  getSeverityColor (lit "Critical") = getSeverityColor (lit "critical") /\
  (recognized s = true \/ getSeverityColor s = defaultColor) /\
  text (getSeverityColor s)
    = (if JsString.eqb (toLowerCase s) (lit "low")
       then darkForeground else lightForeground) /\
  docxColor s = getSeverityColor s.
Proof.
  split; [apply getSeverityColor_lower|].
  split; [reflexivity|].
  split; [|split; [|symmetry; apply getSeverityColor_docx]].
  - unfold recognized, getSeverityColor. rewrite orElse_nil.
    cbn [recognizedLevels map existsb]. by_level s.
  - unfold getSeverityColor. rewrite orElse_nil. by_level s.
Qed.

(* ================================================================== *)
(** * Translation *)
(* ================================================================== *)

Section TranslateFacts.
Import Translate.
Variable apiKey : option str.
Variable create : Request -> Settled (option str).

(** C9 (amended): the three guards of [translateText], in the order the
    code applies them: when the service is unavailable the call returns
    its text, whatever the language; a blank text is returned unchanged,
    whatever the language; and an empty (or blank) target language is
    rejected with a usage error exactly when the service is available and
    the text is not blank. *)
Theorem translateText_guards (text targetLanguage : str) :
  (translationAvailable apiKey = false ->
     translateText apiKey create text targetLanguage = Resolved text) /\
  (blank text = true ->
     translateText apiKey create text targetLanguage = Resolved text) /\
  (translationAvailable apiKey = true -> blank text = false ->
     blank targetLanguage = true ->
     translateText apiKey create text targetLanguage
       = Rejected (lit "Target language is required")) /\
  (blank targetLanguage = true ->
     translateText apiKey create text targetLanguage
       = Rejected (lit "Target language is required")
     \/ translateText apiKey create text targetLanguage = Resolved text).
Proof.
  unfold translateText.
  destruct (translationAvailable apiKey), (blank text), (blank targetLanguage);
    simpl; repeat split; intros; try discriminate; auto.
Qed.

End TranslateFacts.

(** C9 (counterexample): an empty target language is not rejected when
    the service is unavailable, nor when the text is empty: the call
    returns the text. *)
Lemma empty_language_not_always_rejected :
  let create := fun _ : Translate.Request => Translate.Resolved (Some (lit "Labas")) in
  Translate.translateText None create (lit "Hello") [] = Translate.Resolved (lit "Hello") /\
  Translate.translateText (Some (lit "sk-key")) create [] [] = Translate.Resolved [] /\
  Translate.translateText (Some (lit "sk-key")) create (lit "Hello") []
    = Translate.Rejected (lit "Target language is required").
Proof. repeat split. Qed.

(* ================================================================== *)
(** * Canvas slicing *)
(* ================================================================== *)

Section PdfFacts.
Import Pdf.
Local Open Scope Z_scope.

Lemma stripHeightPx_eq (c : Canvas) :
  stripHeightPx c = (USABLE_HEIGHT * c_width c) / USABLE_WIDTH.
Proof.
  unfold stripHeightPx, pxPerMm. cbn.
  rewrite Z.mul_1_r. reflexivity.
Qed.

Lemma stripHeightPx_pos (c : Canvas) : 0 < c_width c -> 0 < stripHeightPx c.
Proof.
  intros H. rewrite stripHeightPx_eq.
  change USABLE_HEIGHT with 271. change USABLE_WIDTH with 186.
  apply Z.div_str_pos. lia.
Qed.

Lemma stripHeightPx_le_page (c : Canvas) :
  0 < c_width c -> USABLE_WIDTH * stripHeightPx c <= USABLE_HEIGHT * c_width c.
Proof.
  intros H. rewrite stripHeightPx_eq.
  apply Z.mul_div_le. reflexivity.
Qed.

(** The test of the source against the page height, in integers. *)
Lemma fits_iff (c : Canvas) :
  0 < c_width c ->
  mmLe (totalImgHeightMm c) (inject_Z USABLE_HEIGHT) = true
  <-> USABLE_WIDTH * c_height c <= USABLE_HEIGHT * c_width c.
Proof.
  intros Hw. unfold totalImgHeightMm, mmDiv, pxPerMm.
  destruct c as [w h]. cbn [c_width c_height] in *.
  destruct w as [|p|p]; try lia.
  change USABLE_WIDTH with 186; change USABLE_HEIGHT with 271.
  assert (E : Qeq_bool (inject_Z (Z.pos p) / inject_Z 186) 0 = false).
  { unfold Qeq_bool, Qdiv, Qmult, Qinv, inject_Z, Qnum, Qden.
    rewrite !Z.mul_1_r. reflexivity. }
  rewrite E. unfold mmLe. rewrite Qle_bool_iff.
  unfold Qle, Qdiv, Qmult, Qinv, inject_Z, Qnum, Qden.
  rewrite !Z.mul_1_r. cbv beta iota. rewrite !Pos.mul_1_l. lia.
Qed.

Lemma addImage_addPage (pdf : Document) (i : Image) :
  addImage (addPage pdf) i = pdf ++ [[i]].
Proof.
  unfold addImage, addPage. rewrite rev_app_distr. simpl.
  rewrite rev_involutive. reflexivity.
Qed.

Lemma place_later (pdf : Document) (first : bool) (pageIndex : Z)
  (strips : list Image) :
  0 < pageIndex ->
  place pdf first pageIndex strips = pdf ++ map (fun i => [i]) strips.
Proof.
  revert pdf pageIndex.
  induction strips as [|i rest IH]; intros pdf pageIndex Hp; simpl.
  - rewrite app_nil_r. reflexivity.
  - replace (0 <? pageIndex) with true by (symmetry; apply Z.ltb_lt; lia).
    rewrite orb_true_r, addImage_addPage, IH by lia.
    rewrite <- app_assoc. reflexivity.
Qed.

Lemma place_ownPages (pdf : Document) (first : bool) (strips : list Image) :
  place pdf first 0 strips = ownPages pdf first strips.
Proof.
  destruct strips as [|i rest]; simpl; auto.
  rewrite place_later by lia.
  destruct first; simpl; auto. rewrite addImage_addPage. reflexivity.
Qed.

Lemma sliceLoop_spec (c : Canvas) (first : bool) :
  0 < c_width c ->
  forall fuel srcY pageIndex pdf,
    0 <= srcY <= c_height c ->
    (Z.to_nat (c_height c - srcY) <= fuel)%nat ->
    exists strips,
      sliceLoop fuel c first srcY pageIndex pdf
        = Some (place pdf first pageIndex strips,
                pageIndex + Z.of_nat (length strips)) /\
      tiles srcY strips (c_height c) /\
      Forall (stripOk c) strips.
Proof.
  intros Hw.
  pose proof (stripHeightPx_pos c Hw) as Hpos.
  pose proof (stripHeightPx_le_page c Hw) as Hpage.
  induction fuel as [|fuel IH]; intros srcY pageIndex pdf Hy Hf.
  - assert (srcY = c_height c) by lia. subst srcY.
    exists []. simpl. rewrite Z.ltb_irrefl, Z.add_0_r. auto.
  - cbn [sliceLoop].
    destruct (Z.ltb_spec srcY (c_height c)) as [Hlt|Hge].
    + set (h := Z.min (stripHeightPx c) (c_height c - srcY)).
      assert (Hh : 0 < h <= stripHeightPx c /\ h <= c_height c - srcY)
        by (unfold h; lia).
      set (img := mkImage srcY h MARGIN_LEFT MARGIN_TOP USABLE_WIDTH
                          (mmDiv (inject_Z h) (pxPerMm c))).
      destruct (IH (srcY + h) (pageIndex + 1)
                   (addImage (if negb first || (0 <? pageIndex)
                              then addPage pdf else pdf) img))
        as (strips & E & Ht & Hok); try lia.
      exists (img :: strips). rewrite E. cbn [place length tiles].
      repeat split; auto; try (simpl; lia).
      * f_equal. f_equal. lia.
      * constructor; auto. unfold stripOk, img. cbn [src_height].
        change USABLE_WIDTH with 186 in *. change USABLE_HEIGHT with 271 in *.
        lia.
    + assert (srcY = c_height c) by lia. subst srcY.
      exists []. simpl. rewrite Z.add_0_r. auto.
Qed.

Lemma tiles_totalHeight (strips : list Image) :
  forall from to, tiles from strips to -> from + totalHeight strips = to.
Proof.
  induction strips as [|i rest IH]; simpl; intros from to H.
  - lia.
  - destruct H as (_ & _ & H). apply IH in H. lia.
Qed.

(** More fuel does not change a result. *)
Lemma sliceLoop_mono (c : Canvas) (first : bool) (fuel : nat) :
  forall srcY pageIndex pdf r extra,
    sliceLoop fuel c first srcY pageIndex pdf = Some r ->
    sliceLoop (fuel + extra) c first srcY pageIndex pdf = Some r.
Proof.
  induction fuel as [|fuel IH]; intros srcY pageIndex pdf r extra.
  - simpl. destruct extra; simpl; destruct (srcY <? c_height c);
      congruence.
  - cbn [sliceLoop Nat.add]. destruct (srcY <? c_height c); auto.
Qed.

(** C3: a canvas taller than the usable page is cut into successive
    strips.  Whatever the number of strips, and with any fuel that covers
    the height of the canvas, the loop ends; every strip is at most one
    usable page high, in pixels and in millimetres; every strip is placed
    on a page of its own; and the strips tile the rows of the canvas from
    row 0 to the last, without gap or overlap, so their heights add up to
    the height of the canvas. *)
Theorem addCanvasToPdf_slices (pdf : Document) (c : Canvas) (isFirstPage : bool) :
  0 < c_width c ->
  USABLE_HEIGHT * c_width c < USABLE_WIDTH * c_height c ->
  exists strips,
    (forall fuel, (Z.to_nat (c_height c) <= fuel)%nat ->
       addCanvasToPdf fuel pdf c isFirstPage
         = Some (ownPages pdf isFirstPage strips, Z.of_nat (length strips))) /\
    tiles 0 strips (c_height c) /\
    totalHeight strips = c_height c /\
    Forall (stripOk c) strips.
Proof.
  intros Hw Hex.
  assert (Hfit : mmLe (totalImgHeightMm c) (inject_Z USABLE_HEIGHT) = false).
  { destruct (mmLe _ _) eqn:E; auto. apply fits_iff in E; auto. lia. }
  assert (Hh : 0 <= 0 <= c_height c).
  { change USABLE_HEIGHT with 271 in Hex. change USABLE_WIDTH with 186 in Hex.
    lia. }
  destruct (sliceLoop_spec c isFirstPage Hw (Z.to_nat (c_height c)) 0 0 pdf Hh)
    as (strips & E & Ht & Hok); [lia|].
  exists strips. repeat split; auto.
  - intros fuel Hf. unfold addCanvasToPdf. rewrite Hfit.
    replace fuel with (Z.to_nat (c_height c) + (fuel - Z.to_nat (c_height c)))%nat
      by lia.
    rewrite (sliceLoop_mono _ _ _ _ _ _ _ _ E).
    rewrite place_ownPages. reflexivity.
  - apply tiles_totalHeight in Ht. lia.
Qed.

End PdfFacts.

(** The slicing of a canvas 1588 pixels wide (the width every rendered
    unit has) and 5000 pixels high. *)
Lemma addCanvasToPdf_slices_witness :
  exists strips,
    (forall fuel, (5000 <= fuel)%nat ->
       Pdf.addCanvasToPdf fuel Pdf.newDocument (Pdf.mkCanvas 1588 5000) true
         = Some (ownPages Pdf.newDocument true strips,
                 Z.of_nat (length strips))) /\
    tiles 0 strips 5000 /\
    totalHeight strips = 5000%Z /\
    Forall (stripOk (Pdf.mkCanvas 1588 5000)) strips.
Proof.
  apply (addCanvasToPdf_slices Pdf.newDocument (Pdf.mkCanvas 1588 5000) true);
    reflexivity.
Defined.

(* ================================================================== *)
(** * Facts about the matchers *)
(* ================================================================== *)

Lemma stripPrefix_app (p s : str) : stripPrefix p (p ++ s) = Some s.
Proof.
  induction p as [|x p IH]; simpl; auto.
  rewrite Ascii.eqb_refl. exact IH.
Qed.

Lemma stripPrefix_Some (p s r : str) : stripPrefix p s = Some r -> s = p ++ r.
Proof.
  revert s. induction p as [|x p IH]; simpl; intros s H.
  - congruence.
  - destruct s as [|y s]; [discriminate|].
    destruct (Ascii.eqb_spec x y); [|discriminate].
    subst. f_equal. auto.
Qed.

(** [stops cls r]: a greedy run of [cls] cannot go on into [r]. *)
Definition stops (cls : ascii -> bool) (r : str) : Prop :=
  match r with [] => True | c :: _ => cls c = false end.

Section MatcherFacts.
Context {R : Type}.

Lemma mLit_app (p s : str) (k : str -> option R) : mLit p (p ++ s) k = k s.
Proof. unfold mLit. rewrite stripPrefix_app. reflexivity. Qed.

Lemma mLit_Some (p s : str) (k : str -> option R) (x : R) :
  mLit p s k = Some x -> exists r, s = p ++ r /\ k r = Some x.
Proof.
  unfold mLit. destruct (stripPrefix p s) as [r|] eqn:E; [|discriminate].
  intros H. exists r. split; auto. apply stripPrefix_Some, E.
Qed.

Lemma mStar_greedy (cls : ascii -> bool) (w r : str) (k : str -> option R)
  (x : R) :
  forallb cls w = true -> stops cls r -> k r = Some x ->
  mStar cls (w ++ r) k = Some x.
Proof.
  induction w as [|c w IH]; simpl; intros Hw Hr Hk.
  - destruct r as [|c r]; simpl in *; auto. rewrite Hr. exact Hk.
  - apply andb_true_iff in Hw as [Hc Hw]. rewrite Hc, IH; auto.
Qed.

Lemma mStar_Some (cls : ascii -> bool) (s : str) (k : str -> option R) (x : R) :
  mStar cls s k = Some x ->
  exists w r, s = w ++ r /\ forallb cls w = true /\ k r = Some x.
Proof.
  induction s as [|c s IH]; simpl; intros H.
  - exists [], []. auto.
  - destruct (cls c) eqn:Hc.
    + destruct (mStar cls s k) as [y|] eqn:E.
      * inversion H; subst y. destruct (IH eq_refl) as (w & r & -> & Hw & Hk).
        exists (c :: w), r. simpl. rewrite Hc. auto.
      * exists [], (c :: s). auto.
    + exists [], (c :: s). auto.
Qed.

Lemma mPlus_Some (cls : ascii -> bool) (s : str) (k : str -> option R) (x : R) :
  mPlus cls s k = Some x ->
  exists w r, s = w ++ r /\ w <> [] /\ forallb cls w = true /\ k r = Some x.
Proof.
  unfold mPlus. destruct s as [|c s]; [discriminate|].
  destruct (cls c) eqn:Hc; [|discriminate].
  intros H. apply mStar_Some in H as (w & r & -> & Hw & Hk).
  exists (c :: w), r. simpl. rewrite Hc. repeat split; auto. discriminate.
Qed.

Lemma mPlus_greedy (cls : ascii -> bool) (w r : str) (k : str -> option R)
  (x : R) :
  w <> [] -> forallb cls w = true -> stops cls r -> k r = Some x ->
  mPlus cls (w ++ r) k = Some x.
Proof.
  destruct w as [|c w]; [congruence|]. simpl. intros _ Hw Hr Hk.
  apply andb_true_iff in Hw as [Hc Hw]. rewrite Hc.
  apply mStar_greedy; auto.
Qed.

Lemma mStarCap_greedy (cls : ascii -> bool) (w r : str) :
  forall (k : str -> str -> option R) (x : R),
  forallb cls w = true -> stops cls r -> k w r = Some x ->
  mStarCap cls (w ++ r) k = Some x.
Proof.
  induction w as [|c w IH]; simpl; intros k x Hw Hr Hk.
  - destruct r as [|c r]; simpl in *; auto. rewrite Hr. exact Hk.
  - apply andb_true_iff in Hw as [Hc Hw]. rewrite Hc.
    rewrite (IH (fun cap rest => k (c :: cap) rest) x); auto.
Qed.

Lemma mPlusCap_greedy (cls : ascii -> bool) (w r : str)
  (k : str -> str -> option R) (x : R) :
  w <> [] -> forallb cls w = true -> stops cls r -> k w r = Some x ->
  mPlusCap cls (w ++ r) k = Some x.
Proof.
  destruct w as [|c w]; [congruence|]. simpl. intros _ Hw Hr Hk.
  apply andb_true_iff in Hw as [Hc Hw]. rewrite Hc.
  apply mStarCap_greedy; auto.
Qed.

Lemma mStarCap_Some (cls : ascii -> bool) (s : str) :
  forall (k : str -> str -> option R) (x : R),
  mStarCap cls s k = Some x ->
  exists w r, s = w ++ r /\ forallb cls w = true /\ k w r = Some x.
Proof.
  induction s as [|c s IH]; simpl; intros k x H.
  - exists [], []. auto.
  - destruct (cls c) eqn:Hc.
    + destruct (mStarCap cls s _) as [y|] eqn:E.
      * inversion H; subst y.
        destruct (IH _ _ E) as (w & r & -> & Hw & Hk).
        exists (c :: w), r. simpl. rewrite Hc. auto.
      * exists [], (c :: s). auto.
    + exists [], (c :: s). auto.
Qed.

Lemma mPlusCap_Some (cls : ascii -> bool) (s : str)
  (k : str -> str -> option R) (x : R) :
  mPlusCap cls s k = Some x ->
  exists w r, s = w ++ r /\ w <> [] /\ forallb cls w = true /\ k w r = Some x.
Proof.
  unfold mPlusCap. destruct s as [|c s]; [discriminate|].
  destruct (cls c) eqn:Hc; [|discriminate].
  intros H. apply mStarCap_Some in H as (w & r & -> & Hw & Hk).
  exists (c :: w), r. simpl. rewrite Hc. repeat split; auto. discriminate.
Qed.

(** The lazy capture stops at the first place where the rest matches. *)
Lemma mLazyAny_first (w r : str) :
  forall (k : str -> str -> option R),
  (forall a b, w = a ++ b -> b <> [] -> k a (b ++ r) = None) ->
  mLazyAny (w ++ r) k = match k w r with
                        | Some x => Some x
                        | None => match r with
                                  | [] => None
                                  | c :: r' =>
                                      mLazyAny r' (fun cap rest => k (w ++ c :: cap) rest)
                                  end
                        end.
Proof.
  induction w as [|c w IH]; intros k Hk.
  - simpl. destruct r; simpl; reflexivity.
  - cbn [app mLazyAny].
    pose proof (Hk [] (c :: w) eq_refl ltac:(discriminate)) as H0.
    cbn [app] in H0. rewrite H0, IH.
    + reflexivity.
    + intros a b E Hb. apply (Hk (c :: a) b); auto. simpl. congruence.
Qed.

Lemma search_here (m : bool -> str -> option R) (bol : bool) (s : str) (x : R) :
  m bol s = Some x -> search m bol s = Some x.
Proof. intros H. destruct s; simpl; rewrite H; reflexivity. Qed.

Lemma search_skip (m : bool -> str -> option R) (bol : bool) (c : ascii)
  (s : str) :
  m bol (c :: s) = None -> search m bol (c :: s) = search m (isLineTerminator c) s.
Proof. intros H. simpl. rewrite H. reflexivity. Qed.

(** A match found by the search starts somewhere in the input. *)
Lemma search_Some (m : bool -> str -> option R) (s : str) :
  forall bol x, search m bol s = Some x ->
  exists a b bol', s = a ++ b /\ m bol' b = Some x.
Proof.
  induction s as [|c s IH]; simpl; intros bol x H.
  - destruct (m bol []) eqn:E; [|discriminate].
    exists [], [], bol. split; auto. congruence.
  - destruct (m bol (c :: s)) eqn:E.
    + exists [], (c :: s), bol. split; auto. congruence.
    + destruct (IH _ _ H) as (a & b & bol' & -> & Hm).
      exists (c :: a), b, bol'. auto.
Qed.

(** A pattern anchored with [^] matches at line starts only. *)
Definition anchored (m : bool -> str -> option R) : Prop :=
  forall s, m false s = None.

Lemma search_inside_line (m : bool -> str -> option R) (l rest : str) :
  anchored m -> forallb isDot l = true ->
  search m false (l ++ LF :: rest) = search m true rest.
Proof.
  intros Ha. induction l as [|c l IH]; intros Hl.
  - simpl. rewrite Ha. reflexivity.
  - simpl in Hl. apply andb_true_iff in Hl as [Hc Hl].
    cbn [app]. rewrite search_skip by apply Ha.
    unfold isDot in Hc. apply negb_true_iff in Hc. rewrite Hc. auto.
Qed.

(** The search passes over a line at whose start the pattern fails. *)
Lemma search_skip_line (m : bool -> str -> option R) (l rest : str) :
  anchored m -> forallb isDot l = true ->
  m true (l ++ LF :: rest) = None ->
  search m true (l ++ LF :: rest) = search m true rest.
Proof.
  intros Ha Hl Hm. destruct l as [|c l].
  - simpl in *. rewrite Hm. reflexivity.
  - cbn [app] in *. rewrite search_skip by exact Hm.
    simpl in Hl. apply andb_true_iff in Hl as [Hc Hl].
    unfold isDot in Hc. apply negb_true_iff in Hc. rewrite Hc.
    apply search_inside_line; auto.
Qed.

End MatcherFacts.

(* ================================================================== *)
(** * Facts about the global scan *)
(* ================================================================== *)

Section ScanFacts.
Context {T : Type}.
Variable m : bool -> str -> option (T * str).

(** Every match consumes at least one character. *)
Definition consuming : Prop :=
  forall b s t rest, m b s = Some (t, rest) -> length rest < length s.

Hypothesis m_consuming : consuming.

(** Any fuel above the length of the input gives the same scan. *)
Lemma scan_fuel (f1 : nat) :
  forall f2 b s, length s < f1 -> length s < f2 ->
  scan f1 m b s = scan f2 m b s.
Proof.
  induction f1 as [|f1 IH]; intros f2 b s H1 H2; [lia|].
  destruct f2 as [|f2]; [lia|]. simpl.
  destruct (m b s) as [[t rest]|] eqn:E.
  - f_equal. apply m_consuming in E. apply IH; lia.
  - destruct s as [|c s]; auto. f_equal. simpl in *. apply IH; lia.
Qed.

Definition scanFrom (b : bool) (s : str) : list (ascii + T) :=
  scan (S (length s)) m b s.

Lemma scan_S (f : nat) (b : bool) (s : str) :
  scan (S f) m b s
  = match m b s with
    | Some (t, rest) => inr t :: scan f m (bolAfter b s rest) rest
    | None =>
        match s with
        | [] => []
        | c :: s' => inl c :: scan f m (isLineTerminator c) s'
        end
    end.
Proof. reflexivity. Qed.

Lemma scanFrom_match (b : bool) (s rest : str) (t : T) :
  m b s = Some (t, rest) ->
  scanFrom b s = inr t :: scanFrom (bolAfter b s rest) rest.
Proof.
  intros E. unfold scanFrom. rewrite (scan_S (length s)), E. f_equal.
  apply m_consuming in E. apply scan_fuel; lia.
Qed.

Lemma scanFrom_skip (b : bool) (c : ascii) (s : str) :
  m b (c :: s) = None ->
  scanFrom b (c :: s) = inl c :: scanFrom (isLineTerminator c) s.
Proof.
  intros E. unfold scanFrom. rewrite (scan_S (length (c :: s))), E.
  reflexivity.
Qed.

Lemma scanFrom_nil (b : bool) : m b [] = None -> scanFrom b [] = [].
Proof. intros E. unfold scanFrom. simpl. rewrite E. reflexivity. Qed.

End ScanFacts.

(** Where a pattern matches nowhere, the replacement changes nothing. *)
Lemma replaced_no_match (m : bool -> str -> option (str * str)) (s : str) :
  (forall b a r, s = a ++ r -> m b r = None) ->
  forall b, replaced (scanFrom m b s) = s.
Proof.
  induction s as [|c s IH]; intros H b.
  - rewrite scanFrom_nil; auto. apply (H b [] []). reflexivity.
  - rewrite scanFrom_skip by (apply (H b [] (c :: s)); reflexivity).
    simpl. f_equal. apply IH. intros b' a r E.
    apply (H b' (c :: a) r). simpl. congruence.
Qed.

Lemma replaceAll_no_match (m : bool -> str -> option (str * str)) (s : str) :
  (forall b a r, s = a ++ r -> m b r = None) -> replaceAll m s = s.
Proof. intros H. apply (replaced_no_match m s H true). Qed.

Lemma replaceChar_absent (c : ascii) (rep s : str) :
  forallb (isNot c) s = true -> replaceChar c rep s = s.
Proof.
  induction s as [|x s IH]; simpl; intros H; auto.
  apply andb_true_iff in H as [Hx H]. unfold isNot in Hx.
  apply negb_true_iff in Hx. rewrite Hx. simpl. f_equal. auto.
Qed.

(** A span cannot start at a character other than its opening one. *)
Lemma spanPattern_absent (o : ascii) (open' close : str) (stop : ascii)
  (wrap : str -> str) (s : str) :
  forallb (isNot o) s = true ->
  forall b a r, s = a ++ r -> spanPattern (o :: open') close stop wrap b r = None.
Proof.
  intros H b a r ->. rewrite forallb_app in H.
  apply andb_true_iff in H as [_ H].
  unfold spanPattern, mLit. destruct r as [|x r]; simpl; auto.
  simpl in H. apply andb_true_iff in H as [Hx _].
  unfold isNot in Hx. apply negb_true_iff in Hx.
  rewrite Ascii.eqb_sym, Hx. reflexivity.
Qed.

Lemma linkPattern_consuming (wrap : str -> str -> str) :
  consuming (linkPattern wrap).
Proof.
  intros b s t rest H. unfold linkPattern in H.
  apply mLit_Some in H as (r1 & -> & H).
  apply mPlusCap_Some in H as (w1 & r2 & -> & _ & _ & H).
  apply mLit_Some in H as (r3 & -> & H).
  apply mPlusCap_Some in H as (w2 & r4 & -> & _ & _ & H).
  apply mLit_Some in H as (r5 & -> & H).
  inversion H; subst. rewrite !length_app. simpl. lia.
Qed.


(* ================================================================== *)
(** * Inline markup: links *)
(* ================================================================== *)

Lemma forallb_impl {A} (p q : A -> bool) (l : list A) :
  (forall x, p x = true -> q x = true) ->
  forallb p l = true -> forallb q l = true.
Proof.
  intros H. induction l as [|x l IH]; simpl; auto.
  rewrite !andb_true_iff. intros [Hx Hl]. auto.
Qed.

Lemma isNot_false (d c : ascii) : isNot d c = true -> Ascii.eqb d c = false.
Proof.
  unfold isNot. rewrite negb_true_iff, Ascii.eqb_sym. auto.
Qed.

Lemma textChar_isNot (d c : ascii) :
  In d markupChars -> isTextChar c = true -> isNot d c = true.
Proof.
  unfold isTextChar, isNot. rewrite !negb_true_iff. intros Hd Hc.
  destruct (Ascii.eqb c d) eqn:E; auto.
  rewrite <- Hc. symmetry. apply existsb_exists. exists d. auto.
Qed.

Lemma text_avoids (d : ascii) (s : str) :
  In d markupChars -> forallb isTextChar s = true ->
  forallb (isNot d) s = true.
Proof. intros Hd. apply forallb_impl. intros c. apply textChar_isNot, Hd. Qed.

Lemma linkPattern_text (wrap : str -> str -> str) (b : bool) (c : ascii)
  (s : str) :
  isTextChar c = true -> linkPattern wrap b (c :: s) = None.
Proof.
  intros Hc. unfold linkPattern, mLit. cbn [stripPrefix].
  rewrite (isNot_false LBRACKET c); auto.
  apply textChar_isNot; auto. simpl. auto.
Qed.

Lemma tokenPattern_plain (b : bool) (s : str) :
  s <> [] -> forallb isPlainChar s = true -> tokenPattern b s = Some (s, []).
Proof.
  intros Hs Hp. unfold tokenPattern.
  destruct s as [|c s]; [congruence|].
  pose proof Hp as Hc. simpl in Hc. apply andb_true_iff in Hc as [Hc _].
  unfold isPlainChar in Hc. apply andb_true_iff in Hc as [H1 H2].
  unfold spanPattern, mLit. cbn [stripPrefix].
  rewrite (isNot_false _ _ H1), (isNot_false _ _ H2). cbn [orMatch].
  rewrite <- (app_nil_r (c :: s)) at 1.
  apply mPlusCap_greedy; auto. exact I.
Qed.

(** C6 (counterexample): for the input [[a](b)] the HTML renderer keeps
    the destination in an anchor, the run renderer drops it, and the HTML
    does not carry the content of the runs. *)
Lemma link_destination_kept_in_html :
  inlineMarkdownToHtml (lit "[a](b)") = anchor (lit "a") (lit "b") /\
  parseInlineMarkdown (lit "[a](b)") noBase = [plainRun (lit "a")] /\
  runsToHtml (parseInlineMarkdown (lit "[a](b)") noBase)
    <> inlineMarkdownToHtml (lit "[a](b)").
Proof. repeat split. discriminate. Qed.

(** The scenario of the specification: code, plain text and bold, in the
    order of the input, in both representations. *)
Example markup_scenario :
  let input := lit "See `config.yml` and **danger**" in
  parseInlineMarkdown input noBase
    = [ plainRun (lit "See "); codeRun (lit "config.yml");
        plainRun (lit " and "); boldRun (lit "danger") ] /\
  inlineMarkdownToHtml input
    = lit "See <code>config.yml</code> and <strong>danger</strong>" /\
  runsToHtml (parseInlineMarkdown input noBase) = inlineMarkdownToHtml input.
Proof. repeat split. Qed.

(* ================================================================== *)
(** * Lines, occurrences and trimming *)
(* ================================================================== *)

Lemma join_cons (sep l : str) (ls : list str) :
  ls <> [] -> join sep (l :: ls) = l ++ sep ++ join sep ls.
Proof. destruct ls; [congruence | reflexivity]. Qed.

Lemma join_app (sep : str) (l1 l2 : list str) :
  l1 <> [] -> l2 <> [] ->
  join sep (l1 ++ l2) = join sep l1 ++ sep ++ join sep l2.
Proof.
  induction l1 as [|a l1 IH]; [congruence|]. intros _ H2.
  destruct l1 as [|b l1].
  - simpl. destruct l2; [congruence | reflexivity].
  - change ((a :: b :: l1) ++ l2) with (a :: (b :: l1) ++ l2).
    rewrite join_cons by (simpl; discriminate).
    rewrite IH by (auto; discriminate).
    rewrite (join_cons sep a (b :: l1)) by discriminate.
    rewrite <- !app_assoc. reflexivity.
Qed.

Lemma splitLines_nonempty (s : str) : splitLines s <> [].
Proof.
  destruct s as [|c s]; simpl; [discriminate|].
  destruct (Ascii.eqb c LF); [discriminate|].
  destruct (splitLines s); discriminate.
Qed.

Definition noLF (l : str) : bool := forallb (isNot LF) l.

Lemma splitLines_single (l : str) : noLF l = true -> splitLines l = [l].
Proof.
  induction l as [|c l IH]; simpl; intros H.
  - reflexivity.
  - apply andb_true_iff in H as [Hc H]. unfold isNot in Hc.
    apply negb_true_iff in Hc. rewrite Hc, IH by auto. reflexivity.
Qed.

Lemma join_splitLines (s : str) : join [LF] (splitLines s) = s.
Proof.
  induction s as [|c s IH]; simpl; auto.
  destruct (Ascii.eqb_spec c LF) as [->|Hc].
  - rewrite join_cons by apply splitLines_nonempty. rewrite IH. reflexivity.
  - destruct (splitLines s) as [|l ls] eqn:E.
    + exfalso. eapply splitLines_nonempty; eauto.
    + destruct ls as [|l2 ls].
      * simpl in *. congruence.
      * rewrite join_cons in * by discriminate. simpl. f_equal. exact IH.
Qed.

Lemma splitLines_app (l rest : str) :
  splitLines (l ++ LF :: rest) = splitLines l ++ splitLines rest.
Proof.
  induction l as [|c l IH]; simpl.
  - reflexivity.
  - rewrite IH. destruct (Ascii.eqb c LF); [reflexivity|].
    destruct (splitLines l) as [|x xs] eqn:E; [|reflexivity].
    exfalso. eapply splitLines_nonempty; eauto.
Qed.

(** The lines of a joined list are the lines of its entries. *)
Lemma splitLines_join (ls : list str) :
  ls <> [] -> splitLines (join [LF] ls) = concat (map splitLines ls).
Proof.
  induction ls as [|l ls IH]; [congruence|]. intros _.
  destruct ls as [|l2 ls].
  - simpl. rewrite app_nil_r. reflexivity.
  - rewrite join_cons by discriminate.
    change ([LF] ++ join [LF] (l2 :: ls)) with (LF :: join [LF] (l2 :: ls)).
    rewrite splitLines_app, IH by discriminate. reflexivity.
Qed.

Lemma in_join (sep l : str) (ls : list str) :
  In l ls -> exists a b, join sep ls = a ++ l ++ b.
Proof.
  induction ls as [|x ls IH]; [intros []|].
  intros [->|H].
  - destruct ls as [|y ls].
    + exists [], []. simpl. rewrite app_nil_r. reflexivity.
    + exists [], (sep ++ join sep (y :: ls)). reflexivity.
  - destruct (IH H) as (a & b & E).
    destruct ls as [|y ls]; [destruct H|].
    rewrite join_cons by discriminate. rewrite E.
    exists (x ++ sep ++ a), b. rewrite <- !app_assoc. reflexivity.
Qed.

Lemma in_splitLines (doc line : str) :
  In line (splitLines doc) -> exists a b, doc = a ++ line ++ b.
Proof.
  intros H. destruct (in_join [LF] line _ H) as (a & b & E).
  rewrite join_splitLines in E. eauto.
Qed.

Lemma startsWith_true (s p : str) :
  startsWith s p = true <-> exists r, s = p ++ r.
Proof.
  unfold startsWith. split.
  - destruct (stripPrefix p s) as [r|] eqn:E; [|discriminate].
    intros _. exists r. apply stripPrefix_Some, E.
  - intros (r & ->). rewrite stripPrefix_app. reflexivity.
Qed.

Lemma occursb_true (n s : str) :
  occursb n s = true <-> exists a b, s = a ++ n ++ b.
Proof.
  induction s as [|c s IH]; simpl.
  - rewrite orb_false_r, startsWith_true. split.
    + intros (r & E). exists [], r. exact E.
    + intros (a & b & E). destruct a; simpl in E.
      * exists b. exact E.
      * discriminate.
  - rewrite orb_true_iff, startsWith_true, IH. split.
    + intros [(r & E)|(a & b & E)].
      * exists [], r. exact E.
      * exists (c :: a), b. simpl. congruence.
    + intros (a & b & E). destruct a as [|x a]; simpl in E.
      * left. exists b. exact E.
      * right. exists a, b. congruence.
Qed.

Lemma occursb_false (n s : str) :
  occursb n s = false -> forall a r, s = a ++ r -> stripPrefix n r = None.
Proof.
  intros H a r E. destruct (stripPrefix n r) as [x|] eqn:Ex; auto.
  apply stripPrefix_Some in Ex. subst.
  assert (occursb n (a ++ n ++ x) = true) by (apply occursb_true; eauto).
  congruence.
Qed.

Lemma dropWhile_suffix (p : ascii -> bool) (s : str) :
  exists a, s = a ++ dropWhile p s /\ forallb p a = true.
Proof.
  induction s as [|c s (a & E & Ha)]; simpl.
  - exists []. auto.
  - destruct (p c) eqn:Hc.
    + exists (c :: a). split.
      * simpl. f_equal. exact E.
      * simpl. rewrite Hc. exact Ha.
    + exists []. auto.
Qed.

Lemma trim_inside (s : str) : exists a b, s = a ++ trim s ++ b.
Proof.
  unfold trim, trimEnd, trimStart.
  destruct (dropWhile_suffix isSpace s) as (a & E & _).
  destruct (dropWhile_suffix isSpace (rev (dropWhile isSpace s))) as (b & E2 & _).
  exists a, (rev b). rewrite E at 1. f_equal.
  rewrite <- (rev_involutive (dropWhile isSpace s)) at 1.
  rewrite E2 at 1. rewrite rev_app_distr. reflexivity.
Qed.

Lemma toLowerCase_app (a b : str) :
  toLowerCase (a ++ b) = toLowerCase a ++ toLowerCase b.
Proof. apply map_app. Qed.

(* ================================================================== *)
(** * The parser, field by field *)
(* ================================================================== *)

Lemma parseMeta_eq (doc t : str) :
  parseMeta doc (mkSnapshot t [] [] [] [] [] [] [] [] [] [] [] [] [] [] [])
  = mkSnapshot t
      (metaOf (lit "Overall Risk:") doc) (metaOf (lit "Impact:") doc)
      (metaOf (lit "Exploitability:") doc) (metaOf (lit "Finding ID:") doc)
      (metaOf (lit "Component:") doc) (metaOf (lit "Category:") doc)
      (metaOf (lit "Status:") doc)
      [] [] [] [] [] [] [] [].
Proof.
  unfold parseMeta, metaPatterns, metaOf. cbn [fold_left fst snd].
  destruct (firstCapture (keyPattern (lit "Overall Risk:")) doc);
  destruct (firstCapture (keyPattern (lit "Impact:")) doc);
  destruct (firstCapture (keyPattern (lit "Exploitability:")) doc);
  destruct (firstCapture (keyPattern (lit "Finding ID:")) doc);
  destruct (firstCapture (keyPattern (lit "Component:")) doc);
  destruct (firstCapture (keyPattern (lit "Category:")) doc);
  destruct (firstCapture (keyPattern (lit "Status:")) doc);
  reflexivity.
Qed.

Lemma parseSection_eq (key : string)
  (set : str -> IssueSnapshot -> IssueSnapshot) (s : Sections)
  (i : IssueSnapshot) :
  set [] i = i ->
  parseSection (lit key) set s i = set (sectionOf s key) i.
Proof.
  intros H. unfold parseSection, sectionOf.
  destruct (getSection s (lit key)); simpl; auto.
Qed.

Lemma parseDescription_eq (s : Sections) (i : IssueSnapshot) :
  description i = [] -> evidence i = [] ->
  parseDescription s i
  = setEvidence (evidenceOf s) (setDescription (descriptionOf s) i).
Proof.
  intros Hd He. unfold parseDescription, evidenceOf, descriptionOf.
  destruct (getSection s (lit "description")) as [|a c]; cbn [truthy].
  - destruct i; simpl in *; subst; reflexivity.
  - destruct (firstCapture evidencePattern (a :: c)); [reflexivity|].
    destruct i; simpl in *; subst; reflexivity.
Qed.

Lemma parseCode_eq (s : Sections) (i : IssueSnapshot) :
  codeExample i = [] -> codeLanguage i = [] ->
  parseCode s i
  = setCodeExample (fst (codeOf s)) (setCodeLanguage (snd (codeOf s)) i).
Proof.
  intros Hd He. unfold parseCode, codeOf.
  destruct (getSection s (lit "code example")) as [|a c]; cbn [truthy].
  - destruct i; simpl in *; subst; reflexivity.
  - destruct (search codeBlockPattern true (a :: c)) as [[lang code]|];
      [reflexivity|].
    destruct i; simpl in *; subst; reflexivity.
Qed.

(** [parseIssue] computes exactly the fields read off the document. *)
Theorem parseIssue_eq (doc : str) : parseIssue doc = fieldsOf doc.
Proof.
  unfold parseIssue, fieldsOf.
  set (s := splitSections doc).
  assert (E1 : match firstCapture titlePattern doc with
               | Some t => setTitle (trim t) emptySnapshot
               | None => emptySnapshot
               end
               = mkSnapshot (titleOf doc) [] [] [] [] [] [] [] [] [] [] [] [] [] [] []).
  { unfold titleOf. destruct (firstCapture titlePattern doc); reflexivity. }
  rewrite E1, parseMeta_eq. cbn [setExtraRows].
  rewrite (parseSection_eq "impact details" setImpactDetails) by reflexivity.
  cbn [setImpactDetails].
  rewrite parseDescription_eq by reflexivity.
  cbn [setEvidence setDescription].
  rewrite parseCode_eq by reflexivity.
  cbn [setCodeExample setCodeLanguage].
  rewrite (parseSection_eq "example issue scenario" setExampleScenario)
    by reflexivity.
  cbn [setExampleScenario].
  rewrite (parseSection_eq "recommendation" setRecommendation) by reflexivity.
  reflexivity.
Qed.

(* ================================================================== *)
(** * Absent grammar elements *)
(* ================================================================== *)

Lemma valueTail_Some (s cap rest : str) :
  valueTail s = Some (cap, rest) ->
  exists w, s = w ++ cap ++ rest /\ cap <> [] /\
            forallb isSpace w = true /\ forallb isDot cap = true.
Proof.
  unfold valueTail. intros H.
  apply mStar_Some in H as (w & r & -> & Hw & H).
  apply mPlusCap_Some in H as (c & r2 & -> & Hc & Hd & H).
  unfold mEolM in H.
  assert (E : Some (c, r2) = Some (cap, rest)).
  { destruct r2 as [|x r2]; [exact H|]. destruct (isLineTerminator x); [exact H|discriminate]. }
  inversion E; subst. exists w. auto.
Qed.

Lemma keyPattern_Some (key : str) (b : bool) (s cap rest : str) :
  keyPattern key b s = Some (cap, rest) ->
  b = true /\ exists w, s = key ++ w ++ cap ++ rest /\ cap <> [] /\
                        forallb isSpace w = true /\ forallb isDot cap = true.
Proof.
  unfold keyPattern, mBolM. destruct b; [|discriminate]. intros H.
  apply mLit_Some in H as (r & -> & H).
  apply valueTail_Some in H as (w & -> & H). split; auto. exists w. auto.
Qed.

Lemma keyPattern_anchored (key : str) : anchored (keyPattern key).
Proof. intros s. reflexivity. Qed.

Lemma keyPattern_consuming (key : str) : consuming (keyPattern key).
Proof.
  intros b s t rest H. apply keyPattern_Some in H as (_ & w & -> & Hc & _).
  rewrite !length_app. destruct t; [congruence|]. simpl. lia.
Qed.

Lemma firstCapture_key_absent (key doc : str) :
  occursb key doc = false -> firstCapture (keyPattern key) doc = None.
Proof.
  intros H. unfold firstCapture.
  destruct (search (keyPattern key) true doc) as [[cap rest]|] eqn:E; auto.
  apply search_Some in E as (a & b & bol & -> & E).
  apply keyPattern_Some in E as (_ & w & -> & _).
  assert (occursb key (a ++ key ++ w ++ cap ++ rest) = true)
    by (apply occursb_true; eauto).
  congruence.
Qed.

Lemma titleOf_absent (doc : str) :
  occursb (lit "Issue title:") doc = false -> titleOf doc = [].
Proof.
  intros H. unfold titleOf, firstCapture.
  destruct (search titlePattern true doc) as [[cap rest]|] eqn:E; auto.
  apply search_Some in E as (a & b & bol & -> & E).
  unfold titlePattern, mBolM in E. destruct bol; [|discriminate].
  apply mLit_Some in E as (r & -> & E).
  apply mPlus_Some in E as (w & r1 & -> & _ & _ & E).
  apply mLit_Some in E as (r2 & -> & E).
  assert (occursb (lit "Issue title:")
            (a ++ lit "#" ++ w ++ lit "Issue title:" ++ r2) = true).
  { apply occursb_true. exists (a ++ lit "#" ++ w), r2.
    rewrite <- !app_assoc. reflexivity. }
  congruence.
Qed.

Lemma metaOf_absent (pat doc : str) :
  occursb pat doc = false -> metaOf pat doc = [].
Proof.
  intros H. unfold metaOf. rewrite firstCapture_key_absent; auto.
Qed.

Lemma matchesOf_no_match {T} (m : bool -> str -> option (T * str)) (s : str) :
  (forall b a r, s = a ++ r -> m b r = None) ->
  forall f b, matchesOf (scan f m b s) = [].
Proof.
  induction s as [|c s IH]; intros H f b; destruct f as [|f]; auto.
  - simpl. rewrite (H b [] []); auto.
  - rewrite scan_S, (H b [] (c :: s)) by reflexivity.
    cbn [matchesOf flat_map app]. apply IH.
    intros b' a r E. apply (H b' (c :: a) r). simpl. congruence.
Qed.

Lemma additionalIssueValues_absent (doc : str) :
  occursb (lit "Additional Issue:") doc = false ->
  additionalIssueValues doc = [].
Proof.
  intros H. apply matchesOf_no_match. intros b a r ->.
  destruct (extraRowPattern b r) as [[cap rest]|] eqn:E; auto.
  apply keyPattern_Some in E as (_ & w & -> & _).
  assert (occursb (lit "Additional Issue:")
            (a ++ lit "Additional Issue:" ++ w ++ cap ++ rest) = true)
    by (apply occursb_true; eauto).
  congruence.
Qed.

(** ** Sections come from heading lines *)

Lemma headingMatch_Some (line h : str) :
  headingMatch line = Some h -> exists a, line = a ++ h.
Proof.
  unfold headingMatch. intros H.
  assert (Hrest : forall r,
            mPlus isSpace r (fun r1 =>
              mPlusCap isDot r1 (fun cap r2 => mEnd r2 (fun _ => Some cap)))
            = Some h -> exists a, r = a ++ h).
  { intros r Hr.
    apply mPlus_Some in Hr as (w & r1 & -> & _ & _ & Hr).
    apply mPlusCap_Some in Hr as (cap & r2 & -> & _ & _ & Hr).
    unfold mEnd in Hr. destruct r2; [|discriminate].
    inversion Hr; subst. exists w. rewrite app_nil_r. reflexivity. }
  apply mLit_Some in H as (r & -> & H).
  destruct (mLit (lit "#") r _) eqn:E.
  - inversion H; subst. apply mLit_Some in E as (r' & -> & E).
    destruct (Hrest _ E) as (a & ->).
    exists (lit "##" ++ lit "#" ++ a). rewrite <- !app_assoc. reflexivity.
  - destruct (Hrest _ H) as (a & ->).
    exists (lit "##" ++ a). rewrite <- !app_assoc. reflexivity.
Qed.

(** Every section is keyed by a heading line of the document and made of
    lines of the document. *)
Definition fromLines (all : list str) (secs : Sections) : Prop :=
  forall k v, In (k, v) secs ->
    (exists line h, In line all /\ headingMatch line = Some h /\
                    k = toLowerCase (trim h)) /\
    (exists cur, v = join [LF] cur /\ incl cur all).

Definition keyFrom (all : list str) (key : option str) : Prop :=
  forall k, key = Some k ->
    exists line h, In line all /\ headingMatch line = Some h /\
                   k = toLowerCase (trim h).

Lemma setSection_fromLines (all : list str) (secs : Sections) (k : str)
  (cur : list str) :
  fromLines all secs -> keyFrom all (Some k) -> incl cur all ->
  fromLines all (setSection secs k (join [LF] cur)).
Proof.
  intros Hs Hk Hc. unfold setSection.
  destruct (JsString.eqb k (lit "__proto__")); auto.
  intros k' v [E|Hin]; [|apply Hs; auto].
  inversion E; subst. split; [apply Hk; reflexivity | eauto].
Qed.

Lemma splitLoop_fromLines (all : list str) (ls : list str) :
  forall secs key cur,
    incl ls all -> fromLines all secs -> keyFrom all key -> incl cur all ->
    fromLines all (splitLoop ls secs key cur).
Proof.
  induction ls as [|line ls IH]; intros secs key cur Hls Hs Hk Hc; simpl.
  - destruct key as [k|]; auto. apply setSection_fromLines; auto.
  - assert (Hline : In line all) by (apply Hls; simpl; auto).
    assert (Hls' : incl ls all) by (intros x Hx; apply Hls; simpl; auto).
    destruct (headingMatch line) as [h|] eqn:Eh.
    + apply IH; auto.
      * destruct key as [k|]; auto. apply setSection_fromLines; auto.
      * intros k E. inversion E; subst. eauto.
      * intros x [].
    + destruct key as [k|]; apply IH; auto.
      intros x Hx. apply in_app_or in Hx as [Hx|[<-|[]]]; auto.
Qed.

Lemma splitSections_fromLines (doc : str) :
  fromLines (splitLines doc) (splitSections doc).
Proof.
  apply splitLoop_fromLines.
  - apply incl_refl.
  - intros k v [].
  - intros k E. discriminate.
  - intros x [].
Qed.

Lemma getSection_In (s : Sections) (key : str) :
  getSection s key <> [] -> In (key, getSection s key) s.
Proof.
  induction s as [|[k v] s IH]; simpl; [congruence|].
  destruct (JsString.eqb k key) eqn:E.
  - apply eqb_spec in E. subst. auto.
  - auto.
Qed.

Lemma section_absent (key doc : str) :
  occursb key (toLowerCase doc) = false ->
  getSection (splitSections doc) key = [].
Proof.
  intros H. destruct (getSection (splitSections doc) key) as [|c0 s0] eqn:E; auto.
  exfalso.
  assert (Hin : In (key, getSection (splitSections doc) key) (splitSections doc))
    by (apply getSection_In; rewrite E; discriminate).
  destruct (splitSections_fromLines doc _ _ Hin) as [(line & h & Hl & Hh & Hk) _].
  apply in_splitLines in Hl as (a & b & ->).
  apply headingMatch_Some in Hh as (a2 & ->).
  destruct (trim_inside h) as (a3 & b3 & Eh).
  assert (occursb key (toLowerCase (a ++ (a2 ++ h) ++ b)) = true).
  { apply occursb_true. rewrite Eh.
    exists (toLowerCase (a ++ a2 ++ a3)), (toLowerCase (b3 ++ b)).
    rewrite Hk, <- !toLowerCase_app, <- !app_assoc. reflexivity. }
  congruence.
Qed.

Lemma stripPrefix_line (p l rest : str) :
  noLF p = true -> stripPrefix p l = None ->
  stripPrefix p (l ++ LF :: rest) = None.
Proof.
  revert l. induction p as [|x p IH]; simpl; intros l Hp H; [discriminate|].
  apply andb_true_iff in Hp as [Hx Hp].
  destruct l as [|y l]; simpl.
  - rewrite (isNot_false _ _ Hx) || (unfold isNot in Hx; apply negb_true_iff in Hx;
                                      rewrite Hx). reflexivity.
  - destruct (Ascii.eqb x y); auto.
Qed.

Lemma occursb_line (p l rest : str) :
  noLF p = true -> p <> [] ->
  occursb p (l ++ LF :: rest) = true ->
  occursb p l = true \/ occursb p rest = true.
Proof.
  intros Hp Hne. induction l as [|c l IH]; simpl.
  - rewrite orb_true_iff. intros [H|H]; auto.
    exfalso. unfold startsWith in H.
    destruct p as [|x p]; [congruence|]. simpl in *.
    apply andb_true_iff in Hp as [Hx _]. unfold isNot in Hx.
    apply negb_true_iff in Hx. rewrite Hx in H. discriminate.
  - rewrite !orb_true_iff. intros [H|H].
    + left. left. unfold startsWith in *.
      destruct (stripPrefix p (c :: l)) eqn:E; auto.
      change (c :: l ++ LF :: rest) with ((c :: l) ++ LF :: rest) in H.
      rewrite stripPrefix_line in H; auto.
    + destruct (IH H); auto.
Qed.

Lemma occursb_join (p : str) (ls : list str) :
  noLF p = true -> p <> [] ->
  occursb p (join [LF] ls) = true -> exists l, In l ls /\ occursb p l = true.
Proof.
  intros Hp Hne. induction ls as [|l ls IH]; simpl.
  - unfold startsWith. destruct p; [congruence|]. simpl. discriminate.
  - destruct ls as [|l2 ls].
    + intros H. exists l. auto.
    + intros H. apply occursb_line in H as [H|H]; auto.
      * exists l. auto.
      * destruct (IH H) as (x & Hx & Ho). exists x. auto.
Qed.

Lemma evidenceOf_absent (doc : str) :
  occursb (lit "Evidence:") doc = false -> evidenceOf (splitSections doc) = [].
Proof.
  intros H. unfold evidenceOf, firstCapture.
  set (desc := getSection (splitSections doc) (lit "description")).
  destruct (search evidencePattern true desc) as [[cap rest]|] eqn:E; auto.
  exfalso.
  apply search_Some in E as (a & b & bol & Ed & E).
  unfold evidencePattern in E. apply mLit_Some in E as (r & -> & _).
  assert (Hd : desc <> []).
  { rewrite Ed. destruct a; discriminate. }
  apply getSection_In in Hd. fold desc in Hd.
  destruct (splitSections_fromLines doc _ _ Hd) as [_ (cur & Ec & Hinc)].
  assert (Ho : occursb (lit "Evidence:") (join [LF] cur) = true).
  { rewrite <- Ec, Ed. apply occursb_true. eauto. }
  apply occursb_join in Ho as (l & Hl & Ho); [|reflexivity|discriminate].
  apply Hinc, in_splitLines in Hl as (a1 & b1 & ->).
  apply occursb_true in Ho as (a2 & b2 & ->).
  assert (occursb (lit "Evidence:")
            (a1 ++ (a2 ++ lit "Evidence:" ++ b2) ++ b1) = true).
  { apply occursb_true. exists (a1 ++ a2), (b2 ++ b1).
    rewrite <- !app_assoc. reflexivity. }
  congruence.
Qed.

(* ================================================================== *)
(** * Values on a key line *)
(* ================================================================== *)

Lemma dropWhile_stops (p : ascii -> bool) (s : str) :
  stops p s -> dropWhile p s = s.
Proof. destruct s as [|c s]; simpl; auto. intros ->. reflexivity. Qed.

Lemma rev_last (v : str) (d : ascii) :
  v <> [] -> rev v = last v d :: rev (removelast v).
Proof.
  intros H. rewrite (app_removelast_last d H) at 1.
  rewrite rev_app_distr. reflexivity.
Qed.

Lemma trim_trimmed (v : str) :
  negb (isSpace (hd LF v)) = true -> negb (isSpace (last v LF)) = true ->
  trim v = v.
Proof.
  intros Hh Hl. unfold trim, trimStart, trimEnd.
  destruct v as [|c v]; [reflexivity|].
  assert (H1 : dropWhile isSpace (c :: v) = c :: v).
  { apply dropWhile_stops. unfold stops. apply negb_true_iff. exact Hh. }
  rewrite H1.
  assert (H2 : dropWhile isSpace (rev (c :: v)) = rev (c :: v)).
  { apply dropWhile_stops. rewrite (rev_last (c :: v) LF) by discriminate.
    unfold stops. apply negb_true_iff. exact Hl. }
  rewrite H2. apply rev_involutive.
Qed.

Lemma inlineValue_parts (v : str) :
  inlineValue v = true ->
  v <> [] /\ forallb isDot v = true /\ stops isSpace v /\ trim v = v.
Proof.
  unfold inlineValue. rewrite !andb_true_iff. intros [[[Ht Hd] Hh] Hl].
  repeat split; auto.
  - intros ->. discriminate.
  - destruct v; simpl in *; auto. apply negb_true_iff. exact Hh.
  - apply trim_trimmed; auto.
Qed.

(** The end of a line: the end of the input or a line terminator. *)
Definition atLineEnd (rest : str) : Prop := stops isDot rest.

Lemma valueTail_value (w v rest : str) :
  forallb isSpace w = true -> inlineValue v = true -> atLineEnd rest ->
  valueTail (w ++ v ++ rest) = Some (v, rest).
Proof.
  intros Hw Hv Hr. apply inlineValue_parts in Hv as (Hne & Hd & Hs & _).
  unfold valueTail. apply mStar_greedy; auto.
  - destruct v; [congruence|]. exact Hs.
  - apply mPlusCap_greedy; auto.
    unfold mEolM. destruct rest as [|c rest]; auto.
    unfold atLineEnd, stops, isDot in Hr. apply negb_false_iff in Hr.
    rewrite Hr. reflexivity.
Qed.

Lemma keyPattern_value (key w v rest : str) :
  forallb isSpace w = true -> inlineValue v = true -> atLineEnd rest ->
  keyPattern key true (key ++ w ++ v ++ rest) = Some (v, rest).
Proof.
  intros Hw Hv Hr. unfold keyPattern, mBolM. rewrite mLit_app.
  apply valueTail_value; auto.
Qed.

Lemma splitOn_single (d : ascii) (v : str) :
  forallb (isNot d) v = true -> splitOn d v = [v].
Proof.
  induction v as [|c v IH]; simpl; intros H.
  - reflexivity.
  - apply andb_true_iff in H as [Hc H]. unfold isNot in Hc.
    apply negb_true_iff in Hc. rewrite Hc, IH by auto. reflexivity.
Qed.

Lemma extraRowOfValue_no_pipe (v : str) :
  forallb (isNot PIPE) v = true ->
  extraRowOfValue v = mkExtraRow (trim v) (lit "Medium").
Proof.
  intros H. unfold extraRowOfValue. rewrite splitOn_single by exact H.
  cbn [nth]. rewrite orElse_nil. reflexivity.
Qed.

Lemma additionalIssueValues_line (v : str) :
  inlineValue v = true ->
  additionalIssueValues (lit "Additional Issue: " ++ v) = [v].
Proof.
  intros Hv. unfold additionalIssueValues.
  change (scanAll extraRowPattern ?s) with (scanFrom extraRowPattern true s).
  assert (E : extraRowPattern true (lit "Additional Issue: " ++ v) = Some (v, [])).
  { pose proof (keyPattern_value (lit "Additional Issue:") (lit " ") v []
                  eq_refl Hv I) as H.
    rewrite app_nil_r in H. exact H. }
  rewrite (scanFrom_match extraRowPattern
             (keyPattern_consuming _ : consuming extraRowPattern) _ _ _ _ E).
  rewrite scanFrom_nil by (destruct (bolAfter _ _ _); reflexivity).
  reflexivity.
Qed.

(** The fields of a document read through [parseIssue]. *)
Lemma parseIssue_fields (doc : str) :
  let s := splitSections doc in
  title (parseIssue doc) = titleOf doc /\
  (forall key pat, In (key, pat) metaPatterns ->
     getMeta key (parseIssue doc) = metaOf pat doc) /\
  extraRows (parseIssue doc) = map extraRowOfValue (additionalIssueValues doc) /\
  impactDetails (parseIssue doc) = sectionOf s "impact details" /\
  description (parseIssue doc) = descriptionOf s /\
  evidence (parseIssue doc) = evidenceOf s /\
  codeExample (parseIssue doc) = fst (codeOf s) /\
  codeLanguage (parseIssue doc) = snd (codeOf s) /\
  exampleScenario (parseIssue doc) = sectionOf s "example issue scenario" /\
  recommendation (parseIssue doc) = sectionOf s "recommendation".
Proof.
  rewrite parseIssue_eq. cbv zeta. repeat split.
  intros key pat Hin. unfold metaPatterns in Hin. simpl in Hin.
  repeat (destruct Hin as [E|Hin]; [inversion E; subst; reflexivity|]).
  destruct Hin.
Qed.

(** [parseIssue] is a total function: on every input, the empty
    one included, it returns a record.  A field whose marker does not
    occur in the document is the empty string (for the sections: whose
    heading key does not occur, in any letter case); [extraRows] is empty
    when no "Additional Issue:" occurs; the loop that collects the
    additional-issue lines ends within the length of the input; and a
    value without a pipe gives an entry with the severity "Medium". *)
Theorem parseIssue_defaults (doc : str) :
  parseIssue [] = emptySnapshot /\
  (occursb (lit "Issue title:") doc = false -> title (parseIssue doc) = []) /\
  (forall key pat, In (key, pat) metaPatterns ->
     occursb pat doc = false -> getMeta key (parseIssue doc) = []) /\
  (occursb (lit "Additional Issue:") doc = false ->
     extraRows (parseIssue doc) = []) /\
  (occursb (lit "impact details") (toLowerCase doc) = false ->
     impactDetails (parseIssue doc) = []) /\
  (occursb (lit "description") (toLowerCase doc) = false ->
     description (parseIssue doc) = [] /\ evidence (parseIssue doc) = []) /\
  (occursb (lit "Evidence:") doc = false -> evidence (parseIssue doc) = []) /\
  (occursb (lit "code example") (toLowerCase doc) = false ->
     codeExample (parseIssue doc) = [] /\ codeLanguage (parseIssue doc) = []) /\
  (occursb (lit "example issue scenario") (toLowerCase doc) = false ->
     exampleScenario (parseIssue doc) = []) /\
  (occursb (lit "recommendation") (toLowerCase doc) = false ->
     recommendation (parseIssue doc) = []) /\
  (forall fuel, length doc < fuel ->
     matchesOf (scan fuel extraRowPattern true doc) = additionalIssueValues doc) /\
  (forall v, In v (additionalIssueValues doc) ->
     forallb (isNot PIPE) v = true ->
     In (mkExtraRow (trim v) (lit "Medium")) (extraRows (parseIssue doc))) /\
  (forall v, inlineValue v = true -> forallb (isNot PIPE) v = true ->
     extraRows (parseIssue (lit "Additional Issue: " ++ v))
     = [mkExtraRow v (lit "Medium")]).
Proof.
  destruct (parseIssue_fields doc)
    as (Ht & Hm & Hr & Hi & Hd & He & Hc & Hl & Hs & Hrec).
  split; [reflexivity|].
  split; [intros H; rewrite Ht; apply titleOf_absent, H|].
  split; [intros key pat Hin H; rewrite (Hm key pat Hin); apply metaOf_absent, H|].
  split; [intros H; rewrite Hr, additionalIssueValues_absent by exact H;
          reflexivity|].
  split; [intros H; rewrite Hi; unfold sectionOf;
          rewrite section_absent by exact H; reflexivity|].
  split; [intros H; rewrite Hd, He; unfold descriptionOf, evidenceOf;
          rewrite section_absent by exact H; split; reflexivity|].
  split; [intros H; rewrite He; apply evidenceOf_absent, H|].
  split; [intros H; rewrite Hc, Hl; unfold codeOf;
          rewrite section_absent by exact H; split; reflexivity|].
  split; [intros H; rewrite Hs; unfold sectionOf;
          rewrite section_absent by exact H; reflexivity|].
  split; [intros H; rewrite Hrec; unfold sectionOf;
          rewrite section_absent by exact H; reflexivity|].
  split; [intros fuel Hf; unfold additionalIssueValues, scanAll; f_equal;
          apply scan_fuel; [apply keyPattern_consuming | lia | lia]|].
  split.
  - intros v Hin Hp. rewrite Hr, <- (extraRowOfValue_no_pipe v Hp).
    apply in_map, Hin.
  - intros v Hv Hp.
    destruct (parseIssue_fields (lit "Additional Issue: " ++ v))
      as (_ & _ & Hr' & _).
    rewrite Hr', additionalIssueValues_line by exact Hv.
    cbn [map]. rewrite extraRowOfValue_no_pipe by exact Hp.
    apply inlineValue_parts in Hv as (_ & _ & _ & ->). reflexivity.
Qed.

(* ================================================================== *)
(** * Duplicate metadata lines *)
(* ================================================================== *)


Lemma keyPattern_other_line (pat l rest : str) :
  noLF pat = true -> startsWith l pat = false ->
  keyPattern pat true (l ++ LF :: rest) = None.
Proof.
  intros Hp Hs. unfold keyPattern, mBolM, mLit.
  rewrite stripPrefix_line; auto.
  unfold startsWith in Hs. destruct (stripPrefix pat l); [discriminate|reflexivity].
Qed.

(** A line [pat w v] is found behind lines that do not start with [pat],
    whatever follows it. *)
Lemma search_first_line (pat w v : str) (before after : list str) :
  noLF pat = true ->
  Forall (fun l => forallb isDot l = true /\ startsWith l pat = false) before ->
  forallb isSpace w = true -> inlineValue v = true ->
  firstCapture (keyPattern pat)
    (join [LF] (before ++ [pat ++ w ++ v] ++ after)) = Some v.
Proof.
  intros Hp Hb Hw Hv. unfold firstCapture.
  induction Hb as [|l before [Hl Hs] Hb IH].
  - cbn [app]. destruct after as [|a after].
    + cbn [join].
      assert (E : keyPattern pat true (pat ++ w ++ v) = Some (v, [])).
      { pose proof (keyPattern_value pat w v [] Hw Hv I) as H.
        rewrite app_nil_r in H. exact H. }
      rewrite (search_here _ _ _ _ E). reflexivity.
    + rewrite join_cons by discriminate.
      change ([LF] ++ ?x) with (LF :: x).
      assert (E : keyPattern pat true
                    ((pat ++ w ++ v) ++ LF :: join [LF] (a :: after))
                  = Some (v, LF :: join [LF] (a :: after))).
      { rewrite <- !app_assoc. apply keyPattern_value; auto. reflexivity. }
      rewrite (search_here _ _ _ _ E). reflexivity.
  - change ((l :: before) ++ ?x) with (l :: before ++ x).
    rewrite join_cons by (destruct before; discriminate).
    change ([LF] ++ ?x) with (LF :: x).
    rewrite search_skip_line; auto.
    + apply keyPattern_anchored.
    + apply keyPattern_other_line; auto.
Qed.



(* ================================================================== *)
(** * A key line without a value *)
(* ================================================================== *)

(** A document whose status line has no value. *)
Definition emptyStatusSample : str :=
  lit "Status:" ++ [LF] ++ lit "## Description" ++ [LF] ++ lit "body".

(** A document whose additional-issue line has no value. *)
Definition emptyRowSample : str :=
  lit "Additional Issue:" ++ [LF] ++ lit "Impact: High".

(** C7 (failing input): the document has a line [Status:] without a
    value, followed by the heading of the description.  The claim gives
    the empty string for the status; the code gives the next line,
    because the white space of [/^Status:\s*(.+)$/m] runs over the line
    feed.  In the same way an additional-issue line without a value
    takes the line after it for its title, although no additional-issue
    line has a value.  The heading is still read as a heading. *)
Theorem parseIssue_empty_value_reads_next_line :
  status (parseIssue emptyStatusSample) = lit "## Description" /\
  status (parseIssue emptyStatusSample) <> [] /\
  description (parseIssue emptyStatusSample) = lit "body" /\
  extraRows (parseIssue emptyRowSample)
  = [mkExtraRow (lit "Impact: High") (lit "Medium")] /\
  impact (parseIssue emptyRowSample) = lit "High".
Proof.
  repeat split; try (vm_compute; reflexivity). vm_compute. discriminate.
Qed.


(* ================================================================== *)
(** * Round trip: the lines of a serialized record *)
(* ================================================================== *)

Lemma orElse_truthy (a b : str) : truthy a = true -> orElse a b = a.
Proof. unfold orElse. intros ->. reflexivity. Qed.

Lemma dot_noLF (v : str) : forallb isDot v = true -> noLF v = true.
Proof.
  apply forallb_impl. intros c. unfold isDot, isNot, isLineTerminator, LF.
  rewrite !negb_true_iff, orb_false_iff. intros [H _].
  destruct (Ascii.eqb_spec c (chr 10)) as [->|]; auto.
Qed.

Lemma inlineValue_truthy (v : str) : inlineValue v = true -> truthy v = true.
Proof. unfold inlineValue. rewrite !andb_true_iff. tauto. Qed.

Lemma inlineValue_dot (v : str) : inlineValue v = true -> forallb isDot v = true.
Proof. unfold inlineValue. rewrite !andb_true_iff. tauto. Qed.

Lemma trimmed_truthy (v : str) : trimmed v = true -> truthy v = true.
Proof. unfold trimmed. rewrite !andb_true_iff. tauto. Qed.

Lemma trimmed_trim (v : str) : trimmed v = true -> trim v = v.
Proof.
  unfold trimmed. rewrite !andb_true_iff. intros [[_ H1] H2].
  apply trim_trimmed; auto.
Qed.

(** The hypotheses of the round trip, one by one. *)
Record RoundTrip (i : IssueSnapshot) : Prop := {
  rt_title : inlineValue (title i) = true;
  rt_risk : inlineValue (overallRisk i) = true;
  rt_impact : inlineValue (impact i) = true;
  rt_exploit : inlineValue (exploitability i) = true;
  rt_finding : inlineValue (findingId i) = true;
  rt_component : inlineValue (component i) = true;
  rt_category : inlineValue (category i) = true;
  rt_status : inlineValue (status i) = true;
  rt_rows : forallb rowOk (extraRows i) = true;
  rt_details : blockText (impactDetails i) = true;
  rt_desc_truthy : truthy (description i) = true;
  rt_desc_lines : forallb safeLine (splitLines (description i)) = true;
  rt_desc_evidence : occursb (lit "Evidence:") (description i) = false;
  rt_evidence : inlineValue (evidence i) = true;
  rt_code : blockText (codeExample i) = true;
  rt_code_fence : occursb FENCE (codeExample i) = false;
  rt_lang_truthy : truthy (codeLanguage i) = true;
  rt_lang_word : forallb isWord (codeLanguage i) = true;
  rt_scenario : blockText (exampleScenario i) = true;
  rt_recommendation : blockText (recommendation i) = true
}.

Lemma roundTrippable_RoundTrip (i : IssueSnapshot) :
  roundTrippable i = true -> RoundTrip i.
Proof.
  unfold roundTrippable. rewrite !andb_true_iff, !negb_true_iff.
  intros H. decompose [and] H. constructor; assumption.
Qed.

Lemma blockText_parts (b : str) :
  blockText b = true ->
  trimmed b = true /\ forallb safeLine (splitLines b) = true.
Proof. unfold blockText. rewrite andb_true_iff. tauto. Qed.

Lemma rowOk_parts (r : ExtraRow) :
  rowOk r = true ->
  inlineValue (row_title r) = true /\ inlineValue (row_severity r) = true /\
  forallb (isNot PIPE) (row_title r) = true /\
  forallb (isNot PIPE) (row_severity r) = true.
Proof. unfold rowOk. rewrite !andb_true_iff. tauto. Qed.

Lemma extraRowLine_ok (r : ExtraRow) :
  rowOk r = true -> extraRowLine r = lit "Additional Issue: " ++ rowValue r.
Proof.
  intros H. apply rowOk_parts in H as (Ht & Hs & _).
  unfold extraRowLine, rowValue.
  rewrite !orElse_truthy by (apply inlineValue_truthy; auto).
  reflexivity.
Qed.

(** The entries [issueToMarkdown] joins, for a record of this kind. *)
Lemma issueToMarkdownLines_eq (i : IssueSnapshot) :
  RoundTrip i ->
  issueToMarkdownLines i
  = headLines i ++ rowLines i ++ metaLines i
    ++ [ lit "## Impact details"; []; impactDetails i; [];
         lit "## Description"; []; description i; [];
         lit "Evidence: " ++ evidence i; [];
         lit "### Code example"; []; FENCE ++ codeLanguage i;
         codeExample i; FENCE; [];
         lit "### Example issue scenario"; []; exampleScenario i; [];
         lit "## Recommendation"; []; recommendation i; [] ].
Proof.
  intros H. destruct H.
  apply blockText_parts in rt_details0 as [Hd _].
  apply blockText_parts in rt_code0 as [Hc _].
  apply blockText_parts in rt_scenario0 as [Hs _].
  apply blockText_parts in rt_recommendation0 as [Hr _].
  unfold issueToMarkdownLines, headLines, rowLines, metaLines, evidenceLines,
    codeLines.
  rewrite !orElse_truthy
    by (first [ apply inlineValue_truthy; assumption
              | apply trimmed_truthy; assumption
              | assumption ]).
  rewrite (inlineValue_truthy _ rt_evidence0), (trimmed_truthy _ Hc),
    (trimmed_trim _ Hc).
  replace (0 <? length (codeExample i)) with true
    by (symmetry; apply Nat.ltb_lt; apply trimmed_truthy in Hc;
        destruct (codeExample i); [discriminate | simpl; lia]).
  cbn [andb app]. do 3 f_equal. f_equal.
  apply map_ext_in. intros r Hin. apply extraRowLine_ok.
  rewrite forallb_forall in rt_rows0. auto.
Qed.

Lemma concat_split_singles (ls : list str) :
  Forall (fun l => noLF l = true) ls -> concat (map splitLines ls) = ls.
Proof.
  induction 1 as [|l ls Hl _ IH]; simpl; auto.
  rewrite splitLines_single, IH by auto. reflexivity.
Qed.

Lemma noLF_app (a b : str) : noLF a = true -> noLF b = true -> noLF (a ++ b) = true.
Proof. unfold noLF. rewrite forallb_app. intros -> ->. reflexivity. Qed.

Lemma inlineValue_noLF (v : str) : inlineValue v = true -> noLF v = true.
Proof. intros H. apply dot_noLF, inlineValue_dot, H. Qed.

Lemma isWord_noLF (v : str) : forallb isWord v = true -> noLF v = true.
Proof.
  apply forallb_impl. intros c H. unfold isNot. apply negb_true_iff.
  destruct (Ascii.eqb_spec c LF) as [->|]; [discriminate H | reflexivity].
Qed.

Ltac noLF_tac :=
  repeat first
    [ apply noLF_app
    | reflexivity
    | apply inlineValue_noLF; assumption
    | apply isWord_noLF; assumption ].

Lemma rowValue_inline (r : ExtraRow) :
  rowOk r = true -> inlineValue (rowValue r) = true.
Proof.
  intros H. apply rowOk_parts in H as (Ht & Hs & _).
  unfold inlineValue, rowValue in *.
  repeat rewrite andb_true_iff in *.
  destruct Ht as [[[Ht1 Ht2] Ht3] Ht4], Hs as [[[Hs1 Hs2] Hs3] Hs4].
  destruct (row_title r) as [|c t]; [discriminate|].
  repeat split; auto.
  - rewrite !forallb_app, Ht2, Hs2. reflexivity.
  - rewrite !app_assoc.
    destruct (row_severity r) as [|d s] using rev_ind; [discriminate|].
    rewrite app_assoc, last_last in *. exact Hs4.
Qed.

Lemma rowLines_noLF (i : IssueSnapshot) :
  forallb rowOk (extraRows i) = true ->
  Forall (fun l => noLF l = true) (rowLines i).
Proof.
  intros H. unfold rowLines. apply Forall_forall. intros l Hl.
  apply in_map_iff in Hl as (r & <- & Hr).
  rewrite forallb_forall in H.
  apply noLF_app; [reflexivity|].
  apply inlineValue_noLF, rowValue_inline. auto.
Qed.

(** The document is its physical lines, joined. *)
Lemma splitLines_issueToMarkdown (i : IssueSnapshot) :
  RoundTrip i -> splitLines (issueToMarkdown i) = physLines i.
Proof.
  intros H. unfold issueToMarkdown.
  rewrite (issueToMarkdownLines_eq i H). destruct H.
  rewrite splitLines_join by discriminate.
  rewrite !map_app, !concat_app.
  rewrite (concat_split_singles (headLines i))
    by (repeat constructor; noLF_tac).
  rewrite (concat_split_singles (rowLines i)) by (apply rowLines_noLF; auto).
  rewrite (concat_split_singles (metaLines i))
    by (repeat constructor; noLF_tac).
  unfold physLines. do 3 f_equal.
  cbn [map concat].
  rewrite !(splitLines_single (lit _)) by reflexivity.
  rewrite !(splitLines_single []) by reflexivity.
  rewrite (splitLines_single (lit "Evidence: " ++ evidence i)) by noLF_tac.
  rewrite (splitLines_single (FENCE ++ codeLanguage i)) by noLF_tac.
  rewrite (splitLines_single FENCE) by reflexivity.
  unfold bodyLines. cbn [app]. reflexivity.
Qed.

Lemma issueToMarkdown_join (i : IssueSnapshot) :
  RoundTrip i -> issueToMarkdown i = join [LF] (physLines i).
Proof.
  intros H. rewrite <- (splitLines_issueToMarkdown i H).
  symmetry. apply join_splitLines.
Qed.

(* ================================================================== *)
(** * Round trip: title and metadata *)
(* ================================================================== *)

Lemma titlePattern_value (v rest : str) :
  inlineValue v = true -> atLineEnd rest ->
  titlePattern true (lit "# Issue title: " ++ v ++ rest) = Some (v, rest).
Proof.
  intros Hv Hr. unfold titlePattern, mBolM.
  change (lit "# Issue title: " ++ v ++ rest)
    with (lit "#" ++ lit " " ++ lit "Issue title:" ++ lit " " ++ v ++ rest).
  rewrite mLit_app.
  apply mPlus_greedy; [discriminate | reflexivity | reflexivity |].
  rewrite mLit_app. apply valueTail_value; auto.
Qed.

Lemma titleOf_roundtrip (i : IssueSnapshot) :
  RoundTrip i -> titleOf (issueToMarkdown i) = title i.
Proof.
  intros H. rewrite (issueToMarkdown_join i H).
  unfold physLines, headLines. cbn [app].
  rewrite join_cons by discriminate.
  change ([LF] ++ ?x) with (LF :: x).
  unfold titleOf, firstCapture.
  match goal with
  | |- context [search titlePattern true (?l ++ LF :: ?rest)] =>
      assert (E : titlePattern true (l ++ LF :: rest) = Some (title i, LF :: rest))
  end.
  { rewrite <- app_assoc. apply titlePattern_value; [apply H | reflexivity]. }
  rewrite (search_here _ _ _ _ E). cbn [option_map fst].
  destruct (inlineValue_parts _ (rt_title i H)) as (_ & _ & _ & Ht). exact Ht.
Qed.

Definition otherLine (pat l : str) : Prop :=
  forallb isDot l = true /\ startsWith l pat = false.

Lemma metaOf_line (pat v : str) (before after : list str) (doc : str) :
  doc = join [LF] (before ++ [pat ++ lit " " ++ v] ++ after) ->
  noLF pat = true -> Forall (otherLine pat) before ->
  inlineValue v = true ->
  metaOf pat doc = v.
Proof.
  intros -> Hp Hb Hv. unfold metaOf.
  rewrite search_first_line; auto.
  destruct (inlineValue_parts _ Hv) as (_ & _ & _ & Ht). exact Ht.
Qed.

Lemma dot_app (a b : str) :
  forallb isDot a = true -> forallb isDot b = true ->
  forallb isDot (a ++ b) = true.
Proof. rewrite forallb_app. intros -> ->. reflexivity. Qed.

Lemma rowLines_other (pat : str) (i : IssueSnapshot) :
  forallb rowOk (extraRows i) = true ->
  (forall rest, startsWith (lit "Additional Issue: " ++ rest) pat = false) ->
  Forall (otherLine pat) (rowLines i).
Proof.
  intros H Hs. unfold rowLines. apply Forall_forall. intros l Hl.
  apply in_map_iff in Hl as (r & <- & Hr).
  rewrite forallb_forall in H. split; [|apply Hs].
  apply dot_app; [reflexivity|].
  apply inlineValue_dot, rowValue_inline. auto.
Qed.

Ltac other_tac :=
  repeat first
    [ apply Forall_app; split
    | apply Forall_cons
    | apply Forall_nil
    | (apply rowLines_other; [assumption | intros; reflexivity])
    | (split; [ first [ reflexivity
                      | apply dot_app;
                        [reflexivity | apply inlineValue_dot; assumption] ]
              | reflexivity ]) ].

Lemma meta_roundtrip (i : IssueSnapshot) :
  RoundTrip i ->
  let doc := issueToMarkdown i in
  metaOf (lit "Overall Risk:") doc = overallRisk i /\
  metaOf (lit "Impact:") doc = impact i /\
  metaOf (lit "Exploitability:") doc = exploitability i /\
  metaOf (lit "Finding ID:") doc = findingId i /\
  metaOf (lit "Component:") doc = component i /\
  metaOf (lit "Category:") doc = category i /\
  metaOf (lit "Status:") doc = status i.
Proof.
  intros H. cbv zeta. rewrite (issueToMarkdown_join i H).
  destruct H. unfold physLines.
  repeat split.
  - apply (metaOf_line _ _ [lit "# Issue title: " ++ title i; []]
             (rowLines i ++ metaLines i ++ bodyLines i));
      [reflexivity | reflexivity | other_tac | assumption].
  - apply (metaOf_line _ _ (headLines i ++ rowLines i)
             (tl (metaLines i) ++ bodyLines i));
      [rewrite <- !app_assoc; reflexivity | reflexivity
      | unfold headLines; other_tac | assumption].
  - apply (metaOf_line _ _ (headLines i ++ rowLines i ++ firstn 1 (metaLines i))
             (skipn 2 (metaLines i) ++ bodyLines i));
      [rewrite <- !app_assoc; reflexivity | reflexivity
      | unfold headLines, metaLines; cbn [firstn]; other_tac | assumption].
  - apply (metaOf_line _ _ (headLines i ++ rowLines i ++ firstn 2 (metaLines i))
             (skipn 3 (metaLines i) ++ bodyLines i));
      [rewrite <- !app_assoc; reflexivity | reflexivity
      | unfold headLines, metaLines; cbn [firstn]; other_tac | assumption].
  - apply (metaOf_line _ _ (headLines i ++ rowLines i ++ firstn 3 (metaLines i))
             (skipn 4 (metaLines i) ++ bodyLines i));
      [rewrite <- !app_assoc; reflexivity | reflexivity
      | unfold headLines, metaLines; cbn [firstn]; other_tac | assumption].
  - apply (metaOf_line _ _ (headLines i ++ rowLines i ++ firstn 4 (metaLines i))
             (skipn 5 (metaLines i) ++ bodyLines i));
      [rewrite <- !app_assoc; reflexivity | reflexivity
      | unfold headLines, metaLines; cbn [firstn]; other_tac | assumption].
  - apply (metaOf_line _ _ (headLines i ++ rowLines i ++ firstn 5 (metaLines i))
             (skipn 6 (metaLines i) ++ bodyLines i));
      [rewrite <- !app_assoc; reflexivity | reflexivity
      | unfold headLines, metaLines; cbn [firstn]; other_tac | assumption].
Qed.

(* ================================================================== *)
(** * Round trip: the additional rows *)
(* ================================================================== *)

Lemma join_prepend (p1 p2 : list str) :
  p2 <> [] -> join [LF] (p1 ++ p2) = prepend p1 (join [LF] p2).
Proof.
  intros H2. induction p1 as [|l p1 IH]; [reflexivity|].
  change ((l :: p1) ++ p2) with (l :: p1 ++ p2).
  rewrite join_cons by (destruct p1; [exact H2 | discriminate]).
  rewrite IH. reflexivity.
Qed.

Section RowScan.
Variable key : str.
Hypothesis key_noLF : noLF key = true.
Hypothesis key_nonempty : key <> [].

Let m := keyPattern key.

Lemma keyPattern_at_LF (b : bool) (rest : str) : m b (LF :: rest) = None.
Proof.
  unfold m, keyPattern, mBolM, mLit. destruct b; auto.
  destruct key as [|x k]; [congruence|].
  unfold noLF in key_noLF. cbn [forallb] in key_noLF.
  apply andb_true_iff in key_noLF as [Hx _].
  unfold isNot in Hx. apply negb_true_iff in Hx.
  cbn [stripPrefix]. rewrite Hx. reflexivity.
Qed.

Lemma keyPattern_at_nil (b : bool) : m b [] = None.
Proof.
  unfold m, keyPattern, mBolM, mLit. destruct b; auto.
  destruct key; [congruence | reflexivity].
Qed.

(** The scan passes over the characters of a line that does not match. *)
Lemma scan_line_chars (t : str) (X : list str) (l : str) :
  (forall b, matchesOf (scanFrom m b t) = X) ->
  forallb isDot l = true ->
  forall b, (b = true -> m true (l ++ t) = None) ->
  matchesOf (scanFrom m b (l ++ t)) = X.
Proof.
  intros Ht. induction l as [|c l IH]; intros Hl b Hb.
  - apply Ht.
  - simpl in Hl. apply andb_true_iff in Hl as [Hc Hl].
    assert (E : m b ((c :: l) ++ t) = None).
    { destruct b; [apply Hb; reflexivity | reflexivity]. }
    cbn [app] in *. rewrite scanFrom_skip by exact E.
    cbn [matchesOf flat_map app]. unfold isDot in Hc.
    apply negb_true_iff in Hc. rewrite Hc.
    apply IH; auto. discriminate.
Qed.

Lemma scan_at_LF (rest : str) (X : list str) :
  matchesOf (scanFrom m true rest) = X ->
  forall b, matchesOf (scanFrom m b (LF :: rest)) = X.
Proof.
  intros H b. rewrite scanFrom_skip by apply keyPattern_at_LF. exact H.
Qed.

Lemma scan_other_line (l rest : str) :
  otherLine key l ->
  matchesOf (scanFrom m true (l ++ LF :: rest))
  = matchesOf (scanFrom m true rest).
Proof.
  intros [Hd Hs]. apply scan_line_chars; auto.
  - apply scan_at_LF. reflexivity.
  - intros _. apply keyPattern_other_line; auto.
Qed.

Lemma scan_prepend_others (ls : list str) (rest : str) :
  Forall (otherLine key) ls ->
  matchesOf (scanFrom m true (prepend ls rest))
  = matchesOf (scanFrom m true rest).
Proof.
  induction 1 as [|l ls Hl _ IH]; [reflexivity|].
  change (prepend (l :: ls) rest) with (l ++ LF :: prepend ls rest).
  rewrite scan_other_line by exact Hl. exact IH.
Qed.

Lemma scan_value_line (v rest : str) :
  inlineValue v = true ->
  matchesOf (scanFrom m true ((key ++ lit " " ++ v) ++ LF :: rest))
  = v :: matchesOf (scanFrom m true rest).
Proof.
  intros Hv.
  assert (E : m true ((key ++ lit " " ++ v) ++ LF :: rest) = Some (v, LF :: rest)).
  { rewrite <- !app_assoc. apply keyPattern_value; auto. reflexivity. }
  rewrite (scanFrom_match m (keyPattern_consuming key) _ _ _ _ E).
  cbn [matchesOf flat_map app]. f_equal.
  apply scan_at_LF. reflexivity.
Qed.

Lemma scan_prepend_values (vs : list str) (rest : str) :
  Forall (fun v => inlineValue v = true) vs ->
  matchesOf (scanFrom m true
               (prepend (map (fun v => key ++ lit " " ++ v) vs) rest))
  = vs ++ matchesOf (scanFrom m true rest).
Proof.
  induction 1 as [|v vs Hv _ IH]; [reflexivity|].
  cbn [map prepend fold_right]. rewrite scan_value_line by exact Hv.
  simpl. f_equal. exact IH.
Qed.

(** Lines without a match, up to the end of the input. *)
Lemma scan_last_others (ls : list str) :
  Forall (otherLine key) ls -> matchesOf (scanFrom m true (join [LF] ls)) = [].
Proof.
  induction 1 as [|l ls Hl Hls IH]; [apply matchesOf_no_match|].
  - intros b a r E. destruct a; [|discriminate]. simpl in E. subst r.
    apply keyPattern_at_nil.
  - destruct ls as [|l2 ls].
    + cbn [join]. rewrite <- (app_nil_r l).
      destruct Hl as [Hd Hs].
      apply scan_line_chars; auto.
      * intros b. rewrite scanFrom_nil by apply keyPattern_at_nil. reflexivity.
      * intros _. rewrite app_nil_r. unfold m, keyPattern, mBolM, mLit.
        unfold startsWith in Hs.
        destruct (stripPrefix key l); [discriminate | reflexivity].
    + rewrite join_cons by discriminate.
      change ([LF] ++ ?x) with (LF :: x).
      rewrite scan_other_line by exact Hl. exact IH.
Qed.

End RowScan.

Lemma dropWhile_app_all (p : ascii -> bool) (a s : str) :
  forallb p a = true -> dropWhile p (a ++ s) = dropWhile p s.
Proof.
  induction a as [|c a IH]; simpl; auto.
  rewrite andb_true_iff. intros [-> Ha]. auto.
Qed.

Lemma forallb_rev {A} (p : A -> bool) (l : list A) :
  forallb p (rev l) = forallb p l.
Proof.
  induction l as [|x l IH]; simpl; auto.
  rewrite forallb_app, IH. simpl. rewrite andb_true_r, andb_comm. reflexivity.
Qed.

(** Trimming removes white space around a trimmed text. *)
Lemma trim_padded (a v b : str) :
  forallb isSpace a = true -> forallb isSpace b = true -> trimmed v = true ->
  trim (a ++ v ++ b) = v.
Proof.
  intros Ha Hb Hv. unfold trimmed in Hv.
  apply andb_true_iff in Hv as [Hv Hl]. apply andb_true_iff in Hv as [Ht Hh].
  destruct v as [|c v]; [discriminate|].
  unfold trim, trimStart, trimEnd.
  rewrite dropWhile_app_all by exact Ha.
  assert (H1 : dropWhile isSpace ((c :: v) ++ b) = (c :: v) ++ b).
  { apply dropWhile_stops. simpl. apply negb_true_iff. exact Hh. }
  rewrite H1, rev_app_distr.
  rewrite dropWhile_app_all by (rewrite forallb_rev; exact Hb).
  assert (H2 : dropWhile isSpace (rev (c :: v)) = rev (c :: v)).
  { apply dropWhile_stops. rewrite (rev_last (c :: v) LF) by discriminate.
    unfold stops. apply negb_true_iff. exact Hl. }
  rewrite H2. apply rev_involutive.
Qed.

Lemma inlineValue_trimmed (v : str) : inlineValue v = true -> trimmed v = true.
Proof.
  unfold inlineValue, trimmed. rewrite !andb_true_iff. tauto.
Qed.

Lemma splitOn_app (d : ascii) (a b : str) :
  forallb (isNot d) a = true -> splitOn d (a ++ d :: b) = a :: splitOn d b.
Proof.
  induction a as [|c a IH]; simpl; intros H.
  - rewrite Ascii.eqb_refl. reflexivity.
  - apply andb_true_iff in H as [Hc H]. unfold isNot in Hc.
    apply negb_true_iff in Hc. rewrite Hc, IH by auto. reflexivity.
Qed.

Lemma extraRowOfValue_rowValue (r : ExtraRow) :
  rowOk r = true -> extraRowOfValue (rowValue r) = r.
Proof.
  intros H. apply rowOk_parts in H as (Ht & Hs & Pt & Ps).
  unfold extraRowOfValue, rowValue.
  change (row_title r ++ lit " | " ++ row_severity r)
    with (row_title r ++ lit " " ++ PIPE :: (lit " " ++ row_severity r)).
  rewrite app_assoc, splitOn_app
    by (rewrite forallb_app, Pt; reflexivity).
  rewrite splitOn_single by (simpl; rewrite Ps; reflexivity).
  cbn [nth].
  rewrite !orElse_truthy
    by (pose proof (inlineValue_truthy _ Ht);
        destruct (row_title r); [discriminate | reflexivity]).
  pose proof (trim_padded [] (row_title r) (lit " ") eq_refl eq_refl
                (inlineValue_trimmed _ Ht)) as E1.
  pose proof (trim_padded (lit " ") (row_severity r) [] eq_refl eq_refl
                (inlineValue_trimmed _ Hs)) as E2.
  rewrite app_nil_r in E2. cbn [app] in E1.
  change (lit " " ++ row_severity r) with (" "%char :: row_severity r) in *.
  rewrite E1, E2. destruct r; reflexivity.
Qed.

Lemma isWord_dot (v : str) : forallb isWord v = true -> forallb isDot v = true.
Proof.
  apply forallb_impl. intros c H. unfold isDot. apply negb_true_iff.
  destruct (isLineTerminator c) eqn:E; auto.
  unfold isLineTerminator in E. apply orb_true_iff in E as [E|E];
    apply N.eqb_eq in E; unfold isWord in H; rewrite E in H; discriminate.
Qed.

Lemma safeLines_other (ls : list str) :
  forallb safeLine ls = true ->
  Forall (otherLine (lit "Additional Issue:")) ls.
Proof.
  rewrite forallb_forall. intros H. apply Forall_forall. intros l Hl.
  specialize (H l Hl). unfold safeLine in H.
  rewrite !andb_true_iff, negb_true_iff in H. split; tauto.
Qed.

Ltac body_other_tac :=
  repeat first
    [ apply Forall_app; split
    | (apply safeLines_other; assumption)
    | apply Forall_cons
    | apply Forall_nil
    | (split; [ first [ reflexivity
                      | apply dot_app;
                        [reflexivity
                        | first [ apply inlineValue_dot; assumption
                                | apply isWord_dot; assumption ] ] ]
              | reflexivity ]) ].

Lemma rows_roundtrip (i : IssueSnapshot) :
  RoundTrip i ->
  map extraRowOfValue (additionalIssueValues (issueToMarkdown i)) = extraRows i.
Proof.
  intros H. rewrite (issueToMarkdown_join i H). destruct H.
  apply blockText_parts in rt_details0 as [_ Hd].
  apply blockText_parts in rt_code0 as [_ Hc].
  apply blockText_parts in rt_scenario0 as [_ Hs].
  apply blockText_parts in rt_recommendation0 as [_ Hr].
  unfold physLines, additionalIssueValues.
  change (scanAll extraRowPattern ?s)
    with (scanFrom (keyPattern (lit "Additional Issue:")) true s).
  rewrite join_prepend by (destruct (rowLines i); discriminate).
  rewrite join_prepend by discriminate.
  rewrite scan_prepend_others
    by (first [reflexivity | discriminate | unfold headLines; other_tac]).
  change (rowLines i)
    with (map (fun r => lit "Additional Issue:" ++ lit " " ++ rowValue r)
              (extraRows i)).
  rewrite <- (map_map rowValue (fun v => lit "Additional Issue:" ++ lit " " ++ v)).
  rewrite scan_prepend_values; [|reflexivity|discriminate|].
  - rewrite scan_last_others;
      [ | reflexivity | discriminate
        | unfold metaLines, bodyLines; body_other_tac ].
    rewrite app_nil_r, map_map.
    rewrite <- (map_id (extraRows i)) at 2.
    apply map_ext_in. intros r Hr'. apply extraRowOfValue_rowValue.
    rewrite forallb_forall in rt_rows0. auto.
  - apply Forall_forall. intros v Hv.
    apply in_map_iff in Hv as (r & <- & Hr').
    apply rowValue_inline. rewrite forallb_forall in rt_rows0. auto.
Qed.

(* ================================================================== *)
(** * Round trip: the sections *)
(* ================================================================== *)

Definition notHeading (l : str) : Prop := headingMatch l = None.

Lemma splitLoop_text (ls rest : list str) :
  Forall notHeading ls ->
  forall secs key cur,
    splitLoop (ls ++ rest) secs key cur
    = splitLoop rest secs key
        (match key with Some _ => cur ++ ls | None => cur end).
Proof.
  induction 1 as [|l ls Hl _ IH]; intros secs key cur.
  - destruct key; [rewrite app_nil_r|]; reflexivity.
  - cbn [app splitLoop]. rewrite Hl. destruct key as [k|]; rewrite IH.
    + rewrite <- app_assoc. reflexivity.
    + reflexivity.
Qed.

Lemma splitLoop_heading (line h : str) (rest : list str) (secs : Sections)
  (key : option str) (cur : list str) :
  headingMatch line = Some h ->
  splitLoop (line :: rest) secs key cur
  = splitLoop rest
      (match key with
       | Some k => setSection secs k (join [LF] cur)
       | None => secs
       end)
      (Some (toLowerCase (trim h))) [].
Proof. intros H. cbn [splitLoop]. rewrite H. reflexivity. Qed.

Lemma safeLines_notHeading (ls : list str) :
  forallb safeLine ls = true -> Forall notHeading ls.
Proof.
  rewrite forallb_forall. intros H. apply Forall_forall. intros l Hl.
  specialize (H l Hl). unfold safeLine in H.
  rewrite !andb_true_iff in H. destruct H as [[_ H] _].
  unfold notHeading. destruct (headingMatch l); [discriminate | reflexivity].
Qed.

Lemma rowLines_notHeading (i : IssueSnapshot) : Forall notHeading (rowLines i).
Proof.
  unfold rowLines. apply Forall_forall. intros l Hl.
  apply in_map_iff in Hl as (r & <- & _). reflexivity.
Qed.

Ltac text_tac :=
  repeat first
    [ apply Forall_app; split
    | apply rowLines_notHeading
    | (apply safeLines_notHeading; assumption)
    | apply Forall_cons
    | apply Forall_nil
    | reflexivity ].

(** The text between the headings of the serialized record. *)
Definition chunk1 (i : IssueSnapshot) : list str :=
  [] :: splitLines (impactDetails i) ++ [[]].
Definition chunk2 (i : IssueSnapshot) : list str :=
  [] :: splitLines (description i) ++ [[]; lit "Evidence: " ++ evidence i; []].
Definition chunk3 (i : IssueSnapshot) : list str :=
  [] :: (FENCE ++ codeLanguage i) :: splitLines (codeExample i) ++ [FENCE; []].
Definition chunk4 (i : IssueSnapshot) : list str :=
  [] :: splitLines (exampleScenario i) ++ [[]].
Definition chunk5 (i : IssueSnapshot) : list str :=
  [] :: splitLines (recommendation i) ++ [[]].

Lemma bodyLines_chunks (i : IssueSnapshot) :
  bodyLines i
  = lit "## Impact details" :: chunk1 i
    ++ lit "## Description" :: chunk2 i
    ++ lit "### Code example" :: chunk3 i
    ++ lit "### Example issue scenario" :: chunk4 i
    ++ lit "## Recommendation" :: chunk5 i.
Proof.
  unfold bodyLines, chunk1, chunk2, chunk3, chunk4, chunk5.
  cbn [app]. repeat (rewrite <- app_assoc; cbn [app]). reflexivity.
Qed.

Lemma splitSections_roundtrip (i : IssueSnapshot) :
  RoundTrip i ->
  splitSections (issueToMarkdown i)
  = [ (lit "recommendation", join [LF] (chunk5 i));
      (lit "example issue scenario", join [LF] (chunk4 i));
      (lit "code example", join [LF] (chunk3 i));
      (lit "description", join [LF] (chunk2 i));
      (lit "impact details", join [LF] (chunk1 i)) ].
Proof.
  intros H. unfold splitSections.
  rewrite (splitLines_issueToMarkdown i H). destruct H.
  apply blockText_parts in rt_details0 as [_ Hd].
  apply blockText_parts in rt_code0 as [_ Hc].
  apply blockText_parts in rt_scenario0 as [_ Hs].
  apply blockText_parts in rt_recommendation0 as [_ Hr].
  unfold physLines. rewrite bodyLines_chunks.
  rewrite !app_assoc. rewrite <- (app_assoc (headLines i)).
  rewrite splitLoop_text by (unfold headLines, metaLines; text_tac).
  rewrite (splitLoop_heading _ (lit "Impact details")) by reflexivity.
  rewrite splitLoop_text by (unfold chunk1; text_tac).
  rewrite (splitLoop_heading _ (lit "Description")) by reflexivity.
  rewrite splitLoop_text by (unfold chunk2; text_tac).
  rewrite (splitLoop_heading _ (lit "Code example")) by reflexivity.
  rewrite splitLoop_text by (unfold chunk3; text_tac).
  rewrite (splitLoop_heading _ (lit "Example issue scenario")) by reflexivity.
  rewrite splitLoop_text by (unfold chunk4; text_tac).
  rewrite (splitLoop_heading _ (lit "Recommendation")) by reflexivity.
  rewrite <- (app_nil_r (chunk5 i)) at 1.
  rewrite splitLoop_text by (unfold chunk5; text_tac).
  reflexivity.
Qed.

(* ================================================================== *)
(** * Round trip: the contents of the sections *)
(* ================================================================== *)

Lemma join_block (b : str) :
  join [LF] ([] :: splitLines b ++ [[]]) = LF :: b ++ [LF].
Proof.
  rewrite join_cons by (destruct (splitLines b); discriminate).
  rewrite join_app by (first [apply splitLines_nonempty | discriminate]).
  rewrite join_splitLines. reflexivity.
Qed.

Lemma section_block (b : str) :
  blockText b = true -> trim (join [LF] ([] :: splitLines b ++ [[]])) = b.
Proof.
  intros H. apply blockText_parts in H as [Ht _]. rewrite join_block.
  apply (trim_padded [LF] b [LF]); auto.
Qed.

(** A pattern that begins with the literal [p]. *)
Definition beginsWith {R} (p : str) (m : bool -> str -> option R) : Prop :=
  forall b s, startsWith s p = false -> m b s = None.

Lemma search_absent_line {R} (p : str) (m : bool -> str -> option R)
  (l rest : str) :
  beginsWith p m -> noLF p = true -> p <> [] ->
  occursb p l = false ->
  forall b, exists b', search m b (l ++ LF :: rest) = search m b' rest.
Proof.
  intros Hm Hp Hne Ho.
  assert (Hfail : forall a s b, l = a ++ s -> m b (s ++ LF :: rest) = None).
  { intros a s b E. apply Hm. unfold startsWith.
    rewrite stripPrefix_line; auto. eapply occursb_false; eauto. }
  clear Ho. induction l as [|c l IH]; intros b.
  - exists true. cbn [app]. rewrite search_skip by apply (Hfail [] [] b eq_refl).
    reflexivity.
  - cbn [app]. rewrite search_skip by apply (Hfail [] (c :: l) b eq_refl).
    apply IH. intros a s b' E. apply (Hfail (c :: a) s b'). simpl. congruence.
Qed.

Lemma search_absent_lines {R} (p : str) (m : bool -> str -> option R)
  (ls : list str) (rest : str) :
  beginsWith p m -> noLF p = true -> p <> [] ->
  Forall (fun l => occursb p l = false) ls ->
  forall b, exists b', search m b (prepend ls rest) = search m b' rest.
Proof.
  intros Hm Hp Hne. induction 1 as [|l ls Hl _ IH]; intros b.
  - exists b. reflexivity.
  - change (prepend (l :: ls) rest) with (l ++ LF :: prepend ls rest).
    destruct (search_absent_line p m l (prepend ls rest) Hm Hp Hne Hl b)
      as (b1 & ->).
    apply IH.
Qed.

Lemma lines_without (p b : str) :
  occursb p b = false -> Forall (fun l => occursb p l = false) (splitLines b).
Proof.
  intros H. apply Forall_forall. intros l Hl.
  destruct (occursb p l) eqn:E; auto.
  apply occursb_true in E as (a1 & b1 & ->).
  apply in_splitLines in Hl as (a2 & b2 & ->).
  assert (occursb p (a2 ++ (a1 ++ p ++ b1) ++ b2) = true).
  { apply occursb_true. exists (a2 ++ a1), (b1 ++ b2).
    rewrite <- !app_assoc. reflexivity. }
  congruence.
Qed.

Lemma evidencePattern_begins : beginsWith (lit "Evidence:") evidencePattern.
Proof.
  intros b s H. unfold evidencePattern, mLit. unfold startsWith in H.
  destruct (stripPrefix (lit "Evidence:") s); [discriminate | reflexivity].
Qed.

Lemma evidence_roundtrip (i : IssueSnapshot) :
  RoundTrip i ->
  firstCapture evidencePattern (join [LF] (chunk2 i)) = Some (evidence i).
Proof.
  intros H. destruct H. unfold chunk2, firstCapture.
  change ([] :: splitLines (description i)
            ++ [[]; lit "Evidence: " ++ evidence i; []])
    with (([] :: splitLines (description i) ++ [[]])
            ++ [lit "Evidence: " ++ evidence i; []]) at 1
    || replace ([] :: splitLines (description i)
                  ++ [[]; lit "Evidence: " ++ evidence i; []])
         with (([] :: splitLines (description i) ++ [[]])
                 ++ [lit "Evidence: " ++ evidence i; []])
         by (cbn [app]; rewrite <- app_assoc; reflexivity).
  rewrite join_prepend by discriminate.
  destruct (search_absent_lines (lit "Evidence:") evidencePattern
              ([] :: splitLines (description i) ++ [[]])
              (join [LF] [lit "Evidence: " ++ evidence i; []])
              evidencePattern_begins eq_refl ltac:(discriminate)) with (b := true)
    as (b' & ->).
  - constructor; [reflexivity|]. apply Forall_app. split.
    + apply lines_without. assumption.
    + repeat constructor.
  - assert (E : evidencePattern b' (join [LF] [lit "Evidence: " ++ evidence i; []])
                = Some (evidence i, [LF])).
    { cbn [join]. unfold evidencePattern.
      change ((lit "Evidence: " ++ evidence i) ++ [LF] ++ [])
        with (lit "Evidence:" ++ lit " " ++ evidence i ++ [LF]).
      rewrite mLit_app. apply valueTail_value; auto. reflexivity. }
    rewrite (search_here _ _ _ _ E). reflexivity.
Qed.

Lemma suffix_snoc {A} (w a b : list A) (x : A) :
  w ++ [x] = a ++ b -> b <> [] -> exists s, b = s ++ [x] /\ w = a ++ s.
Proof.
  intros E Hb. destruct b as [|y b] using rev_ind; [congruence|].
  clear IHb. rewrite app_assoc in E.
  apply app_inj_tail in E as [E ->]. eauto.
Qed.

Lemma codeBlockPattern_block (lang code rest : str) (b : bool) :
  forallb isWord lang = true -> occursb FENCE code = false ->
  codeBlockPattern b (FENCE ++ lang ++ LF :: code ++ LF :: FENCE ++ rest)
  = Some (lang, code ++ [LF]).
Proof.
  intros Hl Hc. unfold codeBlockPattern. rewrite mLit_app.
  apply mStarCap_greedy; [exact Hl | reflexivity |].
  change (LF :: code ++ LF :: FENCE ++ rest)
    with ([LF] ++ code ++ LF :: FENCE ++ rest).
  rewrite mLit_app.
  replace (code ++ LF :: FENCE ++ rest) with ((code ++ [LF]) ++ FENCE ++ rest)
    by (rewrite <- app_assoc; reflexivity).
  rewrite mLazyAny_first.
  - rewrite mLit_app. reflexivity.
  - intros a s E Hs. apply suffix_snoc in E as (s' & -> & E); auto.
    unfold mLit. rewrite <- app_assoc. cbn [app].
    rewrite stripPrefix_line; auto.
    eapply occursb_false; eauto.
Qed.

Lemma code_roundtrip (i : IssueSnapshot) :
  RoundTrip i ->
  search codeBlockPattern true (join [LF] (chunk3 i))
  = Some (codeLanguage i, codeExample i ++ [LF]).
Proof.
  intros H. destruct H. unfold chunk3.
  rewrite join_cons by discriminate.
  rewrite join_cons by (destruct (splitLines (codeExample i)); discriminate).
  rewrite join_app by (first [apply splitLines_nonempty | discriminate]).
  rewrite join_splitLines. cbn [join].
  change ([] ++ [LF] ++ ?x) with (LF :: x).
  rewrite search_skip by reflexivity.
  apply search_here.
  rewrite <- !app_assoc.
  change ([LF] ++ ?x) with (LF :: x).
  apply codeBlockPattern_block; auto.
Qed.

(* ================================================================== *)
(** * Round trip *)
(* ================================================================== *)

Lemma sections_lookup (c1 c2 c3 c4 c5 : str) :
  let s := [ (lit "recommendation", c5); (lit "example issue scenario", c4);
             (lit "code example", c3); (lit "description", c2);
             (lit "impact details", c1) ] in
  getSection s (lit "impact details") = c1 /\
  getSection s (lit "description") = c2 /\
  getSection s (lit "code example") = c3 /\
  getSection s (lit "example issue scenario") = c4 /\
  getSection s (lit "recommendation") = c5.
Proof. repeat split. Qed.

(** C2 (amended): for a record the template grammar can carry (one-line
    trimmed metadata, rows without a pipe, free-text blocks of safe lines,
    a language tag of word characters, code without a fence),
    serializing with [issueToMarkdown] and parsing the result with
    [parseIssue] gives back the title, the seven metadata fields, the
    impact details, the evidence, the code example and its language, the
    example scenario, the recommendation and the extra rows in order. *)
Theorem roundtrip_fields (i : IssueSnapshot) :
  roundTrippable i = true ->
  let p := parseIssue (issueToMarkdown i) in
  title p = title i /\ overallRisk p = overallRisk i /\
  impact p = impact i /\ exploitability p = exploitability i /\
  findingId p = findingId i /\ component p = component i /\
  category p = category i /\ status p = status i /\
  impactDetails p = impactDetails i /\ evidence p = evidence i /\
  codeExample p = codeExample i /\ codeLanguage p = codeLanguage i /\
  exampleScenario p = exampleScenario i /\
  recommendation p = recommendation i /\
  extraRows p = extraRows i.
Proof.
  intros Hok. apply roundTrippable_RoundTrip in Hok as H.
  cbv zeta. rewrite parseIssue_eq. unfold fieldsOf.
  cbn [title overallRisk impact exploitability findingId component category
       status impactDetails evidence codeExample codeLanguage exampleScenario
       recommendation extraRows].
  destruct (meta_roundtrip i H) as (M1 & M2 & M3 & M4 & M5 & M6 & M7).
  rewrite (titleOf_roundtrip i H), M1, M2, M3, M4, M5, M6, M7,
    (rows_roundtrip i H), (splitSections_roundtrip i H).
  destruct (sections_lookup (join [LF] (chunk1 i)) (join [LF] (chunk2 i))
              (join [LF] (chunk3 i)) (join [LF] (chunk4 i))
              (join [LF] (chunk5 i))) as (S1 & S2 & S3 & S4 & S5).
  unfold sectionOf, evidenceOf, codeOf. cbv zeta in *.
  rewrite S1, S2, S3, S4, S5.
  rewrite (evidence_roundtrip i H), (code_roundtrip i H).
  cbn [fst snd]. unfold chunk1, chunk4, chunk5.
  destruct H.
  rewrite !section_block by assumption.
  apply blockText_parts in rt_code0 as [Hc _].
  pose proof (trim_padded [] (codeExample i) [LF] eq_refl eq_refl Hc) as Ec.
  cbn [app] in Ec. rewrite Ec.
  rewrite (orElse_truthy _ _ rt_lang_truthy0).
  destruct (inlineValue_parts _ rt_evidence0) as (_ & _ & _ & ->).
  repeat split.
Qed.

Lemma roundtrip_fields_witness :
  let p := parseIssue (issueToMarkdown sampleRecord) in
  title p = title sampleRecord /\ overallRisk p = overallRisk sampleRecord /\
  impact p = impact sampleRecord /\
  exploitability p = exploitability sampleRecord /\
  findingId p = findingId sampleRecord /\
  component p = component sampleRecord /\
  category p = category sampleRecord /\ status p = status sampleRecord /\
  impactDetails p = impactDetails sampleRecord /\
  evidence p = evidence sampleRecord /\
  codeExample p = codeExample sampleRecord /\
  codeLanguage p = codeLanguage sampleRecord /\
  exampleScenario p = exampleScenario sampleRecord /\
  recommendation p = recommendation sampleRecord /\
  extraRows p = extraRows sampleRecord.
Proof. apply (roundtrip_fields sampleRecord). reflexivity. Defined.

(** C2 (counterexample): a record with every field filled in, whose
    title ends with a space: the parser trims the title, so the title
    does not come back; and the description comes back with the evidence
    line attached. *)
Lemma roundtrip_fails_on_padded_title :
  let p := parseIssue (issueToMarkdown paddedRecord) in
  title paddedRecord = lit "Weak session cookie " /\
  title p = lit "Weak session cookie" /\
  title p <> title paddedRecord /\
  description p
    = description paddedRecord ++ [LF; LF] ++ lit "Evidence: "
      ++ evidence paddedRecord /\
  description p <> description paddedRecord.
Proof. repeat split; discriminate. Qed.
(** ** More on trimming *)

Lemma dropWhile_head (p : ascii -> bool) (s : str) (c : ascii) (r : str) :
  dropWhile p s = c :: r -> p c = false.
Proof.
  induction s as [|x s IH]; cbn [dropWhile]; [discriminate|].
  destruct (p x) eqn:E; [exact IH|].
  intros H. injection H as -> _. exact E.
Qed.

Lemma trim_prefix (s : str) :
  exists b, dropWhile isSpace s = trim s ++ b.
Proof.
  unfold trim, trimEnd, trimStart.
  destruct (dropWhile_suffix isSpace (rev (dropWhile isSpace s))) as (a & E & _).
  exists (rev a).
  rewrite <- rev_app_distr, <- E, rev_involutive. reflexivity.
Qed.

(** A trimmed result that is not empty starts and ends with a character
    that is no white space. *)
Lemma trim_is_trimmed (s : str) : trim s <> [] -> trimmed (trim s) = true.
Proof.
  intros Hne. unfold trimmed.
  destruct (trim s) as [|c t] eqn:E; [congruence|].
  cbn [truthy andb hd].
  assert (Hhd : isSpace c = false).
  { destruct (trim_prefix s) as (b & Eb). rewrite E in Eb.
    exact (dropWhile_head _ _ _ _ Eb). }
  assert (Hlast : isSpace (last (c :: t) LF) = false).
  { unfold trim, trimEnd in E.
    destruct (dropWhile isSpace (rev (trimStart s))) as [|x r] eqn:Ed;
      [discriminate|].
    pose proof (dropWhile_head _ _ _ _ Ed) as Hx.
    cbn [rev] in E. rewrite <- E, last_last. exact Hx. }
  rewrite Hhd, Hlast. reflexivity.
Qed.

Lemma trim_idempotent (s : str) : trim (trim s) = trim s.
Proof.
  destruct (trim s) as [|c t] eqn:E; [reflexivity|].
  rewrite <- E. apply trimmed_trim, trim_is_trimmed. congruence.
Qed.

(** ** Block markup *)

(** What the loop has written so far is never looked at again. *)
Lemma blockStep_prefix (h0 h : str) (b : bool) (line : str) :
  blockStep (h0 ++ h, b) line
  = (h0 ++ fst (blockStep (h, b) line), snd (blockStep (h, b) line)).
Proof.
  unfold blockStep.
  destruct (negb (truthy (trim line))).
  - destruct b; cbn; rewrite <- ?app_assoc; reflexivity.
  - destruct (isBullet (trim line)); destruct b; cbn;
      rewrite <- ?app_assoc; reflexivity.
Qed.

Lemma blockLoop_prefix (ls : list str) :
  forall h0 h b,
    fold_left blockStep ls (h0 ++ h, b)
    = (h0 ++ fst (fold_left blockStep ls (h, b)),
       snd (fold_left blockStep ls (h, b))).
Proof.
  induction ls as [|l ls IH]; intros h0 h b; [reflexivity|].
  cbn [fold_left]. rewrite blockStep_prefix.
  rewrite IH. rewrite <- surjective_pairing. reflexivity.
Qed.

(** The result of the loop with the closing tag of an open list. *)
Definition closeList (st : str * bool) : str :=
  if snd st then fst st ++ lit "</ul>" else fst st.

Lemma blockMarkdownToHtml_loop (text : str) :
  blockMarkdownToHtml text
  = closeList (fold_left blockStep (splitLines text) ([], false)).
Proof.
  unfold blockMarkdownToHtml, closeList.
  destruct text as [|c t]; [reflexivity|].
  cbn [truthy negb].
  destruct (fold_left blockStep (splitLines (c :: t)) ([], false)); reflexivity.
Qed.

Lemma blockStep_blank (st : str * bool) :
  blockStep st [] = (closeList st, false).
Proof. destruct st as [h [|]]; reflexivity. Qed.


(** X3: an empty line separates what [blockMarkdownToHtml] renders: the
    HTML of [a], an empty line and [b] is the HTML of [a] followed by the
    HTML of [b].  A list that is open where [a] ends is closed there, and
    no block of the output reaches across the empty line. *)
Theorem blockMarkdownToHtml_blank_line (a b : str) :
  blockMarkdownToHtml (a ++ LF :: LF :: b)
  = blockMarkdownToHtml a ++ blockMarkdownToHtml b.
Proof.
  rewrite !blockMarkdownToHtml_loop.
  rewrite splitLines_app.
  change (splitLines (LF :: b)) with ([] :: splitLines b).
  rewrite fold_left_app. cbn [fold_left].
  rewrite blockStep_blank.
  set (x := closeList (fold_left blockStep (splitLines a) ([], false))).
  rewrite <- (app_nil_r x) at 1.
  rewrite blockLoop_prefix.
  unfold closeList at 1. cbn [fst snd].
  unfold closeList.
  destruct (fold_left blockStep (splitLines b) ([], false)) as [h [|]];
    cbn [fst snd]; rewrite ?app_assoc; reflexivity.
Qed.

(** The state of the loop, read as the blocks written so far and the
    items of the list that is still open. *)
Definition blockState (blocks : list Block) (open : list str) : str * bool :=
  match open with
  | [] => (flat_map renderBlock blocks, false)
  | _ :: _ => (flat_map renderBlock blocks ++ lit "<ul>" ++ flat_map renderItem open,
               true)
  end.

Lemma closeList_blockState (blocks : list Block) (open : list str) :
  closeList (blockState blocks open)
  = flat_map renderBlock
      (blocks ++ match open with [] => [] | _ => [BList open] end).
Proof.
  destruct open as [|i open]; cbn [blockState closeList fst snd].
  - rewrite app_nil_r. reflexivity.
  - rewrite flat_map_app. cbn [flat_map renderBlock].
    rewrite ?app_nil_r, <- ?app_assoc. reflexivity.
Qed.

Lemma partOf_trim (text line : str) :
  In line (splitLines text) -> partOf text (trim line).
Proof.
  intros Hin. destruct (in_splitLines _ _ Hin) as (a & b & ->).
  destruct (trim_inside line) as (a' & b' & E).
  exists (a ++ a'), (b' ++ b).
  rewrite E at 1. rewrite <- ?app_assoc. reflexivity.
Qed.

Lemma partOf_skipn (text s : str) (n : nat) :
  partOf text s -> partOf text (skipn n s).
Proof.
  intros (a & b & ->). exists (a ++ firstn n s), b.
  rewrite <- app_assoc. f_equal. rewrite app_assoc, firstn_skipn. reflexivity.
Qed.

Lemma bullet_item (line : str) :
  isBullet (trim line) = true -> skipn 2 (trim line) <> [].
Proof.
  intros Hb.
  assert (Hne : trim line <> []) by (intros E; rewrite E in Hb; discriminate).
  pose proof (trim_is_trimmed line Hne) as Ht.
  unfold isBullet in Hb. apply orb_true_iff in Hb.
  assert (Hr : exists c r, trim line = c :: chr 32 :: r).
  { destruct Hb as [Hb|Hb]; apply startsWith_true in Hb; destruct Hb as (r & E);
      rewrite E; eexists; eexists; reflexivity. }
  destruct Hr as (c & r & E). rewrite E in *. cbn [skipn].
  intros ->. unfold trimmed in Ht. cbn in Ht.
  rewrite andb_false_r in Ht. discriminate.
Qed.

Definition blockInv (text : str) (st : str * bool) : Prop :=
  exists blocks open,
    st = blockState blocks open /\ Forall blockOk blocks /\ ~ In [] open /\
    Forall (partOf text) (flat_map blockSources blocks ++ open).

Lemma blockState_item (blocks : list Block) (open : list str) (x : str) :
  blockState blocks (open ++ [x])
  = ((if snd (blockState blocks open)
      then fst (blockState blocks open)
      else fst (blockState blocks open) ++ lit "<ul>") ++ renderItem x, true).
Proof.
  destruct open as [|i open]; cbn [app blockState fst snd].
  - cbn [flat_map]. rewrite ?app_nil_r, <- ?app_assoc. reflexivity.
  - change (i :: open ++ [x]) with ((i :: open) ++ [x]).
    rewrite flat_map_app. cbn [flat_map].
    rewrite ?app_nil_r, <- ?app_assoc. reflexivity.
Qed.

Lemma render_paragraph_last (blocks : list Block) (t : str) :
  flat_map renderBlock (blocks ++ [BParagraph t])
  = flat_map renderBlock blocks
    ++ lit "<p>" ++ inlineMarkdownToHtml t ++ lit "</p>".
Proof.
  rewrite flat_map_app. f_equal. cbn [flat_map]. apply app_nil_r.
Qed.

Lemma blockOk_list (i : str) (open : list str) :
  ~ In [] (i :: open) -> blockOk (BList (i :: open)).
Proof. intros H. split; [discriminate | exact H]. Qed.

Lemma blockOk_paragraph (s : str) : s <> [] -> blockOk (BParagraph s).
Proof.
  intros H. split; [discriminate|]. intros [E|[]]. congruence.
Qed.

Lemma blockStep_cases (st : str * bool) (line : str) :
  blockStep st line
  = if negb (truthy (trim line)) then (closeList st, false)
    else if isBullet (trim line)
    then ((if snd st then fst st else fst st ++ lit "<ul>")
          ++ renderItem (skipn 2 (trim line)), true)
    else (closeList st
          ++ lit "<p>" ++ inlineMarkdownToHtml (trim line) ++ lit "</p>", false).
Proof.
  destruct st as [h b]. unfold blockStep, closeList, renderItem.
  cbn [fst snd].
  destruct (negb (truthy (trim line))); [destruct b; reflexivity|].
  destruct (isBullet (trim line)); destruct b; cbn [negb];
    rewrite <- ?app_assoc; reflexivity.
Qed.

Lemma closed_blocks (blocks : list Block) (open : list str) :
  Forall blockOk blocks -> ~ In [] open ->
  Forall blockOk (blocks ++ match open with [] => [] | _ => [BList open] end).
Proof.
  intros Hok Hopen. apply Forall_app. split; [exact Hok|].
  destruct open; constructor; [apply blockOk_list; exact Hopen | constructor].
Qed.

Lemma closed_sources (blocks : list Block) (open : list str) :
  flat_map blockSources
    (blocks ++ match open with [] => [] | _ => [BList open] end)
  = flat_map blockSources blocks ++ open.
Proof.
  rewrite flat_map_app. f_equal. destruct open; [reflexivity|].
  cbn [flat_map blockSources]. apply app_nil_r.
Qed.

Lemma blockStep_inv (text line : str) (st : str * bool) :
  In line (splitLines text) -> blockInv text st -> blockInv text (blockStep st line).
Proof.
  intros Hin (blocks & open & -> & Hok & Hopen & Hparts).
  pose proof (partOf_trim _ _ Hin) as Hpart.
  rewrite blockStep_cases.
  destruct (truthy (trim line)) eqn:Et; cbn [negb].
  2:{ exists (blocks ++ match open with [] => [] | _ => [BList open] end), [].
      split; [|split; [|split]].
      - rewrite closeList_blockState. reflexivity.
      - apply closed_blocks; assumption.
      - intros [].
      - rewrite app_nil_r, closed_sources. exact Hparts. }
  assert (Hne : trim line <> []) by (intros E; rewrite E in Et; discriminate).
  destruct (isBullet (trim line)) eqn:Eb.
  - pose proof (bullet_item line Eb) as Hitem.
    exists blocks, (open ++ [skipn 2 (trim line)]).
    split; [|split; [|split]].
    + rewrite blockState_item. reflexivity.
    + exact Hok.
    + intros H. apply in_app_or in H. destruct H as [H|[H|[]]]; auto.
    + rewrite app_assoc. apply Forall_app. split; [exact Hparts|].
      constructor; [apply partOf_skipn; exact Hpart | constructor].
  - exists ((blocks ++ match open with [] => [] | _ => [BList open] end)
            ++ [BParagraph (trim line)]), [].
    split; [|split; [|split]].
    + rewrite closeList_blockState. cbn [blockState].
      rewrite render_paragraph_last. reflexivity.
    + apply Forall_app. split; [apply closed_blocks; assumption|].
      constructor; [apply blockOk_paragraph; exact Hne | constructor].
    + intros [].
    + rewrite app_nil_r, flat_map_app, closed_sources.
      apply Forall_app. split; [exact Hparts|].
      constructor; [exact Hpart | constructor].
Qed.

Lemma blockLoop_inv (text : str) (ls : list str) :
  incl ls (splitLines text) ->
  forall st, blockInv text st -> blockInv text (fold_left blockStep ls st).
Proof.
  induction ls as [|l ls IH]; intros Hincl st Hst; [exact Hst|].
  cbn [fold_left]. apply IH.
  - intros x Hx. apply Hincl. right. exact Hx.
  - apply blockStep_inv; [apply Hincl; left; reflexivity | exact Hst].
Qed.


(** X4: the output of [blockMarkdownToHtml] is a sequence of closed
    blocks, each a paragraph [<p>..</p>] or a list
    [<ul><li>..</li>..</ul>]: no list is left open or nested, every list
    has an item, and every paragraph and item is [inlineMarkdownToHtml]
    of a piece of the input that is not empty. *)
Theorem blockMarkdownToHtml_wellformed (text : str) :
  exists blocks,
    blockMarkdownToHtml text = flat_map renderBlock blocks /\
    Forall blockOk blocks /\
    Forall (partOf text) (flat_map blockSources blocks).
Proof.
  rewrite blockMarkdownToHtml_loop.
  destruct (blockLoop_inv text (splitLines text) (incl_refl _) ([], false))
    as (blocks & open & E & Hok & Hopen & Hparts).
  { exists [], []. repeat split; auto. }
  rewrite E, closeList_blockState.
  exists (blocks ++ match open with [] => [] | _ => [BList open] end).
  split; [reflexivity|]. split.
  - apply closed_blocks; assumption.
  - rewrite closed_sources. exact Hparts.
Qed.

(** ** Headings and line endings *)


(** What a heading line captures is a non-empty run of characters other
    than line terminators that reaches the end of the line. *)
Lemma headingMatch_capture (line h : str) :
  headingMatch line = Some h ->
  h <> [] /\ forallb isDot h = true /\ exists a, line = a ++ h.
Proof.
  unfold headingMatch. intros H.
  assert (Hrest : forall r,
            mPlus isSpace r (fun r1 =>
              mPlusCap isDot r1 (fun cap r2 => mEnd r2 (fun _ => Some cap)))
            = Some h ->
            h <> [] /\ forallb isDot h = true /\ exists a, r = a ++ h).
  { intros r Hr.
    apply mPlus_Some in Hr as (w & r1 & -> & _ & _ & Hr).
    apply mPlusCap_Some in Hr as (cap & r2 & -> & Hne & Hdot & Hr).
    unfold mEnd in Hr. destruct r2; [|discriminate].
    inversion Hr; subst. repeat split; auto.
    exists w. rewrite app_nil_r. reflexivity. }
  apply mLit_Some in H as (r & -> & H).
  destruct (mLit (lit "#") r _) eqn:E.
  - inversion H; subst. apply mLit_Some in E as (r' & -> & E).
    destruct (Hrest _ E) as (Hne & Hdot & a & ->).
    repeat split; auto.
    exists (lit "##" ++ lit "#" ++ a). rewrite <- !app_assoc. reflexivity.
  - destruct (Hrest _ H) as (Hne & Hdot & a & ->).
    repeat split; auto.
    exists (lit "##" ++ a). rewrite <- !app_assoc. reflexivity.
Qed.

Lemma forallb_last (p : ascii -> bool) (s : str) (d : ascii) :
  s <> [] -> forallb p s = true -> p (last s d) = true.
Proof.
  intros Hne Hall.
  rewrite forallb_forall in Hall. apply Hall.
  destruct (exists_last Hne) as (s' & x & ->).
  rewrite last_last. apply in_or_app. right. left. reflexivity.
Qed.

Lemma last_app_nonempty (a h : str) (d : ascii) :
  h <> [] -> last (a ++ h) d = last h d.
Proof.
  intros Hne. destruct (exists_last Hne) as (h' & x & ->).
  rewrite app_assoc, !last_last. reflexivity.
Qed.

(** A line that ends with a carriage return is no heading. *)
Lemma carriage_return_no_heading (line : str) :
  last line LF = CR -> headingMatch line = None.
Proof.
  intros Hlast. destruct (headingMatch line) as [h|] eqn:E; [|reflexivity].
  destruct (headingMatch_capture _ _ E) as (Hne & Hdot & a & ->).
  rewrite (last_app_nonempty a h LF Hne) in Hlast.
  pose proof (forallb_last isDot h LF Hne Hdot) as Hd.
  rewrite Hlast in Hd. discriminate.
Qed.

Lemma splitSections_no_heading (doc : str) :
  Forall (fun l => headingMatch l = None) (splitLines doc) ->
  splitSections doc = [].
Proof.
  intros H. unfold splitSections.
  rewrite <- (app_nil_r (splitLines doc)).
  rewrite (splitLoop_text (splitLines doc) [] H [] None []).
  reflexivity.
Qed.



(** X5: in a document with CR LF line endings (every line empty or
    ending with a carriage return) no line is a heading: the dot of
    [/^#{2,3}\s+(.+)$/] does not match a carriage return, and without
    the [m] flag [$] matches at the end of the line only.
    [splitSections] returns no section, and [parseIssue] leaves the
    impact details, the description, the evidence, the code example and
    its language, the example scenario and the recommendation empty. *)
Theorem crlf_document_has_no_sections (doc : str) :
  crlfLines doc ->
  splitSections doc = [] /\
  impactDetails (parseIssue doc) = [] /\
  description (parseIssue doc) = [] /\
  evidence (parseIssue doc) = [] /\
  codeExample (parseIssue doc) = [] /\
  codeLanguage (parseIssue doc) = [] /\
  exampleScenario (parseIssue doc) = [] /\
  recommendation (parseIssue doc) = [].
Proof.
  intros H.
  assert (E : splitSections doc = []).
  { apply splitSections_no_heading.
    eapply Forall_impl; [|exact H]. cbn beta.
    intros l [->|Hl]; [reflexivity | apply carriage_return_no_heading; exact Hl]. }
  split; [exact E|].
  destruct (parseIssue_fields doc) as (_ & _ & _ & H1 & H2 & H3 & H4 & H5 & H6 & H7).
  cbv zeta in *. rewrite E in *.
  rewrite H1, H2, H3, H4, H5, H6, H7. repeat split; reflexivity.
Qed.


Lemma crlf_document_has_no_sections_witness :
  overallRisk (parseIssue crlfSample) = lit "High" /\
  splitSections crlfSample = [] /\
  impactDetails (parseIssue crlfSample) = [] /\
  description (parseIssue crlfSample) = [] /\
  evidence (parseIssue crlfSample) = [] /\
  codeExample (parseIssue crlfSample) = [] /\
  codeLanguage (parseIssue crlfSample) = [] /\
  exampleScenario (parseIssue crlfSample) = [] /\
  recommendation (parseIssue crlfSample) = [].
Proof.
  split; [vm_compute; reflexivity|].
  apply (crlf_document_has_no_sections crlfSample).
  unfold crlfLines. vm_compute.
  repeat (apply Forall_cons; [first [left; reflexivity | right; reflexivity]|]).
  apply Forall_nil.
Defined.

(** ** Which heading a section is read from *)

Lemma splitLoop_app (ls rest : list str) :
  forall secs key cur,
    exists secs' key' cur',
      splitLoop (ls ++ rest) secs key cur = splitLoop rest secs' key' cur'.
Proof.
  induction ls as [|l ls IH]; intros secs key cur.
  - exists secs, key, cur. reflexivity.
  - cbn [app splitLoop].
    destruct (headingMatch l); [apply IH|].
    destruct key; apply IH.
Qed.

Lemma getSection_set_same (secs : Sections) (key v : str) :
  key <> lit "__proto__" -> getSection (setSection secs key v) key = v.
Proof.
  intros Hk. unfold setSection.
  destruct (JsString.eqb key (lit "__proto__")) eqn:E.
  - apply eqb_spec in E. contradiction.
  - cbn [getSection]. rewrite eqb_refl. reflexivity.
Qed.

Lemma getSection_set_other (secs : Sections) (k key v : str) :
  k <> key -> getSection (setSection secs k v) key = getSection secs key.
Proof.
  intros Hk. unfold setSection.
  destruct (JsString.eqb k (lit "__proto__")); [reflexivity|].
  cbn [getSection].
  destruct (JsString.eqb k key) eqn:E; [|reflexivity].
  apply eqb_spec in E. contradiction.
Qed.

(** The heading of [l], if it is one, names another section than [key]. *)
Definition otherHeading (key l : str) : Prop :=
  forall t, headingMatch l = Some t -> toLowerCase (trim t) <> key.

Lemma splitLoop_other_keys (key : str) (rest : list str) :
  Forall (otherHeading key) rest ->
  forall secs k cur,
    k <> key ->
    getSection (splitLoop rest secs (Some k) cur) key = getSection secs key.
Proof.
  induction 1 as [|l rest Hl _ IH]; intros secs k cur Hk.
  - cbn [splitLoop]. apply getSection_set_other. exact Hk.
  - cbn [splitLoop]. destruct (headingMatch l) as [t|] eqn:E.
    + rewrite IH by (apply Hl; exact E).
      apply getSection_set_other. exact Hk.
    + apply IH. exact Hk.
Qed.


(** X6: [splitSections] stores a section under the lower-cased, trimmed
    text of its heading, so of the headings with one key the last wins:
    when the lines of the document are [pre], the heading [h] with key
    [key], the lines [body] without a heading, and [after], which starts
    with a heading unless it is empty and has no heading with that key,
    the section of [key] is [body] joined by line feeds, whatever [pre]
    holds.  [parseIssue] reads the impact details, the example scenario
    and the recommendation from it. *)
Theorem section_is_body_of_last_heading (doc : str)
  (pre body after : list str) (h t key : str) :
  splitLines doc = pre ++ h :: body ++ after ->
  headingMatch h = Some t ->
  key = toLowerCase (trim t) ->
  key <> lit "__proto__" ->
  Forall notHeading body ->
  (forall l, hd_error after = Some l -> headingMatch l <> None) ->
  Forall (otherHeading key) after ->
  getSection (splitSections doc) key = join [LF] body /\
  (key = lit "impact details" ->
     impactDetails (parseIssue doc) = trim (join [LF] body)) /\
  (key = lit "example issue scenario" ->
     exampleScenario (parseIssue doc) = trim (join [LF] body)) /\
  (key = lit "recommendation" ->
     recommendation (parseIssue doc) = trim (join [LF] body)).
Proof.
  intros Hlines Hh Hkey Hproto Hbody Hnext Hafter.
  assert (E : getSection (splitSections doc) key = join [LF] body).
  { unfold splitSections. rewrite Hlines.
    destruct (splitLoop_app pre (h :: body ++ after) [] None [])
      as (secs & k0 & cur & ->).
    rewrite (splitLoop_heading h t _ _ _ _ Hh), <- Hkey.
    rewrite (splitLoop_text body after Hbody). cbn [app].
    destruct after as [|l rest].
    - cbn [splitLoop]. apply getSection_set_same. exact Hproto.
    - destruct (headingMatch l) as [t'|] eqn:El.
      2:{ exfalso. apply (Hnext l); [reflexivity | exact El]. }
      rewrite (splitLoop_heading l t' _ _ _ _ El).
      inversion Hafter as [|? ? Hl Hrest]; subst.
      rewrite (splitLoop_other_keys _ rest Hrest) by (apply Hl; exact El).
      apply getSection_set_same. exact Hproto. }
  split; [exact E|].
  destruct (parseIssue_fields doc) as (_ & _ & _ & H1 & _ & _ & _ & _ & H6 & H7).
  cbv zeta in *. unfold sectionOf in *.
  repeat split; intros Ek; rewrite Ek in E.
  - rewrite H1, E. reflexivity.
  - rewrite H6, E. reflexivity.
  - rewrite H7, E. reflexivity.
Qed.

Lemma section_is_body_of_last_heading_witness :
  getSection (splitSections repeatedHeadingSample) (lit "recommendation")
    = join [LF] [lit "Use ChaCha20."; []] /\
  (lit "recommendation" = lit "impact details" ->
     impactDetails (parseIssue repeatedHeadingSample)
     = trim (join [LF] [lit "Use ChaCha20."; []])) /\
  (lit "recommendation" = lit "example issue scenario" ->
     exampleScenario (parseIssue repeatedHeadingSample)
     = trim (join [LF] [lit "Use ChaCha20."; []])) /\
  (lit "recommendation" = lit "recommendation" ->
     recommendation (parseIssue repeatedHeadingSample)
     = trim (join [LF] [lit "Use ChaCha20."; []])).
Proof.
  apply (section_is_body_of_last_heading repeatedHeadingSample
           [lit "## Recommendation"; lit "Use AES."; lit "## Description";
            lit "Old cipher."]
           [lit "Use ChaCha20."; []]
           [lit "## Notes"; lit "None."]
           (lit "## recommendation") (lit "recommendation")
           (lit "recommendation")).
  - reflexivity.
  - reflexivity.
  - reflexivity.
  - discriminate.
  - repeat constructor.
  - intros l E. injection E as <-. discriminate.
  - repeat constructor; intros t E; vm_compute in E;
      try discriminate; injection E as <-; discriminate.
Defined.

(** ** The main content of a section *)

Lemma splitLines_noLF (s : str) : Forall (fun l => noLF l = true) (splitLines s).
Proof.
  induction s as [|c s IH]; cbn [splitLines].
  - repeat constructor.
  - destruct (Ascii.eqb c LF) eqn:E.
    + constructor; [reflexivity | exact IH].
    + destruct (splitLines s) as [|l ls].
      * constructor; [|constructor]. unfold noLF, isNot. cbn [forallb].
        rewrite E. reflexivity.
      * inversion IH; subst. constructor; [|assumption].
        unfold noLF in *. cbn [forallb]. unfold isNot at 1. rewrite E. assumption.
Qed.

Lemma splitLines_of_lines (ls : list str) :
  ls <> [] -> Forall (fun l => noLF l = true) ls ->
  splitLines (join [LF] ls) = ls.
Proof.
  intros Hne Hall. rewrite splitLines_join by exact Hne.
  apply concat_split_singles. exact Hall.
Qed.

Lemma mainLines_prefix (ls : list str) :
  exists rest, ls = mainLines ls ++ rest /\
               (rest = [] \/ exists l r, rest = l :: r /\ subHeadingMatch l = true).
Proof.
  induction ls as [|l ls (rest & E & Hrest)]; cbn [mainLines].
  - exists []. auto.
  - destruct (subHeadingMatch l) eqn:El.
    + exists (l :: ls). split; [reflexivity|]. right. eauto.
    + exists rest. split; [cbn [app]; f_equal; exact E | exact Hrest].
Qed.

Lemma mainLines_clean (ls : list str) :
  Forall (fun l => subHeadingMatch l = false) (mainLines ls).
Proof.
  induction ls as [|l ls IH]; cbn [mainLines]; [constructor|].
  destruct (subHeadingMatch l) eqn:El; constructor; assumption.
Qed.

Lemma mainLines_fixed (ls : list str) :
  Forall (fun l => subHeadingMatch l = false) ls -> mainLines ls = ls.
Proof.
  induction 1 as [|l ls Hl _ IH]; cbn [mainLines]; [reflexivity|].
  rewrite Hl, IH. reflexivity.
Qed.

Lemma Forall_app_l {A} (P : A -> Prop) (a b : list A) :
  Forall P (a ++ b) -> Forall P a.
Proof. intros H. apply Forall_app in H. tauto. Qed.


(** X7: [extractMainContent] cuts the content at the first line that
    [/^###\s+/] matches, and nowhere else: the result is a prefix of the
    content and has no such line; applying the function again changes
    nothing; content without such a line is returned as it is; and
    content that is changed has such a line. *)
Theorem extractMainContent_cuts_at_subheading (content : str) :
  (exists rest, content = extractMainContent content ++ rest) /\
  Forall (fun l => subHeadingMatch l = false)
         (splitLines (extractMainContent content)) /\
  extractMainContent (extractMainContent content) = extractMainContent content /\
  (Forall (fun l => subHeadingMatch l = false) (splitLines content) ->
   extractMainContent content = content) /\
  (extractMainContent content <> content ->
   exists l, In l (splitLines content) /\ subHeadingMatch l = true).
Proof.
  unfold extractMainContent.
  destruct (mainLines_prefix (splitLines content)) as (rest & E & Hrest).
  pose proof (mainLines_clean (splitLines content)) as Hclean.
  pose proof (splitLines_noLF content) as HnoLF.
  assert (Hlines : splitLines (join [LF] (mainLines (splitLines content)))
                   = match mainLines (splitLines content) with
                     | [] => [[]]
                     | ls => ls
                     end).
  { destruct (mainLines (splitLines content)) as [|l ls] eqn:Em; [reflexivity|].
    apply splitLines_of_lines; [discriminate|].
    rewrite E in HnoLF. exact (Forall_app_l _ _ _ HnoLF). }
  assert (Hfixed : Forall (fun l => subHeadingMatch l = false) (splitLines content) ->
                   join [LF] (mainLines (splitLines content)) = content).
  { intros Hall. rewrite mainLines_fixed by exact Hall. apply join_splitLines. }
  split; [|split; [|split; [|split]]].
  - assert (Ec : content = join [LF] (mainLines (splitLines content) ++ rest))
      by (rewrite <- E; symmetry; apply join_splitLines).
    remember (mainLines (splitLines content)) as m eqn:Em.
    clear - Ec. destruct m as [|l ls].
    + exists content. reflexivity.
    + destruct rest as [|r rest'].
      * exists []. rewrite app_nil_r in *. exact Ec.
      * rewrite join_app in Ec by discriminate. eexists. exact Ec.
  - rewrite Hlines.
    destruct (mainLines (splitLines content)); [repeat constructor | exact Hclean].
  - rewrite Hlines.
    destruct (mainLines (splitLines content)) as [|l ls] eqn:Em; [reflexivity|].
    rewrite mainLines_fixed by exact Hclean. reflexivity.
  - exact Hfixed.
  - intros Hdiff.
    destruct Hrest as [->|(l & r & -> & Hl)].
    + exfalso. apply Hdiff. apply Hfixed.
      rewrite E, app_nil_r. exact Hclean.
    + exists l. split; [|exact Hl]. rewrite E. apply in_or_app. right. left.
      reflexivity.
Qed.

(** ** A marker without its partner *)

Lemma spanPattern_consuming (open close : str) (stop : ascii)
  (wrap : str -> str) :
  consuming (spanPattern open close stop wrap).
Proof.
  intros b s t rest H. unfold spanPattern in H.
  apply mLit_Some in H as (r1 & -> & H).
  apply mPlusCap_Some in H as (w & r2 & -> & Hne & _ & H).
  apply mLit_Some in H as (r3 & -> & H).
  inversion H; subst. rewrite !length_app.
  destruct w; [congruence|]. cbn [length]. lia.
Qed.

Lemma tokenPattern_consuming : consuming tokenPattern.
Proof.
  intros b s t rest H. unfold tokenPattern, orMatch in H.
  destruct (spanPattern [BACKTICK] _ _ _ b s) as [[t1 r1]|] eqn:E1.
  { inversion H; subst. exact (spanPattern_consuming _ _ _ _ _ _ _ _ E1). }
  destruct (spanPattern [STAR; STAR] _ _ _ b s) as [[t2 r2]|] eqn:E2.
  { inversion H; subst. exact (spanPattern_consuming _ _ _ _ _ _ _ _ E2). }
  destruct (spanPattern [STAR] _ _ _ b s) as [[t3 r3]|] eqn:E3.
  { inversion H; subst. exact (spanPattern_consuming _ _ _ _ _ _ _ _ E3). }
  apply mPlusCap_Some in H as (w & r & -> & Hne & _ & H).
  inversion H; subst. rewrite length_app.
  destruct t; [congruence|]. cbn [length]. lia.
Qed.

(** A span whose closing delimiter does not occur in the rest. *)
Lemma span_unclosed {R} (stop c : ascii) (close s : str)
  (k : str -> str -> option R) :
  forallb (isNot c) s = true ->
  mPlusCap (isNot stop) s (fun cap r1 => mLit (c :: close) r1 (k cap)) = None.
Proof.
  intros Hs.
  destruct (mPlusCap _ s _) as [x|] eqn:E; [|reflexivity].
  apply mPlusCap_Some in E as (w & r & -> & _ & _ & E).
  apply mLit_Some in E as (r' & -> & _).
  rewrite !forallb_app in Hs. cbn [forallb app] in Hs.
  unfold isNot at 2 in Hs. rewrite Ascii.eqb_refl in Hs. cbn in Hs.
  rewrite andb_false_r in Hs. discriminate.
Qed.

Lemma spanPattern_head (o : ascii) (open' close : str) (stop : ascii)
  (wrap : str -> str) (b : bool) (c : ascii) (s : str) :
  Ascii.eqb o c = false -> spanPattern (o :: open') close stop wrap b (c :: s) = None.
Proof.
  intros H. unfold spanPattern, mLit. cbn [stripPrefix]. rewrite H. reflexivity.
Qed.

Lemma spanPattern_nil (open close : str) (stop : ascii) (wrap : str -> str)
  (b : bool) :
  open <> [] -> spanPattern open close stop wrap b [] = None.
Proof. destruct open; [congruence | reflexivity]. Qed.

(** The positions of [a ++ d :: b]: inside [a], or inside [b]. *)
Lemma suffix_cases (a b : str) (d : ascii) :
  forall x r, a ++ d :: b = x ++ r ->
    (exists a2, r = a2 ++ d :: b /\ exists a1, a = a1 ++ a2)
    \/ (exists b1, b = b1 ++ r).
Proof.
  induction a as [|c a IH]; intros x r E.
  - destruct x as [|y x]; cbn [app] in E.
    + left. exists []. split; [symmetry; exact E | exists []; reflexivity].
    + right. injection E as _ E. exists x. exact E.
  - destruct x as [|y x]; cbn [app] in E.
    + left. exists (c :: a). split; [symmetry; exact E | exists []; reflexivity].
    + injection E as _ E. destruct (IH _ _ E) as [(a2 & -> & a1 & ->)|(b1 & ->)].
      * left. exists a2. split; [reflexivity | exists (c :: a1); reflexivity].
      * right. exists b1. reflexivity.
Qed.

Lemma textChar_avoids (d c : ascii) :
  In d markupChars -> isTextChar c = true -> Ascii.eqb d c = false.
Proof.
  intros Hd Hc. apply isNot_false. exact (textChar_isNot d c Hd Hc).
Qed.

Lemma text_plain (s : str) :
  forallb isTextChar s = true -> forallb isPlainChar s = true.
Proof.
  apply forallb_impl. intros c Hc. unfold isPlainChar.
  rewrite (textChar_isNot BACKTICK c), (textChar_isNot STAR c);
    auto; cbn; auto.
Qed.

(** No span starts anywhere in a text with a single marker. *)
Lemma span_never_matches (o : ascii) (open' close' : str) (stop : ascii)
  (wrap : str -> str) (d : ascii) (a b : str) :
  In o markupChars ->
  forallb isTextChar a = true -> forallb isTextChar b = true ->
  (o = d -> match open' with
            | [] => True
            | o' :: _ => In o' markupChars
            end) ->
  forall bol x r, a ++ d :: b = x ++ r ->
    spanPattern (o :: open') (o :: close') stop wrap bol r = None.
Proof.
  intros Ho Ha Hb Hopen bol x r E.
  assert (Hhead : forall c s t, forallb isTextChar t = true -> In c t ->
            spanPattern (o :: open') (o :: close') stop wrap bol (c :: s) = None).
  { intros c s t Ht Hc. apply spanPattern_head, textChar_avoids; [exact Ho|].
    rewrite forallb_forall in Ht. apply Ht. exact Hc. }
  destruct (suffix_cases a b d x r E) as [(a2 & -> & a1 & ->)|(b1 & ->)].
  - destruct a2 as [|c a2].
    + cbn [app]. destruct (Ascii.eqb o d) eqn:Eo.
      * apply Ascii.eqb_eq in Eo. specialize (Hopen Eo). subst d.
        unfold spanPattern, mLit. cbn [stripPrefix]. rewrite Ascii.eqb_refl.
        destruct open' as [|o' open''].
        -- cbn [stripPrefix]. apply span_unclosed.
           apply (text_avoids o b Ho Hb).
        -- destruct b as [|c b]; cbn [stripPrefix]; [reflexivity|].
           rewrite (textChar_avoids o' c Hopen); [reflexivity|].
           cbn [forallb] in Hb. apply andb_true_iff in Hb. tauto.
      * apply spanPattern_head. exact Eo.
    + cbn [app]. apply (Hhead c _ (a1 ++ c :: a2) Ha).
      apply in_or_app. right. left. reflexivity.
  - destruct r as [|c r]; [apply spanPattern_nil; discriminate|].
    apply (Hhead c _ (b1 ++ c :: r) Hb).
    apply in_or_app. right. left. reflexivity.
Qed.

Lemma linkPattern_never (wrap : str -> str -> str) (d : ascii) (a b : str) :
  In d [STAR; BACKTICK] ->
  forallb isTextChar a = true -> forallb isTextChar b = true ->
  forall bol x r, a ++ d :: b = x ++ r -> linkPattern wrap bol r = None.
Proof.
  intros Hd Ha Hb bol x r E.
  assert (Hhead : forall c s t, forallb isTextChar t = true -> In c t ->
            linkPattern wrap bol (c :: s) = None).
  { intros c s t Ht Hc. apply linkPattern_text.
    rewrite forallb_forall in Ht. apply Ht. exact Hc. }
  destruct (suffix_cases a b d x r E) as [(a2 & -> & a1 & ->)|(b1 & ->)].
  - destruct a2 as [|c a2].
    + destruct Hd as [<-|[<-|[]]]; reflexivity.
    + apply (Hhead c _ (a1 ++ c :: a2) Ha). apply in_or_app. right. left.
      reflexivity.
  - destruct r as [|c r]; [reflexivity|].
    apply (Hhead c _ (b1 ++ c :: r) Hb). apply in_or_app. right. left.
    reflexivity.
Qed.

Lemma marker_text_avoids (o d : ascii) (a b : str) :
  In o markupChars -> Ascii.eqb d o = false ->
  forallb isTextChar a = true -> forallb isTextChar b = true ->
  forallb (isNot o) (a ++ d :: b) = true.
Proof.
  intros Ho Hd Ha Hb. rewrite forallb_app. cbn [forallb].
  rewrite (text_avoids o a Ho Ha), (text_avoids o b Ho Hb).
  unfold isNot. rewrite Hd. reflexivity.
Qed.

Lemma html_keeps_marker (d : ascii) (a b : str) :
  In d [STAR; BACKTICK] ->
  forallb isTextChar a = true -> forallb isTextChar b = true ->
  inlineMarkdownToHtml (a ++ d :: b) = a ++ d :: b.
Proof.
  intros Hd Ha Hb. unfold inlineMarkdownToHtml.
  assert (Ht : truthy (a ++ d :: b) = true) by (destruct a; reflexivity).
  rewrite Ht. cbn [negb].
  assert (Hd' : In d markupChars) by (destruct Hd as [<-|[<-|[]]]; cbn; auto).
  unfold escapeHtml.
  rewrite (replaceChar_absent (chr 38))
    by (apply marker_text_avoids; auto; [cbn; auto 10
        | destruct Hd as [<-|[<-|[]]]; reflexivity]).
  rewrite (replaceChar_absent (chr 60))
    by (apply marker_text_avoids; auto; [cbn; auto 10
        | destruct Hd as [<-|[<-|[]]]; reflexivity]).
  rewrite (replaceChar_absent (chr 62))
    by (apply marker_text_avoids; auto; [cbn; auto 10
        | destruct Hd as [<-|[<-|[]]]; reflexivity]).
  rewrite (replaceAll_no_match (spanPattern [BACKTICK] _ _ _) (a ++ d :: b))
    by (intros bol x r E;
        apply (span_never_matches BACKTICK [] [] _ _ d a b
                 ltac:(cbn; auto) Ha Hb ltac:(intros; cbn; auto) bol x r E)).
  rewrite (replaceAll_no_match (spanPattern [STAR; STAR] _ _ _) (a ++ d :: b))
    by (intros bol x r E;
        apply (span_never_matches STAR [STAR] [STAR] _ _ d a b
                 ltac:(cbn; auto) Ha Hb ltac:(intros; cbn; auto) bol x r E)).
  rewrite (replaceAll_no_match (spanPattern [STAR] _ _ _) (a ++ d :: b))
    by (intros bol x r E;
        apply (span_never_matches STAR [] [] _ _ d a b
                 ltac:(cbn; auto) Ha Hb ltac:(intros; cbn; auto) bol x r E)).
  apply replaceAll_no_match. intros bol x r E.
  exact (linkPattern_never anchor d a b Hd Ha Hb bol x r E).
Qed.

Lemma tokenPattern_marker (d : ascii) (b : str) (bol : bool) :
  In d [STAR; BACKTICK] -> forallb isTextChar b = true ->
  tokenPattern bol (d :: b) = None.
Proof.
  intros Hd Hb. unfold tokenPattern.
  rewrite (span_never_matches BACKTICK [] [] _ _ d [] b
             ltac:(cbn; auto) eq_refl Hb ltac:(intros; cbn; auto) bol [] _ eq_refl).
  rewrite (span_never_matches STAR [STAR] [STAR] _ _ d [] b
             ltac:(cbn; auto) eq_refl Hb ltac:(intros; cbn; auto) bol [] _ eq_refl).
  rewrite (span_never_matches STAR [] [] _ _ d [] b
             ltac:(cbn; auto) eq_refl Hb ltac:(intros; cbn; auto) bol [] _ eq_refl).
  cbn [orMatch]. destruct Hd as [<-|[<-|[]]]; reflexivity.
Qed.

Lemma tokenPattern_text_prefix (d : ascii) (a b : str) (bol : bool) :
  In d [STAR; BACKTICK] -> a <> [] -> forallb isTextChar a = true ->
  tokenPattern bol (a ++ d :: b) = Some (a, d :: b).
Proof.
  intros Hd Hne Ha. unfold tokenPattern.
  destruct a as [|c a]; [congruence|].
  pose proof Ha as Hc. cbn [forallb] in Hc. apply andb_true_iff in Hc as [Hc _].
  cbn [app].
  rewrite !spanPattern_head
    by (apply textChar_avoids; [cbn; auto | exact Hc]).
  cbn [orMatch].
  change (c :: a ++ d :: b) with ((c :: a) ++ d :: b).
  apply mPlusCap_greedy; [discriminate | apply text_plain; exact Ha | | reflexivity].
  destruct Hd as [<-|[<-|[]]]; reflexivity.
Qed.

Lemma runsOfSegment_text (base : BaseOptions) (s : str) :
  s <> [] -> forallb isTextChar s = true ->
  runsOfSegment base s = [withBase base (plainRun s)].
Proof.
  intros Hne Hs. destruct s as [|c s]; [congruence|].
  pose proof Hs as Hc. cbn [forallb] in Hc. apply andb_true_iff in Hc as [Hc _].
  unfold runsOfSegment, startsWith. cbn [stripPrefix].
  rewrite (textChar_avoids BACKTICK c), (textChar_avoids STAR c);
    auto; try (cbn; auto; fail).
  cbn [andb].
  assert (E : stripLinks (c :: s) = c :: s).
  { apply replaceAll_no_match. intros bol x r Er.
    destruct r as [|y r]; [reflexivity|].
    apply linkPattern_text. rewrite forallb_forall in Hs. apply Hs.
    rewrite Er. apply in_or_app. right. left. reflexivity. }
  rewrite E. reflexivity.
Qed.

Lemma matchesOf_match {T} (t : T) (l : list (ascii + T)) :
  matchesOf (inr t :: l) = t :: matchesOf l.
Proof. reflexivity. Qed.

Lemma matchesOf_skip {T} (c : ascii) (l : list (ascii + T)) :
  matchesOf (inl c :: l) = matchesOf l.
Proof. reflexivity. Qed.

Lemma tokens_of_text (s : str) (bol : bool) :
  forallb isTextChar s = true ->
  matchesOf (scanFrom tokenPattern bol s) = filter truthy [s].
Proof.
  intros Hs. destruct s as [|c s].
  - reflexivity.
  - rewrite (scanFrom_match _ tokenPattern_consuming bol (c :: s) [] (c :: s))
      by (apply tokenPattern_plain; [discriminate | apply text_plain; exact Hs]).
    rewrite scanFrom_nil by reflexivity. reflexivity.
Qed.


(** X8: a single [*] or backtick that opens no span, between texts [a]
    and [b] without markup characters, is kept by [inlineMarkdownToHtml]
    and dropped by [parseInlineMarkdown]: the HTML is the input, the DOCX
    runs are [a] and [b] (the empty one left out) without the marker,
    because the token loop of the DOCX generator steps over what its
    pattern does not match. *)
Theorem unpaired_marker_lost_in_docx (d : ascii) (a b : str)
  (base : BaseOptions) :
  In d [STAR; BACKTICK] ->
  forallb isTextChar a = true -> forallb isTextChar b = true ->
  a ++ b <> [] ->
  parseInlineMarkdown (a ++ d :: b) base
    = map (fun t => withBase base (plainRun t)) (filter truthy [a; b]) /\
  inlineMarkdownToHtml (a ++ d :: b) = a ++ d :: b.
Proof.
  intros Hd Ha Hb Hne. split; [|apply html_keeps_marker; assumption].
  unfold parseInlineMarkdown.
  assert (Ht : truthy (a ++ d :: b) = true) by (destruct a; reflexivity).
  rewrite Ht. cbn [negb].
  change (scanAll tokenPattern (a ++ d :: b))
    with (scanFrom tokenPattern true (a ++ d :: b)).
  assert (Etok : matchesOf (scanFrom tokenPattern true (a ++ d :: b))
                 = filter truthy [a; b]).
  { assert (Erest : forall bol, matchesOf (scanFrom tokenPattern bol (d :: b))
                                = filter truthy [b]).
    { intros bol.
      rewrite (scanFrom_skip _ bol d b) by (apply tokenPattern_marker; assumption).
      rewrite matchesOf_skip. apply tokens_of_text. exact Hb. }
    destruct a as [|c a].
    - cbn [app]. rewrite Erest. reflexivity.
    - rewrite (scanFrom_match _ tokenPattern_consuming true _ (d :: b) (c :: a))
        by (apply tokenPattern_text_prefix; [assumption | discriminate | assumption]).
      rewrite matchesOf_match, Erest. reflexivity. }
  rewrite Etok.
  assert (Eruns : flat_map (runsOfSegment base) (filter truthy [a; b])
                  = map (fun t => withBase base (plainRun t)) (filter truthy [a; b])).
  { cbn [filter].
    destruct a as [|ca a]; destruct b as [|cb b]; cbn [truthy flat_map map app];
      rewrite ?runsOfSegment_text by (assumption || discriminate); reflexivity. }
  rewrite Eruns.
  destruct a as [|ca a]; destruct b as [|cb b]; try reflexivity.
  exfalso. apply Hne. reflexivity.
Qed.

Lemma unpaired_marker_lost_in_docx_witness :
  parseInlineMarkdown (lit "2 " ++ STAR :: lit " 3") noBase
    = map (fun t => withBase noBase (plainRun t))
          (filter truthy [lit "2 "; lit " 3"]) /\
  inlineMarkdownToHtml (lit "2 " ++ STAR :: lit " 3") = lit "2 " ++ STAR :: lit " 3".
Proof.
  apply (unpaired_marker_lost_in_docx STAR (lit "2 ") (lit " 3") noBase).
  - left. reflexivity.
  - reflexivity.
  - reflexivity.
  - discriminate.
Defined.

(** ** The state of a session *)

Lemma mapIssue_ids (issueId : Z) (f : Issue -> Issue) (l : list Issue) :
  (forall i, _id i = issueId -> _id (f i) = _id i) ->
  map _id (mapIssue issueId f l) = map _id l.
Proof.
  intros Hf. unfold mapIssue. rewrite map_map. apply map_ext_in.
  intros i _. destruct (Z.eqb_spec (_id i) issueId); [apply Hf; assumption|].
  reflexivity.
Qed.

Lemma mapIssue_onData_ids (issueId : Z) (f : IssueSnapshot -> IssueSnapshot)
  (l : list Issue) :
  map _id (mapIssue issueId (onData f) l) = map _id l.
Proof. apply mapIssue_ids. reflexivity. Qed.

Lemma reindex_ids (localeCompare : str -> str -> Z) (l : list Issue)
  (input : option str) :
  map _id (reindexFindingIds localeCompare l input) = map _id l.
Proof.
  unfold reindexFindingIds. destruct input; [|reflexivity].
  apply map_id_relabel.
Qed.

Lemma edit_ids localeCompare apiKey create (o : Originals)
  (prev next : list Issue) :
  edit localeCompare apiKey create o prev next -> map _id next = map _id prev.
Proof.
  intros H. destruct H.
  - apply mapIssue_onData_ids.
  - apply mapIssue_onData_ids.
  - unfold updateIssue in H. destruct (keyOfName field) as [k|]; [|discriminate].
    destruct k; inversion H; subst; apply mapIssue_onData_ids.
  - unfold restoreField. destruct (originals_get o issueId); [|reflexivity].
    apply mapIssue_onData_ids.
  - unfold restoreIssue. destruct (originals_get o issueId); [|reflexivity].
    apply mapIssue_ids. intros x Hx. cbn. congruence.
  - apply reindex_ids.
  - unfold translateIssuePage.
    destruct (negb (Translate.translationAvailable apiKey)); [reflexivity|].
    destruct (negb (truthy (trim targetLanguage))); [reflexivity|].
    destruct (findIssue issueId prev); [|reflexivity].
    apply mapIssue_onData_ids.
Qed.

Lemma ids_range (l l' : list Issue) (P : Z -> Prop) :
  map _id l' = map _id l ->
  (forall i, In i l -> P (_id i)) -> forall i, In i l' -> P (_id i).
Proof.
  intros E H i Hi.
  assert (Hin : In (_id i) (map _id l)) by (rewrite <- E; apply in_map; exact Hi).
  apply in_map_iff in Hin. destruct Hin as (j & <- & Hj). apply H. exact Hj.
Qed.

Lemma stateOk_edit (s : AppState) (next : list Issue) :
  map _id next = map _id (issues s) -> stateOk s ->
  stateOk (setIssues next s).
Proof.
  intros E [Ha Hn Hd Hr Ho].
  split; cbn [setIssues files issues originals nextIssueId].
  - rewrite Ha, <- (length_map _id next), E, length_map. reflexivity.
  - exact Hn.
  - rewrite E. exact Hd.
  - exact (ids_range _ _ (fun z => (1 <= z < nextIssueId s)%Z) E Hr).
  - rewrite E. exact Ho.
Qed.

(** *** Uploading *)

Lemma ingest_loop (mdFiles : list UploadedFile) :
  forall b,
    let b' := fold_left ingest mdFiles b in
    b_next b' = (b_next b + Z.of_nat (length mdFiles))%Z /\
    length (newFiles b') = (length (newFiles b) + length mdFiles)%nat /\
    map _id (newIssues b')
    = map _id (newIssues b)
      ++ map (fun k => (b_next b + Z.of_nat k)%Z) (seq 0 (length mdFiles)) /\
    (forall id, originals_get (newOriginals b') id <> None <->
                (originals_get (newOriginals b) id <> None \/
                 (b_next b <= id < b_next b + Z.of_nat (length mdFiles))%Z)).
Proof.
  induction mdFiles as [|f fs IH]; intros b; cbn zeta.
  - cbn [fold_left length seq map]. rewrite Z.add_0_r, Nat.add_0_r, app_nil_r.
    repeat split; auto. + intros [H|H]; [exact H | lia].
  - cbn [fold_left]. specialize (IH (ingest b f)). cbn zeta in IH.
    destruct IH as (H1 & H2 & H3 & H4).
    cbn [ingest b_next newFiles newIssues newOriginals] in *.
    unfold ingest in *. cbn [b_next newFiles newIssues newOriginals] in *.
    split; [|split; [|split]].
    + rewrite H1. cbn [length]. lia.
    + rewrite H2, length_app. cbn [length]. lia.
    + rewrite H3, map_app. cbn [map _id length seq].
      rewrite <- app_assoc. cbn [app]. rewrite Z.add_0_r.
      f_equal. f_equal. rewrite <- seq_shift, map_map.
      apply map_ext. intros k. lia.
    + intros id. rewrite H4. unfold originals_set. cbn [originals_get _id].
      cbn [length].
      destruct (Z.eqb_spec (b_next b) id).
      * split; [intros _; right; lia | intros _; left; discriminate].
      * split; [intros [H|H]; [left; exact H | right; lia]
               | intros [H|H]; [left; exact H | right; lia]].
Qed.

Lemma originals_get_merge (prev next : Originals) (id : Z) :
  originals_get (originals_merge prev next) id
  = match originals_get next id with
    | Some v => Some v
    | None => originals_get prev id
    end.
Proof.
  unfold originals_merge. induction next as [|[k v] next IH]; [reflexivity|].
  cbn [app originals_get]. destruct (Z.eqb k id); [reflexivity | exact IH].
Qed.

Lemma originals_get_delete (o : Originals) (rid id : Z) :
  originals_get (originals_delete o rid) id
  = if Z.eqb id rid then None else originals_get o id.
Proof.
  unfold originals_delete. induction o as [|[k v] o IH].
  - cbn. destruct (Z.eqb id rid); reflexivity.
  - cbn [filter fst originals_get].
    destruct (Z.eqb_spec k rid) as [Hk|Hk]; cbn [negb originals_get];
      rewrite ?IH;
      destruct (Z.eqb_spec id rid) as [Hi|Hi];
      destruct (Z.eqb_spec k id) as [Hki|Hki];
      try reflexivity; exfalso; congruence.
Qed.

Lemma NoDup_map_injective {A B} (f : A -> B) (l : list A) :
  (forall x y, In x l -> In y l -> f x = f y -> x = y) ->
  NoDup l -> NoDup (map f l).
Proof.
  intros Hinj Hnd. induction Hnd as [|x l Hx Hnd IH]; [constructor|].
  cbn [map]. constructor.
  - intros Hin. apply in_map_iff in Hin. destruct Hin as (y & E & Hy).
    apply Hx. rewrite (Hinj x y); auto; [left; reflexivity | right; exact Hy].
  - apply IH. intros a b Ha Hb. apply Hinj; right; assumption.
Qed.

Lemma stateOk_processFiles (fileList : list UploadedFile) (s : AppState) :
  stateOk s -> stateOk (processFiles fileList s).
Proof.
  intros [Ha Hn Hd Hr Ho]. unfold processFiles.
  destruct (length (filter isMarkdownFile fileList) =? 0)%nat;
    [split; assumption|].
  destruct (ingest_loop (filter isMarkdownFile fileList)
              (mkBatch (nextIssueId s) [] [] [])) as (H1 & H2 & H3 & H4).
  cbn [b_next newFiles newIssues newOriginals length map app] in *.
  set (b := fold_left ingest _ _) in *.
  set (n := length (filter isMarkdownFile fileList)) in *.
  assert (Hnew : forall id, In id (map _id (newIssues b)) <->
                            (nextIssueId s <= id < nextIssueId s + Z.of_nat n)%Z).
  { intros id. rewrite H3, in_map_iff. split.
    - intros (k & <- & Hk). apply in_seq in Hk. lia.
    - intros Hid. exists (Z.to_nat (id - nextIssueId s)). split; [lia|].
      apply in_seq. lia. }
  split; cbn [files issues originals nextIssueId].
  - rewrite !length_app, Ha, H2. f_equal.
    rewrite <- (length_map _id (newIssues b)), H3, length_map, length_seq.
    reflexivity.
  - lia.
  - rewrite map_app. apply NoDup_app.
    + exact Hd.
    + rewrite H3. apply NoDup_map_injective; [|apply seq_NoDup].
      intros x y _ _. lia.
    + intros id Hold Hnw. apply Hnew in Hnw.
      apply in_map_iff in Hold. destruct Hold as (i & <- & Hi).
      specialize (Hr i Hi). lia.
  - intros i Hi. apply in_app_or in Hi. destruct Hi as [Hi|Hi].
    + specialize (Hr i Hi). lia.
    + assert (Hin : In (_id i) (map _id (newIssues b))) by (apply in_map; exact Hi).
      apply Hnew in Hin. lia.
  - intros id. rewrite originals_get_merge, map_app, in_app_iff, <- Ho, Hnew.
    specialize (H4 id). cbn [originals_get] in H4.
    destruct (originals_get (newOriginals b) id) eqn:E.
    + split; [intros _; right | intros _; discriminate].
      destruct H4 as [H4 _]. destruct H4 as [H|H]; [discriminate|congruence|exact H].
    + split; [intros H; left; exact H|].
      intros [H|H]; [exact H|].
      exfalso. destruct H4 as [_ H4]. apply H4; [right; exact H | reflexivity].
Qed.

(** *** Removing *)

Lemma dropIndex_length {A} (l : list A) :
  forall n, length (dropIndex n l)
            = if Nat.ltb n (length l) then pred (length l) else length l.
Proof.
  induction l as [|x l IH]; intros n; [destruct n; reflexivity|].
  destruct n as [|n]; cbn [dropIndex length]; [reflexivity|].
  rewrite IH. change (S n <? S (length l))%nat with (n <? length l)%nat.
  destruct (Nat.ltb_spec n (length l)); [|reflexivity].
  destruct l; [cbn in *; lia | reflexivity].
Qed.

Lemma dropIndex_map {A B} (f : A -> B) (l : list A) :
  forall n, map f (dropIndex n l) = dropIndex n (map f l).
Proof.
  induction l as [|x l IH]; intros n; [reflexivity|].
  destruct n; cbn [dropIndex map]; [reflexivity|]. rewrite IH. reflexivity.
Qed.

Lemma dropIndex_none {A} (l : list A) :
  forall n, nth_error l n = None -> dropIndex n l = l.
Proof.
  induction l as [|x l IH]; intros n H; [reflexivity|].
  destruct n; cbn in *; [discriminate|]. rewrite IH; auto.
Qed.

Lemma dropIndex_In {A} (l : list A) :
  forall n x, In x (dropIndex n l) -> In x l.
Proof.
  induction l as [|y l IH]; intros n x H; [exact H|].
  destruct n; cbn [dropIndex] in H; [right; exact H|].
  destruct H as [H|H]; [left; exact H | right; exact (IH _ _ H)].
Qed.

Lemma dropIndex_NoDup {A} (l : list A) :
  NoDup l ->
  forall n r, nth_error l n = Some r ->
    NoDup (dropIndex n l) /\
    forall x, In x (dropIndex n l) <-> (In x l /\ x <> r).
Proof.
  induction 1 as [|y l Hy Hnd IH]; intros n r Hn.
  - destruct n; discriminate.
  - destruct n as [|n]; cbn [nth_error dropIndex] in *.
    + injection Hn as <-. split; [exact Hnd|].
      intros x. split.
      * intros Hx. split; [right; exact Hx | intros ->; contradiction].
      * intros [[->|Hx] Hne]; [congruence | exact Hx].
    + destruct (IH n r Hn) as (Hnd' & Hin). split.
      * constructor; [|exact Hnd'].
        intros Hx. apply Hin in Hx. tauto.
      * intros x. cbn [In]. rewrite Hin.
        assert (Hr : In r l) by (eapply nth_error_In; exact Hn).
        split.
        -- intros [->|[Hx Hne]]; [split; [left; reflexivity | congruence] | tauto].
        -- intros [[->|Hx] Hne]; [left; reflexivity | right; tauto].
Qed.

Lemma stateOk_removeFile (index : nat) (s : AppState) :
  stateOk s -> stateOk (removeFile index s).
Proof.
  intros [Ha Hn Hd Hr Ho]. unfold removeFile.
  destruct (nth_error (issues s) index) as [r|] eqn:E.
  - assert (Er : nth_error (map _id (issues s)) index = Some (_id r))
      by (rewrite nth_error_map, E; reflexivity).
    destruct (dropIndex_NoDup _ Hd index (_id r) Er) as (Hnd & Hin).
    split; cbn [files issues originals nextIssueId].
    + rewrite !dropIndex_length, Ha. reflexivity.
    + exact Hn.
    + rewrite dropIndex_map. exact Hnd.
    + intros i Hi. apply Hr. exact (dropIndex_In _ _ _ Hi).
    + intros id. rewrite dropIndex_map, Hin, originals_get_delete, <- Ho.
      destruct (Z.eqb_spec id (_id r)); split; tauto.
  - assert (Ef : nth_error (files s) index = None).
    { apply nth_error_None. rewrite Ha. apply nth_error_None. exact E. }
    rewrite (dropIndex_none _ _ E), (dropIndex_none _ _ Ef).
    split; assumption.
Qed.

Lemma stateOk_clearAll (confirm : bool) (s : AppState) :
  stateOk s -> stateOk (clearAll confirm s).
Proof.
  intros H. unfold clearAll.
  destruct (_ && _); [exact H|].
  destruct H as [Ha Hn Hd Hr Ho].
  split; cbn [files issues originals nextIssueId map originals_get].
  - reflexivity.
  - exact Hn.
  - apply NoDup_nil.
  - intros i [].
  - intros id. split; [intros H; exfalso; apply H; reflexivity | intros []].
Qed.

Lemma stateOk_addNewPage (answer : option str) (s : AppState) :
  stateOk s -> stateOk (addNewPage answer s).
Proof.
  intros [Ha Hn Hd Hr Ho]. unfold addNewPage.
  destruct answer as [category|]; [|split; assumption].
  split; cbn [files issues originals nextIssueId].
  - rewrite !length_app, Ha. reflexivity.
  - lia.
  - rewrite map_app. cbn [map blankIssue _id]. apply NoDup_snoc; [exact Hd|].
    intros Hin. apply in_map_iff in Hin. destruct Hin as (i & E & Hi).
    specialize (Hr i Hi). lia.
  - intros i Hi. apply in_app_or in Hi. destruct Hi as [Hi|[<-|[]]].
    + specialize (Hr i Hi). lia.
    + cbn [blankIssue _id]. lia.
  - intros id. rewrite originals_get_merge, map_app, in_app_iff, <- Ho.
    unfold originals_set. cbn [originals_get blankIssue _id map In].
    destruct (Z.eqb_spec (nextIssueId s) id).
    + split; [intros _; right; left; assumption | intros _; discriminate].
    + split; [intros H; left; exact H | intros [H|[H|[]]]; [exact H | contradiction]].
Qed.

Lemma stateOk_initialState : stateOk initialState.
Proof.
  split; cbn [initialState files issues originals nextIssueId map
              originals_get].
  - reflexivity.
  - lia.
  - apply NoDup_nil.
  - intros i [].
  - intros id. split; [intros H; exfalso; apply H; reflexivity | intros []].
Qed.

Section SessionFacts.
Variable localeCompare : str -> str -> Z.
Variable apiKey : option str.
Variable create : Translate.Request -> Translate.Settled (option str).

Lemma stateOk_step (s s' : AppState) :
  step localeCompare apiKey create s s' -> stateOk s -> stateOk s'.
Proof.
  intros Hstep Hs. destruct Hstep.
  - apply stateOk_processFiles. exact Hs.
  - apply stateOk_removeFile. exact Hs.
  - apply stateOk_clearAll. exact Hs.
  - apply stateOk_addNewPage. exact Hs.
  - apply stateOk_edit; [|exact Hs].
    eapply edit_ids. eassumption.
Qed.


(** X9: the handlers keep the state consistent.  In every state a
    session reaches from a consistent start (the empty state of a session
    that finds nothing saved is one) by [processFiles], [removeFile],
    [clearAll], [addNewPage] and the handlers that edit the issues
    ([addExtraRow], [removeExtraRow], [updateIssue] of a string field of
    the content, [restoreField], [restoreIssue], [reindexFindingIds],
    [translateIssuePage]), each run as a whole, there are as many files
    as issues, the issue identifiers are distinct, at least 1 and below
    [nextIssueId], and an original is kept for exactly the issues at
    hand. *)
Theorem session_state_invariant (start s : AppState) :
  stateOk start ->
  reachable localeCompare apiKey create start s -> stateOk s.
Proof.
  intros Hstart. induction 1 as [|s s' _ IH Hstep].
  - exact Hstart.
  - exact (stateOk_step s s' Hstep IH).
Qed.

End SessionFacts.

(** A session: two files are dropped, a page is added, the first file is
    removed. *)
Lemma session_state_invariant_witness :
  stateOk
    (removeFile 0
       (addNewPage (Some (lit "Web"))
          (processFiles
             [ mkUpload (lit "a.md") [] (lit "# Issue title: A");
               mkUpload (lit "b.txt") (lit "text/markdown") (lit "Category: Web") ]
             initialState))).
Proof.
  apply (session_state_invariant codeUnitCompare None
           (fun _ => Translate.Rejected (lit "offline")) initialState).
  - exact stateOk_initialState.
  - eapply reach_step; [|apply step_removeFile].
    eapply reach_step; [|apply step_addNewPage].
    eapply reach_step; [|apply step_processFiles].
    apply reach_start.
Defined.

(** ** Restoring and the detection of edits *)

Lemma rows_eqb_refl (rows : list ExtraRow) : rows_eqb rows rows = true.
Proof.
  induction rows as [|r rows IH]; [reflexivity|].
  cbn [rows_eqb]. unfold row_eqb. rewrite !eqb_refl, IH. reflexivity.
Qed.

Lemma find_mapIssue (issueId : Z) (f : Issue -> Issue) (l : list Issue) :
  (forall i, _id i = issueId -> _id (f i) = issueId) ->
  findIssue issueId (mapIssue issueId f l) = option_map f (findIssue issueId l).
Proof.
  intros Hf. unfold findIssue, mapIssue.
  induction l as [|i l IH]; [reflexivity|].
  cbn [map find].
  destruct (Z.eqb_spec (_id i) issueId) as [E|E].
  - rewrite (Hf i E), Z.eqb_refl. reflexivity.
  - destruct (Z.eqb_spec (_id i) issueId); [contradiction | exact IH].
Qed.

Lemma fieldDiffers_same (field : IssueKey) (i : IssueSnapshot) :
  fieldDiffers field i i = false.
Proof.
  destruct field; cbn [fieldDiffers stringOf];
    rewrite ?eqb_refl, ?rows_eqb_refl; reflexivity.
Qed.

Lemma fieldDiffers_copied (field : IssueKey) (orig i : IssueSnapshot) :
  fieldDiffers field (copyField field orig i) orig = false.
Proof.
  destruct i; destruct field; cbn;
    rewrite ?eqb_refl, ?rows_eqb_refl; reflexivity.
Qed.


(** X10: after [restoreIssue] no field of the issue counts as modified,
    and after [restoreField] the restored field does not: [isIssueModified]
    and [isFieldModified] are false, in every state, also when the issue
    or its original does not exist. *)
Theorem restore_clears_modification (s : AppState) (issueId : Z) :
  isIssueModified
    (setIssues (restoreIssue (originals s) issueId (issues s)) s) issueId
  = false /\
  forall field,
    isFieldModified
      (setIssues (restoreField (originals s) issueId field (issues s)) s)
      issueId field
    = false.
Proof.
  split.
  - unfold isIssueModified. apply not_true_is_false. intros H.
    apply existsb_exists in H. destruct H as (f & _ & H).
    unfold isFieldModified, restoreIssue in H.
    cbn [setIssues originals issues] in H.
    destruct (originals_get (originals s) issueId) as [orig|]; [|discriminate].
    rewrite find_mapIssue in H by reflexivity.
    destruct (findIssue issueId (issues s)); cbn [option_map] in H;
      [|discriminate].
    cbn [data] in H. rewrite fieldDiffers_same in H. discriminate.
  - intros field. unfold isFieldModified, restoreField.
    cbn [setIssues originals issues].
    destruct (originals_get (originals s) issueId) as [orig|]; [|reflexivity].
    rewrite find_mapIssue by (intros i Hi; exact Hi).
    destruct (findIssue issueId (issues s)); cbn [option_map]; [|reflexivity].
    cbn [onData data]. apply fieldDiffers_copied.
Qed.

(** *** New pages *)

Lemma ingest_originals (mdFiles : list UploadedFile) :
  forall b,
    (forall i, In i (newIssues b) ->
       originals_get (newOriginals b) (_id i) = Some (data i) /\
       (_id i < b_next b)%Z) ->
    forall i, In i (newIssues (fold_left ingest mdFiles b)) ->
      originals_get (newOriginals (fold_left ingest mdFiles b)) (_id i)
      = Some (data i).
Proof.
  induction mdFiles as [|f fs IH]; intros b Hb i Hi.
  - apply Hb. exact Hi.
  - cbn [fold_left] in *. apply (IH (ingest b f)); [|exact Hi].
    clear i Hi. intros i Hi.
    unfold ingest in *. cbn [newIssues newOriginals b_next] in *.
    unfold originals_set. cbn [originals_get _id].
    apply in_app_or in Hi. destruct Hi as [Hi|[<-|[]]].
    + destruct (Hb i Hi) as (Hg & Hlt).
      destruct (Z.eqb_spec (b_next b) (_id i)); [lia|]. split; [exact Hg | lia].
    + cbn [_id data]. rewrite Z.eqb_refl. split; [reflexivity | lia].
Qed.

Lemma find_app {A} (p : A -> bool) (a b : list A) :
  find p (a ++ b) = match find p a with Some x => Some x | None => find p b end.
Proof.
  induction a as [|x a IH]; [reflexivity|].
  cbn [app find]. destruct (p x); [reflexivity | exact IH].
Qed.

Lemma findIssue_older (id : Z) (l : list Issue) :
  (forall i, In i l -> (_id i < id)%Z) -> findIssue id l = None.
Proof.
  intros H. unfold findIssue.
  destruct (find _ l) as [i|] eqn:E; [|reflexivity].
  apply find_some in E. destruct E as (Hi & E).
  apply Z.eqb_eq in E. specialize (H i Hi). lia.
Qed.

Lemma unmodified_when_same (s : AppState) (id : Z) (i : Issue) :
  findIssue id (issues s) = Some i ->
  originals_get (originals s) id = Some (data i) ->
  isIssueModified s id = false.
Proof.
  intros Hf Ho. unfold isIssueModified. apply not_true_is_false. intros H.
  apply existsb_exists in H. destruct H as (f & _ & H).
  unfold isFieldModified in H. rewrite Ho, Hf, fieldDiffers_same in H.
  discriminate.
Qed.

Lemma unmodified_when_absent (s : AppState) (id : Z) :
  findIssue id (issues s) = None -> isIssueModified s id = false.
Proof.
  intros Hf. unfold isIssueModified. apply not_true_is_false. intros H.
  apply existsb_exists in H. destruct H as (f & _ & H).
  unfold isFieldModified in H. rewrite Hf in H.
  destruct (originals_get (originals s) id); discriminate.
Qed.


(** X11: the issues an upload or [addNewPage] adds are unmodified at
    first: in a state of a session, for every identifier from
    [nextIssueId] on, [isIssueModified] is false after [processFiles] and
    after [addNewPage], because the original stored for a new issue is
    the issue itself. *)
Theorem new_page_is_unmodified (s : AppState) (id : Z) :
  stateOk s -> (nextIssueId s <= id)%Z ->
  (forall fileList, isIssueModified (processFiles fileList s) id = false) /\
  (forall answer, isIssueModified (addNewPage answer s) id = false).
Proof.
  intros [Ha Hn Hd Hr Ho] Hid.
  assert (Hold : findIssue id (issues s) = None).
  { apply findIssue_older. intros i Hi. specialize (Hr i Hi). lia. }
  split.
  - intros fileList. unfold processFiles.
    destruct (length (filter isMarkdownFile fileList) =? 0)%nat.
    { apply unmodified_when_absent. exact Hold. }
    set (b := fold_left ingest _ _).
    destruct (findIssue id (newIssues b)) as [i|] eqn:E.
    + apply (unmodified_when_same _ id i); cbn [issues originals].
      * unfold findIssue in *. rewrite find_app, Hold. exact E.
      * unfold findIssue in E. apply find_some in E. destruct E as (Hi & E).
        apply Z.eqb_eq in E. subst id.
        rewrite originals_get_merge. subst b.
        rewrite (ingest_originals _ (mkBatch (nextIssueId s) [] [] [])
                   ltac:(intros ? []) i Hi).
        reflexivity.
    + apply unmodified_when_absent. cbn [issues].
      unfold findIssue in *. rewrite find_app, Hold. exact E.
  - intros [category|]; [|apply unmodified_when_absent; exact Hold].
    unfold addNewPage.
    destruct (Z.eqb_spec (nextIssueId s) id) as [E|E].
    + eapply unmodified_when_same; cbn [issues originals].
      * unfold findIssue in *. rewrite find_app, Hold. cbn [find blankIssue _id].
        rewrite E, Z.eqb_refl. reflexivity.
      * rewrite originals_get_merge. unfold originals_set.
        cbn [originals_get blankIssue _id]. rewrite E, Z.eqb_refl. reflexivity.
    + apply unmodified_when_absent. cbn [issues].
      unfold findIssue in *. rewrite find_app, Hold. cbn [find blankIssue _id].
      destruct (Z.eqb_spec (nextIssueId s) id); [contradiction | reflexivity].
Qed.

Lemma new_page_is_unmodified_witness :
  (forall fileList, isIssueModified (processFiles fileList initialState) 1 = false) /\
  (forall answer, isIssueModified (addNewPage answer initialState) 1 = false).
Proof.
  apply (new_page_is_unmodified initialState 1).
  - split; cbn [initialState files issues originals nextIssueId map
                originals_get].
    + reflexivity.
    + lia.
    + apply NoDup_nil.
    + intros i [].
    + intros id. split; [intros H; exfalso; apply H; reflexivity | intros []].
  - cbn. lia.
Defined.

(** ** Page numbers *)

Lemma seq_offset (n m : nat) :
  forall a, seq (n + a) m = map (fun k => (n + k)%nat) (seq a m).
Proof.
  induction m as [|m IH]; intros a; [reflexivity|].
  cbn [seq map]. f_equal. rewrite <- IH. f_equal. lia.
Qed.

Lemma numberPages_spec (l : list Issue) :
  forall page,
    snd (numberPages page l) = (page + Z.of_nat (length l))%Z /\
    map paged_issue (fst (numberPages page l)) = l /\
    map _pageNumber (fst (numberPages page l))
    = map (fun k => (page + Z.of_nat k)%Z) (seq 1 (length l)).
Proof.
  induction l as [|i l IH]; intros page.
  - cbn. rewrite Z.add_0_r. auto.
  - cbn [numberPages]. specialize (IH (page + 1)%Z).
    destruct (numberPages (page + 1) l) as [numbered last].
    cbn [fst snd] in *. destruct IH as (H1 & H2 & H3).
    cbn [map paged_issue _pageNumber length seq].
    split; [|split].
    + rewrite H1. lia.
    + rewrite H2. reflexivity.
    + rewrite H3. change 2%nat with (1 + 1)%nat.
      rewrite (seq_offset 1 (length l) 1), map_map.
      change (Z.of_nat 1) with 1%Z. f_equal.
      apply map_ext. intros k. lia.
Qed.

Lemma pageGroups_spec (groups : list GroupedCategory) :
  forall page,
    map pg_category (pageGroups page groups) = map g_category groups /\
    map (fun g => map paged_issue (pg_issues g)) (pageGroups page groups)
    = map g_issues groups /\
    map _pageNumber (flat_map pg_issues (pageGroups page groups))
    = map (fun k => (page + Z.of_nat k)%Z)
          (seq 1 (length (concat (map g_issues groups)))).
Proof.
  induction groups as [|g groups IH]; intros page; [cbn; auto|].
  cbn [pageGroups].
  destruct (numberPages_spec (g_issues g) page) as (H1 & H2 & H3).
  destruct (numberPages page (g_issues g)) as [numbered last].
  cbn [fst snd] in *. subst last.
  destruct (IH (page + Z.of_nat (length (g_issues g)))%Z) as (I1 & I2 & I3).
  cbn [map pg_category pg_issues flat_map concat].
  split; [|split].
  - rewrite I1. reflexivity.
  - rewrite I2, H2. reflexivity.
  - rewrite map_app, H3, I3, length_app, seq_app, map_app. f_equal.
    replace (1 + length (g_issues g))%nat with (length (g_issues g) + 1)%nat
      by lia.
    rewrite (seq_offset (length (g_issues g)) _ 1), map_map.
    apply map_ext. intros k. lia.
Qed.

Section PagingFacts.
Variable localeCompare : str -> str -> Z.


(** X12: [grouped] is [groupByCategory] with page numbers: the
    categories and their issues are those of [groupByCategory], in its
    order, and the page numbers read 1, 2, .., n through the groups, [n]
    being the number of issues; the numbering goes on from one category
    to the next. *)
Theorem grouped_pages_are_consecutive (issues : list Issue) :
  let groups := groupByCategory localeCompare issues in
  let pages := grouped localeCompare issues in
  map pg_category pages = map g_category groups /\
  map (fun g => map paged_issue (pg_issues g)) pages = map g_issues groups /\
  map _pageNumber (flat_map pg_issues pages)
  = map Z.of_nat (seq 1 (length issues)).
Proof.
  cbv zeta. unfold grouped.
  destruct (pageGroups_spec (groupByCategory localeCompare issues) 0)
    as (H1 & H2 & H3).
  split; [exact H1|]. split; [exact H2|].
  rewrite H3.
  rewrite (Permutation_length (groupByCategory_perm localeCompare issues)).
  apply map_ext. intros k. lia.
Qed.

End PagingFacts.

(** ** Finding identifiers by place *)

Lemma numberIssues_other (prefix : str) (c : nat) (id : Z) (l : list Issue) :
  (forall i, In i l -> _id i <> id) ->
  forall k0 m, idMap_get (numberIssues prefix c k0 l m) id = idMap_get m id.
Proof.
  induction l as [|x l IH]; intros Hl k0 m; [reflexivity|].
  cbn [numberIssues]. rewrite IH by (intros i Hi; apply Hl; right; exact Hi).
  unfold idMap_set. cbn [idMap_get].
  destruct (Z.eqb_spec (_id x) id) as [E|E]; [|reflexivity].
  exfalso. apply (Hl x); [left; reflexivity | exact E].
Qed.

Lemma numberIssues_at (prefix : str) (c : nat) (l : list Issue) :
  NoDup (map _id l) ->
  forall k i k0 m, nth_error l k = Some i ->
    idMap_get (numberIssues prefix c k0 l m) (_id i)
    = Some (newFindingId prefix c (k0 + k)).
Proof.
  induction l as [|x l IH]; intros Hnd k i k0 m Hk.
  - destruct k; discriminate.
  - cbn [map] in Hnd. inversion Hnd as [|? ? Hx Hnd']; subst.
    cbn [numberIssues]. destruct k as [|k]; cbn [nth_error] in Hk.
    + injection Hk as ->. rewrite numberIssues_other.
      * unfold idMap_set. cbn [idMap_get]. rewrite Z.eqb_refl, Nat.add_0_r.
        reflexivity.
      * intros j Hj E. apply Hx. rewrite <- E. apply in_map. exact Hj.
    + rewrite (IH Hnd' k i (S k0) _ Hk). f_equal. f_equal. lia.
Qed.

Lemma NoDup_app_l {A} (a b : list A) : NoDup (a ++ b) -> NoDup a.
Proof. intros H. apply NoDup_app_remove_r in H. exact H. Qed.

Lemma NoDup_app_r {A} (a b : list A) : NoDup (a ++ b) -> NoDup b.
Proof. intros H. apply NoDup_app_remove_l in H. exact H. Qed.

Lemma NoDup_app_disjoint {A} (a b : list A) (x : A) :
  NoDup (a ++ b) -> In x a -> In x b -> False.
Proof.
  induction a as [|y a IH]; intros Hnd Ha Hb; [exact Ha|].
  cbn [app] in Hnd. inversion Hnd as [|? ? Hy Hnd']; subst.
  destruct Ha as [->|Ha].
  - apply Hy. apply in_or_app. right. exact Hb.
  - exact (IH Hnd' Ha Hb).
Qed.

Lemma numberGroups_other (prefix : str) (id : Z) (groups : list GroupedCategory) :
  (forall i, In i (concat (map g_issues groups)) -> _id i <> id) ->
  forall c0 m, idMap_get (numberGroups prefix c0 groups m) id = idMap_get m id.
Proof.
  induction groups as [|g groups IH]; intros Hl c0 m; [reflexivity|].
  cbn [numberGroups map concat] in *.
  rewrite IH by (intros i Hi; apply Hl, in_or_app; right; exact Hi).
  apply numberIssues_other. intros i Hi. apply Hl, in_or_app. left. exact Hi.
Qed.

Lemma numberGroups_at (prefix : str) (groups : list GroupedCategory) :
  NoDup (map _id (concat (map g_issues groups))) ->
  forall c k i c0 m, placedAt groups c k i ->
    idMap_get (numberGroups prefix c0 groups m) (_id i)
    = Some (newFindingId prefix (c0 + c) k).
Proof.
  induction groups as [|g groups IH]; intros Hnd c k i c0 m (g' & Hc & Hk).
  - destruct c; discriminate.
  - cbn [map concat] in Hnd. rewrite map_app in Hnd.
    cbn [numberGroups]. destruct c as [|c]; cbn [nth_error] in Hc.
    + injection Hc as <-. rewrite numberGroups_other.
      * rewrite (numberIssues_at prefix c0 _ (NoDup_app_l _ _ Hnd) k i 0 m Hk).
        rewrite Nat.add_0_r. reflexivity.
      * intros j Hj E. apply (NoDup_app_disjoint _ _ (_id i) Hnd).
        -- apply in_map. eapply nth_error_In. exact Hk.
        -- rewrite <- E. apply in_map. exact Hj.
    + rewrite (IH (NoDup_app_r _ _ Hnd) c k i (S c0) _).
      * f_equal. f_equal. lia.
      * exists g'. split; assumption.
Qed.

Lemma placed_of_member (groups : list GroupedCategory) (i : Issue) :
  In i (concat (map g_issues groups)) -> exists c k, placedAt groups c k i.
Proof.
  intros Hin. apply in_concat in Hin. destruct Hin as (l & Hl & Hi).
  apply in_map_iff in Hl. destruct Hl as (g & <- & Hg).
  apply In_nth_error in Hg. destruct Hg as (c & Hc).
  apply In_nth_error in Hi. destruct Hi as (k & Hk).
  exists c, k, g. split; assumption.
Qed.

Lemma Forall2_map_right {A B} (R : A -> B -> Prop) (f : A -> B) (l : list A) :
  (forall x, In x l -> R x (f x)) -> Forall2 R l (map f l).
Proof.
  induction l as [|x l IH]; intros H; [constructor|].
  cbn [map]. constructor; [apply H; left; reflexivity|].
  apply IH. intros y Hy. apply H. right. exact Hy.
Qed.

Section ReindexPlaces.
Variable localeCompare : str -> str -> Z.

Lemma grouped_ids_distinct (issues : list Issue) :
  NoDup (map _id issues) ->
  NoDup (map _id (concat (map g_issues (groupByCategory localeCompare issues)))).
Proof.
  intros Hnd.
  pose proof (groupByCategory_perm localeCompare issues) as Hp.
  exact (Permutation_NoDup (Permutation_sym (Permutation_map _id Hp)) Hnd).
Qed.


(** X13: [reindexFindingIds] keeps the list of issues in its order and
    gives every issue the identifier of its place in the grouped order:
    the issue that is the [k]-th of the [c]-th category of
    [groupByCategory] (both from 0) gets prefix, [-], and [c * 1000 + k +
    1] padded to four digits, and nothing else of it changes.  The
    prefix is the trimmed answer, or the detected one when the answer is
    blank. *)
Theorem reindex_numbers_every_issue (issues : list Issue) (input : str) :
  NoDup (map _id issues) ->
  let prefix := orElse (trim input) (detectPrefix issues (lit "ABC")) in
  let groups := groupByCategory localeCompare issues in
  Forall2
    (fun old new =>
       exists c k, placedAt groups c k old /\
                   new = setFindingId (newFindingId prefix c k) old)
    issues (reindexFindingIds localeCompare issues (Some input)).
Proof.
  intros Hnd. cbv zeta. unfold reindexFindingIds.
  apply Forall2_map_right. intros x Hx.
  assert (Hin : In x (concat (map g_issues (groupByCategory localeCompare issues)))).
  { apply (Permutation_in _ (Permutation_sym
                               (groupByCategory_perm localeCompare issues))).
    exact Hx. }
  destruct (placed_of_member _ _ Hin) as (c & k & Hp).
  exists c, k. split; [exact Hp|].
  rewrite (numberGroups_at _ _ (grouped_ids_distinct issues Hnd) c k x 0 [] Hp).
  reflexivity.
Qed.

End ReindexPlaces.

Lemma reindex_numbers_every_issue_witness :
  Forall2
    (fun old new =>
       exists c k, placedAt (groupByCategory codeUnitCompare sampleIssues) c k old /\
                   new = setFindingId
                           (newFindingId
                              (orElse (trim (lit " SEC "))
                                 (detectPrefix sampleIssues (lit "ABC"))) c k)
                           old)
    sampleIssues
    (reindexFindingIds codeUnitCompare sampleIssues (Some (lit " SEC "))).
Proof.
  apply (reindex_numbers_every_issue codeUnitCompare sampleIssues (lit " SEC ")).
  vm_compute. repeat constructor; cbn; intuition discriminate.
Defined.

(** ** Decimal numerals *)

Lemma lit_injective (a b : string) : lit a = lit b -> a = b.
Proof.
  intros H. rewrite <- (string_of_list_ascii_of_string a),
              <- (string_of_list_ascii_of_string b), H. reflexivity.
Qed.

Lemma ofNat_injective (a b : nat) : ofNat a = ofNat b -> a = b.
Proof.
  unfold ofNat. intros H. apply lit_injective in H.
  assert (E : Some (Nat.to_uint a) = Some (Nat.to_uint b))
    by (rewrite <- !NilEmpty.usu, H; reflexivity).
  injection E as E.
  rewrite <- (DecimalNat.Unsigned.of_to a), <- (DecimalNat.Unsigned.of_to b), E.
  reflexivity.
Qed.

Definition ZERO : ascii := chr 48.

(** A numeral without a leading zero. *)
Definition headed (d : Decimal.uint) : Prop :=
  match d with Decimal.Nil | Decimal.D0 _ => False | _ => True end.

Lemma nzhead_headed (d : Decimal.uint) :
  Decimal.nzhead d = Decimal.Nil \/ headed (Decimal.nzhead d).
Proof. induction d; cbn; auto. Qed.

Lemma unorm_cases (d : Decimal.uint) :
  Decimal.unorm d = Decimal.D0 Decimal.Nil \/ headed (Decimal.unorm d).
Proof.
  unfold Decimal.unorm. destruct (nzhead_headed d) as [H|H].
  - rewrite H. left. reflexivity.
  - destruct (Decimal.nzhead d); cbn in H |- *; tauto.
Qed.

Lemma to_uint_headed (n : nat) : 0 < n -> headed (Nat.to_uint n).
Proof.
  intros Hn.
  pose proof (DecimalNat.Unsigned.to_of (Nat.to_uint n)) as E.
  rewrite DecimalNat.Unsigned.of_to in E.
  destruct (unorm_cases (Nat.to_uint n)) as [H|H]; rewrite <- E in H.
  - exfalso. pose proof (DecimalNat.Unsigned.of_to n) as En.
    rewrite H in En. cbn in En. lia.
  - exact H.
Qed.

Lemma ofNat_head (n : nat) :
  0 < n -> exists c s, ofNat n = c :: s /\ c <> ZERO.
Proof.
  intros Hn. unfold ofNat.
  pose proof (to_uint_headed n Hn) as H.
  destruct (Nat.to_uint n); cbn in H; try contradiction;
    cbn [NilEmpty.string_of_uint list_ascii_of_string];
    eexists; eexists; (split; [reflexivity | discriminate]).
Qed.

Lemma zeros_then_digits (a b : nat) (s t : str) (c d : ascii) :
  c <> ZERO -> d <> ZERO ->
  repeat ZERO a ++ c :: s = repeat ZERO b ++ d :: t -> c :: s = d :: t.
Proof.
  intros Hc Hd. revert b. induction a as [|a IH]; intros [|b] E; cbn in E.
  - exact E.
  - injection E as E _. contradiction.
  - injection E as E _. symmetry in E. contradiction.
  - injection E as E. exact (IH b E).
Qed.

Lemma padded_number_injective (w a b : nat) :
  0 < a -> 0 < b -> padStart0 w (ofNat a) = padStart0 w (ofNat b) -> a = b.
Proof.
  intros Ha Hb E. unfold padStart0 in E.
  destruct (ofNat_head a Ha) as (c & s & Ea & Hc).
  destruct (ofNat_head b Hb) as (d & t & Eb & Hd).
  apply ofNat_injective. rewrite Ea, Eb in *.
  exact (zeros_then_digits _ _ _ _ _ _ Hc Hd E).
Qed.

Lemma newFindingId_injective (prefix : str) (c k c' k' : nat) :
  k < 1000 -> k' < 1000 ->
  newFindingId prefix c k = newFindingId prefix c' k' -> c = c' /\ k = k'.
Proof.
  intros Hk Hk' E. unfold newFindingId in E.
  apply app_inv_head in E. apply app_inv_head in E.
  apply padded_number_injective in E; lia.
Qed.

Section ReindexDistinct.
Variable localeCompare : str -> str -> Z.


(** X14: when no category holds more than 1000 issues, the finding
    identifiers [reindexFindingIds] assigns are pairwise distinct.  (With
    more, issue 1001 of a category and issue 1 of the next category get
    the same number.) *)
Theorem reindex_ids_are_distinct (issues : list Issue) (input : str) :
  NoDup (map _id issues) ->
  Forall (fun g => length (g_issues g) <= 1000)
         (groupByCategory localeCompare issues) ->
  NoDup (map (fun i : Issue => findingId i)
             (reindexFindingIds localeCompare issues (Some input))).
Proof.
  intros Hnd Hsize. unfold reindexFindingIds. rewrite map_map.
  set (prefix := orElse (trim input) (detectPrefix issues (lit "ABC"))).
  set (groups := groupByCategory localeCompare issues) in *.
  assert (Hplace : forall x, In x issues ->
            exists c k, placedAt groups c k x /\ k < 1000 /\
              idMap_get (numberGroups prefix 0 groups []) (_id x)
              = Some (newFindingId prefix c k)).
  { intros x Hx.
    assert (Hin : In x (concat (map g_issues groups))).
    { apply (Permutation_in _ (Permutation_sym
                                 (groupByCategory_perm localeCompare issues))).
      exact Hx. }
    destruct (placed_of_member _ _ Hin) as (c & k & Hp).
    exists c, k. split; [exact Hp|]. split.
    - destruct Hp as (g & Hc & Hk).
      assert (Hg : In g groups) by (eapply nth_error_In; exact Hc).
      rewrite Forall_forall in Hsize. specialize (Hsize g Hg).
      assert (k < length (g_issues g)) by (apply nth_error_Some; congruence).
      lia.
    - exact (numberGroups_at _ _ (grouped_ids_distinct localeCompare issues Hnd)
               c k x 0 [] Hp). }
  apply NoDup_map_injective; [|exact (NoDup_map_inv _ _ Hnd)].
  intros x y Hx Hy E.
  destruct (Hplace x Hx) as (c & k & (g & Hc & Hk) & Hlt & Ex).
  destruct (Hplace y Hy) as (c' & k' & (g' & Hc' & Hk') & Hlt' & Ey).
  rewrite Ex, Ey in E.
  rewrite (proj1 (findingId_setFindingId _ x)),
          (proj1 (findingId_setFindingId _ y)) in E.
  destruct (newFindingId_injective _ _ _ _ _ Hlt Hlt' E) as (-> & ->).
  congruence.
Qed.

End ReindexDistinct.

Lemma reindex_ids_are_distinct_witness :
  NoDup (map (fun i : Issue => findingId i)
             (reindexFindingIds codeUnitCompare sampleIssues (Some (lit "SEC")))).
Proof.
  apply (reindex_ids_are_distinct codeUnitCompare sampleIssues (lit "SEC")).
  - vm_compute. repeat constructor; cbn; intuition discriminate.
  - vm_compute. repeat constructor.
Defined.

(** ** File names *)

Lemma replaceClass_chars (cls P : ascii -> bool) (rep s : str) :
  forallb P rep = true ->
  (forall c, In c s -> cls c = false -> P c = true) ->
  forallb P (replaceClass cls rep s) = true.
Proof.
  intros Hrep Hs. unfold replaceClass.
  induction s as [|c s IH]; [reflexivity|].
  cbn [flat_map]. rewrite forallb_app. apply andb_true_iff. split.
  - destruct (cls c) eqn:E; [exact Hrep|].
    cbn [forallb]. rewrite (Hs c (or_introl eq_refl) E). reflexivity.
  - apply IH. intros x Hx. apply Hs. right. exact Hx.
Qed.

Lemma mStar_total {R} (cls : ascii -> bool) (k : str -> option R) (s : str) :
  (forall r, k r <> None) -> mStar cls s k <> None.
Proof.
  intros Hk. induction s as [|c s IH]; cbn [mStar]; [apply Hk|].
  destruct (cls c); [|apply Hk].
  destruct (mStar cls s k); [discriminate | apply Hk].
Qed.

Lemma spacesPattern_at_space (rep : str) (b : bool) (c : ascii) (s : str) :
  isSpace c = true -> spacesPattern rep b (c :: s) <> None.
Proof.
  intros Hc. unfold spacesPattern, mPlus. rewrite Hc.
  apply mStar_total. discriminate.
Qed.

Lemma spacesPattern_Some (rep : str) (b : bool) (s t rest : str) :
  spacesPattern rep b s = Some (t, rest) ->
  t = rep /\ exists w, s = w ++ rest.
Proof.
  unfold spacesPattern. intros H.
  apply mPlus_Some in H as (w & r & -> & _ & _ & H).
  inversion H; subst. split; [reflexivity | exists w; reflexivity].
Qed.

Lemma dashed_chars (P : ascii -> bool) (rep : str) (fuel : nat) :
  forallb P rep = true ->
  forall b s,
    (forall c, In c s -> isSpace c = false -> P c = true) ->
    forallb P (replaced (scan fuel (spacesPattern rep) b s)) = true.
Proof.
  intros Hrep. induction fuel as [|fuel IH]; intros b s Hs; [reflexivity|].
  cbn [scan].
  destruct (spacesPattern rep b s) as [[t rest]|] eqn:E.
  - apply spacesPattern_Some in E. destruct E as (-> & w & ->).
    cbn [replaced flat_map]. rewrite forallb_app, Hrep. cbn [andb].
    apply IH. intros c Hc. apply Hs. apply in_or_app. right. exact Hc.
  - destruct s as [|c s]; [reflexivity|].
    cbn [replaced flat_map app forallb].
    assert (Hc : isSpace c = false).
    { destruct (isSpace c) eqn:Ec; [|reflexivity].
      exfalso. exact (spacesPattern_at_space rep b c s Ec E). }
    rewrite (Hs c (or_introl eq_refl) Hc). cbn [andb].
    apply IH. intros x Hx. apply Hs. right. exact Hx.
Qed.

Lemma dashSpaces_chars (P : ascii -> bool) (s : str) :
  P (chr 45) = true ->
  (forall c, In c s -> isSpace c = false -> P c = true) ->
  forallb P (dashSpaces s) = true.
Proof.
  intros Hd Hs. unfold dashSpaces, replaceAll, scanAll.
  apply dashed_chars; [|exact Hs].
  cbn [forallb list_ascii_of_string]. change "-"%char with (chr 45).
  rewrite Hd. reflexivity.
Qed.

Lemma forallb_firstn {A} (P : A -> bool) (n : nat) (l : list A) :
  forallb P l = true -> forallb P (firstn n l) = true.
Proof.
  revert n. induction l as [|x l IH]; intros [|n] H; try reflexivity.
  cbn [firstn forallb] in *. apply andb_true_iff in H. destruct H as [-> H].
  cbn [andb]. apply IH. exact H.
Qed.

Lemma endsWith_app (a p : str) : endsWith (a ++ p) p = true.
Proof.
  unfold endsWith. rewrite rev_app_distr. apply startsWith_true.
  exists (rev a). reflexivity.
Qed.


(** X15: the file name [downloadIssueMd] and [downloadAllMd] give to an
    issue has no [/] and no backslash, ends with [.md], and is an
    identifier part, [-], a title part, [.md], the title part having at
    most 40 characters and no white space. *)
Theorem markdownFilename_is_path_safe (issue : Issue) :
  forallb notSeparator (markdownFilename issue) = true /\
  endsWith (markdownFilename issue) (lit ".md") = true /\
  exists idPart titlePart,
    markdownFilename issue = idPart ++ lit "-" ++ titlePart ++ lit ".md" /\
    length titlePart <= 40 /\
    forallb notSpace titlePart = true.
Proof.
  unfold markdownFilename.
  set (idPart := replaceClass isPathSeparator (lit "-") _).
  set (cleanTitle := replaceClass isPathSeparator (lit "-") _).
  assert (Hid : forallb notSeparator idPart = true).
  { apply replaceClass_chars; [reflexivity|].
    intros c _ Hc. unfold notSeparator. rewrite Hc. reflexivity. }
  assert (Hclean : forallb notSeparator cleanTitle = true).
  { apply replaceClass_chars; [reflexivity|].
    intros c _ Hc. unfold notSeparator. rewrite Hc. reflexivity. }
  split; [|split].
  - rewrite !forallb_app, Hid. cbn [andb]. unfold sliceTo.
    rewrite forallb_firstn.
    + reflexivity.
    + apply dashSpaces_chars; [reflexivity|].
      intros c Hc _. rewrite forallb_forall in Hclean. apply Hclean. exact Hc.
  - rewrite !app_assoc. apply endsWith_app.
  - exists idPart, (sliceTo 40 (dashSpaces cleanTitle)).
    split; [reflexivity|]. split.
    + unfold sliceTo. apply firstn_le_length.
    + apply forallb_firstn. apply dashSpaces_chars; [reflexivity|].
      intros c _ Hc. unfold notSpace. rewrite Hc. reflexivity.
Qed.

(** ** Relative time *)

Lemma ltb_div (a b c : Z) :
  (0 < b)%Z -> Z.ltb (a / b) c = Z.ltb a (c * b).
Proof.
  intros Hb.
  destruct (Z.ltb_spec (a / b) c) as [H|H];
    destruct (Z.ltb_spec a (c * b)) as [H'|H']; try reflexivity; exfalso.
  - assert (c * b <= a)%Z by exact H'.
    assert (c <= a / b)%Z by (apply Z.div_le_lower_bound; lia). lia.
  - assert (a / b < c)%Z by (apply Z.div_lt_upper_bound; lia). lia.
Qed.


(** X16: [formatRelativeTime] returns [null] for [null] and for the
    empty string; for a date it returns the label of the elapsed
    milliseconds: just now below 5 seconds (also for a date in the
    future), whole seconds below a minute, whole minutes below an hour,
    whole hours below a day, whole days from then on; and for a string
    that is no date, whose time is NaN, it returns [NaNd ago]. *)
Theorem formatRelativeTime_limits (now : Z) (getTime : str -> jsnum)
  (iso : str) :
  formatRelativeTime now getTime None = None /\
  formatRelativeTime now getTime (Some []) = None /\
  (truthy iso = true ->
   forall t, getTime iso = Num t ->
     formatRelativeTime now getTime (Some iso) = Some (ageLabel (now - t))) /\
  (truthy iso = true -> getTime iso = NaN ->
   formatRelativeTime now getTime (Some iso) = Some (lit "NaNd ago")).
Proof.
  split; [reflexivity|]. split; [reflexivity|]. split.
  - intros Hiso t Ht. unfold formatRelativeTime, ageLabel.
    rewrite Hiso, Ht. cbn [negb floorDiv jsLt numberToString].
    set (d := (now - t)%Z).
    rewrite !ltb_div by lia. rewrite !Z.div_div by lia.
    change (5 * 1000)%Z with 5000%Z. change (60 * 1000)%Z with 60000%Z.
    change (60 * 60 * 1000)%Z with 3600000%Z.
    change (24 * 60 * 60 * 1000)%Z with 86400000%Z.
    change (1000 * 60 * 60)%Z with 3600000%Z.
    change (1000 * 60)%Z with 60000%Z.
    change (3600000 * 24)%Z with 86400000%Z.
    destruct (d <? 5000)%Z; [reflexivity|].
    destruct (d <? 60000)%Z; [reflexivity|].
    destruct (d <? 3600000)%Z; [reflexivity|].
    destruct (d <? 86400000)%Z; reflexivity.
  - intros Hiso Ht. unfold formatRelativeTime. rewrite Hiso, Ht. reflexivity.
Qed.

(** ** Translating *)

Section TranslateResults.
Import Translate.

Lemma blank_spec (s : str) : blank s = negb (truthy (trim s)).
Proof.
  unfold blank. destruct s as [|c s]; [reflexivity|]. reflexivity.
Qed.

Variable apiKey : option str.
Variable create : Request -> Settled (option str).

Lemma translateText_resolved (text targetLanguage r : str) :
  translateText apiKey create text targetLanguage = Resolved r ->
  r = text \/ (blank r = false /\ trim r = r /\
               translationAvailable apiKey = true /\
               blank text = false /\ blank targetLanguage = false).
Proof.
  unfold translateText.
  destruct (translationAvailable apiKey); cbn [negb];
    [|intros H; injection H as <-; left; reflexivity].
  destruct (blank text); [intros H; injection H as <-; left; reflexivity|].
  destruct (blank targetLanguage); [discriminate|].
  destruct (create _) as [content|e]; [|discriminate].
  rewrite orElse_nil.
  destruct (match content with Some c => trim c | None => [] end) as [|x t] eqn:E;
    cbn [truthy negb]; [discriminate|].
  intros H. injection H as <-. right.
  destruct content as [c|]; [|discriminate].
  assert (Et : trim (x :: t) = x :: t) by (rewrite <- E; apply trim_idempotent).
  repeat split; auto. rewrite blank_spec, Et. reflexivity.
Qed.

Lemma translateText_not_blank (text targetLanguage r : str) :
  blank text = false ->
  translateText apiKey create text targetLanguage = Resolved r ->
  blank r = false.
Proof.
  intros Hb H. destruct (translateText_resolved _ _ _ H) as [->|(H1 & _)];
    assumption.
Qed.


(** X17: when [translateText] resolves for a text that is not blank, the
    result is not blank either, and it is the text itself (no key) or a
    trimmed string (the completion): an empty or white-space completion
    is rejected, never returned. *)
Theorem translateText_never_blanks (text targetLanguage r : str) :
  blank text = false ->
  translateText apiKey create text targetLanguage = Resolved r ->
  blank r = false /\ (r = text \/ trim r = r).
Proof.
  intros Hb H. split; [exact (translateText_not_blank _ _ _ Hb H)|].
  destruct (translateText_resolved _ _ _ H) as [->|(_ & H2 & _)];
    [left; reflexivity | right; exact H2].
Qed.

End TranslateResults.

Lemma translateText_never_blanks_witness :
  Translate.translateText (Some (lit "sk-key"))
    (fun _ => Translate.Resolved (Some (lit "  Labas  "))) (lit "Hello") (lit "Lithuanian")
    = Translate.Resolved (lit "Labas") /\
  Translate.blank (lit "Labas") = false /\
  (lit "Labas" = lit "Hello" \/ trim (lit "Labas") = lit "Labas").
Proof.
  split; [reflexivity|].
  apply (translateText_never_blanks (Some (lit "sk-key"))
           (fun _ => Translate.Resolved (Some (lit "  Labas  ")))
           (lit "Hello") (lit "Lithuanian") (lit "Labas")); reflexivity.
Defined.

(** ** Translating a page *)

Lemma stringOf_setString_same (k : IssueKey) (v : str) (i : IssueSnapshot) :
  k <> KeyExtraRows -> stringOf k (setString k v i) = Some v.
Proof. destruct i; destruct k; intros H; try reflexivity; congruence. Qed.

Lemma stringOf_setString_other (k k' : IssueKey) (v : str) (i : IssueSnapshot) :
  k <> k' -> stringOf k' (setString k v i) = stringOf k' i.
Proof.
  destruct i; destruct k; destruct k'; intros H; try reflexivity; congruence.
Qed.

Lemma extraRows_setString (k : IssueKey) (v : str) (i : IssueSnapshot) :
  extraRows (setString k v i) = extraRows i.
Proof. destruct i; destruct k; reflexivity. Qed.

Lemma stringOf_setExtraRows (k : IssueKey) (rows : list ExtraRow)
  (i : IssueSnapshot) :
  stringOf k (setExtraRows rows i) = stringOf k i.
Proof. destruct i; destruct k; reflexivity. Qed.

Lemma extraRows_setExtraRows (rows : list ExtraRow) (i : IssueSnapshot) :
  extraRows (setExtraRows rows i) = rows.
Proof. destruct i; reflexivity. Qed.

Lemma IssueKey_eq_dec (a b : IssueKey) : {a = b} + {a <> b}.
Proof. decide equality. Qed.

Section TranslatePageFacts.
Import Translate.
Variable apiKey : option str.
Variable create : Request -> Settled (option str).
Variable targetLanguage : str.

Local Abbreviation fieldPromise :=
  (translateField apiKey create targetLanguage).
Local Abbreviation updatesOf := (pageUpdates apiKey create targetLanguage).
Local Abbreviation rowSettled := (settledRow apiKey create targetLanguage).

Lemma translateField_key (issue : Issue) (k k' : IssueKey) (v : option str) :
  fieldPromise issue k = Resolved (k', v) -> k' = k.
Proof.
  unfold translateField. cbv zeta.
  destruct (stringOf k issue) as [s|]; [|intros H; injection H; auto].
  destruct (truthy (trim s)); [|intros H; injection H; auto].
  destruct (translateText _ _ _ _); [intros H; injection H; auto | discriminate].
Qed.

Lemma applyResult_spec (issue : Issue) (k1 : IssueKey)
  (u0 : IssueSnapshot -> IssueSnapshot) (i : IssueSnapshot) :
  k1 <> KeyExtraRows ->
  let u1 := applyResult u0 (fieldPromise issue k1) in
  extraRows (u1 i) = extraRows (u0 i) /\
  forall k,
    stringOf k (u1 i)
    = if IssueKey_eq_dec k k1
      then match fieldPromise issue k with
           | Resolved (_, Some translated) => Some translated
           | _ => stringOf k (u0 i)
           end
      else stringOf k (u0 i).
Proof.
  intros Hk1. cbv zeta. unfold applyResult.
  destruct (fieldPromise issue k1) as [[k' [t|]]|e] eqn:E.
  - pose proof (translateField_key _ _ _ _ E) as ->.
    split; [apply extraRows_setString|].
    intros k. destruct (IssueKey_eq_dec k k1) as [->|Hk].
    + rewrite E. apply stringOf_setString_same. exact Hk1.
    + apply stringOf_setString_other. congruence.
  - split; [reflexivity|]. intros k.
    destruct (IssueKey_eq_dec k k1) as [->|Hk]; [rewrite E|]; reflexivity.
  - split; [reflexivity|]. intros k.
    destruct (IssueKey_eq_dec k k1) as [->|Hk]; [rewrite E|]; reflexivity.
Qed.

Lemma updates_fold (issue : Issue) (ks : list IssueKey) :
  ~ In KeyExtraRows ks ->
  forall (u0 : IssueSnapshot -> IssueSnapshot) (i : IssueSnapshot),
    let updates := fold_left applyResult (map (fieldPromise issue) ks) u0 in
    extraRows (updates i) = extraRows (u0 i) /\
    forall k,
      stringOf k (updates i)
      = if in_dec IssueKey_eq_dec k ks
        then match fieldPromise issue k with
             | Resolved (_, Some translated) => Some translated
             | _ => stringOf k (u0 i)
             end
        else stringOf k (u0 i).
Proof.
  induction ks as [|k1 ks IH]; intros Hks u0 i; cbv zeta.
  - split; [reflexivity|]. intros k. reflexivity.
  - cbn [map fold_left].
    assert (Hk1 : k1 <> KeyExtraRows) by (intros ->; apply Hks; left; reflexivity).
    assert (Hks' : ~ In KeyExtraRows ks) by (intros H; apply Hks; right; exact H).
    destruct (IH Hks' (applyResult u0 (fieldPromise issue k1)) i) as (Hr & Hs).
    destruct (applyResult_spec issue k1 u0 i Hk1) as (Hr1 & Hs1).
    split; [rewrite Hr; exact Hr1|].
    intros k. rewrite Hs, Hs1.
    destruct (in_dec IssueKey_eq_dec k ks) as [Hin|Hin];
      destruct (in_dec IssueKey_eq_dec k (k1 :: ks)) as [Hin'|Hin'];
      destruct (IssueKey_eq_dec k k1) as [->|Hk];
      try reflexivity;
      try (exfalso; apply Hin'; (left; reflexivity) || (right; exact Hin); fail);
      try (destruct (fieldPromise issue k1) as [[? [?|]]|]; reflexivity);
      try (destruct (fieldPromise issue k) as [[? [?|]]|]; reflexivity).
    exfalso. destruct Hin' as [E|Hin']; [congruence | contradiction].
Qed.


Lemma truthy_trim (v : str) : truthy (trim v) = negb (blank v).
Proof. rewrite blank_spec, negb_involutive. reflexivity. Qed.

Lemma translateField_settles (issue : Issue) (k : IssueKey) (v : str) :
  stringOf k issue = Some v ->
  exists v',
    match fieldPromise issue k with
    | Resolved (_, Some translated) => Some translated
    | _ => stringOf k issue
    end = Some v' /\
    (blank v = true -> v' = v) /\ (blank v = false -> blank v' = false).
Proof.
  intros Hv. unfold translateField. cbv zeta.
  rewrite Hv, truthy_trim.
  destruct (blank v) eqn:Eb; cbn [negb].
  - exists v. split; [reflexivity|]. split; [reflexivity | discriminate].
  - destruct (translateText apiKey create v targetLanguage) as [t|e] eqn:Et.
    + exists t. split; [reflexivity|]. split; [discriminate|]. intros _.
      exact (translateText_not_blank _ _ _ _ _ Eb Et).
    + exists v. split; [reflexivity|]. split; [discriminate|].
      intros _. exact Eb.
Qed.

Lemma settledRow_spec (row : ExtraRow) :
  row_severity (rowSettled row) = row_severity row /\
  (blank (row_title row) = true -> rowSettled row = row) /\
  (blank (row_title row) = false -> blank (row_title (rowSettled row)) = false).
Proof.
  unfold settledRow, translateRow.
  rewrite truthy_trim.
  destruct (blank (row_title row)) eqn:Eb; cbn [negb].
  - rewrite andb_false_r. repeat split; auto. discriminate.
  - assert (Ht : truthy (row_title row) = true).
    { unfold blank in Eb. destruct (truthy (row_title row)); [reflexivity|].
      discriminate. }
    rewrite Ht. cbn [andb].
    destruct (translateText apiKey create (row_title row) targetLanguage)
      as [t|e] eqn:Et.
    + cbn [row_severity row_title]. repeat split; [discriminate|]. intros _.
      exact (translateText_not_blank _ _ _ _ _ Eb Et).
    + repeat split; auto.
Qed.

Lemma findIssue_unique (issueId : Z) (l : list Issue) (issue old : Issue) :
  NoDup (map _id l) -> findIssue issueId l = Some issue ->
  In old l -> _id old = issueId -> old = issue.
Proof.
  intros Hnd Hf Hold Hid. unfold findIssue in Hf.
  apply find_some in Hf. destruct Hf as (Hin & E). apply Z.eqb_eq in E.
  subst issueId. clear - Hnd Hold Hid Hin.
  induction l as [|x l IH]; [contradiction|].
  cbn [map] in Hnd. inversion Hnd as [|? ? Hx Hnd']; subst.
  destruct Hold as [->|Hold]; destruct Hin as [->|Hin]; auto.
  - exfalso. apply Hx. rewrite Hid. apply in_map. exact Hin.
  - exfalso. apply Hx. rewrite <- Hid. apply in_map. exact Hold.
Qed.

Lemma textKept_refl (v : str) : textKept v v.
Proof. split; auto. Qed.

Lemma translatedFrom_refl (i : Issue) : translatedFrom i i.
Proof.
  split; auto.
  - intros k v _ Hv. exists v. split; [exact Hv | apply textKept_refl].
  - induction (extraRows i) as [|r rows IH]; constructor; auto.
    repeat split; auto.
Qed.

Lemma Forall2_same {A} (R : A -> A -> Prop) (l : list A) :
  (forall x, R x x) -> Forall2 R l l.
Proof. intros H. induction l; constructor; auto. Qed.

Lemma rows_settled (rows : list ExtraRow) :
  Forall2 (fun r r' => row_severity r' = row_severity r /\
                       (blank (row_title r) = true -> r' = r) /\
                       textKept (row_title r) (row_title r'))
          rows (map rowSettled rows).
Proof.
  induction rows as [|r rows IH]; cbn [map]; constructor; [|exact IH].
  destruct (settledRow_spec r) as (H1 & H2 & H3).
  repeat split; auto. intros Hb. rewrite (H2 Hb). reflexivity.
Qed.

Lemma translated_page (issue : Issue) :
  translatedFrom issue (onData (updatesOf issue) issue).
Proof.
  assert (Hno : ~ In KeyExtraRows translatableFields).
  { cbn. intuition discriminate. }
  pose proof (updates_fold issue translatableFields Hno (fun i => i) issue) as H.
  cbv zeta in H. destruct H as (Hrows & Hstr).
  assert (Hfields : forall k,
            stringOf k (onData (updatesOf issue) issue)
            = if in_dec IssueKey_eq_dec k translatableFields
              then match fieldPromise issue k with
                   | Resolved (_, Some translated) => Some translated
                   | _ => stringOf k issue
                   end
              else stringOf k issue).
  { intros k. cbn [onData data]. unfold pageUpdates.
    destruct (Nat.ltb 0 (length (extraRows issue)));
      rewrite ?stringOf_setExtraRows; apply Hstr. }
  assert (Hnew : extraRows (onData (updatesOf issue) issue)
                 = map rowSettled (extraRows issue)).
  { cbn [onData data]. unfold pageUpdates.
    destruct (extraRows issue) as [|r rows] eqn:Er.
    - cbn [length Nat.ltb Nat.leb map]. exact Hrows.
    - cbn [length Nat.ltb Nat.leb]. apply extraRows_setExtraRows. }
  split.
  - reflexivity.
  - intros k Hk. rewrite Hfields.
    destruct (in_dec IssueKey_eq_dec k translatableFields); [contradiction|].
    reflexivity.
  - intros k v Hk Hv. rewrite Hfields.
    destruct (in_dec IssueKey_eq_dec k translatableFields); [|contradiction].
    destruct (translateField_settles issue k v Hv) as (v' & E & H1 & H2).
    exists v'. split; [exact E | split; assumption].
  - rewrite Hnew. apply rows_settled.
Qed.


(** X18: [translateIssuePage] changes at most the issue with the given
    identifier, and of that issue only the title, the component, the
    impact details, the description, the example scenario, the
    recommendation and the titles of the extra rows: identifiers, the
    other fields, the number of rows and their severities stay; a blank
    text stays as it is, a text that is not blank does not become blank.
    This holds whatever the completion service answers, rejections
    included. *)
Theorem translateIssuePage_keeps_the_page (issueId : Z) (issues : list Issue) :
  NoDup (map _id issues) ->
  Forall2 (fun old new => (_id old <> issueId -> new = old) /\
                          translatedFrom old new)
          issues
          (translateIssuePage apiKey create targetLanguage issueId issues).
Proof.
  intros Hnd. unfold translateIssuePage.
  assert (Hsame : Forall2 (fun old new => (_id old <> issueId -> new = old) /\
                                          translatedFrom old new) issues issues).
  { apply Forall2_same. intros x. split; [reflexivity | apply translatedFrom_refl]. }
  destruct (negb (translationAvailable apiKey)); [exact Hsame|].
  destruct (negb (truthy (trim targetLanguage))); [exact Hsame|].
  destruct (findIssue issueId issues) as [issue|] eqn:Ef; [|exact Hsame].
  unfold mapIssue. apply Forall2_map_right. intros x Hx.
  destruct (Z.eqb_spec (_id x) issueId) as [E|E].
  - rewrite (findIssue_unique issueId issues issue x Hnd Ef Hx E).
    split; [intros H; exfalso; apply H|].
    + apply find_some in Ef. destruct Ef as (_ & Ef). apply Z.eqb_eq in Ef.
      exact Ef.
    + apply translated_page.
  - split; [reflexivity | apply translatedFrom_refl].
Qed.

End TranslatePageFacts.

Lemma translateIssuePage_keeps_the_page_witness :
  Forall2 (fun old new => (_id old <> 12%Z -> new = old) /\
                          translatedFrom old new)
          sampleIssues
          (translateIssuePage (Some (lit "sk-key"))
             (fun _ => Translate.Rejected (lit "offline")) (lit "Lithuanian") 12
             sampleIssues).
Proof.
  apply (translateIssuePage_keeps_the_page (Some (lit "sk-key"))
           (fun _ => Translate.Rejected (lit "offline")) (lit "Lithuanian") 12
           sampleIssues).
  vm_compute. repeat constructor; cbn; intuition discriminate.
Defined.

(** ** Extra rows *)

Lemma dropIndex_last {A} (l : list A) (x : A) :
  dropIndex (length l) (l ++ [x]) = l.
Proof.
  induction l as [|y l IH]; [reflexivity|].
  cbn [length app dropIndex]. rewrite IH. reflexivity.
Qed.

Lemma dropIndex_beyond {A} (l : list A) (n : nat) :
  length l <= n -> dropIndex n l = l.
Proof.
  intros H. apply dropIndex_none. apply nth_error_None. exact H.
Qed.

Lemma spliceOne_last {A} (l : list A) (x : A) :
  spliceOne (Z.of_nat (length l)) (l ++ [x]) = l /\
  spliceOne (-1) (l ++ [x]) = l.
Proof.
  unfold spliceOne. rewrite length_app. cbn [length].
  split.
  - destruct (Z.ltb_spec (Z.of_nat (length l)) 0); [lia|].
    rewrite Z.min_l by lia. rewrite Nat2Z.id. apply dropIndex_last.
  - cbn [Z.ltb Z.compare].
    replace (Z.to_nat (Z.max (Z.of_nat (length l + 1) + -1) 0)) with (length l)
      by lia.
    apply dropIndex_last.
Qed.

Lemma spliceOne_beyond {A} (l : list A) (rowIndex : Z) :
  (Z.of_nat (length l) <= rowIndex)%Z -> spliceOne rowIndex l = l.
Proof.
  intros H. unfold spliceOne.
  destruct (Z.ltb_spec rowIndex 0); [lia|].
  apply dropIndex_beyond. lia.
Qed.

Lemma setExtraRows_same (i : IssueSnapshot) : setExtraRows (extraRows i) i = i.
Proof. destruct i; reflexivity. Qed.

Lemma setExtraRows_twice (a b : list ExtraRow) (i : IssueSnapshot) :
  setExtraRows a (setExtraRows b i) = setExtraRows a i.
Proof. destruct i; reflexivity. Qed.

Lemma onData_same (f : IssueSnapshot -> IssueSnapshot) (i : Issue) :
  f i = data i -> onData f i = i.
Proof. intros H. unfold onData. rewrite H. destruct i; reflexivity. Qed.

Lemma onData_twice (f g : IssueSnapshot -> IssueSnapshot) (i : Issue) :
  onData g (onData f i) = onData (fun d => g (f d)) i.
Proof. reflexivity. Qed.

Lemma mapIssue_fixed (issueId : Z) (f : Issue -> Issue) (l : list Issue) :
  (forall i, In i l -> _id i = issueId -> f i = i) -> mapIssue issueId f l = l.
Proof.
  intros H. unfold mapIssue. rewrite <- (map_id l) at 2. apply map_ext_in.
  intros i Hi. destruct (Z.eqb_spec (_id i) issueId); [apply H; assumption|].
  reflexivity.
Qed.

Lemma mapIssue_twice (issueId : Z) (f g : Issue -> Issue) (l : list Issue) :
  (forall i, _id (f i) = _id i) ->
  mapIssue issueId g (mapIssue issueId f l)
  = mapIssue issueId (fun i => g (f i)) l.
Proof.
  intros Hf. unfold mapIssue. rewrite map_map. apply map_ext. intros i.
  destruct (Z.eqb_spec (_id i) issueId) as [E|E].
  - rewrite Hf. destruct (Z.eqb_spec (_id i) issueId); [reflexivity|contradiction].
  - destruct (Z.eqb_spec (_id i) issueId); [contradiction | reflexivity].
Qed.


(** X19: [removeExtraRow] with index -1 undoes [addExtraRow] (the
    [splice] counts from the end); so does the index of the new row, its
    position in the list, when the identifiers are distinct; and an index
    at or beyond the number of rows removes nothing. *)
Theorem removeExtraRow_undoes_addExtraRow (issueId : Z) (issues : list Issue) :
  removeExtraRow issueId (-1) (addExtraRow issueId issues) = issues /\
  (forall issue, NoDup (map _id issues) ->
     findIssue issueId issues = Some issue ->
     removeExtraRow issueId (Z.of_nat (length (extraRows issue)))
       (addExtraRow issueId issues) = issues) /\
  (forall rowIndex,
     (forall i, In i issues -> (Z.of_nat (length (extraRows i)) <= rowIndex)%Z) ->
     removeExtraRow issueId rowIndex issues = issues).
Proof.
  unfold removeExtraRow, addExtraRow. split; [|split].
  - rewrite mapIssue_twice by (intros; cbn [onData _id]; reflexivity). apply mapIssue_fixed.
    intros i _ _. rewrite onData_twice. apply onData_same.
    rewrite extraRows_setExtraRows, (proj2 (spliceOne_last _ _)).
    rewrite setExtraRows_twice. apply setExtraRows_same.
  - intros issue Hnd Hf. rewrite mapIssue_twice by (intros; cbn [onData _id]; reflexivity).
    apply mapIssue_fixed. intros i Hi Hid.
    rewrite (findIssue_unique issueId issues issue i Hnd Hf Hi Hid).
    rewrite onData_twice. apply onData_same.
    rewrite extraRows_setExtraRows, (proj1 (spliceOne_last _ _)).
    rewrite setExtraRows_twice. apply setExtraRows_same.
  - intros rowIndex H. apply mapIssue_fixed. intros i Hi _.
    apply onData_same. rewrite spliceOne_beyond by (apply H; exact Hi).
    apply setExtraRows_same.
Qed.

(** ** The pages of the PDF *)

Section PdfPageFacts.
Import Pdf PdfPages.
Local Open Scope Z_scope.















End PdfPageFacts.



(** ** The DOCX document *)

Definition isDigit (c : ascii) : bool :=
  N.leb 48 (code c) && N.leb (code c) 57.

Lemma uint_digits (d : Decimal.uint) :
  forallb isDigit (lit (NilEmpty.string_of_uint d)) = true.
Proof. induction d; cbn [NilEmpty.string_of_uint list_ascii_of_string forallb]; auto. Qed.

Lemma ofNat_digits (n : nat) : forallb isDigit (ofNat n) = true.
Proof. apply uint_digits. Qed.

Lemma ofZ_injective (a b : Z) : ofZ a = ofZ b -> a = b.
Proof.
  unfold ofZ. intros H.
  destruct (Z.ltb_spec a 0); destruct (Z.ltb_spec b 0).
  - cbn [app list_ascii_of_string] in H. injection H as H.
    apply ofNat_injective in H. lia.
  - exfalso. pose proof (ofNat_digits (Z.to_nat b)) as Hd.
    rewrite <- H in Hd. discriminate.
  - exfalso. pose proof (ofNat_digits (Z.to_nat a)) as Hd.
    rewrite H in Hd. discriminate.
  - apply ofNat_injective in H. lia.
Qed.

Section DocxFacts.
Import Docx.
Variable convertInchesToTwip : Q -> Z.
Variable toUpperCase : str -> str.
Variable emDash : str.
Variable localeCompare : str -> str -> Z.

Local Abbreviation blockToParagraphs :=
  (Docx.blockToParagraphs convertInchesToTwip).
Local Abbreviation issuePage :=
  (Docx.issuePage convertInchesToTwip toUpperCase).
Local Abbreviation createTocPage :=
  (Docx.createTocPage convertInchesToTwip emDash).
Local Abbreviation buildDocument :=
  (Docx.buildDocument convertInchesToTwip toUpperCase emDash localeCompare).

Lemma picked_app {A} (pick : ParagraphChild -> list A) (a b : list DocxChild) :
  picked pick (a ++ b) = picked pick a ++ picked pick b.
Proof. apply flat_map_app. Qed.

Lemma picked_paragraph {A} (pick : ParagraphChild -> list A) (p : Paragraph)
  (l : list DocxChild) :
  picked pick (OfParagraph p :: l) = flat_map pick (children p) ++ picked pick l.
Proof. reflexivity. Qed.

Lemma picked_runs {A} (pick : ParagraphChild -> list A) (rs : list TextRun) :
  skipsRuns pick -> flat_map pick (map (fun r => RunChild (inlineRun r)) rs) = [].
Proof.
  intros H. induction rs as [|r rs IH]; [reflexivity|].
  cbn [map flat_map]. rewrite H, IH. reflexivity.
Qed.

Lemma picked_block {A} (pick : ParagraphChild -> list A) (text : str) (i : Q) :
  skipsRuns pick -> picked pick (map OfParagraph (blockToParagraphs text i)) = [].
Proof.
  intros H. unfold Docx.blockToParagraphs.
  destruct (negb (truthy text)); [reflexivity|].
  induction (splitLines text) as [|l ls IH]; [reflexivity|].
  cbn [flat_map]. rewrite map_app, picked_app, IH, app_nil_r.
  unfold blockLine.
  destruct (negb (truthy (trim l))); [reflexivity|].
  destruct (isBullet (trim l)); cbn [map picked flat_map children];
    rewrite picked_runs by exact H; reflexivity.
Qed.

Lemma picked_section {A} (pick : ParagraphChild -> list A) (label : string)
  (text : str) :
  skipsRuns pick ->
  picked pick (blockSection convertInchesToTwip label text) = [].
Proof.
  intros H. unfold blockSection. destruct (truthy text); [|reflexivity].
  change (OfParagraph ?p :: ?l) with ([OfParagraph p] ++ l).
  rewrite picked_app, (picked_block pick text 0 H), app_nil_r.
  cbn [picked flat_map sectionLabel paragraph children]. rewrite H. reflexivity.
Qed.

Lemma picked_page {A} (pick : ParagraphChild -> list A) (issue : Issue) :
  skipsRuns pick ->
  picked pick (issuePage issue) = pick PageBreak ++ pick (pageBookmark issue).
Proof.
  intros H. unfold Docx.issuePage.
  rewrite !picked_app, !picked_section by exact H.
  rewrite !app_nil_r.
  assert (Ecode : picked pick
            (if truthy (codeExample issue)
             then [ OfParagraph (sectionLabel (lit "Code example:"));
                    OfTable (createCodeBlock convertInchesToTwip toUpperCase
                               (codeExample issue) (codeLanguage issue));
                    spacer ]
             else []) = []).
  { destruct (truthy (codeExample issue)); [|reflexivity].
    cbn [picked flat_map sectionLabel paragraph children spacer].
    rewrite H. reflexivity. }
  rewrite Ecode, app_nil_r.
  cbn [picked flat_map paragraph children spacer app].
  rewrite H, !app_nil_r. reflexivity.
Qed.

Lemma picked_entries {A} (pick : ParagraphChild -> list A) (l : list Issue) :
  skipsRuns pick ->
  picked pick (map OfParagraph (map (tocEntry convertInchesToTwip emDash) l))
  = flat_map (fun i => pick (tocLink emDash i)) l.
Proof.
  intros H. induction l as [|i l IH]; [reflexivity|].
  cbn [map]. rewrite picked_paragraph, IH.
  cbn [flat_map tocEntry children]. rewrite !H, !app_nil_r. reflexivity.
Qed.

Lemma picked_groups {A} (pick : ParagraphChild -> list A)
  (grouped : list GroupedCategory) :
  skipsRuns pick ->
  picked pick
    (map OfParagraph (flat_map (tocGroup convertInchesToTwip emDash) grouped))
  = flat_map (fun i => pick (tocLink emDash i)) (concat (map g_issues grouped)).
Proof.
  intros H. induction grouped as [|g grouped IH]; [reflexivity|].
  cbn [flat_map map concat]. rewrite map_app, picked_app, flat_map_app, IH.
  f_equal. unfold tocGroup.
  change (map OfParagraph (?p :: ?l)) with ([OfParagraph p] ++ map OfParagraph l).
  rewrite picked_app, picked_entries by exact H.
  cbn [picked flat_map paragraph children]. rewrite !H. reflexivity.
Qed.

Lemma picked_toc {A} (pick : ParagraphChild -> list A)
  (grouped : list GroupedCategory) :
  skipsRuns pick ->
  picked pick (map OfParagraph (createTocPage grouped))
  = flat_map (fun i => pick (tocLink emDash i)) (concat (map g_issues grouped)).
Proof.
  intros H. unfold Docx.createTocPage.
  change (map OfParagraph (?p :: ?l)) with ([OfParagraph p] ++ map OfParagraph l).
  rewrite picked_app, picked_groups by exact H.
  cbn [picked flat_map children]. rewrite !H. reflexivity.
Qed.

Lemma picked_pages {A} (pick : ParagraphChild -> list A)
  (grouped : list GroupedCategory) :
  skipsRuns pick ->
  picked pick (flat_map (fun group => flat_map issuePage (g_issues group)) grouped)
  = flat_map (fun i => pick PageBreak ++ pick (pageBookmark i))
             (concat (map g_issues grouped)).
Proof.
  intros H. induction grouped as [|g grouped IH]; [reflexivity|].
  cbn [flat_map map concat]. rewrite picked_app, flat_map_app, IH. f_equal.
  induction (g_issues g) as [|i l IHl]; [reflexivity|].
  cbn [flat_map]. rewrite picked_app, IHl, picked_page by exact H. reflexivity.
Qed.

Lemma flat_map_singleton {A B} (f : A -> B) (l : list A) :
  flat_map (fun x => [f x]) l = map f l.
Proof. induction l as [|x l IH]; [reflexivity|]. cbn. rewrite IH. reflexivity. Qed.

Lemma flat_map_nothing {A B} (l : list A) :
  flat_map (fun _ : A => @nil B) l = [].
Proof. induction l; auto. Qed.


(** X22: in the document [buildDocument] returns, the anchors of the
    table-of-contents links and the bookmarks of the issue pages are the
    same list, [issue_] and the identifier of every issue in the grouped
    order: every link has its bookmark and every issue page its link.
    There are as many page breaks as issues, and distinct issue
    identifiers give distinct bookmarks. *)
Theorem docx_links_reach_bookmarks (issues : list Issue) :
  let ordered := concat (map g_issues (groupByCategory localeCompare issues)) in
  collect anchorsOf (buildDocument issues) = map bookmarkId ordered /\
  collect bookmarksOf (buildDocument issues) = map bookmarkId ordered /\
  length (collect pageBreaksOf (buildDocument issues)) = length issues /\
  (NoDup (map _id issues) ->
   NoDup (collect bookmarksOf (buildDocument issues))).
Proof.
  cbv zeta. unfold collect, Docx.buildDocument. cbn [body].
  assert (Ha : skipsRuns anchorsOf) by (intros r; reflexivity).
  assert (Hb : skipsRuns bookmarksOf) by (intros r; reflexivity).
  assert (Hp : skipsRuns pageBreaksOf) by (intros r; reflexivity).
  rewrite !picked_app, !picked_toc, !picked_pages by assumption.
  cbn [anchorsOf bookmarksOf pageBreaksOf tocLink pageBookmark app].
  rewrite !flat_map_singleton, !flat_map_nothing, !app_nil_r. cbn [app].
  pose proof (groupByCategory_perm localeCompare issues) as Hperm.
  split; [reflexivity|]. split; [reflexivity|]. split.
  - rewrite length_map. apply Permutation_length. exact Hperm.
  - intros Hnd. apply NoDup_map_injective.
    + intros x y Hx Hy E. unfold bookmarkId in E. apply app_inv_head in E.
      apply ofZ_injective in E.
      assert (Hnd' : NoDup (map _id (concat (map g_issues
                              (groupByCategory localeCompare issues))))).
      { exact (Permutation_NoDup (Permutation_sym (Permutation_map _id Hperm)) Hnd). }
      clear - Hnd' Hx Hy E.
      induction (concat _) as [|z l IH]; [contradiction|].
      cbn [map] in Hnd'. inversion Hnd' as [|? ? Hz Hl]; subst.
      destruct Hx as [->|Hx]; destruct Hy as [->|Hy]; auto.
      * exfalso. apply Hz. rewrite E. apply in_map. exact Hy.
      * exfalso. apply Hz. rewrite <- E. apply in_map. exact Hx.
    + apply (NoDup_map_inv _id).
      exact (Permutation_NoDup (Permutation_sym (Permutation_map _id Hperm)) Hnd).
Qed.

End DocxFacts.

(** ** Paragraphs of a block *)

Lemma parseInlineMarkdown_nonempty (text : str) (base : BaseOptions) :
  parseInlineMarkdown text base <> [].
Proof.
  unfold parseInlineMarkdown.
  destruct (negb (truthy text)); [discriminate|].
  destruct (flat_map _ _); discriminate.
Qed.

Section BlockFacts.
Import Docx.
Variable convertInchesToTwip : Q -> Z.

Local Abbreviation blockToParagraphs :=
  (Docx.blockToParagraphs convertInchesToTwip).
Local Abbreviation blockLine := (Docx.blockLine convertInchesToTwip).

Lemma blockToParagraphs_lines (text : str) (indent : Q) :
  blockToParagraphs text indent = flat_map (blockLine indent) (splitLines text).
Proof.
  unfold Docx.blockToParagraphs. destruct text as [|c t]; reflexivity.
Qed.

Lemma blockLine_length (indent : Q) (l : str) :
  length (blockLine indent l) = if truthy (trim l) then 1 else 0.
Proof.
  unfold Docx.blockLine. destruct (truthy (trim l)); cbn [negb]; [|reflexivity].
  destruct (isBullet (trim l)); reflexivity.
Qed.

Lemma blockLine_children (indent : Q) (l : str) (p : Paragraph) :
  In p (blockLine indent l) -> children p <> [].
Proof.
  unfold Docx.blockLine. destruct (negb (truthy (trim l))); [intros []|].
  destruct (isBullet (trim l)); intros [<-|[]]; cbn [children];
    (intros E; apply map_eq_nil in E;
     exact (parseInlineMarkdown_nonempty _ _ E)).
Qed.


(** X23: [blockToParagraphs] works line by line: the paragraphs of [a],
    a line feed and [b] are those of [a] followed by those of [b]; there
    is one paragraph for every line that is not blank; and no paragraph
    is without runs. *)
Theorem blockToParagraphs_goes_line_by_line (indent : Q) (a b : str) :
  blockToParagraphs (a ++ LF :: b) indent
    = blockToParagraphs a indent ++ blockToParagraphs b indent /\
  length (blockToParagraphs a indent)
    = length (filter (fun l => truthy (trim l)) (splitLines a)) /\
  Forall (fun p => children p <> []) (blockToParagraphs a indent).
Proof.
  rewrite !blockToParagraphs_lines, splitLines_app, flat_map_app.
  split; [reflexivity|]. split.
  - induction (splitLines a) as [|l ls IH]; [reflexivity|].
    cbn [flat_map filter]. rewrite length_app, blockLine_length, IH.
    destruct (truthy (trim l)); reflexivity.
  - apply Forall_forall. intros p Hp. apply in_flat_map in Hp.
    destruct Hp as (l & _ & Hp). exact (blockLine_children indent l p Hp).
Qed.

End BlockFacts.

(** ** No white space around the parsed fields *)

Lemma word_not_space (c : ascii) : isWord c = true -> isSpace c = false.
Proof.
  destruct c as [[] [] [] [] [] [] [] []]; vm_compute; congruence.
Qed.

Lemma words_trimmed (s : str) : forallb isWord s = true -> trim s = s.
Proof.
  intros H. destruct s as [|c s]; [reflexivity|].
  apply trim_trimmed.
  - cbn [hd]. cbn [forallb] in H. apply andb_true_iff in H.
    rewrite (word_not_space c); tauto.
  - rewrite word_not_space; [reflexivity|].
    rewrite forallb_forall in H. apply H.
    destruct (exists_last (l := c :: s)) as (l' & x & E); [discriminate|].
    rewrite E, last_last. apply in_or_app. right. left. reflexivity.
Qed.

Lemma codeBlockPattern_language (b : bool) (s lang code : str) :
  codeBlockPattern b s = Some (lang, code) -> forallb isWord lang = true.
Proof.
  unfold codeBlockPattern. intros H.
  apply mLit_Some in H as (r & -> & H).
  apply mStarCap_Some in H as (w & r1 & -> & Hw & H).
  apply mLit_Some in H as (r2 & -> & H).
  clear - H Hw.
  assert (G : forall r k0, mLazyAny r (fun cap rest =>
                 mLit FENCE rest (fun _ => Some (w, k0 cap))) = Some (lang, code) ->
              lang = w).
  { induction r as [|c r IH]; intros k0 Hr; cbn [mLazyAny] in Hr.
    - destruct (mLit FENCE [] _) eqn:E; [|discriminate].
      unfold mLit in E. cbn in E. discriminate.
    - destruct (mLit FENCE (c :: r) _) as [x|] eqn:E.
      + unfold mLit in E. destruct (stripPrefix FENCE (c :: r)); [|discriminate].
        inversion E; subst. inversion Hr; subst. reflexivity.
      + exact (IH (fun cap => k0 (c :: cap)) Hr). }
  rewrite (G r2 (fun cap => cap) H). exact Hw.
Qed.

Lemma search_codeBlock_language (s lang code : str) :
  forall b, search codeBlockPattern b s = Some (lang, code) ->
            forallb isWord lang = true.
Proof.
  intros b H. apply search_Some in H. destruct H as (a & r & b' & _ & H).
  exact (codeBlockPattern_language _ _ _ _ H).
Qed.

Lemma extraRowOfValue_trimmed (v : str) :
  trim (row_title (extraRowOfValue v)) = row_title (extraRowOfValue v) /\
  trim (row_severity (extraRowOfValue v)) = row_severity (extraRowOfValue v).
Proof. unfold extraRowOfValue. cbn. split; apply trim_idempotent. Qed.


(** X24: no string [parseIssue] returns has white space at either end:
    every string field of the result, and the title and the severity of
    every extra row, is left unchanged by [trim], for every input. *)
Theorem parseIssue_fields_are_trimmed (doc : str) :
  (forall k v, stringOf k (parseIssue doc) = Some v -> trim v = v) /\
  Forall (fun row => trim (row_title row) = row_title row /\
                     trim (row_severity row) = row_severity row)
         (extraRows (parseIssue doc)).
Proof.
  destruct (parseIssue_fields doc)
    as (Ht & Hm & Hr & H1 & H2 & H3 & H4 & H5 & H6 & H7).
  cbv zeta in *.
  assert (Hmeta : forall pat, trim (metaOf pat doc) = metaOf pat doc).
  { intros pat. unfold metaOf. destruct (firstCapture _ doc);
      [apply trim_idempotent | reflexivity]. }
  split.
  - intros k v Hv. destruct k; cbn [stringOf] in Hv; try discriminate; injection Hv as <-.
    + rewrite Ht. unfold titleOf. destruct (firstCapture _ doc);
        [apply trim_idempotent | reflexivity].
    + pose proof (Hm KOverallRisk _ ltac:(cbn; auto 10)) as E; cbn [getMeta] in E; rewrite E; apply Hmeta.
    + pose proof (Hm KImpact _ ltac:(cbn; auto 10)) as E; cbn [getMeta] in E; rewrite E; apply Hmeta.
    + pose proof (Hm KExploitability _ ltac:(cbn; auto 10)) as E; cbn [getMeta] in E; rewrite E; apply Hmeta.
    + pose proof (Hm KFindingId _ ltac:(cbn; auto 10)) as E; cbn [getMeta] in E; rewrite E; apply Hmeta.
    + pose proof (Hm KComponent _ ltac:(cbn; auto 10)) as E; cbn [getMeta] in E; rewrite E; apply Hmeta.
    + pose proof (Hm KCategory _ ltac:(cbn; auto 10)) as E; cbn [getMeta] in E; rewrite E; apply Hmeta.
    + pose proof (Hm KStatus _ ltac:(cbn; auto 10)) as E; cbn [getMeta] in E; rewrite E; apply Hmeta.
    + rewrite H1. apply trim_idempotent.
    + rewrite H2. apply trim_idempotent.
    + rewrite H3. unfold evidenceOf. destruct (firstCapture _ _);
        [apply trim_idempotent | reflexivity].
    + rewrite H4. unfold codeOf.
      destruct (search codeBlockPattern true _) as [[lang code]|];
        cbn [fst]; apply trim_idempotent.
    + rewrite H5. unfold codeOf.
      destruct (search codeBlockPattern true _) as [[lang code]|] eqn:E;
        cbn [snd]; [|reflexivity].
      pose proof (search_codeBlock_language _ _ _ _ E) as Hw.
      unfold orElse. destruct (truthy lang); [apply words_trimmed; exact Hw|].
      reflexivity.
    + rewrite H6. apply trim_idempotent.
    + rewrite H7. apply trim_idempotent.
  - rewrite Hr. apply Forall_forall. intros row Hrow.
    apply in_map_iff in Hrow. destruct Hrow as (v & <- & _).
    apply extraRowOfValue_trimmed.
Qed.

(** ** An empty component line swallows the category line *)

Lemma join_merge (before after : list str) (x y : str) :
  join [LF] (before ++ x :: y :: after)
  = join [LF] (before ++ (x ++ LF :: y) :: after).
Proof.
  induction before as [|b before IH].
  - cbn [app]. rewrite (join_cons [LF] x (y :: after)) by discriminate.
    destruct after as [|a after].
    + cbn [join]. reflexivity.
    + rewrite (join_cons [LF] y (a :: after)) by discriminate.
      change (join [LF] ((x ++ LF :: y) :: a :: after))
        with ((x ++ LF :: y) ++ [LF] ++ join [LF] (a :: after)).
      rewrite <- app_assoc. reflexivity.
  - cbn [app].
    rewrite !join_cons by (destruct before; discriminate).
    rewrite IH. reflexivity.
Qed.

Lemma oneLine_orElse (a b : str) :
  forallb isDot a = true -> forallb isDot b = true ->
  forallb isDot (orElse a b) = true.
Proof. intros Ha Hb. unfold orElse. destruct (truthy a); assumption. Qed.

Lemma last_orElse (a b : str) :
  isSpace (last a LF) = false \/ a = [] -> isSpace (last b LF) = false ->
  b <> [] ->
  isSpace (last (orElse a b) LF) = false /\ orElse a b <> [].
Proof.
  intros Ha Hb Hn. unfold orElse. destruct a as [|c a]; cbn [truthy].
  - split; assumption.
  - destruct Ha as [Ha|Ha]; [|discriminate]. split; [exact Ha|discriminate].
Qed.


(** X25: an issue with an empty component does not come back from its
    own markdown: [issueToMarkdown] writes [Component: ] with nothing
    behind it, the [\s*] of the parser's pattern runs over the line feed,
    and [parseIssue] reads the category line as the component, so the
    component becomes [Category: ] followed by the category (or by
    [Uncategorized]).  This holds when the fields written before the
    component line stand on one line each; a page from [addNewPage] is
    such an issue. *)
Theorem empty_component_reads_category (i : IssueSnapshot) :
  component i = [] ->
  Forall (fun v => forallb isDot v = true)
         [title i; overallRisk i; impact i; exploitability i; findingId i;
          category i] ->
  Forall (fun row => forallb isDot (row_title row) = true /\
                     forallb isDot (row_severity row) = true) (extraRows i) ->
  (category i = [] \/ isSpace (last (category i) LF) = false) ->
  component (parseIssue (issueToMarkdown i))
  = lit "Category: " ++ orElse (category i) (lit "Uncategorized").
Proof.
  intros Hc Hone Hrows Hlast.
  repeat match goal with
         | H : Forall _ (_ :: _) |- _ => inversion H; subst; clear H
         end.
  set (c := orElse (category i) (lit "Uncategorized")).
  assert (Hcd : forallb isDot c = true)
    by (apply oneLine_orElse; [assumption|reflexivity]).
  assert (Hcl : isSpace (last c LF) = false /\ c <> []).
  { apply last_orElse; [tauto|reflexivity|discriminate]. }
  destruct Hcl as [Hcl Hcn].
  set (before := [ lit "# Issue title: " ++ orElse (title i) (lit "Untitled");
                   [];
                   lit "Overall Risk: " ++ orElse (overallRisk i) (lit "Medium") ]
                 ++ map extraRowLine (extraRows i)
                 ++ [ lit "Impact: " ++ orElse (impact i) (lit "Medium");
                      lit "Exploitability: "
                        ++ orElse (exploitability i) (lit "Medium");
                      lit "Finding ID: "
                        ++ orElse (findingId i) (lit "ABC-XXXXXX") ]).
  assert (E : exists after,
             issueToMarkdownLines i
             = before ++ lit "Component: " :: (lit "Category: " ++ c) :: after).
  { eexists. unfold issueToMarkdownLines, before. rewrite Hc.
    change (orElse [] []) with (@nil ascii). rewrite app_nil_r.
    rewrite <- !app_assoc. cbn [app]. reflexivity. }
  destruct E as (after & E).
  assert (Hv : inlineValue (lit "Category: " ++ c) = true).
  { unfold inlineValue. rewrite !andb_true_iff, !negb_true_iff.
    repeat split.
    - rewrite forallb_app, Hcd. reflexivity.
    - destruct c as [|x c']; [congruence|].
      rewrite last_app_nonempty by discriminate. exact Hcl. }
  assert (Hb : Forall (fun l => forallb isDot l = true /\
                                startsWith l (lit "Component:") = false) before).
  { unfold before. repeat (apply Forall_app; split).
    - repeat (apply Forall_cons; [split; [|reflexivity]|]);
        try apply Forall_nil; try reflexivity;
        rewrite forallb_app; cbn [lit]; rewrite oneLine_orElse; auto.
    - apply Forall_forall. intros l Hl. apply in_map_iff in Hl.
      destruct Hl as (row & <- & Hrow).
      rewrite Forall_forall in Hrows. destruct (Hrows row Hrow) as [Ht Hs].
      split; [|reflexivity]. unfold extraRowLine.
      rewrite !forallb_app, !oneLine_orElse; auto.
    - repeat (apply Forall_cons; [split; [|reflexivity]|]);
        try apply Forall_nil;
        rewrite forallb_app; rewrite oneLine_orElse; auto. }
  destruct (parseIssue_fields (issueToMarkdown i)) as (_ & Hm & _).
  pose proof (Hm KComponent _ ltac:(cbn; auto 10)) as Em.
  cbn [getMeta] in Em. rewrite Em. unfold metaOf, issueToMarkdown.
  rewrite E, join_merge.
  pose proof (search_first_line (lit "Component:") (lit " " ++ [LF])
                (lit "Category: " ++ c) before after eq_refl Hb eq_refl Hv)
    as Hs.
  match goal with
  | |- match ?x with _ => _ end = _ =>
      replace x with (Some (lit "Category: " ++ c)) by (symmetry; exact Hs)
  end.
  apply inlineValue_parts in Hv as (_ & _ & _ & Ht). exact Ht.
Qed.

Lemma empty_component_reads_category_witness :
  component (parseIssue (issueToMarkdown (data (blankIssue 1 (lit "Web")))))
  = lit "Category: Web".
Proof.
  apply (empty_component_reads_category (data (blankIssue 1 (lit "Web")))).
  - reflexivity.
  - repeat constructor.
  - constructor.
  - right. reflexivity.
Defined.

(** ** Renumbering again *)

Lemma insert_map {A B : Type} (f : A -> B) (ca : A -> A -> jsnum)
  (cb : B -> B -> jsnum) (x : A) (l : list A) :
  (forall a b, cb (f a) (f b) = ca a b) ->
  insert cb (f x) (map f l) = map f (insert ca x l).
Proof.
  intros H. induction l as [|y l IH]; [reflexivity|].
  cbn [map insert]. unfold sortCompare. rewrite H.
  destruct (Z.leb _ 0); [reflexivity|]. cbn [map]. rewrite IH. reflexivity.
Qed.

Lemma sort_map {A B : Type} (f : A -> B) (ca : A -> A -> jsnum)
  (cb : B -> B -> jsnum) (l : list A) :
  (forall a b, cb (f a) (f b) = ca a b) ->
  sort cb (map f l) = map f (sort ca l).
Proof.
  intros H. induction l as [|x l IH]; [reflexivity|].
  cbn [map sort]. rewrite IH. apply insert_map. exact H.
Qed.

Definition mapEntries (f : Issue -> Issue) (m : IssueMap) : IssueMap :=
  map (fun e => (fst e, map f (snd e))) m.

Definition mapGroup (f : Issue -> Issue) (g : GroupedCategory)
  : GroupedCategory :=
  mkGroup (g_category g) (map f (g_issues g)).

(** [f] changes neither the identity of an issue nor what the grouping
    looks at. *)
Definition keepsPlace (f : Issue -> Issue) : Prop :=
  forall x, _id (f x) = _id x /\ category (f x) = category x /\
            overallRisk (f x) = overallRisk x.

Lemma map_has_mapEntries (f : Issue -> Issue) (m : IssueMap) (k : str) :
  map_has (mapEntries f m) k = map_has m k.
Proof.
  induction m as [|[k' v] m IH]; [reflexivity|].
  cbn [mapEntries map map_has fst]. fold (mapEntries f m). rewrite IH.
  reflexivity.
Qed.

Lemma map_set_mapEntries (f : Issue -> Issue) (m : IssueMap) (k : str) :
  map_set (mapEntries f m) k [] = mapEntries f (map_set m k []).
Proof.
  induction m as [|[k' v] m IH]; [reflexivity|].
  cbn [mapEntries map map_set fst snd]. fold (mapEntries f m).
  destruct (JsString.eqb k' k); cbn [map fst snd]; [reflexivity|].
  fold (mapEntries f (map_set m k [])). rewrite IH. reflexivity.
Qed.

Lemma map_push_mapEntries (f : Issue -> Issue) (m : IssueMap) (k : str)
  (x : Issue) :
  map_push (mapEntries f m) k (f x) = mapEntries f (map_push m k x).
Proof.
  induction m as [|[k' v] m IH]; [reflexivity|].
  cbn [mapEntries map map_push fst snd]. fold (mapEntries f m).
  destruct (JsString.eqb k' k); cbn [map fst snd].
  - rewrite map_app. reflexivity.
  - fold (mapEntries f (map_push m k x)). rewrite IH. reflexivity.
Qed.

Lemma groupStep_mapEntries (f : Issue -> Issue) (m : IssueMap) (x : Issue) :
  keepsPlace f ->
  groupStep (mapEntries f m) (f x) = mapEntries f (groupStep m x).
Proof.
  intros Hf. unfold groupStep, effectiveCategory.
  destruct (Hf x) as (_ & -> & _). rewrite map_has_mapEntries.
  destruct (map_has m _).
  - apply map_push_mapEntries.
  - rewrite map_set_mapEntries. apply map_push_mapEntries.
Qed.

Lemma groupLoop_mapEntries (f : Issue -> Issue) (l : list Issue) :
  keepsPlace f -> forall m,
  fold_left groupStep (map f l) (mapEntries f m)
  = mapEntries f (fold_left groupStep l m).
Proof.
  intros Hf. induction l as [|x l IH]; intros m; [reflexivity|].
  cbn [map fold_left]. rewrite groupStep_mapEntries by exact Hf. apply IH.
Qed.

Lemma groupByCategory_map (localeCompare : str -> str -> Z)
  (f : Issue -> Issue) (l : list Issue) :
  keepsPlace f ->
  groupByCategory localeCompare (map f l)
  = map (mapGroup f) (groupByCategory localeCompare l).
Proof.
  intros Hf. unfold groupByCategory.
  change (@nil (str * list Issue)) with (mapEntries f []) at 1.
  rewrite groupLoop_mapEntries by exact Hf.
  unfold mapEntries at 1.
  rewrite (sort_map _ (compareEntries localeCompare)) by reflexivity.
  rewrite !map_map. apply map_ext. intros e. unfold mapGroup.
  cbn [fst snd g_category g_issues]. f_equal.
  apply sort_map. intros a b. unfold compareRisk.
  destruct (Hf a) as (_ & _ & ->). destruct (Hf b) as (_ & _ & ->).
  reflexivity.
Qed.

Lemma numberIssues_map (f : Issue -> Issue) (prefix : str) (c : nat)
  (l : list Issue) :
  keepsPlace f -> forall k m,
  numberIssues prefix c k (map f l) m = numberIssues prefix c k l m.
Proof.
  intros Hf. induction l as [|x l IH]; intros k m; [reflexivity|].
  cbn [map numberIssues]. destruct (Hf x) as (-> & _). apply IH.
Qed.

Lemma numberGroups_map (f : Issue -> Issue) (prefix : str)
  (groups : list GroupedCategory) :
  keepsPlace f -> forall c m,
  numberGroups prefix c (map (mapGroup f) groups) m
  = numberGroups prefix c groups m.
Proof.
  intros Hf. induction groups as [|g groups IH]; intros c m; [reflexivity|].
  cbn [map numberGroups mapGroup g_issues].
  rewrite numberIssues_map by exact Hf. apply IH.
Qed.

(** The step of [prev.map(...)] in [reindexFindingIds]. *)
Definition renumber (idMap : IdMap) (iss : Issue) : Issue :=
  match idMap_get idMap (_id iss) with
  | Some v => setFindingId v iss
  | None => iss
  end.

Lemma renumber_keepsPlace (idMap : IdMap) : keepsPlace (renumber idMap).
Proof.
  intros x. unfold renumber. destruct (idMap_get idMap (_id x)); auto.
  destruct x as [id []]. cbn. auto.
Qed.

Lemma renumber_twice (idMap : IdMap) (x : Issue) :
  renumber idMap (renumber idMap x) = renumber idMap x.
Proof.
  unfold renumber at 2 3. destruct (idMap_get idMap (_id x)) as [v|] eqn:E.
  - unfold renumber. cbn [setFindingId _id]. rewrite E.
    destruct x as [id d]. destruct d. reflexivity.
  - unfold renumber. rewrite E. reflexivity.
Qed.

Lemma detectPrefix_letters (issues : list Issue) (d : str) :
  d <> [] -> forallb isAlpha d = true ->
  detectPrefix issues d <> [] /\ forallb isAlpha (detectPrefix issues d) = true.
Proof.
  intros Hd Ha. induction issues as [|x issues IH]; [split; assumption|].
  cbn [detectPrefix]. destruct (truthy (findingId x)); [|exact IH].
  destruct (prefixMatch (findingId x)) as [m|] eqn:E; [|exact IH].
  unfold prefixMatch in E. apply mPlusCap_Some in E.
  destruct E as (w & r & _ & Hw & Hl & E).
  unfold mLit in E. destruct (stripPrefix _ r); [|discriminate].
  injection E as <-. split; assumption.
Qed.

Lemma prefixMatch_newFindingId (prefix : str) (c k : nat) :
  prefix <> [] -> forallb isAlpha prefix = true ->
  prefixMatch (newFindingId prefix c k) = Some prefix.
Proof.
  intros Hn Ha. unfold prefixMatch, newFindingId. cbv zeta.
  apply mPlusCap_greedy; [exact Hn|exact Ha|reflexivity|].
  exact (mLit_app _ _ (fun _ => Some prefix)).
Qed.

Section ReindexAgain.
Variable localeCompare : str -> str -> Z.

Local Abbreviation reindex := (reindexFindingIds localeCompare).

Lemma reindex_renumber (issues : list Issue) (input : str) :
  reindex issues (Some input)
  = map (renumber
           (numberGroups
              (orElse (trim input) (detectPrefix issues (lit "ABC"))) 0
              (groupByCategory localeCompare issues) [])) issues.
Proof. reflexivity. Qed.

Lemma reindex_same_prefix (issues : list Issue) (input again : str) :
  orElse (trim again)
         (detectPrefix (reindex issues (Some input)) (lit "ABC"))
  = orElse (trim input) (detectPrefix issues (lit "ABC")) ->
  reindex (reindex issues (Some input)) (Some again)
  = reindex issues (Some input).
Proof.
  intros Hp. rewrite (reindex_renumber (reindex issues (Some input))).
  rewrite Hp. rewrite (reindex_renumber issues input).
  set (idMap := numberGroups _ 0 (groupByCategory localeCompare issues) []).
  rewrite (groupByCategory_map _ _ _ (renumber_keepsPlace idMap)).
  rewrite (numberGroups_map _ _ _ (renumber_keepsPlace idMap)).
  fold idMap. rewrite map_map. apply map_ext. intros x.
  apply renumber_twice.
Qed.

Lemma detectPrefix_reindex (issues : list Issue) (input : str) :
  NoDup (map _id issues) -> issues <> [] ->
  let prefix := orElse (trim input) (detectPrefix issues (lit "ABC")) in
  prefix <> [] -> forallb isAlpha prefix = true ->
  detectPrefix (reindex issues (Some input)) (lit "ABC") = prefix.
Proof.
  intros Hnd Hne prefix Hn Ha. rewrite reindex_renumber. fold prefix.
  destruct issues as [|x issues]; [congruence|].
  assert (Hin : In x (concat (map g_issues
                   (groupByCategory localeCompare (x :: issues))))).
  { apply (Permutation_in _ (Permutation_sym
                               (groupByCategory_perm localeCompare _))).
    left. reflexivity. }
  destruct (placed_of_member _ _ Hin) as (c & k & Hp).
  cbn [map detectPrefix]. unfold renumber at 1 2.
  rewrite (numberGroups_at prefix _ (grouped_ids_distinct localeCompare _ Hnd)
             c k x 0 [] Hp).
  cbn [setFindingId data setMeta findingId].
  replace (findingId (setMeta KFindingId (newFindingId prefix (0 + c) k) x))
    with (newFindingId prefix (0 + c) k) by (destruct x as [id []]; reflexivity).
  assert (Ht : truthy (newFindingId prefix (0 + c) k) = true).
  { unfold newFindingId. cbv zeta. destruct prefix; [congruence|reflexivity]. }
  rewrite Ht, prefixMatch_newFindingId by assumption. reflexivity.
Qed.


(** X26: after [reindexFindingIds] with a prefix of letters (or with a
    blank answer, where the detected prefix is used), the prefix the next
    run detects is that prefix, and a next run with a blank answer
    changes nothing. *)
Theorem reindex_remembers_its_prefix (issues : list Issue) (input : str) :
  NoDup (map _id issues) -> issues <> [] ->
  trim input = [] \/ forallb isAlpha (trim input) = true ->
  let prefix := orElse (trim input) (detectPrefix issues (lit "ABC")) in
  detectPrefix (reindex issues (Some input)) (lit "ABC") = prefix /\
  reindex (reindex issues (Some input)) (Some []) = reindex issues (Some input).
Proof.
  intros Hnd Hne Hin prefix.
  assert (Hp : prefix <> [] /\ forallb isAlpha prefix = true).
  { unfold prefix, orElse. destruct (trim input) as [|c t] eqn:E; cbn [truthy].
    - apply detectPrefix_letters; [discriminate|reflexivity].
    - destruct Hin as [Hin|Hin]; [discriminate|]. split; [discriminate|exact Hin]. }
  destruct Hp as [Hn Ha].
  assert (Hd : detectPrefix (reindex issues (Some input)) (lit "ABC") = prefix)
    by (apply detectPrefix_reindex; assumption).
  split; [exact Hd|].
  apply reindex_same_prefix. rewrite Hd. reflexivity.
Qed.


(** X27: [reindexFindingIds] is idempotent for an answer that is not
    blank: a second run with the same answer returns the list of the
    first, whatever the identifiers and the prefix are, because the
    grouping looks at the category and the risk only. *)
Theorem reindex_same_answer_twice (issues : list Issue) (input : str) :
  trim input <> [] ->
  reindex (reindex issues (Some input)) (Some input)
  = reindex issues (Some input).
Proof.
  intros Hn. apply reindex_same_prefix.
  unfold orElse. destruct (trim input); [congruence|reflexivity].
Qed.

End ReindexAgain.

Lemma reindex_remembers_its_prefix_witness :
  detectPrefix (reindexFindingIds codeUnitCompare sampleIssues (Some (lit " SEC ")))
    (lit "ABC") = lit "SEC" /\
  reindexFindingIds codeUnitCompare
    (reindexFindingIds codeUnitCompare sampleIssues (Some (lit " SEC "))) (Some [])
  = reindexFindingIds codeUnitCompare sampleIssues (Some (lit " SEC ")).
Proof.
  apply (reindex_remembers_its_prefix codeUnitCompare sampleIssues (lit " SEC ")).
  - vm_compute. repeat constructor; cbn; intuition discriminate.
  - discriminate.
  - right. reflexivity.
Defined.

Lemma reindex_same_answer_twice_witness :
  reindexFindingIds codeUnitCompare
    (reindexFindingIds codeUnitCompare sampleIssues (Some (lit "X1")))
    (Some (lit "X1"))
  = reindexFindingIds codeUnitCompare sampleIssues (Some (lit "X1")).
Proof.
  apply (reindex_same_answer_twice codeUnitCompare sampleIssues (lit "X1")).
  discriminate.
Defined.

(** ** What an upload appends *)

Lemma ingest_contents (mdFiles : list UploadedFile) :
  forall b,
    let b' := fold_left ingest mdFiles b in
    newFiles b'
    = newFiles b ++ map (fun f => mkFile (up_name f) (up_text f) false) mdFiles /\
    map data (newIssues b')
    = map data (newIssues b) ++ map (fun f => parseIssue (up_text f)) mdFiles.
Proof.
  induction mdFiles as [|f fs IH]; intros b; cbv zeta.
  - cbn [fold_left map]. rewrite !app_nil_r. split; reflexivity.
  - cbn [fold_left]. destruct (IH (ingest b f)) as [H1 H2].
    rewrite H1, H2. unfold ingest. cbn [newFiles newIssues map].
    rewrite map_app, <- !app_assoc. split; reflexivity.
Qed.


(** X28: [processFiles] appends and nothing else: the files that are
    neither named [*.md] nor of type [text/markdown] are ignored; the
    others are added behind the files at hand, in upload order, each
    with the issue [parseIssue] reads from its text, under the
    identifiers [nextIssueId], [nextIssueId + 1], ..; and without a
    markdown file the state is unchanged. *)
Theorem processFiles_appends_in_order (fileList : list UploadedFile)
  (s : AppState) :
  let mdFiles := filter isMarkdownFile fileList in
  let s' := processFiles fileList s in
  files s'
  = files s ++ map (fun f => mkFile (up_name f) (up_text f) false) mdFiles /\
  map data (issues s')
  = map data (issues s) ++ map (fun f => parseIssue (up_text f)) mdFiles /\
  map _id (issues s')
  = map _id (issues s)
    ++ map (fun k => (nextIssueId s + Z.of_nat k)%Z) (seq 0 (length mdFiles)) /\
  nextIssueId s' = (nextIssueId s + Z.of_nat (length mdFiles))%Z /\
  (mdFiles = [] -> s' = s).
Proof.
  cbv zeta. unfold processFiles.
  destruct (filter isMarkdownFile fileList) as [|f md] eqn:E.
  - cbn [length Nat.eqb map seq]. rewrite !app_nil_r, Z.add_0_r.
    repeat split; reflexivity.
  - rewrite <- E. replace (length (filter isMarkdownFile fileList) =? 0)%nat
      with false by (rewrite E; reflexivity).
    destruct (ingest_loop (filter isMarkdownFile fileList)
                (mkBatch (nextIssueId s) [] [] [])) as (H1 & _ & H3 & _).
    destruct (ingest_contents (filter isMarkdownFile fileList)
                (mkBatch (nextIssueId s) [] [] [])) as (H4 & H5).
    cbn [b_next newFiles newIssues map app] in *.
    cbn [files issues nextIssueId]. rewrite !map_app, H1, H3, H4, H5.
    repeat split; try reflexivity. rewrite E. discriminate.
Qed.

(** ** The handler behind the translate buttons *)

Section HandlerFacts.
Import Translate.
Variable apiKey : option str.
Variable create : Request -> Settled (option str).
Variable targetLanguage : str.


(** X29: every rejection of [handleTranslate] is a rejection of the
    completion service or No translation received from OpenAI: the guard
    of [translateText] that rejects an empty target language is never
    what fails, because the handler returns the text before it calls
    [translateText] with a blank language.  When [translateCallback] is
    [undefined], [handleTranslate] returns the text as it is; when it is
    defined, it is [translateText] with the target language. *)
Theorem handleTranslate_has_no_usage_error (text : str) :
  (forall e, handleTranslate apiKey create targetLanguage text = Rejected e ->
     (exists request, create request = Rejected e) \/
     e = lit "No translation received from OpenAI") /\
  match translateCallback apiKey create targetLanguage with
  | None => handleTranslate apiKey create targetLanguage text = Resolved text
  | Some callback =>
      callback text = translateText apiKey create text targetLanguage
  end.
Proof.
  unfold translateCallback, handleTranslate.
  destruct (translationAvailable apiKey) eqn:Ea; cbn [negb andb];
    [|split; [discriminate|reflexivity]].
  destruct (truthy (trim targetLanguage)) eqn:El; cbn [negb];
    [|split; [discriminate|reflexivity]].
  split; [|reflexivity].
  intros e. unfold translateText. rewrite Ea. cbn [negb].
  destruct (blank text); [discriminate|].
  assert (Eb : blank targetLanguage = false).
  { unfold blank. rewrite El. destruct targetLanguage; [discriminate|reflexivity]. }
  rewrite Eb.
  destruct (create _) as [content|err] eqn:Ec.
  - cbv zeta. destruct (negb (truthy _)); [|discriminate].
    intros H. injection H as <-. right. reflexivity.
  - intros H. injection H as <-. left. eexists. exact Ec.
Qed.

End HandlerFacts.

(** ** Spans in both renderers *)

(** *** Characters and escaping *)

Lemma spanChar_parts (c : ascii) :
  isSpanChar c = true ->
  isNot BACKTICK c = true /\ isNot STAR c = true /\ isNot LBRACKET c = true.
Proof. unfold isSpanChar. rewrite !andb_true_iff. tauto. Qed.

Lemma spanChars_avoid (d : ascii) (s : str) :
  In d [BACKTICK; STAR; LBRACKET] -> forallb isSpanChar s = true ->
  forallb (isNot d) s = true.
Proof.
  intros Hd. apply forallb_impl. intros c Hc.
  apply spanChar_parts in Hc as (H1 & H2 & H3).
  cbn in Hd. destruct Hd as [<-|[<-|[<-|[]]]]; assumption.
Qed.

Lemma spanChars_plain (s : str) :
  forallb isSpanChar s = true -> forallb isPlainChar s = true.
Proof.
  apply forallb_impl. intros c Hc. apply spanChar_parts in Hc as (H1 & H2 & _).
  unfold isPlainChar. rewrite H1, H2. reflexivity.
Qed.

Lemma replaceChar_app (c : ascii) (rep a b : str) :
  replaceChar c rep (a ++ b) = replaceChar c rep a ++ replaceChar c rep b.
Proof. apply flat_map_app. Qed.

Lemma escapeHtml_app (a b : str) :
  escapeHtml (a ++ b) = escapeHtml a ++ escapeHtml b.
Proof. unfold escapeHtml. rewrite !replaceChar_app. reflexivity. Qed.

Lemma replaceChar_keeps (p : ascii -> bool) (c : ascii) (rep s : str) :
  forallb p rep = true -> forallb p s = true ->
  forallb p (replaceChar c rep s) = true.
Proof.
  intros Hr. induction s as [|x s IH]; [reflexivity|].
  cbn [forallb]. rewrite andb_true_iff. intros [Hx Hs].
  unfold replaceChar. cbn [flat_map]. fold (replaceChar c rep s).
  rewrite forallb_app, (IH Hs), andb_true_r.
  destruct (Ascii.eqb x c); [exact Hr|]. cbn [forallb]. rewrite Hx. reflexivity.
Qed.

(** What a class must hold of for escaping to keep it: the characters of
    the three entities. *)
Definition keptByEscape (p : ascii -> bool) : Prop :=
  forallb p (lit "&amp;") = true /\ forallb p (lit "&lt;") = true /\
  forallb p (lit "&gt;") = true.

Lemma escapeHtml_keeps (p : ascii -> bool) (s : str) :
  keptByEscape p -> forallb p s = true -> forallb p (escapeHtml s) = true.
Proof.
  intros (H1 & H2 & H3) Hs. unfold escapeHtml.
  repeat apply replaceChar_keeps; assumption.
Qed.

Lemma replaceChar_truthy (c : ascii) (rep s : str) :
  truthy rep = true -> truthy (replaceChar c rep s) = truthy s.
Proof.
  intros Hr. destruct s as [|x s]; [reflexivity|].
  unfold replaceChar. cbn [flat_map truthy].
  destruct (Ascii.eqb x c); [|reflexivity].
  destruct rep; [discriminate | reflexivity].
Qed.

Lemma escapeHtml_truthy (s : str) : truthy (escapeHtml s) = truthy s.
Proof.
  unfold escapeHtml. rewrite !replaceChar_truthy; reflexivity.
Qed.

Lemma escapePiece_ok (p : Piece) :
  plainPieceOk p = true -> plainPieceOk (escapePiece p) = true.
Proof.
  destruct p as [s|txt url]; cbn [plainPieceOk escapePiece].
  - apply escapeHtml_keeps. repeat split.
  - rewrite !andb_true_iff. intros [[[[[H1 H2] H3] H4] H5] H6].
    rewrite !escapeHtml_truthy, H1, H2.
    repeat split; apply escapeHtml_keeps; auto; repeat split.
Qed.

Lemma escapeHtml_sourceOf (ps : list Piece) :
  escapeHtml (sourceOf ps) = sourceOf (map escapePiece ps).
Proof.
  induction ps as [|p ps IH]; [reflexivity|].
  cbn [sourceOf flat_map map]. fold (sourceOf ps) (sourceOf (map escapePiece ps)).
  rewrite escapeHtml_app, IH. f_equal.
  destruct p as [s|txt url]; [reflexivity|].
  cbn [pieceSource escapePiece]. rewrite !escapeHtml_app. reflexivity.
Qed.

Lemma escapeHtml_visibleText (ps : list Piece) :
  escapeHtml (visibleText ps) = visibleText (map escapePiece ps).
Proof.
  unfold visibleText, renderWith.
  induction ps as [|p ps IH]; [reflexivity|].
  cbn [flat_map map]. rewrite escapeHtml_app, IH. f_equal.
  destruct p; reflexivity.
Qed.

Definition escapeSpan (s : Span) : Span :=
  match s with
  | SPlain ps => SPlain (map escapePiece ps)
  | SCode c => SCode (escapeHtml c)
  | SBold b => SBold (escapeHtml b)
  | SItalic i => SItalic (escapeHtml i)
  end.

Lemma escapeSpan_ok (s : Span) : spanOk s = true -> spanOk (escapeSpan s) = true.
Proof.
  destruct s as [ps|c|b|i]; cbn [spanOk escapeSpan];
    rewrite !andb_true_iff; intros [H1 H2].
  - rewrite <- escapeHtml_sourceOf, escapeHtml_truthy. split; [|exact H2].
    rewrite forallb_forall in *. intros p Hp. apply in_map_iff in Hp.
    destruct Hp as (q & <- & Hq). apply escapePiece_ok, H1, Hq.
  - rewrite escapeHtml_truthy. split; [exact H1|].
    apply escapeHtml_keeps; [repeat split | exact H2].
  - rewrite escapeHtml_truthy. split; [exact H1|].
    apply escapeHtml_keeps; [repeat split | exact H2].
  - rewrite escapeHtml_truthy. split; [exact H1|].
    apply escapeHtml_keeps; [repeat split | exact H2].
Qed.

Lemma escapeSpans_ok (l : list Span) :
  forallb spanOk l = true -> forallb spanOk (map escapeSpan l) = true.
Proof.
  induction l as [|s l IH]; [reflexivity|]. cbn [forallb map].
  rewrite !andb_true_iff. intros [Hs Hl]. split; [apply escapeSpan_ok, Hs | auto].
Qed.

Lemma escapeSpans_separated (l : list Span) :
  separated (map escapeSpan l) = separated l.
Proof.
  induction l as [|s l IH]; [reflexivity|].
  cbn [map separated]. rewrite IH.
  destruct s; destruct l as [|s' l]; try reflexivity; destruct s'; reflexivity.
Qed.

Lemma escapeHtml_spansSource (l : list Span) :
  escapeHtml (spansSource l) = spansSource (map escapeSpan l).
Proof.
  unfold spansSource. induction l as [|s l IH]; [reflexivity|].
  cbn [flat_map map]. rewrite escapeHtml_app, IH. f_equal.
  destruct s as [ps|c|b|i]; cbn [spanSource escapeSpan].
  - apply escapeHtml_sourceOf.
  - rewrite !escapeHtml_app. reflexivity.
  - rewrite !escapeHtml_app. reflexivity.
  - rewrite !escapeHtml_app. reflexivity.
Qed.

(** *** Blocks of a scan *)

Lemma replaced_match (t : str) (l : list (ascii + str)) :
  replaced (inr t :: l) = t ++ replaced l.
Proof. reflexivity. Qed.

Lemma replaced_char (c : ascii) (l : list (ascii + str)) :
  replaced (inl c :: l) = c :: replaced l.
Proof. reflexivity. Qed.

Section Blocks.
Variable m : bool -> str -> option (str * str).
Hypothesis m_consuming : consuming m.

(** A block at no position of which the pattern matches stays. *)
Lemma replaced_skip_block (s rest R : str) :
  (forall b a c r, s = a ++ c :: r -> m b (c :: r ++ rest) = None) ->
  (forall b, replaced (scanFrom m b rest) = R) ->
  forall b, replaced (scanFrom m b (s ++ rest)) = s ++ R.
Proof.
  intros Hfail HR. induction s as [|c s IH]; intros b.
  - apply HR.
  - cbn [app]. rewrite scanFrom_skip by (apply (Hfail b [] c s); reflexivity).
    rewrite replaced_char. f_equal. apply IH.
    intros b' a c' r E. apply (Hfail b' (c :: a) c' r). rewrite E. reflexivity.
Qed.

(** A block the pattern matches as a whole is replaced. *)
Lemma replaced_match_block (s rest t R : str) :
  (forall b, m b (s ++ rest) = Some (t, rest)) ->
  (forall b, replaced (scanFrom m b rest) = R) ->
  forall b, replaced (scanFrom m b (s ++ rest)) = t ++ R.
Proof.
  intros Hm HR b.
  rewrite (scanFrom_match m m_consuming b (s ++ rest) rest t (Hm b)).
  rewrite replaced_match, HR. reflexivity.
Qed.

End Blocks.

(** A block without the character a pattern starts with. *)
Lemma span_skips (o : ascii) (open' close : str) (stop : ascii)
  (wrap : str -> str) (s rest : str) :
  forallb (isNot o) s = true ->
  forall b a c r, s = a ++ c :: r ->
    spanPattern (o :: open') close stop wrap b (c :: r ++ rest) = None.
Proof.
  intros Hs b a c r ->. apply spanPattern_head.
  rewrite forallb_app in Hs. apply andb_true_iff in Hs as [_ Hs].
  cbn [forallb] in Hs. apply andb_true_iff in Hs as [Hc _].
  apply isNot_false, Hc.
Qed.

Lemma link_skips (wrap : str -> str -> str) (s rest : str) :
  forallb (isNot LBRACKET) s = true ->
  forall b a c r, s = a ++ c :: r ->
    linkPattern wrap b (c :: r ++ rest) = None.
Proof.
  intros Hs b a c r ->.
  rewrite forallb_app in Hs. apply andb_true_iff in Hs as [_ Hs].
  cbn [forallb] in Hs. apply andb_true_iff in Hs as [Hc _].
  unfold linkPattern, mLit. cbn [stripPrefix].
  rewrite (isNot_false _ _ Hc). reflexivity.
Qed.

(** A span is matched as a whole, whatever follows. *)
Lemma span_matches (open : str) (stop : ascii) (wrap : str -> str)
  (close' : str) (t rest : str) (b : bool) :
  t <> [] -> forallb (isNot stop) t = true ->
  spanPattern open (stop :: close') stop wrap b
    (open ++ t ++ (stop :: close') ++ rest)
  = Some (wrap t, rest).
Proof.
  intros Hne Ht. unfold spanPattern. rewrite mLit_app.
  apply mPlusCap_greedy; [exact Hne | exact Ht | |].
  - cbn. unfold isNot. rewrite Ascii.eqb_refl. reflexivity.
  - rewrite mLit_app. reflexivity.
Qed.

Lemma replaced_skip_char (m : bool -> str -> option (str * str)) (c : ascii)
  (rest R : str) :
  (forall b, m b (c :: rest) = None) ->
  (forall b, replaced (scanFrom m b rest) = R) ->
  forall b, replaced (scanFrom m b (c :: rest)) = c :: R.
Proof.
  intros Hf HR b. rewrite scanFrom_skip by apply Hf.
  rewrite replaced_char, HR. reflexivity.
Qed.

(** *** What the stretches hold *)

Lemma plainPiece_parts (txt url : str) :
  plainPieceOk (PLink txt url) = true ->
  txt <> [] /\ url <> [] /\
  forallb isSpanChar txt = true /\ forallb (isNot RBRACKET) txt = true /\
  forallb isSpanChar url = true /\ forallb (isNot RPAREN) url = true.
Proof.
  cbn [plainPieceOk]. rewrite !andb_true_iff.
  intros [[[[[H1 H2] H3] H4] H5] H6].
  repeat split; auto; intros ->; discriminate.
Qed.

Lemma plain_source_avoids (d : ascii) (ps : list Piece) :
  In d [BACKTICK; STAR] -> forallb plainPieceOk ps = true ->
  forallb (isNot d) (sourceOf ps) = true.
Proof.
  intros Hd. assert (Hd' : In d [BACKTICK; STAR; LBRACKET]) by (cbn in *; tauto).
  induction ps as [|p ps IH]; [reflexivity|].
  cbn [forallb sourceOf flat_map]. fold (sourceOf ps).
  rewrite andb_true_iff. intros [Hp Hps].
  rewrite forallb_app, (IH Hps), andb_true_r.
  destruct p as [s|txt url]; cbn [pieceSource].
  - apply spanChars_avoid; assumption.
  - apply plainPiece_parts in Hp as (_ & _ & Ht & _ & Hu & _).
    rewrite !forallb_app, (spanChars_avoid d txt Hd' Ht),
      (spanChars_avoid d url Hd' Hu).
    cbn in Hd. destruct Hd as [<-|[<-|[]]]; reflexivity.
Qed.

Lemma tag_avoids (p : ascii -> bool) (name : string) (body : str) :
  forallb p (lit "<" ++ lit name ++ lit ">" ++ lit "</") = true ->
  forallb p body = true ->
  forallb p (tag name body) = true.
Proof.
  intros Hn Hb. unfold tag. rewrite !forallb_app in *.
  rewrite !andb_true_iff in *. tauto.
Qed.

Lemma truthy_nonempty (s : str) : truthy s = true -> s <> [].
Proof. destruct s; [discriminate | discriminate]. Qed.

Lemma spanOk_content (t : str) :
  truthy t && forallb isSpanChar t = true ->
  t <> [] /\ forallb isSpanChar t = true.
Proof.
  rewrite andb_true_iff. intros [H1 H2]. split; [apply truthy_nonempty, H1 | exact H2].
Qed.

(** *** The four passes of the HTML renderer *)

(** A stretch after [k] passes: the code spans are rendered by the first
    pass, the bold spans by the second, the italic spans by the third. *)
Definition stage (k : nat) (s : Span) : str :=
  match s with
  | SPlain ps => sourceOf ps
  | SCode c => if Nat.leb 1 k then tag "code" c else spanSource s
  | SBold b => if Nat.leb 2 k then tag "strong" b else spanSource s
  | SItalic i => if Nat.leb 3 k then tag "em" i else spanSource s
  end.

Definition codePass := spanPattern [BACKTICK] [BACKTICK] BACKTICK (tag "code").
Definition boldPass := spanPattern [STAR; STAR] [STAR; STAR] STAR (tag "strong").
Definition italicPass := spanPattern [STAR] [STAR] STAR (tag "em").

Lemma code_pass (l : list Span) :
  forallb spanOk l = true ->
  forall b, replaced (scanFrom codePass b (flat_map (stage 0) l))
            = flat_map (stage 1) l.
Proof.
  induction l as [|s l IH]; intros Hok b; [reflexivity|].
  cbn [forallb] in Hok. apply andb_true_iff in Hok as [Hs Hl].
  specialize (IH Hl). cbn [flat_map].
  destruct s as [ps|c|t|i]; cbn [stage Nat.leb spanSource spanOk] in *.
  - apply andb_true_iff in Hs as [Hs _].
    apply replaced_skip_block; [|exact IH].
    apply span_skips, plain_source_avoids; [cbn; auto | exact Hs].
  - apply spanOk_content in Hs as [Hne Hc].
    apply (replaced_match_block codePass (spanPattern_consuming _ _ _ _)
             ([BACKTICK] ++ c ++ [BACKTICK]) _ (tag "code" c)); [|exact IH].
    intros b'. rewrite <- !app_assoc.
    apply (span_matches [BACKTICK] BACKTICK (tag "code") []);
      [exact Hne | apply spanChars_avoid; [cbn; auto | exact Hc]].
  - apply spanOk_content in Hs as [_ Hc].
    apply replaced_skip_block; [|exact IH]. apply span_skips.
    rewrite !forallb_app, (spanChars_avoid BACKTICK t) by (cbn; auto).
    reflexivity.
  - apply spanOk_content in Hs as [_ Hc].
    apply replaced_skip_block; [|exact IH]. apply span_skips.
    rewrite !forallb_app, (spanChars_avoid BACKTICK i) by (cbn; auto).
    reflexivity.
Qed.

(** The asterisk that closes an italic span does not open a bold span,
    unless an italic span follows. *)
Lemma bold_not_at_closing (l : list Span) (b : bool) :
  forallb spanOk l = true ->
  match l with SItalic _ :: _ => False | _ => True end ->
  boldPass b (STAR :: flat_map (stage 1) l) = None.
Proof.
  intros Hok Hnext. destruct l as [|s l]; [reflexivity|].
  cbn [forallb] in Hok. apply andb_true_iff in Hok as [Hs _].
  cbn [flat_map]. destruct s as [ps|c|t|i]; cbn [stage Nat.leb spanSource spanOk] in *.
  - apply andb_true_iff in Hs as [Hs Ht].
    pose proof (plain_source_avoids STAR ps ltac:(cbn; auto) Hs) as Ha.
    destruct (sourceOf ps) as [|x s']; [discriminate|].
    cbn [forallb] in Ha. apply andb_true_iff in Ha as [Hx _].
    unfold boldPass, spanPattern, mLit. cbn [app stripPrefix].
    rewrite Ascii.eqb_refl, (isNot_false _ _ Hx). reflexivity.
  - reflexivity.
  - reflexivity.
  - contradiction.
Qed.

Lemma bold_pass (l : list Span) :
  forallb spanOk l = true -> separated l = true ->
  forall b, replaced (scanFrom boldPass b (flat_map (stage 1) l))
            = flat_map (stage 2) l.
Proof.
  induction l as [|s l IH]; intros Hok Hsep b; [reflexivity|].
  cbn [forallb] in Hok. apply andb_true_iff in Hok as [Hs Hl].
  assert (Hsep' : separated l = true).
  { cbn [separated] in Hsep. destruct s; destruct l as [|s' l'];
      try reflexivity; destruct s'; try discriminate; exact Hsep. }
  specialize (IH Hl Hsep'). cbn [flat_map].
  destruct s as [ps|c|t|i]; cbn [stage Nat.leb spanSource spanOk] in *.
  - apply andb_true_iff in Hs as [Hs _].
    apply replaced_skip_block; [|exact IH].
    apply span_skips, plain_source_avoids; [cbn; auto | exact Hs].
  - apply spanOk_content in Hs as [_ Hc].
    apply replaced_skip_block; [|exact IH].
    apply span_skips, tag_avoids;
      [reflexivity | apply spanChars_avoid; [cbn; auto | exact Hc]].
  - apply spanOk_content in Hs as [Hne Hc].
    apply (replaced_match_block boldPass (spanPattern_consuming _ _ _ _)
             ([STAR; STAR] ++ t ++ [STAR; STAR]) _ (tag "strong" t));
      [|exact IH].
    intros b'. rewrite <- !app_assoc.
    apply (span_matches [STAR; STAR] STAR (tag "strong") [STAR]);
      [exact Hne | apply spanChars_avoid; [cbn; auto | exact Hc]].
  - apply spanOk_content in Hs as [Hne Hc].
    pose proof (spanChars_avoid STAR i ltac:(cbn; auto) Hc) as Ha.
    rewrite <- !app_assoc. cbn [app].
    apply replaced_skip_char.
    { intros b'. destruct i as [|x i']; [congruence|].
      cbn [forallb] in Ha. apply andb_true_iff in Ha as [Hx _].
      unfold boldPass, spanPattern, mLit. cbn [app stripPrefix].
      rewrite Ascii.eqb_refl, (isNot_false _ _ Hx). reflexivity. }
    apply replaced_skip_block; [apply span_skips; exact Ha|].
    apply replaced_skip_char; [|exact IH].
    intros b'. apply bold_not_at_closing; [exact Hl|].
    cbn [separated] in Hsep. destruct l as [|s' l']; [exact I|].
    destruct s'; try exact I. discriminate.
Qed.

Lemma italic_pass (l : list Span) :
  forallb spanOk l = true ->
  forall b, replaced (scanFrom italicPass b (flat_map (stage 2) l))
            = flat_map (stage 3) l.
Proof.
  induction l as [|s l IH]; intros Hok b; [reflexivity|].
  cbn [forallb] in Hok. apply andb_true_iff in Hok as [Hs Hl].
  specialize (IH Hl). cbn [flat_map].
  destruct s as [ps|c|t|i]; cbn [stage Nat.leb spanSource spanOk] in *.
  - apply andb_true_iff in Hs as [Hs _].
    apply replaced_skip_block; [|exact IH].
    apply span_skips, plain_source_avoids; [cbn; auto | exact Hs].
  - apply spanOk_content in Hs as [_ Hc].
    apply replaced_skip_block; [|exact IH].
    apply span_skips, tag_avoids;
      [reflexivity | apply spanChars_avoid; [cbn; auto | exact Hc]].
  - apply spanOk_content in Hs as [_ Hc].
    apply replaced_skip_block; [|exact IH].
    apply span_skips, tag_avoids;
      [reflexivity | apply spanChars_avoid; [cbn; auto | exact Hc]].
  - apply spanOk_content in Hs as [Hne Hc].
    apply (replaced_match_block italicPass (spanPattern_consuming _ _ _ _)
             ([STAR] ++ i ++ [STAR]) _ (tag "em" i)); [|exact IH].
    intros b'. rewrite <- !app_assoc.
    apply (span_matches [STAR] STAR (tag "em") []);
      [exact Hne | apply spanChars_avoid; [cbn; auto | exact Hc]].
Qed.

(** *** Links *)

Lemma link_matches (wrap : str -> str -> str) (b : bool) (txt url rest : str) :
  plainPieceOk (PLink txt url) = true ->
  linkPattern wrap b (pieceSource (PLink txt url) ++ rest)
  = Some (wrap txt url, rest).
Proof.
  intros Hok. apply plainPiece_parts in Hok as (Ht & Hu & _ & Htc & _ & Huc).
  unfold linkPattern. cbn [pieceSource]. rewrite <- !app_assoc.
  rewrite mLit_app.
  apply mPlusCap_greedy; [exact Ht | exact Htc | reflexivity |].
  rewrite mLit_app.
  apply mPlusCap_greedy; [exact Hu | exact Huc | reflexivity |].
  rewrite mLit_app. reflexivity.
Qed.

Lemma links_block (wrap : str -> str -> str) (ps : list Piece) (rest R : str) :
  forallb plainPieceOk ps = true ->
  (forall b, replaced (scanFrom (linkPattern wrap) b rest) = R) ->
  forall b, replaced (scanFrom (linkPattern wrap) b (sourceOf ps ++ rest))
            = renderWith wrap ps ++ R.
Proof.
  intros Hok HR. induction ps as [|p ps IH]; [exact HR|].
  cbn [forallb] in Hok. apply andb_true_iff in Hok as [Hp Hps].
  specialize (IH Hps). intros b.
  unfold sourceOf, renderWith. cbn [flat_map].
  fold (sourceOf ps) (renderWith wrap ps). rewrite <- !app_assoc.
  destruct p as [s|txt url].
  - cbn [pieceSource]. apply replaced_skip_block; [|exact IH].
    apply link_skips, spanChars_avoid; [cbn; auto | exact Hp].
  - apply (replaced_match_block _ (linkPattern_consuming wrap)); [|exact IH].
    intros b'. apply link_matches, Hp.
Qed.

Lemma link_pass (l : list Span) :
  forallb spanOk l = true ->
  forall b, replaced (scanFrom (linkPattern anchor) b (flat_map (stage 3) l))
            = flat_map (fun s => match s with
                                 | SPlain ps => renderWith anchor ps
                                 | _ => stage 3 s
                                 end) l.
Proof.
  induction l as [|s l IH]; intros Hok b; [reflexivity|].
  cbn [forallb] in Hok. apply andb_true_iff in Hok as [Hs Hl].
  specialize (IH Hl). cbn [flat_map].
  destruct s as [ps|c|t|i]; cbn [stage Nat.leb spanSource spanOk] in *.
  - apply andb_true_iff in Hs as [Hs _]. apply links_block; assumption.
  - apply spanOk_content in Hs as [_ Hc].
    apply replaced_skip_block; [|exact IH].
    apply link_skips, tag_avoids;
      [reflexivity | apply spanChars_avoid; [cbn; auto | exact Hc]].
  - apply spanOk_content in Hs as [_ Hc].
    apply replaced_skip_block; [|exact IH].
    apply link_skips, tag_avoids;
      [reflexivity | apply spanChars_avoid; [cbn; auto | exact Hc]].
  - apply spanOk_content in Hs as [_ Hc].
    apply replaced_skip_block; [|exact IH].
    apply link_skips, tag_avoids;
      [reflexivity | apply spanChars_avoid; [cbn; auto | exact Hc]].
Qed.

Lemma spanSource_nonempty (s : Span) : spanOk s = true -> spanSource s <> [].
Proof.
  destruct s as [ps|c|t|i]; cbn [spanOk spanSource]; try discriminate.
  rewrite andb_true_iff. intros [_ H]. apply truthy_nonempty, H.
Qed.

Lemma stage_source (l : list Span) : flat_map (stage 0) l = spansSource l.
Proof. apply flat_map_ext. intros s. destruct s; reflexivity. Qed.

Lemma html_of_spans (l : list Span) :
  forallb spanOk l = true -> separated l = true ->
  inlineMarkdownToHtml (spansSource l) = spansHtml anchor l.
Proof.
  intros Hok Hsep. unfold inlineMarkdownToHtml.
  destruct (truthy (spansSource l)) eqn:Et; cbn [negb].
  - rewrite escapeHtml_spansSource.
    pose proof (escapeSpans_ok l Hok) as Hok'.
    pose proof (eq_trans (escapeSpans_separated l) Hsep) as Hsep'.
    rewrite <- (stage_source (map escapeSpan l)).
    set (E := map escapeSpan l) in *.
    assert (H1 : replaceAll (spanPattern [BACKTICK] [BACKTICK] BACKTICK (tag "code"))
                   (flat_map (stage 0) E) = flat_map (stage 1) E)
      by exact (code_pass E Hok' true).
    assert (H2 : replaceAll (spanPattern [STAR; STAR] [STAR; STAR] STAR (tag "strong"))
                   (flat_map (stage 1) E) = flat_map (stage 2) E)
      by exact (bold_pass E Hok' Hsep' true).
    assert (H3 : replaceAll (spanPattern [STAR] [STAR] STAR (tag "em"))
                   (flat_map (stage 2) E) = flat_map (stage 3) E)
      by exact (italic_pass E Hok' true).
    cbv zeta. rewrite H1, H2, H3.
    transitivity (replaced (scanFrom (linkPattern anchor) true (flat_map (stage 3) E)));
      [reflexivity|].
    rewrite (link_pass E Hok' true). subst E.
    unfold spansHtml. rewrite flat_map_concat_map, map_map, <- flat_map_concat_map.
    apply flat_map_ext. intros s. destruct s; reflexivity.
  - destruct l as [|s l]; [reflexivity|].
    cbn [forallb] in Hok. apply andb_true_iff in Hok as [Hs _].
    apply spanSource_nonempty in Hs. unfold spansSource in Et. cbn [flat_map] in Et.
    destruct (spanSource s); [congruence | discriminate].
Qed.

(** *** The tokens of the run renderer *)

Lemma plain_source_plain (ps : list Piece) :
  forallb plainPieceOk ps = true -> forallb isPlainChar (sourceOf ps) = true.
Proof.
  intros Hok.
  pose proof (plain_source_avoids BACKTICK ps ltac:(cbn; auto) Hok) as H1.
  pose proof (plain_source_avoids STAR ps ltac:(cbn; auto) Hok) as H2.
  revert H1 H2. generalize (sourceOf ps) as t.
  induction t as [|x t IH]; [reflexivity|]. cbn [forallb].
  rewrite !andb_true_iff. intros [Hx Ht] [Hy Hu]. unfold isPlainChar at 1.
  rewrite Hx, Hy. auto.
Qed.

(** What follows a text starts a span, or is the end. *)
Lemma after_plain_stops (l : list Span) :
  match l with SPlain _ :: _ => False | _ => True end ->
  stops isPlainChar (spansSource l).
Proof.
  destruct l as [|s l]; [intros _; exact I|].
  destruct s; [contradiction| | |]; intros _; reflexivity.
Qed.

Lemma token_of_span (s : Span) (rest : str) (b : bool) :
  spanOk s = true ->
  (match s with SPlain _ => stops isPlainChar rest | _ => True end) ->
  tokenPattern b (spanSource s ++ rest) = Some (spanSource s, rest).
Proof.
  intros Hs Hrest. unfold tokenPattern.
  destruct s as [ps|c|t|i]; cbn [spanSource spanOk] in *.
  - apply andb_true_iff in Hs as [Hs Ht].
    pose proof (plain_source_plain ps Hs) as Hp.
    destruct (sourceOf ps) as [|x src] eqn:Es; [discriminate|].
    pose proof Hp as Hx. cbn [forallb] in Hx. apply andb_true_iff in Hx as [Hx _].
    unfold isPlainChar in Hx. apply andb_true_iff in Hx as [H1 H2].
    cbn [app].
    rewrite !spanPattern_head by (apply isNot_false; assumption).
    cbn [orMatch]. change (x :: src ++ rest) with ((x :: src) ++ rest).
    apply mPlusCap_greedy; [discriminate | exact Hp | exact Hrest | reflexivity].
  - apply spanOk_content in Hs as [Hne Hc]. rewrite <- !app_assoc.
    rewrite (span_matches [BACKTICK] BACKTICK _ [] c rest b Hne)
      by (apply spanChars_avoid; [cbn; auto | exact Hc]).
    reflexivity.
  - apply spanOk_content in Hs as [Hne Hc]. rewrite <- !app_assoc.
    pose proof (span_matches [STAR; STAR] STAR
                  (fun c => [STAR; STAR] ++ c ++ [STAR; STAR]) [STAR] t rest b Hne
                  (spanChars_avoid STAR t ltac:(cbn; auto) Hc)) as Hm.
    cbn [app] in *. rewrite spanPattern_head by reflexivity.
    rewrite Hm. reflexivity.
  - apply spanOk_content in Hs as [Hne Hc]. rewrite <- !app_assoc.
    pose proof (spanChars_avoid STAR i ltac:(cbn; auto) Hc) as Ha.
    pose proof (span_matches [STAR] STAR (fun c => [STAR] ++ c ++ [STAR]) []
                  i rest b Hne Ha) as Hm.
    assert (E : spanPattern [STAR; STAR] [STAR; STAR] STAR
                  (fun c => [STAR; STAR] ++ c ++ [STAR; STAR]) b
                  ([STAR] ++ i ++ [STAR] ++ rest) = None).
    { destruct i as [|x i']; [congruence|].
      cbn [forallb] in Ha. apply andb_true_iff in Ha as [Hx _].
      unfold spanPattern, mLit. cbn [app stripPrefix].
      rewrite Ascii.eqb_refl, (isNot_false _ _ Hx). reflexivity. }
    cbn [app] in *. rewrite spanPattern_head by reflexivity.
    rewrite E, Hm. reflexivity.
Qed.

Lemma tokens_of_spans (l : list Span) :
  forallb spanOk l = true -> separated l = true ->
  forall b, matchesOf (scanFrom tokenPattern b (spansSource l))
            = map spanSource l.
Proof.
  induction l as [|s l IH]; intros Hok Hsep b.
  - rewrite scanFrom_nil by reflexivity. reflexivity.
  - cbn [forallb] in Hok. apply andb_true_iff in Hok as [Hs Hl].
    assert (Hsep' : separated l = true).
    { cbn [separated] in Hsep. destruct s; destruct l as [|s' l'];
        try reflexivity; destruct s'; try discriminate; exact Hsep. }
    unfold spansSource. cbn [flat_map map]. fold (spansSource l).
    rewrite (scanFrom_match _ tokenPattern_consuming b _ (spansSource l)
               (spanSource s)).
    + rewrite matchesOf_match, IH by assumption. reflexivity.
    + apply token_of_span; [exact Hs|].
      destruct s; try exact I. apply after_plain_stops.
      cbn [separated] in Hsep. destruct l as [|s' l']; [exact I|].
      destruct s'; try exact I. discriminate.
Qed.
(** *** The runs *)

Lemma sliceMid_wrapped (open close t : str) :
  sliceMid (length open) (length close) (open ++ t ++ close) = t.
Proof.
  unfold sliceMid. rewrite skipn_app, skipn_all, Nat.sub_diag. cbn [skipn app].
  rewrite !length_app.
  replace (length open + (length t + length close) - length open - length close)
    with (length t) by lia.
  rewrite firstn_app, firstn_all, Nat.sub_diag. cbn [firstn]. apply app_nil_r.
Qed.

Lemma endsWith_wrapped (open close t : str) :
  endsWith (open ++ t ++ close) close = true.
Proof. rewrite app_assoc. apply endsWith_app. Qed.

Lemma visible_of_source (ps : list Piece) :
  forallb plainPieceOk ps = true -> sourceOf ps <> [] -> visibleText ps <> [].
Proof.
  unfold visibleText, renderWith, sourceOf.
  induction ps as [|p ps IH]; intros Hok Hs; [exact Hs|].
  cbn [forallb] in Hok. apply andb_true_iff in Hok as [Hp Hps].
  cbn [flat_map] in *. destruct p as [s|txt url].
  - cbn [pieceSource] in Hs. destruct s as [|c s]; [|discriminate].
    apply IH; assumption.
  - apply plainPiece_parts in Hp as (Ht & _). destruct txt; [congruence|discriminate].
Qed.

Lemma runs_of_span (base : BaseOptions) (s : Span) :
  spanOk s = true ->
  runsOfSegment base (spanSource s) = [withBase base (spanRun s)].
Proof.
  intros Hs. unfold runsOfSegment.
  destruct s as [ps|c|t|i]; cbn [spanSource spanOk spanRun] in *.
  - apply andb_true_iff in Hs as [Hs Ht].
    pose proof (plain_source_plain ps Hs) as Hp.
    pose proof (visible_of_source ps Hs (truthy_nonempty _ Ht)) as Hv.
    assert (El : stripLinks (sourceOf ps) = visibleText ps).
    { unfold stripLinks, replaceAll.
      change (scanAll ?m ?x) with (scanFrom m true x).
      rewrite <- (app_nil_r (sourceOf ps)).
      rewrite (links_block (fun txt _ => txt) ps [] [] Hs); [apply app_nil_r|].
      intros b. rewrite scanFrom_nil by reflexivity. reflexivity. }
    rewrite El.
    destruct (sourceOf ps) as [|x src]; [discriminate|].
    cbn [forallb] in Hp. apply andb_true_iff in Hp as [Hx _].
    unfold isPlainChar in Hx. apply andb_true_iff in Hx as [H1 H2].
    unfold startsWith. cbn [stripPrefix].
    rewrite (isNot_false _ _ H1), (isNot_false _ _ H2). cbn [andb].
    destruct (visibleText ps); [congruence | reflexivity].
  - rewrite (endsWith_wrapped [BACKTICK] [BACKTICK] c).
    pose proof (sliceMid_wrapped [BACKTICK] [BACKTICK] c) as Hm. cbn [length] in Hm. rewrite Hm. reflexivity.
  - apply spanOk_content in Hs as [Hne Hc].
    rewrite (endsWith_wrapped [STAR; STAR] [STAR; STAR] t).
    pose proof (sliceMid_wrapped [STAR; STAR] [STAR; STAR] t) as Hm. cbn [length] in Hm. rewrite Hm. reflexivity.
  - apply spanOk_content in Hs as [Hne Hc].
    pose proof (spanChars_avoid STAR i ltac:(cbn; auto) Hc) as Ha.
    rewrite (endsWith_wrapped [STAR] [STAR] i).
    pose proof (sliceMid_wrapped [STAR] [STAR] i) as Hm. cbn [length] in Hm. rewrite Hm.
    destruct i as [|x i']; [congruence|].
    cbn [forallb] in Ha. apply andb_true_iff in Ha as [Hx _].
    unfold startsWith. cbn [app stripPrefix].
    rewrite (isNot_false _ _ Hx). reflexivity.
Qed.

Lemma runs_of_spans (l : list Span) (base : BaseOptions) :
  forallb spanOk l = true -> separated l = true -> l <> [] ->
  parseInlineMarkdown (spansSource l) base
  = map (fun s => withBase base (spanRun s)) l.
Proof.
  intros Hok Hsep Hne. unfold parseInlineMarkdown.
  assert (Et : truthy (spansSource l) = true).
  { destruct l as [|s l]; [congruence|].
    cbn [forallb] in Hok. apply andb_true_iff in Hok as [Hs _].
    apply spanSource_nonempty in Hs. unfold spansSource. cbn [flat_map].
    destruct (spanSource s); [congruence | reflexivity]. }
  rewrite Et. cbn [negb].
  change (scanAll tokenPattern (spansSource l))
    with (scanFrom tokenPattern true (spansSource l)).
  rewrite (tokens_of_spans l Hok Hsep true).
  assert (Er : flat_map (runsOfSegment base) (map spanSource l)
               = map (fun s => withBase base (spanRun s)) l).
  { clear Hsep Hne Et. induction l as [|s l IH]; [reflexivity|].
    cbn [forallb] in Hok. apply andb_true_iff in Hok as [Hs Hl].
    cbn [map flat_map]. rewrite (runs_of_span base s Hs), (IH Hl). reflexivity. }
  rewrite Er. destruct l; [congruence | reflexivity].
Qed.

(** *** The HTML of the runs *)

Lemma html_of_runs (l : list Span) (base : BaseOptions) :
  runsToHtml (map (fun s => withBase base (spanRun s)) l)
  = spansHtml (fun txt _ => txt) l.
Proof.
  unfold runsToHtml, spansHtml. induction l as [|s l IH]; [reflexivity|].
  cbn [map flat_map]. rewrite IH. f_equal.
  destruct s as [ps|c|t|i]; cbn [spanRun spanHtml]; try reflexivity.
  unfold runToHtml. cbn [withBase plainRun run_bold run_italics run_shading run_text].
  apply escapeHtml_visibleText.
Qed.

Lemma renderWith_text (wrap wrap' : str -> str -> str) (ps : list Piece) :
  forallb isText ps = true -> renderWith wrap ps = renderWith wrap' ps.
Proof.
  unfold renderWith. induction ps as [|p ps IH]; [reflexivity|].
  cbn [forallb flat_map]. rewrite andb_true_iff. intros [Hp Hps].
  rewrite (IH Hps). destruct p; [reflexivity | discriminate].
Qed.

Lemma linkFree_html (wrap wrap' : str -> str -> str) (l : list Span) :
  linkFree l = true -> spansHtml wrap l = spansHtml wrap' l.
Proof.
  unfold linkFree, spansHtml. induction l as [|s l IH]; [reflexivity|].
  cbn [forallb flat_map]. rewrite andb_true_iff. intros [Hs Hl].
  rewrite (IH Hl). f_equal. destruct s as [ps| | |]; try reflexivity.
  cbn [spanHtml]. apply renderWith_text.
  clear - Hs. induction ps as [|p ps IH]; [reflexivity|].
  cbn [forallb map] in *. apply andb_true_iff in Hs as [Hp Hps].
  rewrite (IH Hps), andb_true_r. destruct p; [reflexivity | discriminate].
Qed.

(** C6 (amended): on input made of stretches of text with links, code
    spans, bold spans and italic spans (contents not empty and without
    backtick, asterisk and opening bracket, no closing bracket in a link
    text, no closing parenthesis in a destination, no italic span right
    behind an italic span), the two renderers return the same stretches
    in the order of the input: [parseInlineMarkdown] one run for each, a
    code, bold or italic run with the content of the span, or a plain run
    in which every link stands for its text, the destination dropped;
    [inlineMarkdownToHtml] a [code], [strong] or [em] element, or the
    escaped text in which every link is an anchor that keeps the
    destination.  The HTML of the runs is the HTML output with every
    anchor replaced by its text, so apart from the destinations of the
    links both carry the same content; on input without a link they are
    equal. *)
Theorem renderers_agree_on_spans (l : list Span) (base : BaseOptions) :
  forallb spanOk l = true -> separated l = true -> l <> [] ->
  parseInlineMarkdown (spansSource l) base
    = map (fun s => withBase base (spanRun s)) l /\
  inlineMarkdownToHtml (spansSource l) = spansHtml anchor l /\
  runsToHtml (parseInlineMarkdown (spansSource l) base)
    = spansHtml (fun txt _ => txt) l /\
  (linkFree l = true ->
   runsToHtml (parseInlineMarkdown (spansSource l) base)
   = inlineMarkdownToHtml (spansSource l)).
Proof.
  intros Hok Hsep Hne.
  pose proof (runs_of_spans l base Hok Hsep Hne) as Hr.
  pose proof (html_of_spans l Hok Hsep) as Hh.
  split; [exact Hr|]. split; [exact Hh|].
  rewrite Hr, Hh, html_of_runs. split; [reflexivity|].
  intros Hf. apply linkFree_html, Hf.
Qed.

Lemma renderers_agree_on_spans_witness :
  parseInlineMarkdown (spansSource sampleSpans) noBase
    = map (fun s => withBase noBase (spanRun s)) sampleSpans /\
  inlineMarkdownToHtml (spansSource sampleSpans) = spansHtml anchor sampleSpans /\
  runsToHtml (parseInlineMarkdown (spansSource sampleSpans) noBase)
    = spansHtml (fun txt _ => txt) sampleSpans /\
  (linkFree sampleSpans = true ->
   runsToHtml (parseInlineMarkdown (spansSource sampleSpans) noBase)
   = inlineMarkdownToHtml (spansSource sampleSpans)).
Proof.
  apply (renderers_agree_on_spans sampleSpans noBase).
  - reflexivity.
  - reflexivity.
  - discriminate.
Defined.

